(** * Accessibility audit: result normalisation and report utilities

    A shallow embedding of the data-transformation layer of the WAVE
    accessibility runner ([src/wave-test.ts], [src/analyzer.js]):
    CSV escaping, file-name derivation, the in-page result enhancer,
    the polling initialiser and the batch orchestrator.

    Conventions of the embedding.
    - A JavaScript string is a Rocq [string], one [ascii] per code unit
      (code units below 256).
    - A JavaScript number is an integer [Z]; fractions, NaN and the
      infinities are outside the model.
    - A thrown exception is the [Throw] case of the [result] type. *)

From Stdlib Require Import ZArith Lia Bool List Ascii String DecimalString Sorted.
From stdpp Require Import base option list strings gmap.

Local Open Scope string_scope.
Set Warnings "-register-all".

(** ** Strings *)

Module JsString.

(** The double quote, code unit 34. *)
Definition dquote : ascii := ascii_of_nat 34.
(** The line feed, code unit 10. *)
Definition newline : ascii := ascii_of_nat 10.
Definition comma : ascii := ","%char.
Definition dash : ascii := "-"%char.
Definition slash : ascii := "/"%char.

(** [s.includes(c)] for a one-character needle. *)
Fixpoint includes (c : ascii) (s : string) : bool :=
  match s with
  | EmptyString => false
  | String d s' => if Ascii.eqb d c then true else includes c s'
  end.

(** [s.startsWith(p)]. *)
Fixpoint startsWith (p s : string) : bool :=
  match p, s with
  | EmptyString, _ => true
  | String a p', String b s' => if Ascii.eqb a b then startsWith p' s' else false
  | String _ _, EmptyString => false
  end.

(** The string without its first [n] code units. *)
Fixpoint drop_prefix (n : nat) (s : string) : string :=
  match n, s with
  | O, _ => s
  | S n', String _ s' => drop_prefix n' s'
  | S _, EmptyString => EmptyString
  end.

(** [s.substring(0, n)] for a natural [n]. *)
Fixpoint take (n : nat) (s : string) : string :=
  match n, s with
  | O, _ => EmptyString
  | S n', String c s' => String c (take n' s')
  | S _, EmptyString => EmptyString
  end.

(** [s.substring(0, z)]: a negative bound counts as zero. *)
Definition substring0 (z : Z) (s : string) : string := take (Z.to_nat z) s.

Fixpoint map_chars (f : ascii -> ascii) (s : string) : string :=
  match s with
  | EmptyString => EmptyString
  | String c s' => String (f c) (map_chars f s')
  end.

Definition is_digit (c : ascii) : bool :=
  let n := nat_of_ascii c in (48 <=? n)%nat && (n <=? 57)%nat.
Definition is_upper (c : ascii) : bool :=
  let n := nat_of_ascii c in (65 <=? n)%nat && (n <=? 90)%nat.
Definition is_lower (c : ascii) : bool :=
  let n := nat_of_ascii c in (97 <=? n)%nat && (n <=? 122)%nat.
(** The character class [[a-zA-Z0-9]]. *)
Definition is_alnum (c : ascii) : bool := is_lower c || is_upper c || is_digit c.

(** [s] ends with the code unit [c]. *)
Fixpoint ends_with_char (c : ascii) (s : string) : bool :=
  match s with
  | EmptyString => false
  | String d EmptyString => Ascii.eqb d c
  | String _ s' => ends_with_char c s'
  end.

(** The string without its last code unit. *)
Fixpoint drop_last (s : string) : string :=
  match s with
  | EmptyString => EmptyString
  | String _ EmptyString => EmptyString
  | String c s' => String c (drop_last s')
  end.

(** All code units of [s] satisfy [p]. *)
Fixpoint all_chars (p : ascii -> bool) (s : string) : bool :=
  match s with
  | EmptyString => true
  | String c s' => p c && all_chars p s'
  end.

(** [t] occurs in [s] as a contiguous substring. *)
Definition contains (t s : string) : Prop :=
  exists pre post, s = pre +:+ t +:+ post.

End JsString.

Import JsString.

(** ** CSV escaping ([escapeCSV], src/wave-test.ts) *)

(** The argument type [string | null | undefined]. *)
Inductive csv_field : Type :=
| FieldNull
| FieldUndefined
| FieldString (s : string).

(** [s.replace(/dq/g, dq dq)], [dq] the double quote: every double quote
    is doubled. *)
Fixpoint double_quotes (s : string) : string :=
  match s with
  | EmptyString => EmptyString
  | String c s' =>
      if Ascii.eqb c dquote
      then String dquote (String dquote (double_quotes s'))
      else String c (double_quotes s')
  end.

(** The test of the [if]: the field holds a quote, a comma or a newline. *)
Definition needs_quoting (s : string) : bool :=
  includes dquote s || includes comma s || includes newline s.

Definition escapeCSV (field : csv_field) : string :=
  match field with
  | FieldNull | FieldUndefined => String dquote (String dquote EmptyString)
  | FieldString stringField =>
      if needs_quoting stringField
      then String dquote (double_quotes stringField +:+ String dquote EmptyString)
      else stringField
  end.

(** ** File names ([generateFilename], src/wave-test.ts) *)

(** [url.replace(/^https?:\/\//, '')]. *)
Definition strip_protocol (url : string) : string :=
  if startsWith "http://" url then drop_prefix 7 url
  else if startsWith "https://" url then drop_prefix 8 url
  else url.

(** [filename.replace(/\/$/, '')]: one slash at the very end goes. *)
Definition strip_trailing_slash (s : string) : string :=
  if ends_with_char slash s then drop_last s else s.

(** [filename.replace(/[^a-zA-Z0-9]/g, '-')]. *)
Definition sanitize (s : string) : string :=
  map_chars (fun c => if is_alnum c then c else dash) s.

(** [200 - extension.length - 1], a JavaScript number that may be negative. *)
Definition maxBaseLength (extension : string) : Z :=
  200 - Z.of_nat (String.length extension) - 1.

Definition truncate_base (extension filename : string) : string :=
  if (Z.of_nat (String.length filename) >? maxBaseLength extension)%Z
  then substring0 (maxBaseLength extension) filename
  else filename.

Definition filename_prefix : string := "accessibility-results-".

Definition generateFilename (url extension : string) : string :=
  let filename := strip_protocol url in
  let filename := strip_trailing_slash filename in
  let filename := sanitize filename in
  let filename := truncate_base extension filename in
  filename_prefix +:+ filename +:+ "." +:+ extension.

(** ** JavaScript values after [JSON.parse]

    [JSON.parse(JSON.stringify(results))] yields a tree: no two places
    hold the same object.  An object's properties are listed in
    enumeration order, the order of [Object.keys]. *)

Inductive json : Type :=
| JNull
| JBool (b : bool)
| JNum (n : Z)
| JStr (s : string)
| JArr (elems : list json)
| JObj (props : list (string * json)).

(** A thrown JavaScript exception, with its message. *)
Inductive js_error : Type :=
| TypeError (msg : string)
| SyntaxError (msg : string)
| RangeError (msg : string).

Inductive result (A : Type) : Type :=
| Ok (a : A)
| Throw (e : js_error).
Arguments Ok {A} a.
Arguments Throw {A} e.

Definition bind {A B : Type} (r : result A) (k : A -> result B) : result B :=
  match r with
  | Ok a => k a
  | Throw e => Throw e
  end.

Notation "'try' x <- r ; k" := (bind r (fun x => k))
  (at level 10, x name, r at level 100, k at level 200).

(** [for (x of l) ...] with an early exit at the first exception. *)
Fixpoint mapM {A B : Type} (f : A -> result B) (l : list A) : result (list B) :=
  match l with
  | [] => Ok []
  | x :: l' => try y <- f x; try ys <- mapM f l'; Ok (y :: ys)
  end.

Module Js.

(** Truthiness, as tested by [if], [&&] and [||]. *)
Definition truthy (v : json) : bool :=
  match v with
  | JNull => false
  | JBool b => b
  | JNum n => negb (n =? 0)%Z
  | JStr s => negb (String.eqb s EmptyString)
  | JArr _ | JObj _ => true
  end.

(** [Array.isArray(v)]. *)
Definition isArray (v : json) : bool :=
  match v with JArr _ => true | _ => false end.

Fixpoint lookup_prop (k : string) (ps : list (string * json)) : option json :=
  match ps with
  | [] => None
  | (k', v) :: ps' => if String.eqb k' k then Some v else lookup_prop k ps'
  end.

(** [v.k] for a value that is neither [null] nor [undefined]; [None] is
    [undefined].  None of the names read by the enhancer is inherited
    from a prototype, so only objects answer. *)
Definition get (v : json) (k : string) : option json :=
  match v with
  | JObj ps => lookup_prop k ps
  | _ => None
  end.

(** [o.k = v] on an object: an existing property keeps its place, a new
    one is enumerated last (the names written here are no array
    indices). *)
Fixpoint set_prop (k : string) (v : json) (ps : list (string * json))
  : list (string * json) :=
  match ps with
  | [] => [(k, v)]
  | (k', v') :: ps' =>
      if String.eqb k' k then (k, v) :: ps' else (k', v') :: set_prop k v ps'
  end.

(** The number a string of decimal digits writes, behind [acc]. *)
Fixpoint digits_value (s : string) (acc : N) : option N :=
  match s with
  | EmptyString => Some acc
  | String c s' =>
      if is_digit c
      then digits_value s' (10 * acc + N.of_nat (nat_of_ascii c - 48))%N
      else None
  end.

(** An array index: the canonical decimal notation, without leading
    zeros, of an integer from 0 to 2^32 - 2. *)
Definition array_index (k : string) : option N :=
  match k with
  | EmptyString => None
  | String c rest =>
      if Ascii.eqb c "0" && negb (String.eqb rest EmptyString) then None
      else match digits_value k 0 with
           | Some n => if (n <? 4294967295)%N then Some n else None
           | None => None
           end
  end.

(** [o[k] = v] for the array index [i] that [k] writes: the indices of
    an object are enumerated first, in ascending order. *)
Fixpoint set_index (i : N) (k : string) (v : json) (ps : list (string * json))
  : list (string * json) :=
  match ps with
  | [] => [(k, v)]
  | (k', v') :: ps' =>
      match array_index k' with
      | Some i' =>
          if (i' <? i)%N then (k', v') :: set_index i k v ps'
          else if (i' =? i)%N then (k, v) :: ps'
          else (k, v) :: ps
      | None => (k, v) :: ps
      end
  end.

(** [o[k] = v] on an object literal, for any name [k] and a string [v]:
    the setter of [__proto__] ignores a string, an array index takes its
    place among the indices, another name is set as by [set_prop]. *)
Definition set_member (k : string) (v : json) (ps : list (string * json))
  : list (string * json) :=
  if String.eqb k "__proto__" then ps
  else match array_index k with
       | Some i => set_index i k v ps
       | None => set_prop k v ps
       end.

(** [x && ...] on an optional value: defined and truthy. *)
Definition truthy_opt (o : option json) : bool :=
  match o with
  | Some v => truthy v
  | None => false
  end.

(** Decimal notation of an integer. *)
Definition Z_to_string (n : Z) : string := NilZero.string_of_int (Z.to_int n).

Definition join (sep : string) (l : list string) : string :=
  match l with
  | [] => EmptyString
  | s :: l' => fold_left (fun acc t => acc +:+ sep +:+ t) l' s
  end.

(** [String(v)]: an array joins its elements with commas, [null]
    elements as empty strings; an object is [[object Object]]. *)
Fixpoint toString (v : json) : string :=
  match v with
  | JNull => "null"
  | JBool true => "true"
  | JBool false => "false"
  | JNum n => Z_to_string n
  | JStr s => s
  | JArr l =>
      join "," (List.map (fun e => match e with
                                   | JNull => EmptyString
                                   | _ => toString e
                                   end) l)
  | JObj _ => "[object Object]"
  end.

(** [ToPrimitive]: arrays and objects become their string. *)
Definition toPrimitive (v : json) : json :=
  match v with
  | JArr _ | JObj _ => JStr (toString v)
  | _ => v
  end.

(** [ToNumber] of a primitive that is not a string. *)
Definition toNumber (v : json) : Z :=
  match v with
  | JNum n => n
  | JBool true => 1%Z
  | _ => 0%Z
  end.

Definition is_string (v : json) : bool :=
  match v with JStr _ => true | _ => false end.

(** The operator [a + b]: concatenation as soon as one side is a
    string, addition otherwise.  The sum of two numbers is exact, as it
    is in JavaScript for integers below 2^53. *)
Definition add (a b : json) : json :=
  let pa := toPrimitive a in
  let pb := toPrimitive b in
  if is_string pa || is_string pb
  then JStr (toString pa +:+ toString pb)
  else JNum (toNumber pa + toNumber pb)%Z.

(** SameValueZero, the equality of [Set]: primitives by value, objects
    and arrays by identity.  In a tree two places never hold the same
    object, so an array or object equals no value met earlier. *)
Definition sameValueZero (a b : json) : bool :=
  match a, b with
  | JNull, JNull => true
  | JBool x, JBool y => Bool.eqb x y
  | JNum x, JNum y => (x =? y)%Z
  | JStr x, JStr y => String.eqb x y
  | _, _ => false
  end.

(** [set.add(x)] on the insertion-ordered content of a [Set]. *)
Definition set_add (seen : list json) (x : json) : list json :=
  if existsb (sameValueZero x) seen then seen else seen ++ [x].

(** [[...new Set(xs)]]. *)
Definition spread_set (xs : list json) : list json := fold_left set_add xs [].

(** [arr.slice(0, n)]. *)
Definition slice0 (n : nat) (l : list json) : list json := firstn n l.

(** [Object.values(v)] for a truthy [v]: the values of an object, the
    elements of an array, the characters of a string, nothing for a
    number or a boolean. *)
Definition values (v : json) : list json :=
  match v with
  | JObj ps => List.map snd ps
  | JArr l => l
  | JStr s => List.map (fun c => JStr (String c EmptyString)) (list_ascii_of_string s)
  | _ => []
  end.

End Js.

(** ** The live document, as the enhancer reads it *)

Module Dom.

(** [element.className]: a string on HTML elements, an
  [SVGAnimatedString] object on SVG elements. *)
Inductive class_name : Type :=
| ClassString (s : string)
| ClassAnimated.

Record element : Type := {
tagName : string;
id : string;
className : class_name;
textContent : string;
innerHTML : string;
attributes : list (string * string)
}.

(** A node selected by an XPath: an element, or a node of another kind
  (text, attribute, comment, document), which has none of [tagName],
  [id], [className]. *)
Inductive node : Type :=
| ElementNode (e : element)
| OtherNode.

(** [document.evaluate(xpath, document, null, FIRST_ORDERED_NODE_TYPE,
  null).singleNodeValue]: the call throws, or yields a node or [null]. *)
Inductive xpath_outcome : Type :=
| EvaluateThrows (message : string)
| SingleNodeValue (n : option node).

(** White space of [trim] and of the class [\s], below code unit 256. *)
Definition is_space (c : ascii) : bool :=
  let n := nat_of_ascii c in
  ((9 <=? n)%nat && (n <=? 13)%nat) || (n =? 32)%nat || (n =? 160)%nat.

Fixpoint trim_start (s : string) : string :=
  match s with
  | EmptyString => EmptyString
  | String c s' => if is_space c then trim_start s' else s
  end.

Fixpoint trim_end (s : string) : string :=
  match s with
  | EmptyString => EmptyString
  | String c s' =>
      match trim_end s' with
      | EmptyString => if is_space c then EmptyString else String c EmptyString
      | r => String c r
      end
  end.

(** [s.trim()]. *)
Definition trim (s : string) : string := trim_end (trim_start s).

(** [s.split(/\s+/)]: [cur] is the piece being read, [in_sep] tells
    that the last code unit belonged to a separator. *)
Fixpoint split_spaces_from (s cur : string) (in_sep : bool) : list string :=
  match s with
  | EmptyString => [cur]
  | String c s' =>
      if is_space c
      then if in_sep then split_spaces_from s' EmptyString true
           else cur :: split_spaces_from s' EmptyString true
      else split_spaces_from s' (cur +:+ String c EmptyString) false
  end.

Definition split_spaces (s : string) : list string :=
  split_spaces_from s EmptyString false.

(** [s.toLowerCase()] on the letters A to Z. *)
Definition toLowerCase (s : string) : string :=
  map_chars (fun c => if is_upper c then ascii_of_nat (nat_of_ascii c + 32) else c) s.

Definition message (e : js_error) : string :=
  match e with
  | TypeError m | SyntaxError m | RangeError m => m
  end.

(** [s || null]. *)
Definition string_or_null (s : string) : json :=
  if String.eqb s EmptyString then JNull else JStr s.

End Dom.

(** ** The in-page result enhancer ([enhanceResultsWithDOMInfo]) *)

Section Enhancer.

(** The document the page holds while the enhancer runs. *)
Variable document_evaluate : string -> Dom.xpath_outcome.

Definition generateSelector (e : Dom.element) : result string :=
  if negb (String.eqb (Dom.id e) EmptyString) then Ok ("#" +:+ Dom.id e)
  else
    match Dom.className e with
    | Dom.ClassString EmptyString => Ok (Dom.toLowerCase (Dom.tagName e))
    | Dom.ClassString c =>
        let classes := Js.join "." (firstn 2 (Dom.split_spaces (Dom.trim c))) in
        Ok ("." +:+ classes)
    | Dom.ClassAnimated => Throw (TypeError "element.className.trim is not a function")
    end.

(** The object literal of [getElementInfo].  An [SVGAnimatedString] has
    no own enumerable property: it stands here as the empty object.  The
    attribute map is filled name by name, from the empty object. *)
Definition element_info (e : Dom.element) (selector : string) : json :=
  JObj [ ("tagName", JStr (Dom.tagName e));
         ("id", Dom.string_or_null (Dom.id e));
         ("className", match Dom.className e with
                       | Dom.ClassString c => Dom.string_or_null c
                       | Dom.ClassAnimated => JObj []
                       end);
         ("textContent",
           if String.eqb (Dom.textContent e) EmptyString then JNull
           else JStr (take 100 (Dom.trim (Dom.textContent e))));
         ("innerHTML",
           if String.eqb (Dom.innerHTML e) EmptyString then JNull
           else JStr (take 200 (Dom.innerHTML e)));
         ("attributes",
           JObj (fold_left (fun acc attr => Js.set_member (fst attr) (JStr (snd attr)) acc)
                           (Dom.attributes e) []));
         ("selector", JStr selector) ].

Definition error_marker (msg : string) : json := JObj [("error", JStr msg)].

(** [getElementInfo(xpath)]; [JNull] is the [return null] of an XPath
    that selects nothing. *)
Definition getElementInfo (xpath : json) : json :=
  match document_evaluate (Js.toString xpath) with
  | Dom.EvaluateThrows msg => error_marker msg
  | Dom.SingleNodeValue None => JNull
  | Dom.SingleNodeValue (Some Dom.OtherNode) =>
      error_marker "Cannot read properties of undefined (reading 'toLowerCase')"
  | Dom.SingleNodeValue (Some (Dom.ElementNode e)) =>
      match generateSelector e with
      | Ok selector => element_info e selector
      | Throw err => error_marker (Dom.message err)
      end
  end.

Definition is_null (v : json) : bool :=
  match v with JNull => true | _ => false end.

(** [if (item.k && Array.isArray(item.k)) item.k = item.k.slice(0, n)]. *)
Definition truncate_array (k : string) (n : nat) (ps : list (string * json))
  : list (string * json) :=
  match Js.lookup_prop k ps with
  | Some (JArr l) => Js.set_prop k (JArr (Js.slice0 n l)) ps
  | _ => ps
  end.

(** A loop body applied to the value of a property. *)
Definition on_values (f : json -> result json) (kv : string * json)
  : result (string * json) :=
  try v <- f (snd kv); Ok (fst kv, v).

(** The body of the inner [forEach], for one rule group. *)
Definition enhance_item (item : json) : result json :=
  match item with
  | JNull => Throw (TypeError "Cannot read properties of null (reading 'xpaths')")
  | JObj ps =>
      match Js.lookup_prop "xpaths" ps with
      | Some (JArr xpaths) =>
          let uniqueXPaths := Js.spread_set xpaths in
          let ps := Js.set_prop "xpaths" (JArr uniqueXPaths) ps in
          let ps := Js.set_prop "count" (JNum (Z.of_nat (length uniqueXPaths))) ps in
          let ps := Js.set_prop "domInfo"
                      (JArr (List.filter (fun info => negb (is_null info))
                                         (List.map getElementInfo uniqueXPaths))) ps in
          let ps := truncate_array "selectors" (length uniqueXPaths) ps in
          let ps := truncate_array "text" (length uniqueXPaths) ps in
          let ps := truncate_array "hidden" (length uniqueXPaths) ps in
          let ps := truncate_array "contrastdata" (length uniqueXPaths) ps in
          Ok (JObj ps)
      | _ => Ok item
      end
  | _ => Ok item
  end.

(** [Object.keys(category.items).forEach(...)]: the rule groups of an
    object, the elements of an array; a string, number or boolean holds
    no object to change. *)
Definition enhance_items (items : json) : result json :=
  match items with
  | JObj ips =>
      try ips' <- mapM (on_values enhance_item) ips;
      Ok (JObj ips')
  | JArr l => try l' <- mapM enhance_item l; Ok (JArr l')
  | _ => Ok items
  end.

(** First pass over one retained category. *)
Definition enhance_category (category : json) : result json :=
  match category, Js.get category "items" with
  | JObj ps, Some items =>
      if Js.truthy items
      then try items' <- enhance_items items; Ok (JObj (Js.set_prop "items" items' ps))
      else Ok category
  | _, _ => Ok category
  end.

(** [item.count || 0]. *)
Definition item_count (item : json) : result json :=
  match item with
  | JNull => Throw (TypeError "Cannot read properties of null (reading 'count')")
  | _ =>
      match Js.get item "count" with
      | Some c => Ok (if Js.truthy c then c else JNum 0)
      | None => Ok (JNum 0)
      end
  end.

(** [values.reduce((total, item) => total + (item.count || 0), total)]. *)
Fixpoint reduce_counts (total : json) (values : list json) : result json :=
  match values with
  | [] => Ok total
  | item :: values' =>
      try c <- item_count item;
      reduce_counts (Js.add total c) values'
  end.

(** Second pass over one retained category. *)
Definition recount_category (category : json) : result json :=
  match category, Js.get category "items" with
  | JObj ps, Some items =>
      if Js.truthy items
      then try total <- reduce_counts (JNum 0) (Js.values items);
           Ok (JObj (Js.set_prop "count" total ps))
      else Ok category
  | _, _ => Ok category
  end.

(** [if (enhanced.categories && enhanced.categories.k)
      filteredCategories.k = enhanced.categories.k]. *)
Definition retained (enhanced : json) (k : string) : list (string * json) :=
  match Js.get enhanced "categories" with
  | Some categories =>
      if Js.truthy categories
      then match Js.get categories k with
           | Some c => if Js.truthy c then [(k, c)] else []
           | None => []
           end
      else []
  | None => []
  end.

(** The object [filteredCategories] before the two passes. *)
Definition filtered0 (enhanced : json) : list (string * json) :=
  (retained enhanced "error" ++ retained enhanced "contrast")%list.

(** What the enhancer returns: a value, or an array that has received
    [categories] as an extra property. *)
Inductive enhanced_results : Type :=
| Enhanced (v : json)
| EnhancedArray (elems : list json) (categories : list (string * json)).

(** The enhancer on the copy [enhanced] of its argument.  The function
    runs as sloppy-mode code in the page: assigning a property to a
    primitive value has no effect. *)
Definition enhanceResultsWithDOMInfo (enhanced : json) : result enhanced_results :=
  match enhanced with
  | JNull => Throw (TypeError "Cannot read properties of null (reading 'categories')")
  | _ =>
      let filteredCategories := filtered0 enhanced in
      try filteredCategories <- mapM (on_values enhance_category) filteredCategories;
      try filteredCategories <- mapM (on_values recount_category) filteredCategories;
      match enhanced with
      | JObj ps => Ok (Enhanced (JObj (Js.set_prop "categories" (JObj filteredCategories) ps)))
      | JArr l => Ok (EnhancedArray l filteredCategories)
      | _ => Ok (Enhanced enhanced)
      end
  end.

(** [enhancedResults.categories || {}], as both callers read it. *)
Definition categories_of (r : enhanced_results) : json :=
  match r with
  | Enhanced v =>
      match Js.get v "categories" with
      | Some c => if Js.truthy c then c else JObj []
      | None => JObj []
      end
  | EnhancedArray _ cats => JObj cats
  end.

End Enhancer.

(** ** The polling initialiser ([checkWaveAvailability])

    The callback runs once per timer tick.  What it sees of the page at a
    tick is a [page_state]; what it does is an [action]. *)

Module Polling.

(** How [window.wave.fn.run()] behaves when it is called. *)
Inductive run_call : Type :=
| RunThrows (message : string)
| RunStarts.

(** What the test [typeof window.wave !== 'undefined' && window.wave.fn]
    comes to.  The test stands before the [try] blocks of the callback:
    when reading [fn] throws, as it does of [window.wave === null], the
    callback throws.  A truth value stands for a test that gave it. *)
Inductive availability : Type :=
| Tested (present : bool)
| TestThrows (message : string).

Coercion Tested : bool >-> availability.

Record page_state : Type := {
  (** [typeof window.wave !== 'undefined' && window.wave.fn] *)
  wave_present : availability;
  (** [document.readyState === 'complete'] *)
  ready_complete : bool;
  (** [document.body && document.body.style && document.head] *)
  body_and_head : bool;
  (** reading [document.body.style.display] throws *)
  style_access_throws : bool;
  (** [window.wave.fn.initialize()] throws, with this message *)
  initialize_throws : option string;
  run : run_call
}.

Inductive action : Type :=
| Reschedule (delay : nat)    (* setTimeout(checkWaveAvailability, delay) *)
| Reject (message : string)   (* reject(new Error(message)) *)
| RunAnalysis                 (* run() was called; its promise settles the result *)
| Throws (message : string).  (* the exception leaves the callback *)

Definition exhausted_message (maxRetries : nat) : string :=
  "WAVE failed to initialize after " +:+ Js.Z_to_string (Z.of_nat maxRetries) +:+ " attempts".

(** *** src/wave-test.ts *)

Module WaveTest.

Definition maxRetries : nat := 100.
Definition retryDelay : nat := 200.

(** One call of the callback; [attempts] is the counter before the call,
    the first component of the result the counter after it. *)
Definition checkWaveAvailability (attempts : nat) (p : page_state) : nat * action :=
  let attempts := S attempts in
  match wave_present p with
  | TestThrows msg => (attempts, Throws msg)
  | Tested true =>
    if negb (ready_complete p) then (attempts, Reschedule retryDelay)
    else if negb (body_and_head p) then (attempts, Reschedule retryDelay)
    else if style_access_throws p then (attempts, Reschedule retryDelay)
    else
      match initialize_throws p with
      | Some msg =>
          if (attempts <? maxRetries)%nat
          then (attempts, Reschedule (retryDelay * 2))
          else (attempts, Reject ("WAVE initialization failed after retries: " +:+ msg))
      | None =>
          match run p with
          | RunStarts => (attempts, RunAnalysis)
          | RunThrows msg =>
              if (attempts <? maxRetries)%nat
              then (attempts, Reschedule (retryDelay * 2))
              else (attempts, Reject ("WAVE process failed: " +:+ msg))
          end
      end
  | Tested false =>
    if (maxRetries <=? attempts)%nat
    then (attempts, Reject (exhausted_message maxRetries))
    else (attempts, Reschedule retryDelay)
  end.

End WaveTest.

(** *** src/analyzer.js *)

Module Analyzer.

Record config : Type := {
  retryDelay : nat;
  maxRetries : nat
}.

(** The defaults of the constructor: [retryDelay: 100],
    [maxWaveInitRetries: 50]. *)
Definition default_config : config := {| retryDelay := 100; maxRetries := 50 |}.

Definition checkWaveAvailability (config : config) (attempts : nat) (p : page_state)
  : nat * action :=
  let attempts := S attempts in
  match wave_present p with
  | TestThrows msg => (attempts, Throws msg)
  | Tested true =>
    match initialize_throws p with
    | Some msg => (attempts, Reject ("WAVE initialization failed: " +:+ msg))
    | None =>
        match run p with
        | RunStarts => (attempts, RunAnalysis)
        | RunThrows msg => (attempts, Reject ("WAVE initialization failed: " +:+ msg))
        end
    end
  | Tested false =>
    if (maxRetries config <=? attempts)%nat
    then (attempts, Reject (exhausted_message (maxRetries config)))
    else (attempts, Reschedule (retryDelay config))
  end.

End Analyzer.

(** A page on which WAVE is there, the document is ready and
    [initialize()] throws [msg]. *)
Definition initialize_fails (msg : string) (p : page_state) : Prop :=
  wave_present p = true /\ ready_complete p = true /\ body_and_head p = true /\
  style_access_throws p = false /\ initialize_throws p = Some msg.

(** How the polling ended, or that it is still going on.  [Stalled]: a
    call made by a timer threw; nothing catches the exception, no timer
    is set and the promise is never settled. *)
Inductive status : Type :=
| Rejected (message : string)
| Analysing
| Polling
| Stalled.

Record run_trace : Type := {
  calls : nat;            (* calls of the callback made *)
  delays : list nat;      (* the delay of every timer set, in order *)
  final : status
}.

(** The timer loop around a callback [step]: the page is in state
    [page k] at the [k]-th call (from 0); at most [fuel] calls are made.
    Call 0 is made by the executor of the promise, inside its [try]
    block, whose [catch] rejects with [Script injection failed]; the
    later calls are made by timers. *)
Fixpoint poll (step : nat -> page_state -> nat * action) (page : nat -> page_state)
  (fuel : nat) (k attempts : nat) : run_trace :=
  match fuel with
  | O => {| calls := 0; delays := []; final := Polling |}
  | S fuel' =>
      match step attempts (page k) with
      | (attempts', Reschedule d) =>
          let t := poll step page fuel' (S k) attempts' in
          {| calls := S (calls t); delays := d :: delays t; final := final t |}
      | (_, Reject msg) => {| calls := 1; delays := []; final := Rejected msg |}
      | (_, RunAnalysis) => {| calls := 1; delays := []; final := Analysing |}
      | (_, Throws msg) =>
          {| calls := 1; delays := [];
             final := match k with
                      | O => Rejected ("Script injection failed: " +:+ msg)
                      | S _ => Stalled
                      end |}
      end
  end.

End Polling.

(** ** The batch orchestrator (src/analyzer.js)

    The browser, the network and the file system are a state [world];
    [analyzeUrl], [_saveIndividualReport] and [_delay] act on it. *)

Module Batch.

Record config : Type := {
  outputDir : string;
  delay : nat;
  maxRetries : nat;
  saveIndividualReports : bool
}.

(** The record [_processUrlWithRetry] returns for one URL.  ([duration],
    copied from the report, is left out.) *)
Record url_result (report : Type) : Type := {
  url : string;
  success : bool;
  report_of : option report;
  attempts : nat;
  error : option string
}.
Arguments url {_} _.
Arguments success {_} _.
Arguments report_of {_} _.
Arguments attempts {_} _.
Arguments error {_} _.
Arguments Build_url_result {_}.

(** The counting part of [_createBatchSummary]; the time stamps, the
    success rate and the aggregated statistics are left out. *)
Record batch_summary : Type := {
  totalUrls : nat;
  successful : nat;
  failed : nat;
  results : list (string * bool * nat * option string)
}.

Section Orchestrator.

Variable world : Type.
Variable report : Type.
(** [await this.analyzeUrl(url)]: a report, or a thrown error's message. *)
Variable analyzeUrl : string -> world -> (report + string) * world.
(** [await this._saveIndividualReport(report, url, outputDir)]: [Some]
    message when writing throws. *)
Variable saveIndividualReport : report -> string -> string -> world -> option string * world.
(** [await this._delay(ms)]. *)
Variable wait : nat -> world -> world.

(** The [try] block of the retry loop. *)
Definition attempt_once (config : config) (u : string) (w : world)
  : (report + string) * world :=
  match analyzeUrl u w with
  | (inl r, w1) =>
      if saveIndividualReports config
      then match saveIndividualReport r u (outputDir config) w1 with
           | (None, w2) => (inl r, w2)
           | (Some msg, w2) => (inr msg, w2)
           end
      else (inl r, w1)
  | (inr msg, w1) => (inr msg, w1)
  end.

(** The [while (attempt < config.maxRetries)] loop, at most [fuel]
    rounds.  The outer [None] is an exhausted [fuel]; the inner [None] is
    the [undefined] returned when the loop ends without a [return]. *)
Fixpoint retry_loop (config : config) (u : string) (fuel attempt : nat) (w : world)
  : option (option (url_result report) * world) :=
  match fuel with
  | O => None
  | S fuel' =>
      if (attempt <? maxRetries config)%nat then
        match attempt_once config u w with
        | (inl r, w1) =>
            Some (Some {| url := u; success := true; report_of := Some r;
                          attempts := attempt + 1; error := None |}, w1)
        | (inr msg, w1) =>
            let attempt := S attempt in
            if (maxRetries config <=? attempt)%nat
            then Some (Some {| url := u; success := false; report_of := None;
                               attempts := attempt; error := Some msg |}, w1)
            else retry_loop config u fuel' attempt (wait (delay config) w1)
        end
      else Some (None, w)
  end.

(** [_processUrlWithRetry(url, current, total, config)]: the loop makes at
    most [maxRetries] rounds, one more unit of fuel lets it reach its
    exit test. *)
Definition _processUrlWithRetry (config : config) (u : string) (w : world)
  : option (option (url_result report) * world) :=
  retry_loop config u (S (maxRetries config)) 0 w.

(** The [for] loop of [analyzeBatch] from index [i] on, [total] URLs in
    all. *)
Fixpoint batch_loop (config : config) (total i : nat) (urls : list string) (w : world)
  : option (list (option (url_result report)) * world) :=
  match urls with
  | [] => Some ([], w)
  | u :: urls' =>
      match _processUrlWithRetry config u w with
      | None => None
      | Some (r, w1) =>
          let w2 := if (i <? total - 1)%nat && (0 <? delay config)%nat
                    then wait (delay config) w1 else w1 in
          match batch_loop config total (S i) urls' w2 with
          | None => None
          | Some (rs, w3) => Some (r :: rs, w3)
          end
      end
  end.

(** [r.success] on an entry of [results]; reading it on [undefined]
    throws. *)
Definition success_of (r : option (url_result report)) : result bool :=
  match r with
  | Some r => Ok (success r)
  | None => Throw (TypeError "Cannot read properties of undefined (reading 'success')")
  end.

Definition digest (r : url_result report) : string * bool * nat * option string :=
  (url r, success r, attempts r, error r).

(** [_createBatchSummary(results, totalUrls, startTime)]. *)
Definition _createBatchSummary (rs : list (option (url_result report))) (total : nat)
  : result batch_summary :=
  try flags <- mapM success_of rs;
  let digests := omap (fun r => digest <$> r) rs in
  Ok {| totalUrls := total;
        successful := length (List.filter (fun b : bool => b) flags);
        failed := length (List.filter negb flags);
        results := digests |}.

(** [analyzeBatch(urls, options)] up to the summary it writes; the
    results it returns are the first component. *)
Definition analyzeBatch (config : config) (urls : list string) (w : world)
  : option (list (option (url_result report)) * result batch_summary * world) :=
  match batch_loop config (length urls) 0 urls w with
  | None => None
  | Some (rs, w1) => Some (rs, _createBatchSummary rs (length urls), w1)
  end.

(** The world in which attempt number [k] (from 0) at [u] starts, when
    the attempts before it have failed: each failure is followed by
    [_delay(config.delay)]. *)
Fixpoint world_before_attempt (config : config) (u : string) (w : world) (k : nat) : world :=
  match k with
  | O => w
  | S k' =>
      wait (delay config) (snd (attempt_once config u (world_before_attempt config u w k')))
  end.

(** The outcome of attempt number [k] at [u]. *)
Definition attempt_outcome (config : config) (u : string) (w : world) (k : nat)
  : report + string :=
  fst (attempt_once config u (world_before_attempt config u w k)).

End Orchestrator.

(** *** A batch of three URLs, the second of which never loads *)

Module Example.

Definition urls : list string :=
  ["https://a.example/"; "https://b.example/"; "https://c.example/"].

(** The world is the number of page loads made so far; a report is the
    URL it is about. *)
Definition analyzeUrl (u : string) (w : nat) : (string + string) * nat :=
  if String.eqb u "https://b.example/"
  then (inr ("Failed to analyze " +:+ u +:+ ": net::ERR_NAME_NOT_RESOLVED, load "
             +:+ Js.Z_to_string (Z.of_nat (S w))), S w)
  else (inl u, S w).

Definition saveIndividualReport (r u dir : string) (w : nat) : option string * nat :=
  (None, w).

Definition wait (ms : nat) (w : nat) : nat := w.

Definition config : config :=
  {| outputDir := "./reports"; delay := 1000; maxRetries := 2;
     saveIndividualReports := true |}.

End Example.

End Batch.

(** ** The enhancer on the JavaScript heap

    The caller's [results] lives in a heap of objects and arrays that may
    be shared or cyclic.  This is the enhancer as it runs there: it reads
    the argument, builds the copy and writes through references. *)

Module Heap.

Definition loc : Type := positive.

Inductive val : Type :=
| VUndefined
| VNull
| VBool (b : bool)
| VNum (n : Z)
| VStr (s : string)
| VRef (l : loc).

(** An array holds its elements and, possibly, extra named properties;
    an object holds its properties in enumeration order. *)
Inductive cell : Type :=
| CArr (elems : list val) (extra : list (string * val))
| CObj (props : list (string * val)).

Abbreviation heap := (gmap loc cell).

(** A computation on the heap; the heap stays as it is when an exception
    is thrown. *)
Definition M (A : Type) : Type := heap -> result A * heap.

Definition ret {A : Type} (a : A) : M A := fun h => (Ok a, h).
Definition throw {A : Type} (e : js_error) : M A := fun h => (Throw e, h).
Definition mbind {A B : Type} (m : M A) (k : A -> M B) : M B :=
  fun h => match m h with
           | (Ok a, h') => k a h'
           | (Throw e, h') => (Throw e, h')
           end.

Notation "'do' x <- m ; k" := (mbind m (fun x => k))
  (at level 10, x name, m at level 100, k at level 200).

(** [l.forEach(f)]. *)
Fixpoint forEach {A : Type} (f : A -> M unit) (l : list A) : M unit :=
  match l with
  | [] => ret tt
  | x :: l' => do _ <- f x; forEach f l'
  end.

(** [l.map(f)]. *)
Fixpoint mapH {A B : Type} (f : A -> M B) (l : list A) : M (list B) :=
  match l with
  | [] => ret []
  | x :: l' => do y <- f x; do ys <- mapH f l'; ret (y :: ys)
  end.

(** [l.reduce(f, acc)]. *)
Fixpoint reduce {A B : Type} (f : B -> A -> M B) (acc : B) (l : list A) : M B :=
  match l with
  | [] => ret acc
  | x :: l' => do acc' <- f acc x; reduce f acc' l'
  end.

Definition truthy (v : val) : bool :=
  match v with
  | VUndefined | VNull => false
  | VBool b => b
  | VNum n => negb (n =? 0)%Z
  | VStr s => negb (String.eqb s EmptyString)
  | VRef _ => true
  end.

Fixpoint lookup_prop (k : string) (ps : list (string * val)) : option val :=
  match ps with
  | [] => None
  | (k', v) :: ps' => if String.eqb k' k then Some v else lookup_prop k ps'
  end.

Fixpoint set_prop_list (k : string) (v : val) (ps : list (string * val))
  : list (string * val) :=
  match ps with
  | [] => [(k, v)]
  | (k', v') :: ps' =>
      if String.eqb k' k then (k, v) :: ps' else (k', v') :: set_prop_list k v ps'
  end.

(** [v.k] for a property name [k] that no prototype defines. *)
Definition get_prop (v : val) (k : string) : M val :=
  fun h =>
    match v with
    | VUndefined => (Throw (TypeError ("Cannot read properties of undefined (reading '" +:+ k +:+ "')")), h)
    | VNull => (Throw (TypeError ("Cannot read properties of null (reading '" +:+ k +:+ "')")), h)
    | VRef l =>
        match h !! l with
        | Some (CObj ps) => (Ok (default VUndefined (lookup_prop k ps)), h)
        | Some (CArr _ extra) => (Ok (default VUndefined (lookup_prop k extra)), h)
        | None => (Ok VUndefined, h)
        end
    | _ => (Ok VUndefined, h)
    end.

(** [v.k = x]; on a primitive value the assignment of sloppy-mode code
    does nothing. *)
Definition set_prop (v : val) (k : string) (x : val) : M unit :=
  fun h =>
    match v with
    | VUndefined => (Throw (TypeError ("Cannot set properties of undefined (setting '" +:+ k +:+ "')")), h)
    | VNull => (Throw (TypeError ("Cannot set properties of null (setting '" +:+ k +:+ "')")), h)
    | VRef l =>
        match h !! l with
        | Some (CObj ps) => (Ok tt, <[l := CObj (set_prop_list k x ps)]> h)
        | Some (CArr elems extra) => (Ok tt, <[l := CArr elems (set_prop_list k x extra)]> h)
        | None => (Ok tt, h)
        end
    | _ => (Ok tt, h)
    end.

(** A new object or array. *)
Definition alloc (c : cell) : M val :=
  fun h => let l := fresh (dom h) in (Ok (VRef l), <[l := c]> h).

(** The elements of [v] when [Array.isArray(v)]. *)
Definition array_elems (v : val) : M (option (list val)) :=
  fun h =>
    match v with
    | VRef l =>
        match h !! l with
        | Some (CArr elems _) => (Ok (Some elems), h)
        | _ => (Ok None, h)
        end
    | _ => (Ok None, h)
    end.

(** A key of [Object.keys]: an index of an array or string, or a name. *)
Inductive key : Type :=
| Index (i : nat)
| Name (k : string).

(** [Object.keys(v)] for a truthy [v]. *)
Definition keys (v : val) : M (list key) :=
  fun h =>
    match v with
    | VRef l =>
        match h !! l with
        | Some (CObj ps) => (Ok (List.map (fun kv => Name (fst kv)) ps), h)
        | Some (CArr elems extra) =>
            (Ok (List.map Index (seq 0 (length elems))
                 ++ List.map (fun kv => Name (fst kv)) extra)%list, h)
        | None => (Ok [], h)
        end
    | VStr s => (Ok (List.map Index (seq 0 (String.length s))), h)
    | _ => (Ok [], h)
    end.

(** [v[key]] for a truthy [v]. *)
Definition get_key (v : val) (k : key) : M val :=
  match k with
  | Name n => get_prop v n
  | Index i =>
      fun h =>
        match v with
        | VRef l =>
            match h !! l with
            | Some (CArr elems _) => (Ok (default VUndefined (elems !! i)), h)
            | _ => (Ok VUndefined, h)
            end
        | VStr s =>
            (Ok (match String.get i s with
                 | Some c => VStr (String c EmptyString)
                 | None => VUndefined
                 end), h)
        | _ => (Ok VUndefined, h)
        end
  end.

(** [Object.values(v)] for a truthy [v]. *)
Definition values (v : val) : M (list val) :=
  do ks <- keys v; mapH (get_key v) ks.

(** [Object.keys(parent).forEach(key => { const child = parent[key];
    body(child) })], the shape of both loops of the enhancer. *)
Definition forEachKey (parent : val) (body : val -> M unit) : M unit :=
  do ks <- keys parent;
  forEach (fun k => do child <- get_key parent k; body child) ks.

(** *** [JSON.stringify] and [JSON.parse] *)

(** The tree [JSON.stringify(v)] writes down; [None] is [undefined].  An
    [undefined] property is left out, an [undefined] element is [null].
    The heap handed down an object's children has lost the object, so a
    reference that is not found there closes a cycle.  [fuel] bounds the
    depth: each level removes one object from the heap. *)
Fixpoint serialize (fuel : nat) (h : heap) (v : val) : result (option json) :=
  match v with
  | VUndefined => Ok None
  | VNull => Ok (Some JNull)
  | VBool b => Ok (Some (JBool b))
  | VNum n => Ok (Some (JNum n))
  | VStr s => Ok (Some (JStr s))
  | VRef l =>
      match fuel with
      | O => Throw (RangeError "Maximum call stack size exceeded")
      | S fuel' =>
          match h !! l with
          | None => Throw (TypeError "Converting circular structure to JSON")
          | Some (CArr elems _) =>
              try js <- mapM (fun e => try o <- serialize fuel' (delete l h) e;
                                       Ok (default JNull o)) elems;
              Ok (Some (JArr js))
          | Some (CObj ps) =>
              try kvs <- mapM (fun kv => try o <- serialize fuel' (delete l h) (snd kv);
                                         Ok (pair (fst kv) <$> o)) ps;
              Ok (Some (JObj (omap (fun o => o) kvs)))
          end
      end
  end.

(** [JSON.stringify(v)] on heap [h]. *)
Definition stringify (h : heap) (v : val) : result (option json) :=
  serialize (S (size h)) h v.

(** One allocation after the other along a list, left to right. *)
Fixpoint alloc_list {A B : Type} (f : A -> heap -> B * heap) (l : list A) (h : heap)
  : list B * heap :=
  match l with
  | [] => ([], h)
  | x :: l' =>
      let '(y, h1) := f x h in
      let '(ys, h2) := alloc_list f l' h1 in
      (y :: ys, h2)
  end.

(** [JSON.parse] of the text of tree [j]: every array and object of the
    tree becomes a new heap object. *)
Fixpoint parse (j : json) (h : heap) : val * heap :=
  match j with
  | JNull => (VNull, h)
  | JBool b => (VBool b, h)
  | JNum n => (VNum n, h)
  | JStr s => (VStr s, h)
  | JArr js =>
      let '(vs, h1) := alloc_list parse js h in
      let l := fresh (dom h1) in
      (VRef l, <[l := CArr vs []]> h1)
  | JObj ps =>
      let '(vs, h1) :=
        alloc_list (fun kv h => let '(v, h') := parse (snd kv) h in ((fst kv, v), h')) ps h in
      let l := fresh (dom h1) in
      (VRef l, <[l := CObj vs]> h1)
  end.

(** [JSON.parse(JSON.stringify(v))]; [JSON.parse(undefined)] throws
    the [SyntaxError] of the text [undefined], which the message quotes.
    (Of the [TypeError] that [JSON.stringify] throws at a cycle the model
    keeps the first line of the message; the engine goes on to name the
    objects of the cycle.) *)
Definition deep_copy (v : val) : M val :=
  fun h =>
    match stringify h v with
    | Throw e => (Throw e, h)
    | Ok None =>
        (Throw (SyntaxError (String dquote ("undefined" +:+ String dquote " is not valid JSON"))),
         h)
    | Ok (Some j) => let '(v', h') := parse j h in (Ok v', h')
    end.

(** The tree under [v], for [String(v)] and [+]. *)
Definition tree_of (h : heap) (v : val) : json :=
  match stringify h v with
  | Ok (Some j) => j
  | _ => JNull
  end.

(** A primitive tree value as a heap value. *)
Definition of_primitive (j : json) : val :=
  match j with
  | JBool b => VBool b
  | JNum n => VNum n
  | JStr s => VStr s
  | _ => VNull
  end.

(** SameValueZero on heap values: objects by identity. *)
Definition sameValueZero (a b : val) : bool :=
  match a, b with
  | VUndefined, VUndefined => true
  | VNull, VNull => true
  | VBool x, VBool y => Bool.eqb x y
  | VNum x, VNum y => (x =? y)%Z
  | VStr x, VStr y => String.eqb x y
  | VRef x, VRef y => Pos.eqb x y
  | _, _ => false
  end.

Definition set_add (seen : list val) (x : val) : list val :=
  if existsb (sameValueZero x) seen then seen else (seen ++ [x])%list.

(** The elements of [new Set(xs)], in insertion order. *)
Definition spread_set (xs : list val) : list val := fold_left set_add xs [].

Definition is_null (v : val) : bool :=
  match v with VNull => true | _ => false end.

Section Enhancer.

Variable document_evaluate : string -> Dom.xpath_outcome.

(** [getElementInfo(xpath)]: the object literal it returns is built in
    the heap. *)
Definition getElementInfo (xpath : val) : M val :=
  fun h =>
    let info := getElementInfo document_evaluate (tree_of h xpath) in
    let '(v, h') := parse info h in (Ok v, h').

(** [if (item.k && Array.isArray(item.k)) item.k = item.k.slice(0, n)]. *)
Definition truncate_array (item : val) (k : string) (n : nat) : M unit :=
  do x <- get_prop item k;
  do a <- array_elems x;
  match a with
  | Some l => do s <- alloc (CArr (firstn n l) []); set_prop item k s
  | None => ret tt
  end.

Definition enhance_item (item : val) : M unit :=
  do x <- get_prop item "xpaths";
  do a <- array_elems x;
  match a with
  | Some xpaths =>
      do uniqueXPaths <- alloc (CArr (spread_set xpaths) []);
      do _ <- set_prop item "xpaths" uniqueXPaths;
      let n := length (spread_set xpaths) in
      do _ <- set_prop item "count" (VNum (Z.of_nat n));
      do infos <- mapH getElementInfo (spread_set xpaths);
      do domInfo <- alloc (CArr (List.filter (fun info => negb (is_null info)) infos) []);
      do _ <- set_prop item "domInfo" domInfo;
      do _ <- truncate_array item "selectors" n;
      do _ <- truncate_array item "text" n;
      do _ <- truncate_array item "hidden" n;
      truncate_array item "contrastdata" n
  | None => ret tt
  end.

(** First pass, for one category of [filteredCategories]. *)
Definition enhance_category (category : val) : M unit :=
  do items <- get_prop category "items";
  if truthy items then forEachKey items enhance_item else ret tt.

(** [total + (item.count || 0)]; [total] is a number or a string. *)
Definition add_count (total : json) (item : val) : M json :=
  do c <- get_prop item "count";
  fun h =>
    let c := if truthy c then tree_of h c else JNum 0 in
    (Ok (Js.add total c), h).

(** Second pass, for one category of [filteredCategories]. *)
Definition recount_category (category : val) : M unit :=
  do items <- get_prop category "items";
  if truthy items then
    do vs <- values items;
    do total <- reduce add_count (JNum 0) vs;
    set_prop category "count" (of_primitive total)
  else ret tt.

(** [if (enhanced.categories && enhanced.categories.k)
      filteredCategories.k = enhanced.categories.k]. *)
Definition retain (enhanced filteredCategories : val) (k : string) : M unit :=
  do categories <- get_prop enhanced "categories";
  if truthy categories then
    do c <- get_prop categories k;
    if truthy c then
      do c' <- get_prop categories k;
      set_prop filteredCategories k c'
    else ret tt
  else ret tt.

Definition enhanceResultsWithDOMInfo (results : val) : M val :=
  do enhanced <- deep_copy results;
  do filteredCategories <- alloc (CObj []);
  do _ <- retain enhanced filteredCategories "error";
  do _ <- retain enhanced filteredCategories "contrast";
  do _ <- forEachKey filteredCategories enhance_category;
  do _ <- forEachKey filteredCategories recount_category;
  do _ <- set_prop enhanced "categories" filteredCategories;
  ret enhanced.

End Enhancer.

End Heap.

(** ** Vocabulary of the statements *)

(** The quoted form of a CSV field in the words of the specification: the
    code units of the field between two double quotes, each double quote
    of the field twice. *)
Definition quoted_form (s : string) : string :=
  string_of_list_ascii
    ([dquote] ++ flat_map (fun c => if Ascii.eqb c dquote then [dquote; dquote] else [c])
                          (list_ascii_of_string s) ++ [dquote]).

(** The field of the specification's example, [He said] followed by
    [hi] between double quotes, a comma and [ok]; and its escaped form,
    the whole between double quotes with each inner double quote twice. *)
Definition he_said : string :=
  "He said " +:+ String dquote ("hi" +:+ String dquote ", ok").
Definition he_said_escaped : string :=
  String dquote ("He said " +:+ String dquote (String dquote ("hi" +:+
    String dquote (String dquote (", ok" +:+ String dquote EmptyString))))).

(** The value the enhancer returned, without the extra property of an
    array. *)
Definition enhanced_value (r : enhanced_results) : json :=
  match r with
  | Enhanced v => v
  | EnhancedArray l _ => JArr l
  end.

(** [results.categories[category]], a category of a result object. *)
Definition category_of (results : json) (category : string) : option json :=
  match Js.get results "categories" with
  | Some categories => Js.get categories category
  | None => None
  end.

(** [results.categories[category].items[key]], a rule group in the items
    map of a category. *)
Definition rule_group (results : json) (category key : string) : option json :=
  match category_of results category with
  | Some c =>
      match Js.get c "items" with
      | Some items => Js.get items key
      | None => None
      end
  | None => None
  end.

(** [l.indexOf(x)], with the length of [l] for an absent [x]. *)
Fixpoint first_index (x : string) (l : list string) : nat :=
  match l with
  | [] => 0
  | y :: l' => if String.eqb y x then 0 else S (first_index x l')
  end.

(** The [count] field of a rule group as a number; nothing is counted for
    a group without the field. *)
Definition count_field (item : json) : Z :=
  match Js.get item "count" with
  | Some (JNum n) => n
  | _ => 0%Z
  end.

(** The [count] field of a rule group is a number, or the group has none. *)
Definition count_well_typed (item : json) : Prop :=
  Js.get item "count" = None \/ exists n, Js.get item "count" = Some (JNum n).

(** The computation returns, it does not throw. *)
Definition returns {A : Type} (r : result A) : Prop := exists a, r = Ok a.

(** The auxiliary positional arrays of a rule group. *)
Definition auxiliary_arrays : list string := ["selectors"; "text"; "hidden"; "contrastdata"].


(** *** The [Element] column of a report row (src/wave-test.ts)

    The report builder walks the distinct XPaths of a rule with their
    index and reads [rule.domInfo?.[index]]. *)

(** [s.replace(/\s+/g, '.')]. *)
Definition dots_for_spaces (s : string) : string :=
  Js.join "." (Dom.split_spaces s).

Definition elementInfo (rule : json) (index : nat) (xpath : string) : result string :=
  let domInfo := match Js.get rule "domInfo" with
                 | Some (JArr infos) => nth_error infos index
                 | _ => None
                 end in
  match domInfo with
  | Some (JObj info) =>
      if Js.truthy_opt (Js.lookup_prop "error" info) then Ok xpath
      else
        let tag := match Js.lookup_prop "tagName" info with
                   | Some t => if Js.truthy t then Js.toString t else "Unknown"
                   | None => "Unknown"
                   end in
        let with_id := match Js.lookup_prop "id" info with
                       | Some i => if Js.truthy i then tag +:+ "#" +:+ Js.toString i else tag
                       | None => tag
                       end in
        match Js.lookup_prop "className" info with
        | Some (JStr c) =>
            if Js.truthy (JStr c) then Ok (with_id +:+ "." +:+ dots_for_spaces c)
            else Ok with_id
        | Some (JObj _) | Some (JArr _) =>
            Throw (TypeError "domInfo.className.replace is not a function")
        | Some (JNum n) =>
            if Js.truthy (JNum n)
            then Throw (TypeError "domInfo.className.replace is not a function")
            else Ok with_id
        | Some (JBool true) =>
            Throw (TypeError "domInfo.className.replace is not a function")
        | _ => Ok with_id
        end
  | Some (JArr _) => Ok "Unknown"
  | _ => Ok xpath
  end.

(** *** A page and a raw result, for concrete runs *)

Module Example.

Definition paragraph : Dom.element :=
  {| Dom.tagName := "P"; Dom.id := "intro"; Dom.className := Dom.ClassString "lead";
     Dom.textContent := "Welcome"; Dom.innerHTML := "Welcome";
     Dom.attributes := [("id", "intro"); ("class", "lead")] |}.

(** A document in which [/html/body/p[1]] selects the paragraph,
    [/html/body/img[1]] selects nothing, and [//[] is no XPath. *)
Definition document_evaluate (xpath : string) : Dom.xpath_outcome :=
  if String.eqb xpath "/html/body/p[1]"
  then Dom.SingleNodeValue (Some (Dom.ElementNode paragraph))
  else if String.eqb xpath "//["
  then Dom.EvaluateThrows "The string '//[' is not a valid XPath expression."
  else Dom.SingleNodeValue None.

Definition alt_missing : json :=
  JObj [("description", JStr "Missing alternative text");
        ("count", JNum 3);
        ("xpaths", JArr [JStr "/html/body/img[1]"; JStr "/html/body/img[1]";
                         JStr "/html/body/p[1]"]);
        ("selectors", JArr [JStr "img.hero"; JStr "img.hero"; JStr "p#intro"])].

(** A rule group whose [selectors] array is shorter than its list of
    distinct XPaths. *)
Definition label_missing : json :=
  JObj [("count", JNum 2);
        ("xpaths", JArr [JStr "/html/body/p[1]"; JStr "/html/body/img[1]"]);
        ("selectors", JArr [JStr "p#intro"])].

Definition results : json :=
  JObj [("categories",
         JObj [("error", JObj [("count", JNum 5);
                               ("items", JObj [("alt_missing", alt_missing);
                                               ("label_missing", label_missing)])]);
               ("alert", JObj [("count", JNum 1); ("items", JObj [])])]);
        ("statistics", JObj [("pagetitle", JStr "Home")])].

End Example.

(** ** Vocabulary of the frame property

    [h0] is the heap the caller hands over.  A value is [fresh] when it
    is no reference into [h0]; a heap [extends] [h0] when it holds [h0]
    unchanged and the objects it adds hold fresh values only. *)

Module Frame.
Import Heap.

Section Caller.

Variable h0 : heap.

Definition fresh_val (v : val) : Prop :=
  match v with
  | VRef l => h0 !! l = None
  | _ => True
  end.

Definition fresh_props (ps : list (string * val)) : Prop :=
  Forall (fun kv => fresh_val (snd kv)) ps.

Definition fresh_cell (c : cell) : Prop :=
  match c with
  | CArr elems extra => Forall fresh_val elems /\ fresh_props extra
  | CObj ps => fresh_props ps
  end.

Definition extends (h : heap) : Prop :=
  h0 ⊆ h /\ (forall l c, h !! l = Some c -> h0 !! l = None -> fresh_cell c).

(** [m] keeps the caller's heap and returns a result that satisfies [Q]. *)
Definition preserves {A : Type} (m : M A) (Q : A -> Prop) : Prop :=
  forall h r h', extends h -> m h = (r, h') ->
                 extends h' /\ (forall a, r = Ok a -> Q a).

End Caller.

End Frame.

(** ** Vocabulary of the refinement

    The copy made by [JSON.parse] is a tree in the heap: a [ltree] is a
    tree whose arrays and objects carry the location they live at. *)

Module Located.
Import Heap.

Inductive ltree : Type :=
| LNull
| LBool (b : bool)
| LNum (n : Z)
| LStr (s : string)
| LArr (l : loc) (elems : list ltree)
| LObj (l : loc) (props : list (string * ltree)).

(** The value that stands for the tree. *)
Definition root (t : ltree) : val :=
  match t with
  | LNull => VNull
  | LBool b => VBool b
  | LNum n => VNum n
  | LStr s => VStr s
  | LArr l _ | LObj l _ => VRef l
  end.

(** The tree without its locations. *)
Fixpoint erase (t : ltree) : json :=
  match t with
  | LNull => JNull
  | LBool b => JBool b
  | LNum n => JNum n
  | LStr s => JStr s
  | LArr _ ts => JArr (List.map erase ts)
  | LObj _ ps => JObj (List.map (fun kt => (fst kt, erase (snd kt))) ps)
  end.

(** The locations of the tree, the root first. *)
Fixpoint locs (t : ltree) : list loc :=
  match t with
  | LArr l ts => l :: flat_map locs ts
  | LObj l ps => l :: flat_map (fun kt => locs (snd kt)) ps
  | _ => []
  end.

Definition kroots (ps : list (string * ltree)) : list (string * val) :=
  List.map (fun kt => (fst kt, root (snd kt))) ps.
Definition kerase (ps : list (string * ltree)) : list (string * json) :=
  List.map (fun kt => (fst kt, erase (snd kt))) ps.
Definition klocs (ps : list (string * ltree)) : list loc :=
  flat_map (fun kt => locs (snd kt)) ps.

(** Heap [h] stores the tree: every array and object of the tree is at
    its location, with the roots of its children as content. *)
Fixpoint stored (h : heap) (t : ltree) : Prop :=
  match t with
  | LArr l ts =>
      h !! l = Some (CArr (List.map root ts) []) /\
      fold_right (fun t P => stored h t /\ P) True ts
  | LObj l ps =>
      h !! l = Some (CObj (kroots ps)) /\
      fold_right (fun kt P => stored h (snd kt) /\ P) True ps
  | _ => True
  end.

(** [o.k] and [o.k = t] on the properties of a located object. *)
Fixpoint lookup_prop (k : string) (ps : list (string * ltree)) : option ltree :=
  match ps with
  | [] => None
  | (k', t) :: ps' => if String.eqb k' k then Some t else lookup_prop k ps'
  end.

Fixpoint set_prop (k : string) (t : ltree) (ps : list (string * ltree))
  : list (string * ltree) :=
  match ps with
  | [] => [(k, t)]
  | (k', t') :: ps' =>
      if String.eqb k' k then (k, t) :: ps' else (k', t') :: set_prop k t ps'
  end.

(** From heap [h] to heap [h']: every object of [h] is still there, and
    unchanged unless its location is in [W]. *)
Definition confined (W : list loc) (h h' : heap) : Prop :=
  forall l, is_Some (h !! l) ->
            is_Some (h' !! l) /\ (l ∉ W -> h' !! l = h !! l).

(** What a loop body [body] does to a child that is a tree, in terms of
    the function [f] on trees: it throws when [f] throws; otherwise it
    leaves in the heap a tree with the same root that erases to the
    result of [f], it writes only to objects of the child, and the
    objects of the new tree are objects of the child or new ones. *)
Definition child_spec (pre : json -> Prop) (body : val -> M unit)
  (f : json -> result json) : Prop :=
  forall (t : ltree) (h : heap) (r : result unit) (h' : heap),
    stored h t -> NoDup (locs t) -> pre (erase t) ->
    body (root t) h = (r, h') ->
    match f (erase t) with
    | Throw e => r = Throw e
    | Ok j' =>
        r = Ok tt /\
        exists t', erase t' = j' /\ root t' = root t /\
                   stored h' t' /\ NoDup (locs t') /\
                   (forall l, l ∈ locs t' -> l ∈ locs t \/ h !! l = None) /\
                   confined (locs t) h h'
    end.

(** What [Object.keys(parent).forEach(key => body(parent[key]))] does to
    a tree, when [f] is what the body does to a child: the values of an
    object and the elements of an array go through [f]; the characters
    of a string are no objects, and a number or a boolean has no keys. *)
Definition for_each_value (f : json -> result json) (parent : json) : result json :=
  match parent with
  | JObj ps => try ps' <- mapM (on_values f) ps; Ok (JObj ps')
  | JArr l => try l' <- mapM f l; Ok (JArr l')
  | _ => Ok parent
  end.

(** The property names of an object are pairwise distinct. *)
Definition keys_distinct (j : json) : Prop :=
  match j with
  | JObj ps => NoDup (List.map fst ps)
  | _ => True
  end.

(** The names of [parent] are distinct and its children satisfy [pre]. *)
Definition children_pre (pre : json -> Prop) (parent : json) : Prop :=
  keys_distinct parent /\
  match parent with
  | JObj ps => Forall (fun kv => pre (snd kv)) ps
  | JArr l => Forall pre l
  | _ => True
  end.

(** The names of [category.items] are distinct. *)
Definition items_distinct (category : json) : Prop :=
  forall items, Js.get category "items" = Some items -> keys_distinct items.

(** A category that [filteredCategories] holds: it was retained, so it
    is truthy. *)
Definition category_ok (category : json) : Prop :=
  Js.truthy category = true /\ items_distinct category.

(** [set.add(x)] and [[...new Set(ts)]] on located trees: the test is
    the one of the heap, on the roots. *)
Definition set_add (seen : list ltree) (x : ltree) : list ltree :=
  if existsb (sameValueZero (root x)) (List.map root seen) then seen else (seen ++ [x])%list.

Definition spread_set (ts : list ltree) : list ltree := fold_left set_add ts [].

(** The object at [l] while the enhancer works on it: from the stored
    tree [LObj l ps0] in heap [h0] it has become the stored tree
    [LObj l ps] in heap [h], by writes to [l] alone. *)
Definition item_state (l : loc) (h0 : heap) (ps0 : list (string * ltree))
  (h : heap) (ps : list (string * ltree)) : Prop :=
  stored h (LObj l ps) /\
  NoDup (l :: klocs ps) /\
  (forall x, x ∈ klocs ps -> x ∈ klocs ps0 \/ h0 !! x = None) /\
  confined [l] h0 h.

(** From heap [h] to heap [h'] the trees [ts] have been added: they are
    stored in [h'] at pairwise distinct locations that [h] does not use,
    and [h'] holds nothing else that [h] does not hold unchanged. *)
Definition planted (h h' : heap) (ts : list ltree) : Prop :=
  Forall (stored h') ts /\
  NoDup (flat_map locs ts) /\
  (forall l, l ∈ flat_map locs ts -> h !! l = None) /\
  confined [] h h' /\
  (forall l, is_Some (h' !! l) -> is_Some (h !! l) \/ l ∈ flat_map locs ts).

End Located.

(** Every object of the tree has pairwise distinct property names, as
    every JavaScript object has. *)
Fixpoint distinct_keys (j : json) : Prop :=
  match j with
  | JArr js => fold_right (fun j P => distinct_keys j /\ P) True js
  | JObj ps =>
      NoDup (List.map fst ps) /\
      fold_right (fun kv P => distinct_keys (snd kv) /\ P) True ps
  | _ => True
  end.

(** ** The CSV file ([runAccessibilityTest], src/wave-test.ts)

    A row of [csvRows] is a [string[]]. *)

(** [row.map(escapeCSV).join(',')]. *)
Definition csv_line (row : list string) : string :=
  Js.join "," (List.map (fun field => escapeCSV (FieldString field)) row).

(** [csvRows.map(row => row.map(escapeCSV).join(',')).join('\n')]. *)
Definition csv_body (rows : list (list string)) : string :=
  Js.join (String newline EmptyString) (List.map csv_line rows).

(** What may stand behind a field in the file: nothing, or a separator
    first. *)
Definition after_field (t : string) : Prop :=
  match t with
  | EmptyString => True
  | String c _ => c = comma \/ c = newline
  end.

(** ** File names of the batch reports ([_sanitizeFilename], src/analyzer.js) *)

Definition underscore : ascii := "_"%char.

(** [url.replace(/[^a-zA-Z0-9]/g, '_').substring(0, 100)]. *)
Definition _sanitizeFilename (url : string) : string :=
  take 100 (map_chars (fun c => if is_alnum c then c else underscore) url).

(** ** Lists of URLs *)

Module UrlList.

(** [s.split(sep)] for a separator that matches exactly one code unit
    ([/[,\n]/], ['\n']): the pieces between the separators, the empty
    ones included; the empty string gives one empty piece. *)
Fixpoint split_on (is_sep : ascii -> bool) (s : string) : list string :=
  match s with
  | EmptyString => [EmptyString]
  | String c s' =>
      if is_sep c then EmptyString :: split_on is_sep s'
      else match split_on is_sep s' with
           | piece :: pieces => String c piece :: pieces
           | [] => [String c EmptyString]
           end
  end.

(** The class [[,\n]]. *)
Definition comma_or_newline (c : ascii) : bool := Ascii.eqb c comma || Ascii.eqb c newline.

(** The last [map] of the pipeline of src/run-test.ts: an absolute URL
    stays, a path is put behind the domain, with a slash between them
    unless it brings one. *)
Definition absolute (domain url : string) : string :=
  if startsWith "http://" url || startsWith "https://" url then url
  else
    let relativePath := if startsWith "/" url then url else "/" +:+ url in
    domain +:+ relativePath.

(** [TEST_URLS.split(/[,\n]/).map(url => url.trim())
      .filter(url => url.length > 0).map(...)], src/run-test.ts. *)
Definition test_urls (domain TEST_URLS : string) : list string :=
  List.map (absolute domain)
    (List.filter (fun url => (0 <? String.length url)%nat)
       (List.map Dom.trim (split_on comma_or_newline TEST_URLS))).

(** [loadUrlsFromFile(filePath)] of the command line (cli.js), on the
    content [fs.readFileSync] has returned: the URLs, or the message of
    the [Error] it throws. *)
Definition loadUrlsFromFile (urlsContent : string) : string + list string :=
  let urls :=
    List.filter (fun line => negb (String.eqb line EmptyString) && startsWith "http" line)
      (List.map Dom.trim (split_on (Ascii.eqb newline) urlsContent)) in
  if (length urls =? 0)%nat then inl "No valid URLs found in batch file"
  else inr urls.

End UrlList.

(** ** Waiting for the page to settle ([runAccessibilityTest], src/wave-test.ts) *)

Module Settle.

Definition maxWaitTime : Z := 30000.

(** The time-outs handed to [page.waitForLoadState] and to
    [page.waitForFunction], [None] where the call is not made.
    [startTime], [now1] and [now2] are the three readings of [Date.now()]:
    before [goto], after it, and after the wait for the network. *)
Definition timeouts (startTime now1 now2 : Z) : option Z * option Z :=
  let remainingTime := (maxWaitTime - (now1 - startTime))%Z in
  if (remainingTime >? 0)%Z then
    let finalWaitTime := (maxWaitTime - (now2 - startTime))%Z in
    (Some (Z.min remainingTime 6000),
     if (finalWaitTime >? 1000)%Z then Some (Z.min finalWaitTime 2000) else None)
  else (None, None).

End Settle.

(** *** What makes the enhancer throw, and what [domInfo] holds *)


(** A text property of a [domInfo] entry is absent, [null], or a string
    of at most [n] code units. *)
Definition text_within (n : nat) (v : option json) : Prop :=
  match v with
  | Some (JStr s) => (String.length s <= n)%nat
  | Some JNull | None => True
  | Some _ => False
  end.

(** ** The summary of a report ([_calculateSummary], src/analyzer.js) *)

Module Summary.

(** What [descriptions[categoryName] || 'Unknown category'] yields: a
    text, or a member that the object literal inherits from
    [Object.prototype], which is truthy. *)
Inductive category_description : Type :=
| Text (s : string)
| Inherited (name : string).

Definition descriptions : list (string * string) :=
  [ ("error", "Accessibility errors that must be fixed");
    ("alert", "Items that need manual review");
    ("feature", "Accessibility features detected");
    ("structure", "Structural elements found");
    ("aria", "ARIA elements and attributes");
    ("contrast", "Color contrast issues") ].

(** The names every object inherits from [Object.prototype]. *)
Definition object_prototype : list string :=
  [ "constructor"; "__defineGetter__"; "__defineSetter__"; "hasOwnProperty";
    "__lookupGetter__"; "__lookupSetter__"; "isPrototypeOf"; "propertyIsEnumerable";
    "toString"; "valueOf"; "__proto__"; "toLocaleString" ].

Fixpoint assoc (k : string) (l : list (string * string)) : option string :=
  match l with
  | [] => None
  | (k', v) :: l' => if String.eqb k' k then Some v else assoc k l'
  end.

Definition _getCategoryDescription (categoryName : string) : category_description :=
  match assoc categoryName descriptions with
  | Some d => Text d
  | None =>
      if existsb (String.eqb categoryName) object_prototype
      then Inherited categoryName
      else Text "Unknown category"
  end.

(** [categoryData && typeof categoryData.count === 'number' &&
    categoryData.count >= 0]. *)
Definition _isValidCategoryData (categoryData : json) : bool :=
  Js.truthy categoryData &&
  match Js.get categoryData "count" with
  | Some (JNum n) => (0 <=? n)%Z
  | _ => false
  end.

(** [Object.keys(items || {}).length]. *)
Definition keys_count (items : option json) : nat :=
  match items with
  | Some v => if Js.truthy v then length (Js.values v) else 0
  | None => 0
  end.

Record category_summary : Type := {
  count : Z;
  items : nat;
  description : category_description
}.

Record summary : Type := {
  totalIssues : Z;
  errors : Z;
  contrastErrors : Z;
  categories : list (string * category_summary);
  success : json;
  analysisTime : option json
}.

(** The object literal stored under [summary.categories[name]], for a
    category that passed [_isValidCategoryData]. *)
Definition category_entry (name : string) (data : json) : category_summary :=
  {| count := count_field data;
     items := keys_count (Js.get data "items");
     description := _getCategoryDescription name |}.

Definition _calculateSummary (analysisResult : json) : result summary :=
  match analysisResult with
  | JNull => Throw (TypeError "Cannot read properties of null (reading 'success')")
  | _ =>
      let summary :=
        {| totalIssues := 0; errors := 0; contrastErrors := 0; categories := [];
           success := match Js.get analysisResult "success" with
                      | Some v => if Js.truthy v then v else JBool false
                      | None => JBool false
                      end;
           analysisTime := Js.get analysisResult "timestamp" |} in
      if negb (Js.truthy_opt (Js.get analysisResult "success"))
         || negb (Js.truthy_opt (Js.get analysisResult "categories"))
      then Ok summary
      else
        match Js.get analysisResult "categories" with
        | None => Ok summary
        | Some cats =>
            let summary :=
              match Js.get cats "error" with
              | Some errorData =>
                  if Js.truthy errorData && _isValidCategoryData errorData
                  then {| totalIssues := totalIssues summary + count_field errorData;
                          errors := count_field errorData;
                          contrastErrors := contrastErrors summary;
                          categories := categories summary
                                        ++ [("error", category_entry "error" errorData)];
                          success := success summary;
                          analysisTime := analysisTime summary |}
                  else summary
              | None => summary
              end in
            let summary :=
              match Js.get cats "contrast" with
              | Some contrastData =>
                  if Js.truthy contrastData && _isValidCategoryData contrastData
                  then {| totalIssues := totalIssues summary + count_field contrastData;
                          errors := errors summary;
                          contrastErrors := count_field contrastData;
                          categories := categories summary
                                        ++ [("contrast", category_entry "contrast" contrastData)];
                          success := success summary;
                          analysisTime := analysisTime summary |}
                  else summary
              | None => summary
              end in
            Ok summary
        end
  end.

(** The value the page script of src/analyzer.js resolves with, after the
    enhancer. *)
Definition analysis_result (enhancedResults : enhanced_results) (timestamp : string)
  (attempts : nat) : json :=
  JObj [ ("success", JBool true);
         ("categories", categories_of enhancedResults);
         ("statistics",
           match enhancedResults with
           | Enhanced v =>
               match Js.get v "statistics" with
               | Some s => if Js.truthy s then s else JObj []
               | None => JObj []
               end
           | EnhancedArray _ _ => JObj []
           end);
         ("timestamp", JStr timestamp);
         ("attempts", JNum (Z.of_nat attempts)) ].

(** The number of distinct XPaths of a rule group. *)
Definition distinct_xpaths (item : json) : nat :=
  match Js.get item "xpaths" with
  | Some (JArr xs) => length (Js.spread_set xs)
  | _ => 0
  end.

(** Every rule group of the items map holds an array of XPaths. *)
Definition all_with_xpaths (ips : list (string * json)) : Prop :=
  Forall (fun kv => exists xs, Js.get (snd kv) "xpaths" = Some (JArr xs)) ips.

End Summary.

(** ** The batch orchestrator on a metered world

    The world of the orchestrator, extended by a meter that counts the
    calls of [analyzeUrl] and adds up the delays waited. *)

Module BatchMeter.

(** [loads]: the calls of [analyzeUrl] made so far, in order, each with
    its URL and with the time that had been waited when it was made;
    [waited]: the delays waited so far, added up. *)
Record meter : Type := {
  loads : list (string * nat);
  waited : nat
}.

Definition zero : meter := {| loads := []; waited := 0 |}.

Section Metered.

Variable world : Type.
Variable report : Type.
Variable analyzeUrl : string -> world -> (report + string) * world.
Variable saveIndividualReport : report -> string -> string -> world -> option string * world.
Variable wait : nat -> world -> world.

Definition metered_analyzeUrl (u : string) (w : world * meter)
  : (report + string) * (world * meter) :=
  let '(r, w') := analyzeUrl u (fst w) in
  (r, (w', {| loads := (loads (snd w) ++ [(u, waited (snd w))])%list;
              waited := waited (snd w) |})).

Definition metered_save (r : report) (u dir : string) (w : world * meter)
  : option string * (world * meter) :=
  let '(o, w') := saveIndividualReport r u dir (fst w) in (o, (w', snd w)).

Definition metered_wait (ms : nat) (w : world * meter) : world * meter :=
  (wait ms (fst w), {| loads := loads (snd w); waited := waited (snd w) + ms |}).

(** [analyzeBatch] on the metered world, the meter at zero. *)
Definition metered_analyzeBatch (config : Batch.config) (urls : list string) (w : world)
  : option (list (option (Batch.url_result report)) * result Batch.batch_summary
            * (world * meter)) :=
  Batch.analyzeBatch (world * meter) report metered_analyzeUrl metered_save metered_wait
                     config urls (w, zero).

End Metered.

(** The attempts of all records together. *)
Definition total_attempts (report : Type) (rs : list (Batch.url_result report)) : nat :=
  fold_right Nat.add 0%nat (List.map Batch.attempts rs).

(** The URL of each record, as often as the record tells attempts. *)
Definition attempted (report : Type) (rs : list (Batch.url_result report)) : list string :=
  concat (List.map (fun r => repeat (Batch.url r) (Batch.attempts r)) rs).

End BatchMeter.

(** ** The rows of the CSV report (src/wave-test.ts)

    The loop of [runAccessibilityTest] that fills [csvRows], on results of
    the declared types [WaveReport], [WaveCategory] and [WaveRuleData];
    the entries of [domInfo] and [contrastdata], declared [any], are JSON
    values.  The members [text] and [hidden], which the loop does not
    read, are left out. *)

Module Report.

(** An element of [selectors?: (string | boolean)[]]. *)
Inductive selector_value : Type :=
| SelString (s : string)
| SelBoolean (b : bool).

Record WaveRuleData : Type := {
  count : Z;
  xpaths : list string;
  selectors : option (list selector_value);
  description : option string;
  domInfo : option (list json);
  contrastdata : option (list json)
}.

Record WaveCategory : Type := {
  category_count : Z;
  items : list (string * WaveRuleData)
}.

Record WaveReport : Type := {
  error : option WaveCategory;
  contrast : option WaveCategory
}.

(** The elements of [categoriesToProcess]. *)
Inductive category : Type :=
| Error
| Contrast.

Definition category_name (c : category) : string :=
  match c with
  | Error => "error"
  | Contrast => "contrast"
  end.

(** [s.toUpperCase()] on the letters a to z. *)
Definition toUpperCase (s : string) : string :=
  map_chars (fun c => if is_lower c then ascii_of_nat (nat_of_ascii c - 32) else c) s.

(** [[...new Set(xs)]] on strings. *)
Definition unique (xs : list string) : list string :=
  fold_left (fun seen x => if existsb (String.eqb x) seen then seen else (seen ++ [x])%list)
            xs [].

(** [rule.selectors?.[index]], replaced by [N/A] unless it is a string. *)
Definition selector_column (rule : WaveRuleData) (index : nat) : string :=
  match selectors rule with
  | Some l =>
      match nth_error l index with
      | Some (SelString s) => s
      | _ => "N/A"
      end
  | None => "N/A"
  end.

(** [rule.description || ruleId]. *)
Definition described (ruleId : string) (rule : WaveRuleData) : string :=
  match description rule with
  | Some d => if String.eqb d EmptyString then ruleId else d
  | None => ruleId
  end.

(** A value in a template literal; [None] is [undefined]. *)
Definition template (v : option json) : string :=
  match v with
  | Some v => Js.toString v
  | None => "undefined"
  end.

Definition additionalInfo (ruleId : string) (rule : WaveRuleData) (index : nat) : string :=
  let additionalInfo := described ruleId rule in
  match contrastdata rule with
  | Some l =>
      match nth_error l index with
      | Some (JArr contrastData) =>
          additionalInfo +:+ " (Contrast: " +:+ template (nth_error contrastData 0)
          +:+ ", Colors: " +:+ template (nth_error contrastData 1)
          +:+ " on " +:+ template (nth_error contrastData 2) +:+ ")"
      | _ => additionalInfo
      end
  | None => additionalInfo
  end.

(** The rule as [elementInfo] reads it: its [domInfo] member. *)
Definition domInfo_of (rule : WaveRuleData) : json :=
  match domInfo rule with
  | Some infos => JObj [("domInfo", JArr infos)]
  | None => JObj []
  end.

(** The body of [uniqueXpaths.forEach((xpath, index) => ...)]: the row
    pushed, or the exception of [domInfo.className.replace]. *)
Definition row (c : category) (ruleId : string) (rule : WaveRuleData) (index : nat)
  (xpath : string) : result (list string) :=
  try element <- elementInfo (domInfo_of rule) index xpath;
  Ok [ ruleId;
       toUpperCase (category_name c);
       match c with Error => "Critical" | Contrast => "Serious" end;
       described ruleId rule;
       element;
       xpath;
       selector_column rule index;
       additionalInfo ruleId rule index;
       "https://wave.webaim.org/help#" +:+ ruleId ].

Fixpoint rows_from (c : category) (ruleId : string) (rule : WaveRuleData) (index : nat)
  (uniqueXpaths : list string) : result (list (list string)) :=
  match uniqueXpaths with
  | [] => Ok []
  | xpath :: rest =>
      try r <- row c ruleId rule index xpath;
      try rs <- rows_from c ruleId rule (S index) rest;
      Ok (r :: rs)
  end.

(** One round of [for (const [ruleId, ruleData] of Object.entries(items))]. *)
Definition rows_of_rule (c : category) (entry : string * WaveRuleData)
  : result (list (list string)) :=
  if (0 <? count (snd entry))%Z
  then rows_from c (fst entry) (snd entry) 0 (unique (xpaths (snd entry)))
  else Ok [].

(** One round of [for (const category of categoriesToProcess)]. *)
Definition rows_of_category (c : category) (categoryData : option WaveCategory)
  : result (list (list string)) :=
  match categoryData with
  | Some data =>
      if (0 <? category_count data)%Z
      then try rss <- mapM (rows_of_rule c) (items data); Ok (concat rss)
      else Ok []
  | None => Ok []
  end.

Definition csvRows (waveResults : WaveReport) : result (list (list string)) :=
  try errors <- rows_of_category Error (error waveResults);
  try contrasts <- rows_of_category Contrast (contrast waveResults);
  Ok (errors ++ contrasts)%list.

(** Column [i] of a row. *)
Definition column (i : nat) (r : list string) : string := nth i r EmptyString.

(** The rules of a category that the loop reports: those with a positive
    count, in a category with a positive count. *)
Definition reported (categoryData : option WaveCategory) : list (string * WaveRuleData) :=
  match categoryData with
  | Some data =>
      if (0 <? category_count data)%Z
      then List.filter (fun entry => (0 <? count (snd entry))%Z) (items data)
      else []
  | None => []
  end.

(** What every row of a category looks like: nine columns, the category
    and its impact, and the help URL of the rule. *)
Definition shaped (c : category) (r : list string) : Prop :=
  length r = 9%nat /\
  column 1 r = match c with Error => "ERROR" | Contrast => "CONTRAST" end /\
  column 2 r = match c with Error => "Critical" | Contrast => "Serious" end /\
  column 8 r = "https://wave.webaim.org/help#" +:+ column 0 r.

(** The distinct XPaths of the rules, rule after rule. *)
Definition distinct_of (rules : list (string * WaveRuleData)) : list string :=
  concat (List.map (fun entry => unique (xpaths (snd entry))) rules).

(** The identifier of each rule, once for each of its distinct XPaths. *)
Definition ids_of (rules : list (string * WaveRuleData)) : list string :=
  concat (List.map (fun entry => repeat (fst entry) (length (unique (xpaths (snd entry)))))
                   rules).



(** *** A report of two rules, for concrete runs *)

Module Sample.

Definition image_rule : WaveRuleData :=
  {| count := 2;
     xpaths := ["/html/body/img[1]"; "/html/body/img[1]"; "/html/body/p[1]"];
     selectors := Some [SelString "img.hero"; SelBoolean false];
     description := Some "Missing alternative text";
     domInfo := Some [element_info Example.paragraph "#intro"];
     contrastdata := None |}.

Definition contrast_low : WaveRuleData :=
  {| count := 1;
     xpaths := ["/html/body/p[1]"];
     selectors := None;
     description := None;
     domInfo := None;
     contrastdata := Some [JArr [JNum 3; JStr "#777777"; JStr "#ffffff"]] |}.

Definition report : WaveReport :=
  {| error := Some {| category_count := 2; items := [("alt_missing", image_rule)] |};
     contrast := Some {| category_count := 1; items := [("contrast", contrast_low)] |} |}.

(** An SVG element with an [id]. *)
Definition logo : Dom.element :=
  {| Dom.tagName := "svg"; Dom.id := "logo"; Dom.className := Dom.ClassAnimated;
     Dom.textContent := ""; Dom.innerHTML := "<path/>";
     Dom.attributes := [("id", "logo")] |}.

(** A document in which every XPath selects the logo. *)
Definition svg_document (xpath : string) : Dom.xpath_outcome :=
  Dom.SingleNodeValue (Some (Dom.ElementNode logo)).

(** The report of a page whose logo lacks a title. *)
Definition svg_report : WaveReport :=
  {| error := Some {| category_count := 1;
                      items := [("svg_missing_title",
                                 {| count := 1;
                                    xpaths := ["/html/body/svg[1]"];
                                    selectors := None;
                                    description := None;
                                    domInfo := Some [getElementInfo svg_document
                                                       (JStr "/html/body/svg[1]")];
                                    contrastdata := None |})] |};
     contrast := None |}.

End Sample.

End Report.

(** * Properties *)

(** ** Strings *)

Lemma length_take n s : String.length (take n s) = Nat.min n (String.length s).
Proof.
  revert s; induction n as [|n IH]; intros [|c s]; simpl; auto.
Qed.

Lemma take_all n s : (String.length s <= n)%nat -> take n s = s.
Proof.
  revert s; induction n as [|n IH]; intros [|c s]; simpl; intros H; auto; try lia.
  f_equal. apply IH. lia.
Qed.

Lemma length_map_chars f s : String.length (map_chars f s) = String.length s.
Proof. induction s; simpl; auto. Qed.

Lemma get_map_chars f s i :
  String.get i (map_chars f s) = option_map f (String.get i s).
Proof.
  revert i; induction s as [|c s IH]; intros [|i]; simpl; auto.
Qed.

Lemma length_append (s t : string) :
  String.length (s +:+ t) = (String.length s + String.length t)%nat.
Proof. induction s; simpl; auto. Qed.

Lemma includes_In c s : includes c s = true <-> In c (list_ascii_of_string s).
Proof.
  induction s as [|d s IH]; simpl.
  - split; [discriminate | tauto].
  - destruct (Ascii.eqb_spec d c) as [->|Hne].
    + split; auto.
    + rewrite IH. split; [auto | intros [?|?]; [congruence | auto]].
Qed.

Lemma startsWith_append p s : startsWith p (p +:+ s) = true.
Proof. induction p; simpl; auto. rewrite Ascii.eqb_refl. auto. Qed.

Lemma startsWith_inv p s : startsWith p s = true -> exists t, s = p +:+ t.
Proof.
  revert s; induction p as [|a p IH]; intros s H; simpl in *.
  - eauto.
  - destruct s as [|b s]; [discriminate|].
    destruct (Ascii.eqb_spec a b) as [->|]; [|discriminate].
    destruct (IH _ H) as [t ->]. eauto.
Qed.

Lemma drop_prefix_append p s : drop_prefix (String.length p) (p +:+ s) = s.
Proof. induction p; simpl; auto. Qed.

Lemma ends_with_char_snoc c s : ends_with_char c (s +:+ String c EmptyString) = true.
Proof.
  induction s as [|d s IH]; simpl.
  - apply Ascii.eqb_refl.
  - destruct (s +:+ String c EmptyString) eqn:E; auto.
    destruct s; discriminate.
Qed.

Lemma drop_last_snoc c s : drop_last (s +:+ String c EmptyString) = s.
Proof.
  induction s as [|d s IH]; simpl; auto.
  destruct (s +:+ String c EmptyString) eqn:E.
  - destruct s; discriminate.
  - rewrite IH. reflexivity.
Qed.

Lemma ends_with_char_inv c s :
  ends_with_char c s = true -> exists t, s = t +:+ String c EmptyString.
Proof.
  induction s as [|d s IH]; simpl; [discriminate|].
  destruct s as [|e s].
  - intros H. apply Ascii.eqb_eq in H. subst. exists EmptyString. reflexivity.
  - intros H. destruct (IH H) as [t Ht]. exists (String d t). rewrite Ht. reflexivity.
Qed.

Lemma all_chars_take p n s : all_chars p s = true -> all_chars p (take n s) = true.
Proof.
  revert s; induction n as [|n IH]; intros [|c s]; simpl; auto.
  intros H. apply andb_true_iff in H as [-> H]. simpl. auto.
Qed.

(** ** CSV escaping *)

Lemma string_of_list_ascii_app l1 l2 :
  string_of_list_ascii (l1 ++ l2) = string_of_list_ascii l1 +:+ string_of_list_ascii l2.
Proof. induction l1 as [|a l1 IH]; simpl; [reflexivity|]. rewrite IH. reflexivity. Qed.

Lemma double_quotes_flat_map s :
  double_quotes s =
  string_of_list_ascii
    (flat_map (fun c => if Ascii.eqb c dquote then [dquote; dquote] else [c])
              (list_ascii_of_string s)).
Proof.
  induction s as [|c s IH]; simpl; auto.
  destruct (Ascii.eqb c dquote); simpl; rewrite IH; reflexivity.
Qed.

Lemma needs_quoting_iff s :
  needs_quoting s = true <->
  In dquote (list_ascii_of_string s) \/ In comma (list_ascii_of_string s)
  \/ In newline (list_ascii_of_string s).
Proof.
  unfold needs_quoting. rewrite !orb_true_iff, !includes_In. tauto.
Qed.

(** C4. The CSV escaping function returns the two-quote string for [null]
    and for [undefined]; a field holding a double quote, a comma or a
    newline comes back between double quotes with every inner double quote
    doubled; any other field comes back unchanged, so that escaping such a
    field again changes nothing; and the field [he_said] of the
    specification becomes [he_said_escaped]. *)
Theorem escapeCSV_spec :
  escapeCSV FieldNull = String dquote (String dquote EmptyString) /\
  escapeCSV FieldUndefined = String dquote (String dquote EmptyString) /\
  (forall s,
      In dquote (list_ascii_of_string s) \/ In comma (list_ascii_of_string s)
      \/ In newline (list_ascii_of_string s) ->
      escapeCSV (FieldString s) = quoted_form s) /\
  (forall s,
      ~ In dquote (list_ascii_of_string s) -> ~ In comma (list_ascii_of_string s) ->
      ~ In newline (list_ascii_of_string s) ->
      escapeCSV (FieldString s) = s /\
      escapeCSV (FieldString (escapeCSV (FieldString s))) = escapeCSV (FieldString s)) /\
  escapeCSV (FieldString he_said) = he_said_escaped.
Proof.
  split; [reflexivity|]. split; [reflexivity|]. split; [|split].
  - intros s H. apply needs_quoting_iff in H. unfold escapeCSV, quoted_form.
    rewrite H, double_quotes_flat_map. simpl.
    rewrite string_of_list_ascii_app. reflexivity.
  - intros s H1 H2 H3.
    assert (E : needs_quoting s = false).
    { destruct (needs_quoting s) eqn:E; auto.
      apply needs_quoting_iff in E. tauto. }
    unfold escapeCSV. rewrite E, E. auto.
  - vm_compute. reflexivity.
Qed.

(** The three cases of C4 at concrete fields. *)
Lemma escapeCSV_spec_witness :
  escapeCSV (FieldString "a,b") = quoted_form "a,b" /\
  escapeCSV (FieldString "plain") = "plain".
Proof.
  destruct escapeCSV_spec as (_ & _ & Hq & Hp & _). split.
  - apply Hq. right; left. simpl. auto.
  - apply Hp; simpl; intros H; repeat (destruct H as [H|H]; [discriminate H|]); exact H.
Defined.

(** ** File names *)

Lemma truncate_base_take ext s :
  truncate_base ext s = take (Z.to_nat (maxBaseLength ext)) s.
Proof.
  unfold truncate_base, substring0.
  destruct (Z.gtb_spec (Z.of_nat (String.length s)) (maxBaseLength ext)); auto.
  symmetry. apply take_all. lia.
Qed.

Lemma sanitize_chars s : all_chars (fun c => is_alnum c || Ascii.eqb c dash) (sanitize s) = true.
Proof.
  unfold sanitize.
  induction s as [|c s IH]; cbn [map_chars all_chars]; [reflexivity|].
  rewrite IH, andb_true_r.
  destruct (is_alnum c) eqn:E; [rewrite E; reflexivity|].
  apply orb_true_r.
Qed.

(** C9. For every URL the derived file name is the fixed prefix
    [accessibility-results-], a base, a dot and the extension.  The base is
    the URL without a leading [http://] or [https://], without one
    trailing slash, with every code unit that is no letter or digit turned
    into a dash, cut to [200 - 1 - length extension] code units; with an
    extension of at most 231 code units the whole name stays below 255 code
    units; the function is total; [https://example.com/about] gives a name
    holding [example-com-about]. *)
Theorem generateFilename_spec (url extension : string)
  (Hext : (String.length extension <= 231)%nat) :
  let stripped := strip_trailing_slash (strip_protocol url) in
  let base := take (Z.to_nat (200 - Z.of_nat (String.length extension) - 1)) (sanitize stripped) in
  generateFilename url extension
    = "accessibility-results-" +:+ base +:+ "." +:+ extension /\
  (String.length (generateFilename url extension) < 255)%nat /\
  ((String.length extension <= 199)%nat ->
   (String.length (generateFilename url extension) <= 222)%nat) /\
  (forall rest, url = "http://" +:+ rest \/ url = "https://" +:+ rest ->
                strip_protocol url = rest) /\
  (startsWith "http://" url = false -> startsWith "https://" url = false ->
   strip_protocol url = url) /\
  (forall s, strip_trailing_slash (s +:+ "/") = s) /\
  (forall s, ends_with_char slash s = false -> strip_trailing_slash s = s) /\
  String.length (sanitize stripped) = String.length stripped /\
  (forall i c, String.get i stripped = Some c ->
               String.get i (sanitize stripped) = Some (if is_alnum c then c else dash)) /\
  all_chars (fun c => is_alnum c || Ascii.eqb c dash) base = true /\
  generateFilename "https://example.com/about" "csv"
    = "accessibility-results-example-com-about.csv" /\
  generateFilename "https://example.com/about/" "json"
    = "accessibility-results-example-com-about.json" /\
  contains "example-com-about" (generateFilename "https://example.com/about" "csv").
Proof.
  intros stripped base.
  assert (Hgen : generateFilename url extension
                 = "accessibility-results-" +:+ base +:+ "." +:+ extension).
  { unfold generateFilename. rewrite truncate_base_take. reflexivity. }
  assert (Hlen : String.length (generateFilename url extension)
                 = (22 + String.length base + 1 + String.length extension)%nat).
  { rewrite Hgen, !length_append. simpl. lia. }
  assert (Hbase : (String.length base
                   <= Z.to_nat (200 - Z.of_nat (String.length extension) - 1))%nat).
  { unfold base. rewrite length_take. lia. }
  repeat split.
  - exact Hgen.
  - rewrite Hlen. lia.
  - intros H. rewrite Hlen. lia.
  - intros rest [-> | ->]; reflexivity.
  - intros H1 H2. unfold strip_protocol. rewrite H1, H2. reflexivity.
  - intros s. unfold strip_trailing_slash.
    change "/" with (String slash EmptyString).
    rewrite ends_with_char_snoc. apply drop_last_snoc.
  - intros s H. unfold strip_trailing_slash. rewrite H. reflexivity.
  - apply length_map_chars.
  - intros i c H. unfold sanitize. rewrite get_map_chars, H. reflexivity.
  - unfold base. apply all_chars_take, sanitize_chars.
  - exists "accessibility-results-", ".csv". reflexivity.
Qed.

(** C9 at the URL [http://a.b/] with the extension [csv]. *)
Lemma generateFilename_spec_witness :
  generateFilename "http://a.b/" "csv" = "accessibility-results-a-b.csv" /\
  (String.length (generateFilename "http://a.b/" "csv") < 255)%nat.
Proof.
  assert (H : (String.length "csv" <= 231)%nat) by (simpl; lia).
  destruct (generateFilename_spec "http://a.b/" "csv" H) as (H1 & H2 & _).
  split; [exact H1 | exact H2].
Defined.

(** ** Objects as property lists *)

Lemma lookup_set_prop_eq k v ps : Js.lookup_prop k (Js.set_prop k v ps) = Some v.
Proof.
  induction ps as [|[k' v'] ps IH]; simpl.
  - rewrite String.eqb_refl. reflexivity.
  - destruct (String.eqb k' k) eqn:E; simpl.
    + rewrite String.eqb_refl. reflexivity.
    + rewrite E. exact IH.
Qed.

Lemma lookup_set_prop_ne k k' v ps :
  k <> k' -> Js.lookup_prop k' (Js.set_prop k v ps) = Js.lookup_prop k' ps.
Proof.
  intros Hne. induction ps as [|[k0 v0] ps IH]; simpl.
  - apply String.eqb_neq in Hne. rewrite Hne. reflexivity.
  - destruct (String.eqb k0 k) eqn:E; simpl.
    + apply String.eqb_eq in E. subst k0.
      apply String.eqb_neq in Hne. rewrite Hne. reflexivity.
    + destruct (String.eqb k0 k'); auto.
Qed.

Lemma lookup_prop_In k v ps : Js.lookup_prop k ps = Some v -> In (k, v) ps.
Proof.
  induction ps as [|[k' v'] ps IH]; simpl; [discriminate|].
  destruct (String.eqb_spec k' k) as [->|]; intros H.
  - injection H as ->. auto.
  - auto.
Qed.

Lemma lookup_truncate_array_ne k k' n ps :
  k <> k' -> Js.lookup_prop k' (truncate_array k n ps) = Js.lookup_prop k' ps.
Proof.
  intros Hne. unfold truncate_array.
  destruct (Js.lookup_prop k ps) as [[]|]; auto using lookup_set_prop_ne.
Qed.

Lemma lookup_truncate_array_eq k n ps l :
  Js.lookup_prop k ps = Some (JArr l) ->
  Js.lookup_prop k (truncate_array k n ps) = Some (JArr (firstn n l)).
Proof.
  intros H. unfold truncate_array. rewrite H. apply lookup_set_prop_eq.
Qed.

(** ** Loops with an early exit *)

Lemma mapM_Forall2 {A B} (f : A -> result B) l l' :
  mapM f l = Ok l' -> Forall2 (fun x y => f x = Ok y) l l'.
Proof.
  revert l'; induction l as [|x l IH]; simpl; intros l' H.
  - injection H as <-. constructor.
  - destruct (f x) as [y|] eqn:E; simpl in H; [|discriminate].
    destruct (mapM f l) as [ys|]; simpl in H; [|discriminate].
    injection H as <-. constructor; auto.
Qed.

Lemma mapM_on_values_lookup f ps ps' k :
  mapM (on_values f) ps = Ok ps' ->
  match Js.lookup_prop k ps with
  | Some v => exists v', f v = Ok v' /\ Js.lookup_prop k ps' = Some v'
  | None => Js.lookup_prop k ps' = None
  end.
Proof.
  intros H. apply mapM_Forall2 in H.
  induction H as [|[k0 v0] [k1 v1] ps ps' Hx _ IH]; simpl; auto.
  unfold on_values in Hx. simpl in Hx.
  destruct (f v0) as [v0'|] eqn:E; simpl in Hx; [|discriminate].
  injection Hx as <- <-.
  destruct (String.eqb k0 k); eauto.
Qed.

Lemma mapM_on_values_In f ps ps' k v' :
  mapM (on_values f) ps = Ok ps' -> In (k, v') ps' ->
  exists v, In (k, v) ps /\ f v = Ok v'.
Proof.
  intros H. apply mapM_Forall2 in H.
  induction H as [|[k0 v0] [k1 v1] ps ps' Hx _ IH]; simpl; [tauto|].
  unfold on_values in Hx. simpl in Hx.
  destruct (f v0) as [v0'|] eqn:E; simpl in Hx; [|discriminate].
  injection Hx as <- <-.
  intros [Heq | Hin].
  - injection Heq as <- <-. eauto.
  - destruct (IH Hin) as (v & ? & ?). eauto.
Qed.

Lemma lookup_set_prop k k' v ps :
  Js.lookup_prop k' (Js.set_prop k v ps)
  = if String.eqb k k' then Some v else Js.lookup_prop k' ps.
Proof.
  destruct (String.eqb_spec k k') as [->|Hne].
  - apply lookup_set_prop_eq.
  - apply lookup_set_prop_ne, Hne.
Qed.

Lemma lookup_truncate_array k k' n ps :
  Js.lookup_prop k' (truncate_array k n ps)
  = if String.eqb k k'
    then match Js.lookup_prop k ps with
         | Some (JArr l) => Some (JArr (firstn n l))
         | o => o
         end
    else Js.lookup_prop k' ps.
Proof.
  destruct (String.eqb_spec k k') as [<-|Hne].
  - unfold truncate_array.
    destruct (Js.lookup_prop k ps) as [[]|] eqn:E; auto using lookup_set_prop_eq.
  - apply lookup_truncate_array_ne, Hne.
Qed.

(** ** Deduplication *)

Lemma existsb_sameValueZero_strings x acc :
  existsb (Js.sameValueZero (JStr x)) (List.map JStr acc) = true <-> In x acc.
Proof.
  induction acc as [|y acc IH]; simpl.
  - split; [discriminate | tauto].
  - rewrite orb_true_iff, IH, String.eqb_eq. split; intros [?|?]; auto.
Qed.

Lemma StronglySorted_map_S (f : string -> nat) l :
  StronglySorted lt (List.map f l) ->
  StronglySorted lt (List.map (fun x => S (f x)) l).
Proof.
  induction l as [|x l IH]; simpl; intros H; [constructor|].
  inversion H as [|? ? Hs Hall]; subst. constructor; [auto|].
  rewrite Forall_map in *. eapply Forall_impl; [exact Hall|].
  simpl. intros; lia.
Qed.

Lemma map_first_index_cons_ne x l tail :
  ~ In x tail ->
  List.map (fun y => first_index y (x :: l)) tail
  = List.map (fun y => S (first_index y l)) tail.
Proof.
  intros Hx. apply map_ext_in. intros y Hy. simpl.
  destruct (String.eqb_spec x y) as [->|]; [tauto | reflexivity].
Qed.

(** The content of the [Set] while the strings [ss] are added to the
    distinct strings [acc]. *)
Lemma fold_set_add_strings ss : forall acc,
  NoDup acc ->
  exists tail,
    fold_left Js.set_add (List.map JStr ss) (List.map JStr acc)
      = List.map JStr (acc ++ tail) /\
    NoDup (acc ++ tail) /\
    (forall x, In x tail <-> In x ss /\ ~ In x acc) /\
    StronglySorted lt (List.map (fun x => first_index x ss) tail).
Proof.
  induction ss as [|x ss IH]; intros acc Hnd.
  - exists []. simpl. rewrite app_nil_r. repeat split; auto; try tauto. constructor.
  - change (fold_left Js.set_add (List.map JStr (x :: ss)) (List.map JStr acc))
      with (fold_left Js.set_add (List.map JStr ss) (Js.set_add (List.map JStr acc) (JStr x))).
    unfold Js.set_add at 2.
    destruct (existsb (Js.sameValueZero (JStr x)) (List.map JStr acc)) eqn:E.
    + apply existsb_sameValueZero_strings in E.
      destruct (IH acc Hnd) as (tail & Heq & Hnd' & Hin & Hsort).
      exists tail. split; [exact Heq|]. split; [exact Hnd'|]. split.
      * intros y. rewrite Hin. split.
        -- intros [? ?]; simpl; tauto.
        -- intros [[->|?] ?]; tauto.
      * rewrite map_first_index_cons_ne.
        -- apply StronglySorted_map_S, Hsort.
        -- intros Hx. apply Hin in Hx. tauto.
    + assert (Hx : ~ In x acc).
      { intros Hx. apply existsb_sameValueZero_strings in Hx. congruence. }
      assert (Hnd1 : NoDup (acc ++ [x])).
      { apply NoDup_app. split; [exact Hnd|]. split.
        - intros y Hy Hy'. apply list_elem_of_In in Hy, Hy'.
          destruct Hy' as [<-|[]]. tauto.
        - constructor; [|constructor]. intros H. inversion H. }
      change (List.map JStr acc ++ [JStr x])%list with (List.map JStr acc ++ List.map JStr [x])%list.
      rewrite <- List.map_app.
      destruct (IH (acc ++ [x])%list Hnd1) as (tail & Heq & Hnd' & Hin & Hsort).
      exists (x :: tail).
      assert (Hxt : ~ In x tail).
      { intros H. apply Hin in H as [_ H]. apply H, in_or_app. right; left; reflexivity. }
      split; [|split; [|split]].
      * rewrite Heq. rewrite <- app_assoc. reflexivity.
      * rewrite <- app_assoc in Hnd'. exact Hnd'.
      * intros y. simpl. rewrite Hin, in_app_iff. simpl.
        destruct (String.eqb_spec x y) as [->|Hne]; [tauto|].
        split.
        -- intros [?|[? ?]]; [congruence|]. split; [auto|tauto].
        -- intros [[?|?] ?]; [congruence|]. right. split; [auto|]. intros [?|[?|[]]]; tauto.
      * rewrite List.map_cons. rewrite map_first_index_cons_ne by exact Hxt.
        simpl first_index. rewrite String.eqb_refl.
        constructor.
        -- apply StronglySorted_map_S, Hsort.
        -- rewrite Forall_map. apply Forall_forall. intros; simpl; lia.
Qed.

(** [[...new Set(xs)]] on strings: every distinct string once, in the
    order of the first occurrences. *)
Lemma spread_set_strings ss :
  exists us,
    Js.spread_set (List.map JStr ss) = List.map JStr us /\
    NoDup us /\
    (forall x, In x us <-> In x ss) /\
    StronglySorted lt (List.map (fun x => first_index x ss) us).
Proof.
  destruct (fold_set_add_strings ss [] (NoDup_nil_2 (A:=string))) as (us & Heq & Hnd & Hin & Hs).
  exists us. split; [exact Heq|]. split; [exact Hnd|]. split; [|exact Hs].
  intros x. rewrite Hin. simpl. tauto.
Qed.

Lemma length_spread_set_le xs : forall acc,
  (length (fold_left Js.set_add xs acc) <= length acc + length xs)%nat.
Proof.
  induction xs as [|x xs IH]; intros acc; simpl; [lia|].
  specialize (IH (Js.set_add acc x)). unfold Js.set_add in *.
  destruct (existsb _ acc); [lia|]. rewrite length_app in IH. simpl in IH. lia.
Qed.

(** ** The enhancer on trees *)

Lemma enhance_item_array (doc : string -> Dom.xpath_outcome) ps xs :
  Js.lookup_prop "xpaths" ps = Some (JArr xs) ->
  let u := Js.spread_set xs in
  exists ps',
    enhance_item doc (JObj ps) = Ok (JObj ps') /\
    Js.lookup_prop "xpaths" ps' = Some (JArr u) /\
    Js.lookup_prop "count" ps' = Some (JNum (Z.of_nat (length u))) /\
    Js.lookup_prop "domInfo" ps'
      = Some (JArr (List.filter (fun info => negb (is_null info))
                                (List.map (getElementInfo doc) u))) /\
    (forall k, In k auxiliary_arrays ->
               Js.lookup_prop k ps'
               = match Js.lookup_prop k ps with
                 | Some (JArr l) => Some (JArr (firstn (length u) l))
                 | o => o
                 end).
Proof.
  intros Hx u. unfold enhance_item. rewrite Hx. fold u.
  eexists. split; [reflexivity|].
  repeat split.
  - rewrite !lookup_truncate_array, !lookup_set_prop. reflexivity.
  - rewrite !lookup_truncate_array, !lookup_set_prop. reflexivity.
  - rewrite !lookup_truncate_array, !lookup_set_prop. reflexivity.
  - intros k Hk. simpl in Hk.
    destruct Hk as [<-|[<-|[<-|[<-|[]]]]];
      rewrite !lookup_truncate_array, !lookup_set_prop; reflexivity.
Qed.

Lemma enhance_item_other (doc : string -> Dom.xpath_outcome) item :
  (forall xs, Js.get item "xpaths" <> Some (JArr xs)) -> item <> JNull ->
  enhance_item doc item = Ok item.
Proof.
  intros Hx Hn. destruct item as [| | | | |ps]; try reflexivity; [congruence|].
  simpl in *. destruct (Js.lookup_prop "xpaths" ps) as [[]|]; try reflexivity.
  exfalso. eapply Hx. reflexivity.
Qed.

Lemma retained_category_of results k :
  retained results k
  = match category_of results k with
    | Some c => if Js.truthy c then [(k, c)] else []
    | None => []
    end.
Proof.
  unfold retained, category_of.
  destruct (Js.get results "categories") as [cats|]; [|reflexivity].
  destruct (Js.truthy cats) eqn:E; [reflexivity|].
  destruct cats; try discriminate; reflexivity.
Qed.

Lemma filtered0_lookup results cat :
  cat = "error" \/ cat = "contrast" ->
  Js.lookup_prop cat (filtered0 results)
  = match category_of results cat with
    | Some c => if Js.truthy c then Some c else None
    | None => None
    end.
Proof.
  unfold filtered0. rewrite !retained_category_of.
  intros [-> | ->].
  - destruct (category_of results "error") as [c|]; simpl.
    + destruct (Js.truthy c); simpl; [reflexivity|].
      destruct (category_of results "contrast") as [c'|]; [|reflexivity].
      destruct (Js.truthy c'); reflexivity.
    + destruct (category_of results "contrast") as [c'|]; [|reflexivity].
      destruct (Js.truthy c'); reflexivity.
  - destruct (category_of results "error") as [c|]; simpl.
    + destruct (Js.truthy c); simpl;
        (destruct (category_of results "contrast") as [c'|]; [|reflexivity]);
        destruct (Js.truthy c'); reflexivity.
    + destruct (category_of results "contrast") as [c'|]; [|reflexivity].
      destruct (Js.truthy c'); reflexivity.
Qed.

Lemma filtered0_In results k c :
  In (k, c) (filtered0 results) ->
  (k = "error" \/ k = "contrast") /\ category_of results k = Some c /\ Js.truthy c = true.
Proof.
  unfold filtered0. rewrite !retained_category_of, in_app_iff.
  intros [H|H].
  - destruct (category_of results "error") as [c'|] eqn:E; [|destruct H].
    destruct (Js.truthy c') eqn:T; [|destruct H].
    destruct H as [H|[]]. injection H as <- <-. auto.
  - destruct (category_of results "contrast") as [c'|] eqn:E; [|destruct H].
    destruct (Js.truthy c') eqn:T; [|destruct H].
    destruct H as [H|[]]. injection H as <- <-. auto.
Qed.

Lemma filtered0_lookup_other results k :
  k <> "error" -> k <> "contrast" -> Js.lookup_prop k (filtered0 results) = None.
Proof.
  intros H1 H2.
  destruct (Js.lookup_prop k (filtered0 results)) as [c|] eqn:E; [|reflexivity].
  apply lookup_prop_In, filtered0_In in E. tauto.
Qed.

(** What a normal return of the enhancer tells. *)
Lemma enhance_Ok (doc : string -> Dom.xpath_outcome) results out :
  enhanceResultsWithDOMInfo doc results = Ok out ->
  exists f1 f2,
    mapM (on_values (enhance_category doc)) (filtered0 results) = Ok f1 /\
    mapM (on_values recount_category) f1 = Ok f2 /\
    categories_of out = JObj f2 /\
    (forall ps, results = JObj ps ->
                out = Enhanced (JObj (Js.set_prop "categories" (JObj f2) ps))) /\
    (forall c, category_of (enhanced_value out) c = Js.lookup_prop c f2).
Proof.
  unfold enhanceResultsWithDOMInfo.
  destruct results as [| b | n | s | l | ps]; [discriminate| | | | |];
    (destruct (mapM (on_values (enhance_category doc)) (filtered0 _)) as [f1|] eqn:E1;
       [|discriminate]);
    simpl; (destruct (mapM (on_values recount_category) f1) as [f2|] eqn:E2;
              [|discriminate]);
    simpl; intros H; injection H as <-; exists f1, f2;
    (split; [reflexivity|]); (split; [exact E2|]).
  1-4: vm_compute in E1; injection E1 as <-; vm_compute in E2; injection E2 as <-;
       repeat split; try discriminate; reflexivity.
  split; [|split].
  - simpl. rewrite lookup_set_prop_eq. reflexivity.
  - intros ps' H. injection H as <-. reflexivity.
  - intros c. unfold category_of. simpl. rewrite lookup_set_prop_eq. reflexivity.
Qed.

Lemma get_Some_JObj v k x : Js.get v k = Some x -> exists ps, v = JObj ps.
Proof. destruct v; simpl; try discriminate. eauto. Qed.

Lemma truthy_JObj ps : Js.truthy (JObj ps) = true.
Proof. reflexivity. Qed.

(** A category with an items map after the first pass. *)
Lemma enhance_category_items (doc : string -> Dom.xpath_outcome) cps ips c1 :
  Js.lookup_prop "items" cps = Some (JObj ips) ->
  enhance_category doc (JObj cps) = Ok c1 ->
  exists ips1,
    mapM (on_values (enhance_item doc)) ips = Ok ips1 /\
    c1 = JObj (Js.set_prop "items" (JObj ips1) cps).
Proof.
  intros Hi. unfold enhance_category. simpl. rewrite Hi. simpl.
  destruct (mapM (on_values (enhance_item doc)) ips) as [ips1|]; simpl; [|discriminate].
  intros H. injection H as <-. eauto.
Qed.

(** The second pass keeps every property but [count]. *)
Lemma recount_category_get c1 c2 k :
  recount_category c1 = Ok c2 -> k <> "count" -> Js.get c2 k = Js.get c1 k.
Proof.
  unfold recount_category. intros H Hk.
  destruct c1 as [| | | | |cps]; try (injection H as <-; reflexivity).
  destruct (Js.get (JObj cps) "items") as [items|]; [|injection H as <-; reflexivity].
  destruct (Js.truthy items); [|injection H as <-; reflexivity].
  destruct (reduce_counts (JNum 0) (Js.values items)) as [total|]; simpl in H; [|discriminate].
  injection H as <-. simpl. apply lookup_set_prop_ne. congruence.
Qed.

(** Where a rule group of the raw results is found after enhancement. *)
Lemma rule_group_enhanced (doc : string -> Dom.xpath_outcome) results out cat key item :
  enhanceResultsWithDOMInfo doc results = Ok out ->
  cat = "error" \/ cat = "contrast" ->
  rule_group results cat key = Some item ->
  exists item',
    enhance_item doc item = Ok item' /\
    rule_group (enhanced_value out) cat key = Some item'.
Proof.
  intros Hout Hcat Hrg.
  destruct (enhance_Ok doc _ _ Hout) as (f1 & f2 & H1 & H2 & _ & _ & Hcats).
  unfold rule_group in *. rewrite Hcats.
  destruct (category_of results cat) as [c|] eqn:Ec; [|discriminate].
  destruct (Js.get c "items") as [items|] eqn:Ei; [|discriminate].
  destruct (get_Some_JObj _ _ _ Ei) as [cps ->].
  destruct (get_Some_JObj _ _ _ Hrg) as [ips ->].
  pose proof (mapM_on_values_lookup _ _ _ cat H1) as L1.
  rewrite (filtered0_lookup _ _ Hcat), Ec in L1. simpl in L1.
  destruct L1 as (c1 & Hc1 & L1).
  pose proof (mapM_on_values_lookup _ _ _ cat H2) as L2.
  rewrite L1 in L2. destruct L2 as (c2 & Hc2 & L2).
  rewrite L2.
  destruct (enhance_category_items doc _ _ _ Ei Hc1) as (ips1 & Hips & ->).
  rewrite (recount_category_get _ _ "items" Hc2) by discriminate.
  simpl. rewrite lookup_set_prop_eq.
  pose proof (mapM_on_values_lookup _ _ _ key Hips) as L3.
  simpl in Hrg. rewrite Hrg in L3. destruct L3 as (item' & Hit & L3).
  exists item'. split; [exact Hit | exact L3].
Qed.

(** Every category of the enhanced results went through both passes. *)
Lemma category_enhanced (doc : string -> Dom.xpath_outcome) results out cat c2 :
  enhanceResultsWithDOMInfo doc results = Ok out ->
  Js.get (categories_of out) cat = Some c2 ->
  (cat = "error" \/ cat = "contrast") /\
  exists c c1,
    category_of results cat = Some c /\ Js.truthy c = true /\
    enhance_category doc c = Ok c1 /\ recount_category c1 = Ok c2.
Proof.
  intros Hout Hc2.
  destruct (enhance_Ok doc _ _ Hout) as (f1 & f2 & H1 & H2 & Hcats & _).
  rewrite Hcats in Hc2. simpl in Hc2. apply lookup_prop_In in Hc2.
  destruct (mapM_on_values_In _ _ _ _ _ H2 Hc2) as (c1 & Hin1 & Hr).
  destruct (mapM_on_values_In _ _ _ _ _ H1 Hin1) as (c & Hin0 & He).
  apply filtered0_In in Hin0 as (Hcat & Hc & Ht).
  split; [exact Hcat|]. eauto 10.
Qed.

(** The total of the second pass on well-typed counts. *)
Lemma reduce_counts_sum vs : forall a total,
  reduce_counts (JNum a) vs = Ok total ->
  Forall count_well_typed vs ->
  total = JNum (a + fold_right Z.add 0%Z (List.map count_field vs)).
Proof.
  induction vs as [|item vs IH]; intros a total H Hwt; simpl in *.
  - injection H as <-. f_equal. lia.
  - inversion Hwt as [|? ? Hi Hrest]; subst.
    destruct (item_count item) as [c|] eqn:Ec; simpl in H; [|discriminate].
    assert (Hc : c = JNum (count_field item)).
    { unfold item_count in Ec. unfold count_field.
      destruct Hi as [Hn | [n Hn]].
      - rewrite Hn in *. destruct item; congruence.
      - rewrite Hn in *. destruct item; try discriminate.
        injection Ec as <-. simpl.
        destruct (Z.eqb_spec n 0); simpl; congruence. }
    subst c. change (Js.add (JNum a) (JNum (count_field item)))
      with (JNum (a + count_field item)) in H.
    rewrite (IH _ _ H Hrest). f_equal. lia.
Qed.

Lemma filter_not_null_no_null l :
  ~ In JNull (List.filter (fun info => negb (is_null info)) l).
Proof.
  intros H. apply filter_In in H as [_ H]. discriminate.
Qed.

(** ** Claims about the enhancer *)

(** C1. For every rule group of a retained category whose raw [xpaths] is
    an array, the enhanced rule group holds that array deduplicated (for a
    list of strings: every distinct XPath exactly once, in the order of the
    first occurrences) and its [count] is the length of the deduplicated
    list. *)
Theorem enhanced_xpaths_deduplicated
  (doc : string -> Dom.xpath_outcome) (results : json) (out : enhanced_results)
  (cat key : string) (item : json) (xpaths : list json)
  (Hout : enhanceResultsWithDOMInfo doc results = Ok out)
  (Hcat : cat = "error" \/ cat = "contrast")
  (Hitem : rule_group results cat key = Some item)
  (Hxpaths : Js.get item "xpaths" = Some (JArr xpaths)) :
  exists item',
    rule_group (enhanced_value out) cat key = Some item' /\
    Js.get item' "xpaths" = Some (JArr (Js.spread_set xpaths)) /\
    Js.get item' "count" = Some (JNum (Z.of_nat (length (Js.spread_set xpaths)))) /\
    (forall ss, xpaths = List.map JStr ss ->
       exists us,
         Js.spread_set xpaths = List.map JStr us /\
         NoDup us /\
         (forall x, In x us <-> In x ss) /\
         StronglySorted lt (List.map (fun x => first_index x ss) us)).
Proof.
  destruct (rule_group_enhanced doc _ _ _ _ _ Hout Hcat Hitem) as (item' & He & Hrg).
  exists item'. split; [exact Hrg|].
  destruct (get_Some_JObj _ _ _ Hxpaths) as [ps ->]. simpl in Hxpaths.
  destruct (enhance_item_array doc ps xpaths Hxpaths) as (ps' & He' & Hx & Hc & _).
  rewrite He' in He. injection He as <-.
  split; [exact Hx|]. split; [exact Hc|].
  intros ss ->. apply spread_set_strings.
Qed.

(** C1 on the rule group [alt_missing] of the example page. *)
Lemma enhanced_xpaths_deduplicated_witness :
  exists out,
    enhanceResultsWithDOMInfo Example.document_evaluate Example.results = Ok out /\
    exists item',
      rule_group (enhanced_value out) "error" "alt_missing" = Some item' /\
      Js.get item' "xpaths"
        = Some (JArr [JStr "/html/body/img[1]"; JStr "/html/body/p[1]"]) /\
      Js.get item' "count" = Some (JNum 2).
Proof.
  destruct (enhanceResultsWithDOMInfo Example.document_evaluate Example.results)
    as [out|] eqn:E; [|vm_compute in E; discriminate E].
  exists out. split; [reflexivity|].
  destruct (enhanced_xpaths_deduplicated Example.document_evaluate Example.results out
              "error" "alt_missing" Example.alt_missing
              [JStr "/html/body/img[1]"; JStr "/html/body/img[1]"; JStr "/html/body/p[1]"]
              E (or_introl eq_refl) eq_refl eq_refl)
    as (item' & H1 & H2 & H3 & _).
  exists item'. split; [exact H1|]. split; [exact H2 | exact H3].
Defined.

(** C2. For every category of the enhanced results that holds an items
    map whose rule groups carry a numeric [count] (or none), the
    category's [count] is the sum of the [count] fields of the rule groups
    of that map. *)
Theorem category_count_is_sum
  (doc : string -> Dom.xpath_outcome) (results : json) (out : enhanced_results)
  (cat : string) (category : json) (items : list (string * json))
  (Hout : enhanceResultsWithDOMInfo doc results = Ok out)
  (Hcategory : Js.get (categories_of out) cat = Some category)
  (Hitems : Js.get category "items" = Some (JObj items))
  (Htyped : forall key item, In (key, item) items -> count_well_typed item) :
  (cat = "error" \/ cat = "contrast") /\
  Js.get category "count"
  = Some (JNum (fold_right Z.add 0%Z (List.map (fun kv => count_field (snd kv)) items))).
Proof.
  destruct (category_enhanced doc _ _ _ _ Hout Hcategory)
    as (Hcat & c & c1 & _ & _ & _ & Hr).
  split; [exact Hcat|].
  pose proof (recount_category_get _ _ "items" Hr ltac:(discriminate)) as Hi.
  rewrite Hitems in Hi. symmetry in Hi.
  destruct (get_Some_JObj _ _ _ Hi) as [cps ->].
  unfold recount_category in Hr. rewrite Hi in Hr. simpl in Hr.
  destruct (reduce_counts (JNum 0) (List.map snd items)) as [total|] eqn:Et;
    simpl in Hr; [|discriminate].
  injection Hr as <-. simpl. rewrite lookup_set_prop_eq.
  apply reduce_counts_sum in Et.
  - rewrite Et, List.map_map. reflexivity.
  - apply Forall_forall. intros item Hin. apply list_elem_of_In in Hin.
    apply in_map_iff in Hin as ([k v] & <- & Hin). eapply Htyped, Hin.
Qed.

(** C2 on the category [error] of the example page: two rule groups of
    two distinct XPaths each. *)
Lemma category_count_is_sum_witness :
  exists out category,
    enhanceResultsWithDOMInfo Example.document_evaluate Example.results = Ok out /\
    Js.get (categories_of out) "error" = Some category /\
    Js.get category "count" = Some (JNum 4).
Proof.
  destruct (enhanceResultsWithDOMInfo Example.document_evaluate Example.results)
    as [out|] eqn:E; [|vm_compute in E; discriminate E].
  destruct (Js.get (categories_of out) "error") as [category|] eqn:Ec;
    [|vm_compute in E; injection E as <-; vm_compute in Ec; discriminate Ec].
  exists out, category. split; [reflexivity|]. split; [exact Ec|].
  assert (Hi : exists items, Js.get category "items" = Some (JObj items) /\
                 (forall key item, In (key, item) items -> count_well_typed item) /\
                 fold_right Z.add 0%Z (List.map (fun kv => count_field (snd kv)) items) = 4%Z).
  { vm_compute in E. injection E as <-. vm_compute in Ec. injection Ec as <-.
    eexists. split; [reflexivity|]. split; [|reflexivity].
    intros key item Hin. right.
    destruct Hin as [Hin|[Hin|[]]]; injection Hin as <- <-; eexists; reflexivity. }
  destruct Hi as (items & Hitems & Htyped & Hsum).
  destruct (category_count_is_sum Example.document_evaluate Example.results out
              "error" category items E Ec Hitems Htyped) as [_ H].
  rewrite Hsum in H. exact H.
Defined.

(** C6. The categories of the enhanced results have no key but [error]
    and [contrast]; a key that is there was a category of the raw results;
    every other key of the raw categories is absent. *)
Theorem only_error_and_contrast_retained
  (doc : string -> Dom.xpath_outcome) (results : json) (out : enhanced_results)
  (Hout : enhanceResultsWithDOMInfo doc results = Ok out) :
  exists categories,
    categories_of out = JObj categories /\
    (forall ps, results = JObj ps ->
                Js.get (enhanced_value out) "categories" = Some (JObj categories)) /\
    (forall k c, In (k, c) categories ->
                 (k = "error" \/ k = "contrast") /\
                 exists raw, category_of results k = Some raw) /\
    (forall k, k <> "error" -> k <> "contrast" -> Js.lookup_prop k categories = None).
Proof.
  destruct (enhance_Ok doc _ _ Hout) as (f1 & f2 & H1 & H2 & Hcats & Hobj & _).
  exists f2. split; [exact Hcats|]. split; [|split].
  - intros ps ->. rewrite (Hobj ps eq_refl). simpl. apply lookup_set_prop_eq.
  - intros k c2 Hin.
    destruct (mapM_on_values_In _ _ _ _ _ H2 Hin) as (c1 & Hin1 & _).
    destruct (mapM_on_values_In _ _ _ _ _ H1 Hin1) as (c & Hin0 & _).
    apply filtered0_In in Hin0 as (Hcat & Hc & _). eauto.
  - intros k Hk1 Hk2.
    pose proof (mapM_on_values_lookup _ _ _ k H1) as L1.
    rewrite (filtered0_lookup_other _ _ Hk1 Hk2) in L1.
    pose proof (mapM_on_values_lookup _ _ _ k H2) as L2.
    rewrite L1 in L2. exact L2.
Qed.

(** C6 on the example page: [alert] is dropped, [error] is kept. *)
Lemma only_error_and_contrast_retained_witness :
  exists out categories,
    enhanceResultsWithDOMInfo Example.document_evaluate Example.results = Ok out /\
    categories_of out = JObj categories /\
    Js.lookup_prop "alert" categories = None /\
    category_of Example.results "alert" <> None.
Proof.
  destruct (enhanceResultsWithDOMInfo Example.document_evaluate Example.results)
    as [out|] eqn:E; [|vm_compute in E; discriminate E].
  destruct (only_error_and_contrast_retained Example.document_evaluate Example.results out E)
    as (categories & H1 & _ & _ & H4).
  exists out, categories. split; [reflexivity|]. split; [exact H1|]. split.
  - apply H4; discriminate.
  - vm_compute. discriminate.
Defined.

(** C5. For every rule group of a retained category whose raw [xpaths]
    is an array, each auxiliary array ([selectors], [text], [hidden],
    [contrastdata]) that the raw group holds comes out as its own first
    [n] elements, [n] the number of distinct XPaths: a positional array,
    which has one element for each XPath of the raw list, comes out
    exactly [n] long, as does every array of at least [n] elements; and
    the elements keep their index in the original array, whatever the
    places of the first occurrences of the XPaths (in general the output
    is as long as the shorter of the array and the deduplicated list). *)
Theorem auxiliary_arrays_truncated
  (doc : string -> Dom.xpath_outcome) (results : json) (out : enhanced_results)
  (cat key k : string) (item : json) (xpaths aux : list json)
  (Hout : enhanceResultsWithDOMInfo doc results = Ok out)
  (Hcat : cat = "error" \/ cat = "contrast")
  (Hitem : rule_group results cat key = Some item)
  (Hxpaths : Js.get item "xpaths" = Some (JArr xpaths))
  (Hk : In k auxiliary_arrays)
  (Haux : Js.get item k = Some (JArr aux)) :
  let n := length (Js.spread_set xpaths) in
  exists item' aux',
    rule_group (enhanced_value out) cat key = Some item' /\
    Js.get item' k = Some (JArr aux') /\
    (length aux = length xpaths -> length aux' = n) /\
    aux' = firstn n aux /\
    length aux' = Nat.min n (length aux) /\
    (n <= length aux -> length aux' = n)%nat /\
    (forall i, (i < n)%nat -> nth_error aux' i = nth_error aux i).
Proof.
  intros n.
  destruct (rule_group_enhanced doc _ _ _ _ _ Hout Hcat Hitem) as (item' & He & Hrg).
  destruct (get_Some_JObj _ _ _ Hxpaths) as [ps ->]. simpl in Hxpaths, Haux.
  destruct (enhance_item_array doc ps xpaths Hxpaths) as (ps' & He' & _ & _ & _ & Ha).
  rewrite He' in He. injection He as <-.
  exists (JObj ps'), (firstn n aux).
  split; [exact Hrg|]. split; [|split; [|split; [reflexivity|split; [|split]]]].
  - simpl. rewrite (Ha k Hk), Haux. reflexivity.
  - intros Hpar. rewrite length_firstn.
    pose proof (length_spread_set_le xpaths []) as Hle. cbn [length] in Hle.
    unfold Js.spread_set in n. fold n in Hle. lia.
  - apply length_firstn.
  - intros Hn. rewrite length_firstn. lia.
  - intros i Hi. rewrite nth_error_firstn.
    destruct (Nat.ltb_spec i n); [reflexivity | lia].
Qed.

(** C5 on the rule group [alt_missing] of the example page: XPaths
    [img, img, p] with the positional selectors [img.hero, img.hero,
    p#intro] leave the XPaths [img, p] with two selectors, the first two
    of the three. *)
Lemma auxiliary_arrays_truncated_witness :
  exists out item' selectors',
    enhanceResultsWithDOMInfo Example.document_evaluate Example.results = Ok out /\
    rule_group (enhanced_value out) "error" "alt_missing" = Some item' /\
    Js.get item' "xpaths" = Some (JArr [JStr "/html/body/img[1]"; JStr "/html/body/p[1]"]) /\
    Js.get item' "selectors" = Some (JArr selectors') /\
    length selectors' = 2%nat /\
    selectors' = [JStr "img.hero"; JStr "img.hero"].
Proof.
  destruct (enhanceResultsWithDOMInfo Example.document_evaluate Example.results)
    as [out|] eqn:E; [|vm_compute in E; discriminate E].
  destruct (auxiliary_arrays_truncated Example.document_evaluate Example.results out
              "error" "alt_missing" "selectors" Example.alt_missing
              [JStr "/html/body/img[1]"; JStr "/html/body/img[1]"; JStr "/html/body/p[1]"]
              [JStr "img.hero"; JStr "img.hero"; JStr "p#intro"]
              E (or_introl eq_refl) eq_refl eq_refl (or_introl eq_refl) eq_refl)
    as (item' & aux' & Hrg & Haux & Hlen & Heq & _).
  exists out, item', aux'. split; [reflexivity|]. split; [exact Hrg|]. split; [|split; [|split]].
  - vm_compute in E. injection E as <-. vm_compute in Hrg. injection Hrg as <-.
    reflexivity.
  - exact Haux.
  - exact (Hlen eq_refl).
  - exact Heq.
Defined.

(** The lookups of a rule group land in [domInfo] without the [null]
    ones. *)
Lemma domInfo_of_enhanced
  (doc : string -> Dom.xpath_outcome) (results : json) (out : enhanced_results)
  (cat key : string) (item : json) (xpaths : list json) :
  enhanceResultsWithDOMInfo doc results = Ok out ->
  cat = "error" \/ cat = "contrast" ->
  rule_group results cat key = Some item ->
  Js.get item "xpaths" = Some (JArr xpaths) ->
  exists item',
    rule_group (enhanced_value out) cat key = Some item' /\
    Js.get item' "domInfo"
    = Some (JArr (List.filter (fun info => negb (is_null info))
                              (List.map (getElementInfo doc) (Js.spread_set xpaths)))).
Proof.
  intros Hout Hcat Hitem Hxpaths.
  destruct (rule_group_enhanced doc _ _ _ _ _ Hout Hcat Hitem) as (item' & He & Hrg).
  destruct (get_Some_JObj _ _ _ Hxpaths) as [ps ->]. simpl in Hxpaths.
  destruct (enhance_item_array doc ps xpaths Hxpaths) as (ps' & He' & _ & _ & Hd & _).
  rewrite He' in He. injection He as <-. eauto.
Qed.

(** A lookup that throws is an error marker, one that finds nothing is
    [null]; [getElementInfo] itself never throws. *)
Lemma getElementInfo_failures (doc : string -> Dom.xpath_outcome) (xpath : json) :
  (forall msg, doc (Js.toString xpath) = Dom.EvaluateThrows msg ->
               getElementInfo doc xpath = error_marker msg) /\
  (doc (Js.toString xpath) = Dom.SingleNodeValue None ->
   getElementInfo doc xpath = JNull).
Proof.
  unfold getElementInfo. split.
  - intros msg ->. reflexivity.
  - intros ->. reflexivity.
Qed.

(** C3 on the example page.  The rule group [alt_missing] has the distinct
    XPaths [img] and [p]; [img] selects nothing, and its [null] is dropped:
    [domInfo] has one entry, the paragraph's, at the position of [img].
    The report row of [img] then describes the paragraph. *)
Theorem unresolved_lookup_shifts_domInfo :
  exists out item',
    enhanceResultsWithDOMInfo Example.document_evaluate Example.results = Ok out /\
    rule_group (enhanced_value out) "error" "alt_missing" = Some item' /\
    Js.get item' "xpaths"
      = Some (JArr [JStr "/html/body/img[1]"; JStr "/html/body/p[1]"]) /\
    getElementInfo Example.document_evaluate (JStr "/html/body/img[1]") = JNull /\
    Js.get item' "domInfo"
      = Some (JArr [getElementInfo Example.document_evaluate (JStr "/html/body/p[1]")]) /\
    getElementInfo Example.document_evaluate (JStr "/html/body/p[1]")
      = element_info Example.paragraph "#intro" /\
    elementInfo item' 0 "/html/body/img[1]" = Ok "P#intro.lead" /\
    elementInfo item' 1 "/html/body/p[1]" = Ok "/html/body/p[1]".
Proof.
  eexists. eexists. split; [vm_compute; reflexivity|].
  split; [vm_compute; reflexivity|].
  repeat split; vm_compute; reflexivity.
Qed.

(** ** The polling initialiser *)

Module PollingFacts.
Import Polling.

(** src/wave-test.ts: a throwing [initialize()] sets a timer of twice the
    polling delay while the counter is below the maximum, and rejects once
    the counter has reached it. *)
Lemma wavetest_initialize_throws attempts p msg :
  initialize_fails msg p ->
  WaveTest.checkWaveAvailability attempts p
  = (S attempts,
     if (S attempts <? WaveTest.maxRetries)%nat
     then Reschedule (2 * WaveTest.retryDelay)
     else Reject ("WAVE initialization failed after retries: " +:+ msg)).
Proof.
  intros (H1 & H2 & H3 & H4 & H5). unfold WaveTest.checkWaveAvailability.
  rewrite H1, H2, H3, H4, H5. simpl negb. cbv iota.
  destruct (S attempts <? WaveTest.maxRetries)%nat; reflexivity.
Qed.

(** src/wave-test.ts: the callback never raises the counter by more than
    one, and sets the long timer only below the maximum. *)
Lemma wavetest_step attempts p :
  fst (WaveTest.checkWaveAvailability attempts p) = S attempts /\
  (snd (WaveTest.checkWaveAvailability attempts p) = Reschedule (2 * WaveTest.retryDelay) ->
   (S attempts < WaveTest.maxRetries)%nat).
Proof.
  unfold WaveTest.checkWaveAvailability.
  destruct (wave_present p) as [[]|], (ready_complete p), (body_and_head p),
    (style_access_throws p), (initialize_throws p), (run p); cbn [negb];
    try (destruct (Nat.ltb_spec (S attempts) WaveTest.maxRetries));
    try (destruct (Nat.leb_spec WaveTest.maxRetries (S attempts)));
    cbn [fst snd]; (split; [reflexivity|]); intros Hd;
    try discriminate Hd; try assumption;
    injection Hd as Hd; vm_compute in Hd; discriminate Hd.
Qed.

(** src/wave-test.ts: whatever the page does, fewer than [maxRetries]
    timers of the long delay are ever set. *)
Lemma wavetest_long_delays_bounded page fuel : forall k attempts,
  (length (List.filter (Nat.eqb (2 * WaveTest.retryDelay))
                       (delays (poll WaveTest.checkWaveAvailability page fuel k attempts)))
   <= WaveTest.maxRetries - 1 - attempts)%nat.
Proof.
  induction fuel as [|fuel IH]; intros k attempts; [simpl; lia|].
  cbn [poll].
  destruct (wavetest_step attempts (page k)) as [Hf Hs].
  destruct (WaveTest.checkWaveAvailability attempts (page k)) as [a' [d| | |]] eqn:E;
    try (simpl; lia).
  simpl in Hf, Hs. subst a'. cbn [delays List.filter].
  specialize (IH (S k) (S attempts)).
  destruct (Nat.eqb_spec (2 * WaveTest.retryDelay) d) as [<-|Hne].
  - assert (Hlt := Hs ltac:(reflexivity)). cbn [length]. lia.
  - lia.
Qed.

Lemma poll_all_reschedule step page (n : nat) d msg :
  forall k attempts,
    (forall j, (j < n)%nat -> step (attempts + j)%nat (page (k + j)%nat)
                              = (S (attempts + j), Reschedule d)) ->
    step (attempts + n)%nat (page (k + n)%nat) = (S (attempts + n), Reject msg) ->
    forall fuel, (n < fuel)%nat ->
    poll step page fuel k attempts
    = {| calls := S n; delays := repeat d n; final := Rejected msg |}.
Proof.
  induction n as [|n IH]; intros k attempts Hres Hrej fuel Hfuel;
    (destruct fuel as [|fuel]; [lia|]); cbn [poll].
  - rewrite !Nat.add_0_r in Hrej. rewrite Hrej. reflexivity.
  - pose proof (Hres 0%nat ltac:(lia)) as H0. rewrite !Nat.add_0_r in H0. rewrite H0.
    rewrite (IH (S k) (S attempts)); [reflexivity| | |lia].
    + intros j Hj. specialize (Hres (S j) ltac:(lia)).
      replace (S attempts + j)%nat with (attempts + S j)%nat by lia.
      replace (S k + j)%nat with (k + S j)%nat by lia. exact Hres.
    + replace (S attempts + n)%nat with (attempts + S n)%nat by lia.
      replace (S k + n)%nat with (k + S n)%nat by lia. exact Hrej.
Qed.

(** src/wave-test.ts: while [initialize()] keeps throwing, the callback is
    called [maxRetries] times, 99 timers of 400 ms apart, and then
    rejects. *)
Lemma wavetest_retries_initialize page msg fuel :
  (forall k, initialize_fails msg (page k)) ->
  (WaveTest.maxRetries <= fuel)%nat ->
  poll WaveTest.checkWaveAvailability page fuel 0 0
  = {| calls := WaveTest.maxRetries;
       delays := repeat (2 * WaveTest.retryDelay)%nat (WaveTest.maxRetries - 1);
       final := Rejected ("WAVE initialization failed after retries: " +:+ msg) |}.
Proof.
  intros Hp Hfuel.
  apply (poll_all_reschedule _ _ (WaveTest.maxRetries - 1)); [| |unfold WaveTest.maxRetries in *; lia].
  - intros j Hj. rewrite (wavetest_initialize_throws _ _ msg (Hp _)).
    simpl Nat.add.
    destruct (Nat.ltb_spec (S j) WaveTest.maxRetries); [reflexivity|].
    unfold WaveTest.maxRetries in *. lia.
  - rewrite (wavetest_initialize_throws _ _ msg (Hp _)). reflexivity.
Qed.

(** src/wave-test.ts: when WAVE never appears, the callback is called
    [maxRetries] times, 200 ms apart, and rejects with the message of the
    exhausted budget. *)
Lemma wavetest_exhausted page fuel :
  (forall k, wave_present (page k) = false) ->
  (WaveTest.maxRetries <= fuel)%nat ->
  poll WaveTest.checkWaveAvailability page fuel 0 0
  = {| calls := WaveTest.maxRetries;
       delays := repeat WaveTest.retryDelay (WaveTest.maxRetries - 1);
       final := Rejected "WAVE failed to initialize after 100 attempts" |}.
Proof.
  intros Hp Hfuel.
  apply (poll_all_reschedule _ _ (WaveTest.maxRetries - 1)); [| |unfold WaveTest.maxRetries in *; lia].
  - intros j Hj. unfold WaveTest.checkWaveAvailability. rewrite Hp. simpl Nat.add.
    destruct (Nat.leb_spec WaveTest.maxRetries (S j)); [|reflexivity].
    unfold WaveTest.maxRetries in *. lia.
  - unfold WaveTest.checkWaveAvailability. rewrite Hp. reflexivity.
Qed.

(** src/analyzer.js: when WAVE never appears, the callback is called
    [maxRetries] times and rejects with the message of the exhausted
    budget. *)
Lemma analyzer_exhausted config page fuel :
  (forall k, wave_present (page k) = false) ->
  (1 <= Analyzer.maxRetries config <= fuel)%nat ->
  poll (Analyzer.checkWaveAvailability config) page fuel 0 0
  = {| calls := Analyzer.maxRetries config;
       delays := repeat (Analyzer.retryDelay config) (Analyzer.maxRetries config - 1);
       final := Rejected (exhausted_message (Analyzer.maxRetries config)) |}.
Proof.
  intros Hp Hfuel.
  replace (Analyzer.maxRetries config) with (S (Analyzer.maxRetries config - 1)) at 1 by lia.
  apply (poll_all_reschedule _ _ (Analyzer.maxRetries config - 1)); [| |lia].
  - intros j Hj. unfold Analyzer.checkWaveAvailability. rewrite Hp. simpl Nat.add.
    destruct (Nat.leb_spec (Analyzer.maxRetries config) (S j)); [lia|reflexivity].
  - unfold Analyzer.checkWaveAvailability. rewrite Hp. simpl Nat.add.
    destruct (Nat.leb_spec (Analyzer.maxRetries config) (S (Analyzer.maxRetries config - 1)));
      [reflexivity|lia].
Qed.

(** C7 in src/analyzer.js.  On a page where WAVE is there and
    [initialize()] throws, the callback of analyzer.js rejects at its first
    call: no timer is set, nothing is retried.  The callback of
    wave-test.ts, on the same page, sets a timer of twice its polling
    delay. *)
Theorem analyzer_does_not_retry_initialize
  (config : Analyzer.config) (msg : string) (fuel : nat) :
  let p := {| wave_present := true; ready_complete := true; body_and_head := true;
              style_access_throws := false; initialize_throws := Some msg;
              run := RunStarts |} in
  poll (Analyzer.checkWaveAvailability config) (fun _ => p) (S fuel) 0 0
  = {| calls := 1; delays := [];
       final := Rejected ("WAVE initialization failed: " +:+ msg) |} /\
  WaveTest.checkWaveAvailability 0 p = (1%nat, Reschedule (2 * WaveTest.retryDelay)).
Proof.
  intros p. split; reflexivity.
Qed.

End PollingFacts.

(** ** The batch orchestrator *)

Module BatchFacts.
Import Batch.

Section Orchestrator.

Variable world : Type.
Variable report : Type.
Variable analyzeUrl : string -> world -> (report + string) * world.
Variable saveIndividualReport : report -> string -> string -> world -> option string * world.
Variable wait : nat -> world -> world.
Variable config : config.

#[local] Abbreviation attempt_once := (attempt_once world report analyzeUrl saveIndividualReport config).
#[local] Abbreviation retry_loop := (retry_loop world report analyzeUrl saveIndividualReport wait config).
#[local] Abbreviation process := (_processUrlWithRetry world report analyzeUrl saveIndividualReport wait config).
#[local] Abbreviation batch_loop := (batch_loop world report analyzeUrl saveIndividualReport wait config).
#[local] Abbreviation world_before :=
  (world_before_attempt world report analyzeUrl saveIndividualReport wait config).
#[local] Abbreviation outcome :=
  (attempt_outcome world report analyzeUrl saveIndividualReport wait config).

(** The retry loop returns a record before its fuel runs out. *)
Lemma retry_loop_returns u : forall n fuel attempt w,
  (maxRetries config - attempt = S n)%nat -> (n < fuel)%nat ->
  exists r w',
    retry_loop u fuel attempt w = Some (Some r, w') /\
    url r = u /\ (attempt < attempts r <= maxRetries config)%nat /\
    (success r = true -> error r = None) /\
    (success r = false -> attempts r = maxRetries config /\ report_of r = None).
Proof.
  induction n as [|n IH]; intros fuel attempt w Hm Hfuel;
    (destruct fuel as [|fuel]; [lia|]); cbn [Batch.retry_loop];
    (destruct (Nat.ltb_spec attempt (maxRetries config)); [|lia]);
    destruct attempt_once as [[r|msg] w1].
  - eexists _, _. split; [reflexivity|]. simpl. repeat split; auto; try lia; discriminate.
  - destruct (Nat.leb_spec (maxRetries config) (S attempt)); [|lia].
    eexists _, _. split; [reflexivity|]. simpl. repeat split; auto; try lia; discriminate.
  - eexists _, _. split; [reflexivity|]. simpl. repeat split; auto; try lia; discriminate.
  - destruct (Nat.leb_spec (maxRetries config) (S attempt)); [lia|].
    destruct (IH fuel (S attempt) (wait (delay config) w1)) as (r & w' & Hr & Hu & Ha & Hs);
      [lia | lia |].
    exists r, w'. split; [exact Hr|]. split; [exact Hu|]. split; [lia | exact Hs].
Qed.

Lemma world_before_shift u w k :
  world_before u (wait (delay config) (snd (attempt_once u w))) k
  = world_before u w (S k).
Proof.
  induction k as [|k IH]; [reflexivity|].
  cbn [Batch.world_before_attempt] in *. rewrite IH. reflexivity.
Qed.

(** When the next [n + 1] attempts fail, the record is a failure that
    carries the message of the last of them. *)
Lemma retry_loop_all_fail u (msg : nat -> string) : forall n fuel attempt w,
  (maxRetries config - attempt = S n)%nat -> (n < fuel)%nat ->
  (forall j, (j <= n)%nat -> outcome u w j = inr (msg (attempt + j)%nat)) ->
  exists w',
    retry_loop u fuel attempt w
    = Some (Some {| url := u; success := false; report_of := None;
                    attempts := maxRetries config;
                    error := Some (msg (maxRetries config - 1)%nat) |}, w').
Proof.
  induction n as [|n IH]; intros fuel attempt w Hm Hfuel Hfail;
    (destruct fuel as [|fuel]; [lia|]); cbn [Batch.retry_loop];
    (destruct (Nat.ltb_spec attempt (maxRetries config)); [|lia]);
    pose proof (Hfail 0%nat ltac:(lia)) as H0;
    unfold Batch.attempt_outcome in H0; cbn [Batch.world_before_attempt] in H0;
    destruct attempt_once as [[r|m] w1] eqn:E; simpl in H0; try discriminate H0;
    injection H0 as ->; rewrite Nat.add_0_r.
  - destruct (Nat.leb_spec (maxRetries config) (S attempt)); [|lia].
    eexists. do 4 f_equal; [lia | do 2 f_equal; lia].
  - destruct (Nat.leb_spec (maxRetries config) (S attempt)); [lia|].
    apply IH; [lia | lia |].
    intros j Hj. unfold Batch.attempt_outcome.
    replace w1 with (snd (attempt_once u w)) by (rewrite E; reflexivity).
    rewrite world_before_shift.
    replace (S attempt + j)%nat with (attempt + S j)%nat by lia.
    apply (Hfail (S j)). lia.
Qed.

(** The loop over the URLs returns one record per URL, in order. *)
Lemma batch_loop_returns total : forall urls i w,
  (1 <= maxRetries config)%nat ->
  exists rs w',
    batch_loop total i urls w = Some (List.map Some rs, w') /\
    List.map url rs = urls.
Proof.
  induction urls as [|u urls IH]; intros i w Hmax; cbn [Batch.batch_loop].
  - exists [], w. split; reflexivity.
  - destruct (retry_loop_returns u (maxRetries config - 1) (S (maxRetries config)) 0 w)
      as (r & w1 & Hr & Hu & _); [lia | lia |].
    unfold Batch._processUrlWithRetry. rewrite Hr.
    match goal with |- context [Batch.batch_loop _ _ _ _ _ _ _ _ _ ?w2] =>
      destruct (IH (S i) w2 Hmax) as (rs & w3 & Hrs & Hus) end.
    rewrite Hrs. exists (r :: rs), w3. split; [reflexivity|].
    simpl. rewrite Hu, Hus. reflexivity.
Qed.

Lemma mapM_success_of (rs : list (url_result report)) :
  mapM (success_of report) (List.map Some rs) = Ok (List.map success rs).
Proof.
  induction rs as [|r rs IH]; [reflexivity|].
  cbn [List.map mapM]. rewrite IH. reflexivity.
Qed.

Lemma filter_partition_length (bs : list bool) :
  (length (List.filter (fun b : bool => b) bs) + length (List.filter negb bs))%nat = length bs.
Proof.
  induction bs as [|[] bs IH]; simpl; lia.
Qed.

Lemma filter_map_length {A} (f : A -> bool) (l : list A) :
  length (List.filter (fun b : bool => b) (List.map f l)) = length (List.filter f l).
Proof.
  induction l as [|x l IH]; [reflexivity|].
  simpl. destruct (f x); simpl; rewrite IH; reflexivity.
Qed.

Lemma filter_negb_map_length {A} (f : A -> bool) (l : list A) :
  length (List.filter negb (List.map f l)) = length (List.filter (fun x => negb (f x)) l).
Proof.
  induction l as [|x l IH]; [reflexivity|].
  simpl. destruct (f x); simpl; rewrite IH; reflexivity.
Qed.

End Orchestrator.

(** C8. With [maxRetries >= 1]: every URL gets a record; a URL whose
    [maxRetries] attempts all fail gets the record [success = false] with
    the message of the last attempt and [attempts = maxRetries]; the batch
    goes on to every later URL, one record per URL in order; and the
    summary's [successful] and [failed] are the numbers of records with
    [success] true and false, so that three records of which only the
    second failed give [successful = 2] and [failed = 1]. *)
Theorem batch_failures_recorded
  (world report : Type)
  (analyzeUrl : string -> world -> (report + string) * world)
  (saveIndividualReport : report -> string -> string -> world -> option string * world)
  (wait : nat -> world -> world)
  (config : config)
  (Hmax : (1 <= maxRetries config)%nat) :
  let process := _processUrlWithRetry world report analyzeUrl saveIndividualReport wait config in
  let batch := analyzeBatch world report analyzeUrl saveIndividualReport wait config in
  let outcome := attempt_outcome world report analyzeUrl saveIndividualReport wait config in
  (forall u w, exists r w',
      process u w = Some (Some r, w') /\ url r = u /\
      (1 <= attempts r <= maxRetries config)%nat) /\
  (forall u w (msg : nat -> string),
      (forall j, (j < maxRetries config)%nat -> outcome u w j = inr (msg j)) ->
      exists w',
        process u w
        = Some (Some {| url := u; success := false; report_of := None;
                        attempts := maxRetries config;
                        error := Some (msg (maxRetries config - 1)%nat) |}, w')) /\
  (forall urls w, exists rs summary w',
      batch urls w = Some (List.map Some rs, Ok summary, w') /\
      List.map url rs = urls /\
      totalUrls summary = length urls /\
      successful summary = length (List.filter success rs) /\
      failed summary = length (List.filter (fun r => negb (success r)) rs) /\
      (successful summary + failed summary)%nat = length urls /\
      results summary = List.map (digest report) rs /\
      (List.map success rs = [true; false; true] ->
       successful summary = 2%nat /\ failed summary = 1%nat)).
Proof.
  intros process batch outcome. split; [|split].
  - intros u w.
    destruct (retry_loop_returns world report analyzeUrl saveIndividualReport wait config
                u (maxRetries config - 1) (S (maxRetries config)) 0 w)
      as (r & w' & Hr & Hu & Ha & _); [lia | lia |].
    exists r, w'. split; [exact Hr|]. split; [exact Hu | lia].
  - intros u w msg Hfail.
    apply (retry_loop_all_fail world report analyzeUrl saveIndividualReport wait config
             u msg (maxRetries config - 1)); [lia | lia |].
    intros j Hj. apply Hfail. lia.
  - intros urls w. unfold batch, analyzeBatch.
    destruct (batch_loop_returns world report analyzeUrl saveIndividualReport wait config
                (length urls) urls 0 w Hmax) as (rs & w' & Hrs & Hus).
    rewrite Hrs. unfold _createBatchSummary. rewrite mapM_success_of. cbn [bind].
    eexists rs, _, w'. split; [reflexivity|]. cbn [totalUrls successful failed results].
    assert (Hlen : length rs = length urls) by (rewrite <- Hus, length_map; reflexivity).
    split; [exact Hus|]. split; [reflexivity|].
    split; [apply filter_map_length|]. split; [apply filter_negb_map_length|].
    split; [rewrite filter_partition_length, length_map; exact Hlen|].
    split.
    + clear. induction rs as [|r rs IH]; [reflexivity|]. simpl. f_equal. exact IH.
    + intros ->. split; reflexivity.
Qed.

(** C8 on the batch of three URLs of the example, the second of which
    fails at both of its attempts. *)
Lemma batch_failures_recorded_witness :
  let process := _processUrlWithRetry nat string Example.analyzeUrl
                   Example.saveIndividualReport Example.wait Example.config in
  let batch := analyzeBatch nat string Example.analyzeUrl
                 Example.saveIndividualReport Example.wait Example.config in
  (exists w',
     process "https://b.example/" 1%nat
     = Some (Some {| url := "https://b.example/"; success := false; report_of := None;
                     attempts := 2;
                     error := Some "Failed to analyze https://b.example/: net::ERR_NAME_NOT_RESOLVED, load 3" |},
             w')) /\
  (exists rs summary w',
     batch Example.urls 0%nat = Some (List.map Some rs, Ok summary, w') /\
     List.map success rs = [true; false; true] /\
     successful summary = 2%nat /\ failed summary = 1%nat).
Proof.
  intros process batch.
  assert (Hmax : (1 <= maxRetries Example.config)%nat) by (simpl; lia).
  destruct (batch_failures_recorded nat string Example.analyzeUrl
              Example.saveIndividualReport Example.wait Example.config Hmax)
    as (_ & Hfail & Hbatch).
  split.
  - apply (Hfail "https://b.example/" 1%nat
             (fun j => "Failed to analyze https://b.example/: net::ERR_NAME_NOT_RESOLVED, load "
                       +:+ Js.Z_to_string (Z.of_nat (2 + j)))).
    intros j Hj. simpl in Hj.
    destruct j as [|[|j]]; [reflexivity | reflexivity | lia].
  - destruct (Hbatch Example.urls 0%nat)
      as (rs & summary & w' & Hb & Hu & _ & _ & _ & _ & _ & H3).
    exists rs, summary, w'. split; [exact Hb|].
    assert (Hs : List.map success rs = [true; false; true]).
    { vm_compute in Hb.
      destruct rs as [|r1 [|r2 [|r3 [|r4 rs]]]]; try discriminate Hb.
      simpl in Hb. simplify_eq. reflexivity. }
    split; [exact Hs | exact (H3 Hs)].
Defined.

End BatchFacts.

(** ** The enhancer on the heap: the caller's objects are left alone *)

Module FrameFacts.
Import Heap Frame.

Section Caller.

Variable h0 : heap.

#[local] Abbreviation fresh_val := (fresh_val h0).
#[local] Abbreviation fresh_props := (fresh_props h0).
#[local] Abbreviation fresh_cell := (fresh_cell h0).
#[local] Abbreviation extends := (extends h0).
#[local] Abbreviation preserves := (preserves h0).

Lemma extends_refl : extends h0.
Proof.
  split; [reflexivity|]. intros l c H1 H2. congruence.
Qed.

Lemma extends_insert h l c :
  extends h -> h0 !! l = None -> fresh_cell c -> extends (<[l := c]> h).
Proof.
  intros [Hsub Hfresh] Hl Hc. split.
  - apply map_subseteq_spec. intros l' c' H'.
    rewrite lookup_insert_ne by congruence.
    eapply map_subseteq_spec; eauto.
  - intros l' c'. rewrite lookup_insert. case_decide as E.
    + intros [= <-] _. exact Hc.
    + apply Hfresh.
Qed.

Lemma extends_fresh_loc h : extends h -> h0 !! fresh (dom h) = None.
Proof.
  intros [Hsub _].
  destruct (h0 !! fresh (dom h)) as [c|] eqn:E; [|reflexivity].
  exfalso. apply (is_fresh (dom h)). apply elem_of_dom.
  exists c. eapply map_subseteq_spec; eauto.
Qed.

Lemma extends_lookup h l c :
  extends h -> h !! l = Some c -> h0 !! l = None -> fresh_cell c.
Proof. intros [_ H]. apply H. Qed.

(** *** The monad *)

Lemma preserves_ret {A} (a : A) (Q : A -> Prop) : Q a -> preserves (ret a) Q.
Proof.
  intros HQ h r h' He [= <- <-]. split; [exact He|]. intros a' [= <-]. exact HQ.
Qed.

Lemma preserves_bind {A B} (m : M A) (k : A -> M B) (Q : A -> Prop) (R : B -> Prop) :
  preserves m Q -> (forall a, Q a -> preserves (k a) R) -> preserves (mbind m k) R.
Proof.
  intros Hm Hk h r h' He. unfold mbind.
  destruct (m h) as [[a|e] h1] eqn:E; destruct (Hm _ _ _ He E) as [He1 HQ].
  - intros Hk'. eapply Hk; eauto.
  - intros [= <- <-]. split; [exact He1|]. intros a [=].
Qed.

Lemma preserves_weaken {A} (m : M A) (Q R : A -> Prop) :
  preserves m Q -> (forall a, Q a -> R a) -> preserves m R.
Proof.
  intros Hm HQR h r h' He E. destruct (Hm _ _ _ He E) as [He' HQ].
  split; [exact He'|]. intros a Ha. apply HQR, HQ, Ha.
Qed.

Lemma preserves_forEach {A} (f : A -> M unit) (P : A -> Prop) l :
  (forall x, P x -> preserves (f x) (fun _ => True)) -> Forall P l ->
  preserves (forEach f l) (fun _ => True).
Proof.
  intros Hf Hl. induction Hl as [|x l Hx _ IH]; cbn [forEach].
  - apply preserves_ret. exact I.
  - eapply preserves_bind; [apply Hf, Hx|]. intros _ _. exact IH.
Qed.

Lemma preserves_mapH {A B} (f : A -> M B) (P : A -> Prop) (Q : B -> Prop) l :
  (forall x, P x -> preserves (f x) Q) -> Forall P l ->
  preserves (mapH f l) (Forall Q).
Proof.
  intros Hf Hl. induction Hl as [|x l Hx _ IH]; cbn [mapH].
  - apply preserves_ret. constructor.
  - eapply preserves_bind; [apply Hf, Hx|]. intros y Hy.
    eapply preserves_bind; [exact IH|]. intros ys Hys.
    apply preserves_ret. constructor; assumption.
Qed.

Lemma preserves_reduce {A B} (f : B -> A -> M B) (P : A -> Prop) l : forall acc,
  (forall acc x, P x -> preserves (f acc x) (fun _ => True)) -> Forall P l ->
  preserves (reduce f acc l) (fun _ => True).
Proof.
  intros acc Hf Hl. revert acc.
  induction Hl as [|x l Hx _ IH]; intros acc; cbn [reduce].
  - apply preserves_ret. exact I.
  - eapply preserves_bind; [apply Hf, Hx|]. intros acc' _. apply IH.
Qed.

(** *** Reading and writing *)

Lemma fresh_lookup_prop k ps :
  fresh_props ps -> fresh_val (default VUndefined (lookup_prop k ps)).
Proof.
  intros H. induction H as [|[k' v] ps Hv _ IH]; simpl; [exact I|].
  destruct (String.eqb k' k); [exact Hv | exact IH].
Qed.

Lemma fresh_set_prop_list k v ps :
  fresh_val v -> fresh_props ps -> fresh_props (set_prop_list k v ps).
Proof.
  intros Hv H. induction H as [|[k' v'] ps Hv' Hps IH]; simpl.
  - constructor; [exact Hv | constructor].
  - destruct (String.eqb k' k); constructor; auto.
Qed.

Lemma preserves_get_prop v k : fresh_val v -> preserves (get_prop v k) fresh_val.
Proof.
  intros Hv h r h' He. unfold get_prop.
  destruct v as [| | | | |l]; try (intros [= <- <-]; split; [exact He|]; intros a [= <-]; exact I);
    try (intros [= <- <-]; split; [exact He|]; intros a [=]).
  destruct (h !! l) as [[elems extra|ps]|] eqn:E; intros [= <- <-];
    (split; [exact He|]); intros a [= <-]; try exact I.
  - apply fresh_lookup_prop. apply (extends_lookup _ _ _ He E Hv).
  - apply fresh_lookup_prop. apply (extends_lookup _ _ _ He E Hv).
Qed.

Lemma preserves_set_prop v k x :
  fresh_val v -> fresh_val x -> preserves (set_prop v k x) (fun _ => True).
Proof.
  intros Hv Hx h r h' He. unfold set_prop.
  destruct v as [| | | | |l]; try (intros [= <- <-]; split; [exact He|]; intros; exact I).
  destruct (h !! l) as [[elems extra|ps]|] eqn:E; intros [= <- <-];
    (split; [|intros; exact I]); try exact He.
  - apply extends_insert; [exact He | exact Hv |].
    destruct (extends_lookup _ _ _ He E Hv) as [H1 H2].
    split; [exact H1|]. apply fresh_set_prop_list; assumption.
  - apply extends_insert; [exact He | exact Hv |].
    apply fresh_set_prop_list; [exact Hx|]. apply (extends_lookup _ _ _ He E Hv).
Qed.

Lemma preserves_alloc c : fresh_cell c -> preserves (alloc c) fresh_val.
Proof.
  intros Hc h r h' He [= <- <-]. split.
  - apply extends_insert; [exact He | apply extends_fresh_loc, He | exact Hc].
  - intros a [= <-]. apply extends_fresh_loc, He.
Qed.

Lemma preserves_array_elems v :
  fresh_val v ->
  preserves (array_elems v) (fun o => forall l, o = Some l -> Forall fresh_val l).
Proof.
  intros Hv h r h' He. unfold array_elems.
  destruct v as [| | | | |l]; try (intros [= <- <-]; split; [exact He|]; intros a [= <-] ? [=]).
  destruct (h !! l) as [[elems extra|ps]|] eqn:E; intros [= <- <-];
    (split; [exact He|]); intros a [= <-] l' [=]. subst l'.
  apply (extends_lookup _ _ _ He E Hv).
Qed.

Lemma preserves_keys v : preserves (keys v) (fun _ => True).
Proof.
  intros h r h' He. unfold keys.
  destruct v as [| | | | |l]; try (intros [= <- <-]; split; [exact He|]; intros; exact I).
  destruct (h !! l) as [[elems extra|ps]|]; intros [= <- <-];
    (split; [exact He|]); intros; exact I.
Qed.

Lemma preserves_get_key v k : fresh_val v -> preserves (get_key v k) fresh_val.
Proof.
  intros Hv. destruct k as [i|n]; [|apply preserves_get_prop, Hv].
  intros h r h' He. unfold get_key.
  destruct v as [| | | |s|l]; try (intros [= <- <-]; split; [exact He|]; intros a [= <-]; exact I).
  - intros [= <- <-]. split; [exact He|]. intros a [= <-].
    destruct (String.get i s); exact I.
  - destruct (h !! l) as [[elems extra|ps]|] eqn:E; intros [= <- <-];
      (split; [exact He|]); intros a [= <-]; try exact I.
    destruct (extends_lookup _ _ _ He E Hv) as [H1 _].
    destruct (elems !! i) as [x|] eqn:Ex; [|exact I]. simpl.
    eapply Forall_forall in H1; [exact H1|]. eapply list_elem_of_lookup_2, Ex.
Qed.

Lemma preserves_values v : fresh_val v -> preserves (values v) (Forall fresh_val).
Proof.
  intros Hv. unfold values.
  eapply preserves_bind; [apply preserves_keys|]. intros ks _.
  apply (preserves_mapH _ (fun _ => True)).
  - intros k _. apply preserves_get_key, Hv.
  - apply Forall_forall. intros; exact I.
Qed.

End Caller.

End FrameFacts.

(** Induction on trees, with the hypothesis for every element of an array
    and every property of an object. *)
Lemma json_nested_ind (P : json -> Prop) :
  P JNull -> (forall b, P (JBool b)) -> (forall n, P (JNum n)) -> (forall s, P (JStr s)) ->
  (forall l, Forall P l -> P (JArr l)) ->
  (forall ps, Forall (fun kv => P (snd kv)) ps -> P (JObj ps)) ->
  forall j, P j.
Proof.
  intros Hnull Hbool Hnum Hstr Harr Hobj.
  fix IH 1. intros [| b | n | s | l | ps].
  - exact Hnull.
  - apply Hbool.
  - apply Hnum.
  - apply Hstr.
  - apply Harr. induction l as [|j l IHl]; constructor; [apply IH | exact IHl].
  - apply Hobj. induction ps as [|[k j] ps IHps]; constructor; [apply IH | exact IHps].
Qed.

Module FrameFacts2.
Import Heap Frame FrameFacts.

Section Caller.

Variable h0 : heap.

#[local] Abbreviation fresh_val := (fresh_val h0).
#[local] Abbreviation fresh_props := (fresh_props h0).
#[local] Abbreviation fresh_cell := (fresh_cell h0).
#[local] Abbreviation extends := (extends h0).
#[local] Abbreviation preserves := (preserves h0).

Lemma alloc_list_extends {A B} (f : A -> heap -> B * heap) (Q : B -> Prop) l :
  Forall (fun x => forall h, extends h -> extends (snd (f x h)) /\ Q (fst (f x h))) l ->
  forall h, extends h ->
            extends (snd (alloc_list f l h)) /\ Forall Q (fst (alloc_list f l h)).
Proof.
  induction 1 as [|x l Hx _ IH]; intros h He; cbn [alloc_list].
  - split; [exact He | constructor].
  - destruct (Hx h He) as [He1 HQ]. destruct (f x h) as [y h1]. simpl in He1, HQ.
    destruct (IH h1 He1) as [He2 HQs]. destruct (alloc_list f l h1) as [ys h2].
    simpl in *. split; [exact He2 | constructor; assumption].
Qed.

(** [JSON.parse] adds objects and returns a fresh value. *)
Lemma parse_extends j : forall h,
  extends h -> extends (snd (parse j h)) /\ fresh_val (fst (parse j h)).
Proof.
  induction j as [| b | n | s | l IH | ps IH] using json_nested_ind; intros h He;
    try (split; [exact He | exact I]).
  - cbn [parse].
    destruct (alloc_list_extends parse fresh_val l IH h He) as [He1 Hvs].
    destruct (alloc_list parse l h) as [vs h1]. simpl in *.
    split; [|apply extends_fresh_loc, He1].
    apply extends_insert; [exact He1 | apply extends_fresh_loc, He1 |].
    split; [exact Hvs | constructor].
  - cbn [parse].
    set (f := fun (kv : string * json) (h : heap) =>
                let '(v, h') := parse (snd kv) h in ((fst kv, v), h')).
    assert (Hf : Forall (fun x => forall h, extends h ->
                           extends (snd (f x h)) /\
                           (fun kv : string * val => fresh_val (snd kv)) (fst (f x h))) ps).
    { eapply Forall_impl; [exact IH|]. intros [k j] Hj h' He'. unfold f. simpl.
      simpl in Hj. destruct (Hj h' He') as [H1 H2]. destruct (parse j h') as [v h2].
      split; assumption. }
    destruct (alloc_list_extends f _ ps Hf h He) as [He1 Hvs].
    destruct (alloc_list f ps h) as [vs h1]. simpl in *.
    split; [|apply extends_fresh_loc, He1].
    apply extends_insert; [exact He1 | apply extends_fresh_loc, He1 | exact Hvs].
Qed.

Lemma preserves_deep_copy v : preserves (deep_copy v) fresh_val.
Proof.
  intros h r h' He. unfold deep_copy.
  destruct (stringify h v) as [[j|]|e].
  - destruct (parse_extends j h He) as [H1 H2].
    destruct (parse j h) as [v' h1]. intros [= <- <-].
    split; [exact H1|]. intros a [= <-]. exact H2.
  - intros [= <- <-]. split; [exact He|]. intros a [=].
  - intros [= <- <-]. split; [exact He|]. intros a [=].
Qed.

Lemma spread_set_subset xs : forall acc x,
  In x (fold_left set_add xs acc) -> In x acc \/ In x xs.
Proof.
  induction xs as [|y xs IH]; intros acc x; simpl; [tauto|].
  intros H. apply IH in H as [H|H]; [|tauto].
  unfold set_add in H. destruct (existsb (sameValueZero y) acc); [tauto|].
  apply in_app_iff in H as [H|[H|[]]]; tauto.
Qed.

Lemma fresh_spread_set xs : Forall fresh_val xs -> Forall fresh_val (spread_set xs).
Proof.
  intros H. apply Forall_forall. intros x Hx. apply list_elem_of_In in Hx.
  apply spread_set_subset in Hx as [[]|Hx].
  eapply Forall_forall in H; [exact H|]. apply list_elem_of_In, Hx.
Qed.

Lemma fresh_filter (p : val -> bool) l :
  Forall fresh_val l -> Forall fresh_val (List.filter p l).
Proof.
  induction 1 as [|x l Hx _ IH]; simpl; [constructor|].
  destruct (p x); [constructor|]; assumption.
Qed.

Lemma fresh_firstn n (l : list val) : Forall fresh_val l -> Forall fresh_val (firstn n l).
Proof. apply Forall_take. Qed.

Section Enhancer.

Variable doc : string -> Dom.xpath_outcome.

Lemma preserves_getElementInfo x : preserves (Heap.getElementInfo doc x) fresh_val.
Proof.
  intros h r h' He. unfold Heap.getElementInfo.
  match goal with |- context [parse ?info h] =>
    destruct (parse_extends info h He) as [H1 H2]; destruct (parse info h) as [v h1]
  end.
  intros [= <- <-]. split; [exact H1|]. intros a [= <-]. exact H2.
Qed.

Lemma preserves_truncate_array item k n :
  fresh_val item -> preserves (truncate_array item k n) (fun _ => True).
Proof.
  intros Hi. unfold truncate_array.
  eapply preserves_bind; [apply preserves_get_prop, Hi|]. intros x Hx.
  eapply preserves_bind; [apply preserves_array_elems, Hx|]. intros [l|] Hl.
  - eapply preserves_bind.
    + apply preserves_alloc. split; [apply fresh_firstn, Hl; reflexivity | constructor].
    + intros s Hs. apply preserves_set_prop; assumption.
  - apply preserves_ret. exact I.
Qed.

Lemma preserves_enhance_item item :
  fresh_val item -> preserves (enhance_item doc item) (fun _ => True).
Proof.
  intros Hi. unfold enhance_item.
  eapply preserves_bind; [apply preserves_get_prop, Hi|]. intros x Hx.
  eapply preserves_bind; [apply preserves_array_elems, Hx|]. intros [xpaths|] Hl;
    [|apply preserves_ret; exact I].
  specialize (Hl _ eq_refl).
  eapply preserves_bind.
  { apply preserves_alloc. split; [apply fresh_spread_set, Hl | constructor]. }
  intros u Hu.
  eapply preserves_bind; [apply preserves_set_prop; assumption|]. intros _ _.
  eapply preserves_bind; [apply preserves_set_prop; [assumption | exact I]|]. intros _ _.
  eapply preserves_bind.
  { apply (preserves_mapH _ _ (fun _ => True) fresh_val).
    - intros y _. apply preserves_getElementInfo.
    - apply Forall_forall. intros; exact I. }
  intros infos Hinfos.
  eapply preserves_bind.
  { apply preserves_alloc. split; [apply fresh_filter, Hinfos | constructor]. }
  intros d Hd.
  eapply preserves_bind; [apply preserves_set_prop; assumption|]. intros _ _.
  eapply preserves_bind; [apply preserves_truncate_array, Hi|]. intros _ _.
  eapply preserves_bind; [apply preserves_truncate_array, Hi|]. intros _ _.
  eapply preserves_bind; [apply preserves_truncate_array, Hi|]. intros _ _.
  apply preserves_truncate_array, Hi.
Qed.

Lemma preserves_forEachKey parent body :
  fresh_val parent ->
  (forall child, fresh_val child -> preserves (body child) (fun _ => True)) ->
  preserves (forEachKey parent body) (fun _ => True).
Proof.
  intros Hp Hb. unfold forEachKey.
  eapply preserves_bind; [apply preserves_keys|]. intros ks _.
  apply (preserves_forEach _ _ (fun _ => True)).
  - intros k _.
    eapply preserves_bind; [apply preserves_get_key, Hp|]. intros child Hc.
    apply Hb, Hc.
  - apply Forall_forall. intros; exact I.
Qed.

Lemma preserves_enhance_category category :
  fresh_val category -> preserves (enhance_category doc category) (fun _ => True).
Proof.
  intros Hc. unfold enhance_category.
  eapply preserves_bind; [apply preserves_get_prop, Hc|]. intros items Hi.
  destruct (truthy items); [|apply preserves_ret; exact I].
  apply preserves_forEachKey; [exact Hi|]. apply preserves_enhance_item.
Qed.

Lemma preserves_add_count total item :
  fresh_val item -> preserves (add_count total item) (fun _ => True).
Proof.
  intros Hi. unfold add_count.
  eapply preserves_bind; [apply preserves_get_prop, Hi|]. intros c Hc.
  intros h r h' He [= <- <-]. split; [exact He|]. intros; exact I.
Qed.

Lemma fresh_of_primitive j : fresh_val (of_primitive j).
Proof. destruct j; exact I. Qed.

Lemma preserves_recount_category category :
  fresh_val category -> preserves (recount_category category) (fun _ => True).
Proof.
  intros Hc. unfold recount_category.
  eapply preserves_bind; [apply preserves_get_prop, Hc|]. intros items Hi.
  destruct (truthy items); [|apply preserves_ret; exact I].
  eapply preserves_bind; [apply preserves_values, Hi|]. intros vs Hvs.
  eapply preserves_bind.
  { apply (preserves_reduce _ _ fresh_val); [|exact Hvs].
    intros acc x Hx. apply preserves_add_count, Hx. }
  intros total _. apply preserves_set_prop; [exact Hc | apply fresh_of_primitive].
Qed.

Lemma preserves_retain enhanced filtered k :
  fresh_val enhanced -> fresh_val filtered ->
  preserves (retain enhanced filtered k) (fun _ => True).
Proof.
  intros He Hf. unfold retain.
  eapply preserves_bind; [apply preserves_get_prop, He|]. intros cats Hc.
  destruct (truthy cats); [|apply preserves_ret; exact I].
  eapply preserves_bind; [apply preserves_get_prop, Hc|]. intros c Hc1.
  destruct (truthy c); [|apply preserves_ret; exact I].
  eapply preserves_bind; [apply preserves_get_prop, Hc|]. intros c' Hc'.
  apply preserves_set_prop; assumption.
Qed.

Lemma preserves_enhanceResultsWithDOMInfo results :
  preserves (Heap.enhanceResultsWithDOMInfo doc results) fresh_val.
Proof.
  unfold Heap.enhanceResultsWithDOMInfo.
  eapply preserves_bind; [apply preserves_deep_copy|]. intros enhanced He.
  eapply preserves_bind; [apply preserves_alloc; constructor|]. intros filtered Hf.
  eapply preserves_bind; [apply preserves_retain; assumption|]. intros _ _.
  eapply preserves_bind; [apply preserves_retain; assumption|]. intros _ _.
  eapply preserves_bind.
  { apply preserves_forEachKey; [exact Hf | apply preserves_enhance_category]. }
  intros _ _.
  eapply preserves_bind.
  { apply preserves_forEachKey; [exact Hf | apply preserves_recount_category]. }
  intros _ _.
  eapply preserves_bind; [apply preserves_set_prop; assumption|]. intros _ _.
  apply preserves_ret, He.
Qed.

End Enhancer.

End Caller.

(** What [JSON.stringify] writes down it writes down again in a heap
    that has kept every object. *)
Lemma mapM_mono {A B} (f g : A -> result B) l r :
  (forall x y, f x = Ok y -> g x = Ok y) -> mapM f l = Ok r -> mapM g l = Ok r.
Proof.
  intros Hfg. revert r. induction l as [|x l IH]; intros r H; [exact H|].
  cbn [mapM] in *. unfold bind in *.
  destruct (f x) as [y|] eqn:Hx; [|discriminate H]. rewrite (Hfg x y Hx).
  destruct (mapM f l) as [ys|]; [|discriminate H]. rewrite (IH ys eq_refl). exact H.
Qed.

Lemma serialize_mono fuel : forall h h' v o fuel',
  serialize fuel h v = Ok o -> h ⊆ h' -> (fuel <= fuel')%nat ->
  serialize fuel' h' v = Ok o.
Proof.
  induction fuel as [|fuel IH]; intros h h' v o fuel' H Hsub Hle.
  - destruct v; try (destruct fuel'; exact H). discriminate H.
  - destruct v; try (destruct fuel'; exact H).
    destruct fuel' as [|fuel']; [lia|]. cbn [serialize] in *.
    destruct (h !! l) as [c|] eqn:Hl; [|discriminate H].
    rewrite (lookup_weaken _ _ _ _ Hl Hsub).
    assert (Hchild : forall e y, serialize fuel (delete l h) e = Ok y ->
                                 serialize fuel' (delete l h') e = Ok y).
    { intros e y He. apply (IH _ _ _ _ _ He); [apply delete_mono, Hsub | lia]. }
    destruct c as [elems extra|ps]; unfold bind in *.
    + destruct (mapM _ elems) as [js|] eqn:Hm; [|discriminate H].
      erewrite mapM_mono; [exact H | | exact Hm].
      intros e y He. cbn beta in *.
      destruct (serialize fuel (delete l h) e) as [oe|] eqn:Hs; [|discriminate He].
      rewrite (Hchild e oe Hs). exact He.
    + destruct (mapM _ ps) as [kvs|] eqn:Hm; [|discriminate H].
      erewrite mapM_mono; [exact H | | exact Hm].
      intros kv y He. cbn beta in *.
      destruct (serialize fuel (delete l h) (snd kv)) as [oe|] eqn:Hs; [|discriminate He].
      rewrite (Hchild (snd kv) oe Hs). exact He.
Qed.

Lemma stringify_mono h h' v o : stringify h v = Ok o -> h ⊆ h' -> stringify h' v = Ok o.
Proof.
  intros H Hsub. unfold stringify in *. eapply serialize_mono; [exact H | exact Hsub |].
  apply le_n_S, map_subseteq_size, Hsub.
Qed.

(** C10. The enhancer never changes an object of its caller: whatever
    [results] is and whether the enhancer returns or throws, every object
    of the heap it was called in is in the heap it leaves, with the same
    content; the value it returns is no reference to one of them; and what
    [JSON.stringify(results)] wrote down before the call it writes down
    after it.  All the writes of the enhancer go to the copy made by
    [JSON.parse(JSON.stringify(results))] and to objects it creates
    itself. *)
Theorem enhancer_leaves_results_unchanged
  (doc : string -> Dom.xpath_outcome) (results : val) (h : heap) :
  let '(r, h') := Heap.enhanceResultsWithDOMInfo doc results h in
  h ⊆ h' /\
  (forall l c, h !! l = Some c -> h' !! l = Some c) /\
  (forall l, r = Ok (VRef l) -> h !! l = None) /\
  (forall o, stringify h results = Ok o -> stringify h' results = Ok o).
Proof.
  destruct (Heap.enhanceResultsWithDOMInfo doc results h) as [r h'] eqn:E.
  destruct (preserves_enhanceResultsWithDOMInfo h doc results h r h' (extends_refl h) E)
    as [[Hsub _] Hr].
  split; [exact Hsub|]. split; [|split].
  - intros l c Hl. eapply map_subseteq_spec; eauto.
  - intros l ->. apply (Hr (VRef l) eq_refl).
  - intros o Ho. eapply stringify_mono; eauto.
Qed.

End FrameFacts2.

(** ** No lookup makes the enhancer fail

    Whether the enhancer returns or throws does not depend on the
    document: it throws exactly when it meets a [null] where it reads a
    property. *)

Lemma mapM_returns {A B} (f : A -> result B) l :
  returns (mapM f l) <-> Forall (fun x => returns (f x)) l.
Proof.
  induction l as [|x l IH]; simpl.
  - split; [constructor | eexists; reflexivity].
  - split.
    + intros [ys H]. destruct (f x) as [y|] eqn:E; simpl in H; [|discriminate].
      destruct (mapM f l) as [ys'|]; simpl in H; [|discriminate].
      constructor; [exists y; exact E | apply IH; eexists; reflexivity].
    + intros H. inversion H as [|? ? [y Hy] Hl]; subst.
      apply IH in Hl as [ys Hys]. rewrite Hy, Hys. eexists; reflexivity.
Qed.

Lemma enhance_item_returns doc item : returns (enhance_item doc item) <-> item <> JNull.
Proof.
  destruct item as [| | | | |ps]; simpl;
    try (split; [intros _; discriminate | intros _; eexists; reflexivity]).
  - split; [intros [a H]; discriminate H | congruence].
  - split; [intros _; discriminate|]. intros _.
    destruct (Js.lookup_prop "xpaths" ps) as [[]|]; eexists; reflexivity.
Qed.

Lemma enhance_item_not_null doc item item' :
  enhance_item doc item = Ok item' -> item' <> JNull.
Proof.
  destruct item as [| | | | |ps]; simpl; try (intros [= <-]; discriminate);
    try discriminate.
  destruct (Js.lookup_prop "xpaths" ps) as [[]|]; intros [= <-]; discriminate.
Qed.

Lemma on_values_returns f kv : returns (on_values f kv) <-> returns (f (snd kv)).
Proof.
  unfold on_values. destruct (f (snd kv)) as [v|]; simpl.
  - split; eexists; reflexivity.
  - split; intros [a H]; discriminate H.
Qed.

Lemma enhance_items_returns doc doc' items :
  returns (enhance_items doc items) -> returns (enhance_items doc' items).
Proof.
  destruct items as [| | | | l | ips]; simpl; try (intros _; eexists; reflexivity).
  - intros [r H].
    destruct (mapM (enhance_item doc) l) as [l1|] eqn:E; [|discriminate].
    assert (H' : returns (mapM (enhance_item doc') l)).
    { apply mapM_returns. assert (H1 : returns (mapM (enhance_item doc) l)) by (eexists; eauto).
      apply mapM_returns in H1. eapply Forall_impl; [exact H1|].
      intros x Hx. apply enhance_item_returns. apply enhance_item_returns in Hx. exact Hx. }
    destruct H' as [l2 ->]. eexists; reflexivity.
  - intros [r H].
    destruct (mapM (on_values (enhance_item doc)) ips) as [l1|] eqn:E; [|discriminate].
    assert (H' : returns (mapM (on_values (enhance_item doc')) ips)).
    { apply mapM_returns.
      assert (H1 : returns (mapM (on_values (enhance_item doc)) ips)) by (eexists; eauto).
      apply mapM_returns in H1. eapply Forall_impl; [exact H1|].
      intros x Hx. apply on_values_returns, enhance_item_returns.
      apply on_values_returns, enhance_item_returns in Hx. exact Hx. }
    destruct H' as [l2 ->]. eexists; reflexivity.
Qed.

Lemma enhance_category_returns doc doc' c :
  returns (enhance_category doc c) -> returns (enhance_category doc' c).
Proof.
  unfold enhance_category.
  destruct c as [| | | | |cps]; try (intros _; eexists; reflexivity).
  destruct (Js.get (JObj cps) "items") as [items|]; [|intros _; eexists; reflexivity].
  destruct (Js.truthy items); [|intros _; eexists; reflexivity].
  intros [r H].
  destruct (enhance_items doc items) as [i1|] eqn:E; [|discriminate].
  destruct (enhance_items_returns doc doc' items) as [i2 ->]; [eexists; eauto|].
  eexists; reflexivity.
Qed.

Lemma item_count_returns item : item <> JNull -> returns (item_count item).
Proof.
  intros H. destruct item; [congruence| | | | |]; simpl;
    try (eexists; reflexivity).
  destruct (Js.lookup_prop "count" props); eexists; reflexivity.
Qed.

Lemma reduce_counts_returns vs : forall total,
  Forall (fun v => v <> JNull) vs -> returns (reduce_counts total vs).
Proof.
  induction vs as [|v vs IH]; intros total H; simpl.
  - eexists; reflexivity.
  - inversion H as [|? ? Hv Hvs]; subst.
    destruct (item_count_returns v Hv) as [c ->]. simpl. apply IH, Hvs.
Qed.

Lemma enhance_items_values_not_null doc items items' :
  enhance_items doc items = Ok items' -> Forall (fun v => v <> JNull) (Js.values items').
Proof.
  destruct items as [| | |s| l | ips]; simpl; try (intros [= <-]; constructor).
  - intros [= <-]. simpl. apply Forall_forall. intros v Hv.
    apply list_elem_of_In, in_map_iff in Hv as (c & <- & _). discriminate.
  - destruct (mapM (enhance_item doc) l) as [l1|] eqn:E; simpl; [|discriminate].
    intros [= <-]. simpl. apply mapM_Forall2 in E.
    induction E as [|x y l l1 Hxy _ IH]; constructor; [|exact IH].
    eapply enhance_item_not_null, Hxy.
  - destruct (mapM (on_values (enhance_item doc)) ips) as [l1|] eqn:E; simpl; [|discriminate].
    intros [= <-]. simpl. apply mapM_Forall2 in E.
    induction E as [|[k x] [k' y] l l1 Hxy _ IH]; simpl; constructor; [|exact IH].
    unfold on_values in Hxy. simpl in Hxy.
    destruct (enhance_item doc x) as [x'|] eqn:Ex; simpl in Hxy; [|discriminate].
    injection Hxy as _ <-. eapply enhance_item_not_null, Ex.
Qed.

(** After the first pass the second pass cannot throw. *)
Lemma recount_after_enhance doc c c1 :
  enhance_category doc c = Ok c1 -> returns (recount_category c1).
Proof.
  unfold enhance_category.
  assert (Hsame : forall c0, (forall items, Js.get c0 "items" = Some items ->
                                Js.truthy items = true ->
                                Forall (fun v => v <> JNull) (Js.values items)) ->
                  returns (recount_category c0)).
  { intros c0 Hc0. unfold recount_category.
    destruct c0 as [| | | | |cps0]; try (eexists; reflexivity).
    destruct (Js.get (JObj cps0) "items") as [items0|] eqn:E0; [|eexists; reflexivity].
    destruct (Js.truthy items0) eqn:T0; [|eexists; reflexivity].
    destruct (reduce_counts_returns (Js.values items0) (JNum 0) (Hc0 _ eq_refl T0))
      as [t ->].
    eexists; reflexivity. }
  destruct c as [| | | | |cps]; try (intros [= <-]; eexists; reflexivity).
  destruct (Js.get (JObj cps) "items") as [items|] eqn:Ei;
    [|intros [= <-]; unfold recount_category; rewrite Ei; eexists; reflexivity].
  destruct (Js.truthy items) eqn:T;
    [|intros [= <-]; unfold recount_category; rewrite Ei, T; eexists; reflexivity].
  destruct (enhance_items doc items) as [items'|] eqn:E; simpl; [|discriminate].
  intros [= <-]. apply Hsame. intros its Hits _.
  simpl in Hits. rewrite lookup_set_prop_eq in Hits. injection Hits as <-.
  eapply enhance_items_values_not_null, E.
Qed.

(** C3, the part the code keeps: lookups that find nothing or throw never
    make the enhancement fail.  If the enhancer returns on one document,
    it returns on every document. *)
Lemma enhancement_never_fails_on_lookups doc doc' results :
  returns (enhanceResultsWithDOMInfo doc results) ->
  returns (enhanceResultsWithDOMInfo doc' results).
Proof.
  intros [out Hout].
  destruct (enhance_Ok doc _ _ Hout) as (f1 & f2 & H1 & H2 & _).
  assert (R1 : returns (mapM (on_values (enhance_category doc')) (filtered0 results))).
  { apply mapM_returns.
    assert (R : returns (mapM (on_values (enhance_category doc)) (filtered0 results)))
      by (eexists; eauto).
    apply mapM_returns in R. eapply Forall_impl; [exact R|].
    intros kv Hkv. apply on_values_returns. apply on_values_returns in Hkv.
    eapply enhance_category_returns, Hkv. }
  destruct R1 as [f1' Hf1'].
  assert (R2 : returns (mapM (on_values recount_category) f1')).
  { apply mapM_returns. apply mapM_Forall2 in Hf1'.
    clear - Hf1'. induction Hf1' as [|[k c] [k' c1] l l' Hx _ IH]; constructor; [|exact IH].
    apply on_values_returns. simpl.
    unfold on_values in Hx. simpl in Hx.
    destruct (enhance_category doc' c) as [c1'|] eqn:E; simpl in Hx; [|discriminate].
    injection Hx as _ <-. eapply recount_after_enhance, E. }
  destruct R2 as [f2' Hf2'].
  unfold enhanceResultsWithDOMInfo.
  destruct results; [discriminate Hout| | | | |];
    rewrite Hf1'; simpl; rewrite Hf2'; simpl; eexists; reflexivity.
Qed.

(** ** The copy as a tree in the heap *)

Module LocatedFacts.
Import Heap Located.

Lemma ltree_nested_ind (P : ltree -> Prop) :
  P LNull -> (forall b, P (LBool b)) -> (forall n, P (LNum n)) -> (forall s, P (LStr s)) ->
  (forall l ts, Forall P ts -> P (LArr l ts)) ->
  (forall l ps, Forall (fun kt => P (snd kt)) ps -> P (LObj l ps)) ->
  forall t, P t.
Proof.
  intros Hnull Hbool Hnum Hstr Harr Hobj.
  fix IH 1. intros [| b | n | s | l ts | l ps].
  - exact Hnull.
  - apply Hbool.
  - apply Hnum.
  - apply Hstr.
  - apply Harr. induction ts as [|t ts IHts]; constructor; [apply IH | exact IHts].
  - apply Hobj. induction ps as [|[k t] ps IHps]; constructor; [apply IH | exact IHps].
Qed.

Lemma fold_right_and_Forall {A} (Q : A -> Prop) l :
  fold_right (fun x P => Q x /\ P) True l <-> Forall Q l.
Proof.
  induction l as [|x l IH]; simpl.
  - split; [constructor | trivial].
  - rewrite IH. split.
    + intros [? ?]; constructor; assumption.
    + intros H; inversion H; subst; split; assumption.
Qed.

Lemma stored_LArr h l ts :
  stored h (LArr l ts) <-> h !! l = Some (CArr (List.map root ts) []) /\ Forall (stored h) ts.
Proof. cbn [stored]. rewrite fold_right_and_Forall. reflexivity. Qed.

Lemma stored_LObj h l ps :
  stored h (LObj l ps) <->
  h !! l = Some (CObj (kroots ps)) /\ Forall (fun kt => stored h (snd kt)) ps.
Proof.
  cbn [stored]. rewrite (fold_right_and_Forall (fun kt => stored h (snd kt))). reflexivity.
Qed.

Lemma klocs_cons k t ps : klocs ((k, t) :: ps) = (locs t ++ klocs ps)%list.
Proof. reflexivity. Qed.

Lemma klocs_app ps1 ps2 : klocs (ps1 ++ ps2) = (klocs ps1 ++ klocs ps2)%list.
Proof. unfold klocs. apply flat_map_app. Qed.

Lemma elem_of_flat_map_locs ts x :
  x ∈ flat_map locs ts <-> exists t, t ∈ ts /\ x ∈ locs t.
Proof.
  rewrite list_elem_of_In, in_flat_map. split; intros (t & H1 & H2); exists t;
    split; try (apply list_elem_of_In; assumption); apply list_elem_of_In; assumption.
Qed.

Lemma elem_of_klocs ps x :
  x ∈ klocs ps <-> exists kt, kt ∈ ps /\ x ∈ locs (snd kt).
Proof.
  unfold klocs. rewrite list_elem_of_In, in_flat_map. split; intros (t & H1 & H2); exists t;
    split; try (apply list_elem_of_In; assumption); apply list_elem_of_In; assumption.
Qed.

(** Every location of a stored tree is in use. *)
Lemma stored_dom h t : stored h t -> forall l, l ∈ locs t -> is_Some (h !! l).
Proof.
  induction t as [| | | | l ts IH | l ps IH] using ltree_nested_ind; cbn [locs];
    try (intros _ x Hx; inversion Hx; fail).
  - rewrite stored_LArr. intros [Hl Hts] x Hx.
    apply elem_of_cons in Hx as [->|Hx]; [eauto|].
    apply elem_of_flat_map_locs in Hx as (t & Ht & Hx).
    rewrite Forall_forall in IH, Hts. eapply IH; eauto.
  - rewrite stored_LObj. intros [Hl Hps] x Hx.
    apply elem_of_cons in Hx as [->|Hx]; [eauto|].
    apply elem_of_klocs in Hx as (kt & Ht & Hx).
    rewrite Forall_forall in IH, Hps. eapply IH; eauto.
Qed.

(** A stored tree stays stored when its own objects are left alone. *)
Lemma stored_frame h h' t :
  stored h t -> (forall l, l ∈ locs t -> h' !! l = h !! l) -> stored h' t.
Proof.
  induction t as [| | | | l ts IH | l ps IH] using ltree_nested_ind; cbn [locs];
    try (intros; exact I).
  - rewrite !stored_LArr. intros [Hl Hts] Hsame. split.
    + rewrite Hsame; [exact Hl | apply elem_of_cons; auto].
    + rewrite Forall_forall in IH, Hts. apply Forall_forall. intros t Ht.
      apply IH; [exact Ht | apply Hts, Ht |].
      intros x Hx. apply Hsame, elem_of_cons. right.
      apply elem_of_flat_map_locs. eauto.
  - rewrite !stored_LObj. intros [Hl Hps] Hsame. split.
    + rewrite Hsame; [exact Hl | apply elem_of_cons; auto].
    + rewrite Forall_forall in IH, Hps. apply Forall_forall. intros kt Ht.
      apply IH; [exact Ht | apply Hps, Ht |].
      intros x Hx. apply Hsame, elem_of_cons. right.
      apply elem_of_klocs. eauto.
Qed.

(** *** Confined writes *)

Lemma confined_refl W h : confined W h h.
Proof. intros l Hl. split; [exact Hl | reflexivity]. Qed.

Lemma confined_trans W1 W2 W h1 h2 h3 :
  confined W1 h1 h2 -> confined W2 h2 h3 ->
  (forall l, l ∈ W1 -> l ∈ W) -> (forall l, l ∈ W2 -> l ∈ W) ->
  confined W h1 h3.
Proof.
  intros H12 H23 HW1 HW2 l Hl.
  destruct (H12 l Hl) as [Hl2 Hs2]. destruct (H23 l Hl2) as [Hl3 Hs3].
  split; [exact Hl3|]. intros Hn.
  rewrite Hs3, Hs2; [reflexivity | |]; intros Hin; apply Hn; auto.
Qed.

Lemma confined_weaken W W' h h' :
  confined W h h' -> (forall l, l ∈ W -> l ∈ W') -> confined W' h h'.
Proof.
  intros H HW. eapply confined_trans; [exact H | apply (confined_refl []) | exact HW |].
  intros l Hl. inversion Hl.
Qed.

Lemma confined_alloc W h l c : h !! l = None -> confined W h (<[l := c]> h).
Proof.
  intros Hl x [c' Hx]. assert (l <> x) by congruence.
  rewrite lookup_insert_ne by assumption. split; [eauto | reflexivity].
Qed.

Lemma confined_write W h l c : l ∈ W -> confined W h (<[l := c]> h).
Proof.
  intros Hl x Hx. destruct (decide (l = x)) as [->|Hne].
  - rewrite lookup_insert_eq. split; [eauto | tauto].
  - rewrite lookup_insert_ne by assumption. split; [exact Hx | reflexivity].
Qed.

Lemma confined_fresh W h h' l : confined W h h' -> h' !! l = None -> h !! l = None.
Proof.
  intros Hc Hl. destruct (h !! l) as [c|] eqn:E; [|reflexivity].
  destruct (Hc l (ex_intro _ c E)) as [[c' Hc'] _]. congruence.
Qed.

Lemma stored_confined W h h' t :
  stored h t -> confined W h h' -> (forall l, l ∈ locs t -> l ∉ W) -> stored h' t.
Proof.
  intros Hs Hc Hd. apply (stored_frame h); [exact Hs|].
  intros l Hl. apply Hc; [eapply stored_dom; eauto | apply Hd, Hl].
Qed.

End LocatedFacts.

(** ** [JSON.parse] plants a tree and [JSON.stringify] reads it *)

Module ParseFacts.
Import Heap Located LocatedFacts.

Lemma klocs_map_snd ps : flat_map locs (List.map snd ps) = klocs ps.
Proof.
  unfold klocs. induction ps as [|[k t] ps IH]; [reflexivity|].
  simpl. rewrite IH. reflexivity.
Qed.

Lemma planted_nil h : planted h h [].
Proof.
  refine (conj _ (conj _ (conj _ (conj _ _)))).
  - constructor.
  - constructor.
  - intros l Hl. inversion Hl.
  - apply confined_refl.
  - intros l Hl. left. exact Hl.
Qed.

Lemma planted_cons h h1 h2 t ts :
  planted h h1 [t] -> planted h1 h2 ts -> planted h h2 (t :: ts).
Proof.
  intros (Hs1 & Hn1 & Hf1 & Hc1 & Hd1) (Hs2 & Hn2 & Hf2 & Hc2 & Hd2).
  simpl in Hn1, Hf1, Hd1. rewrite app_nil_r in Hn1, Hf1, Hd1.
  apply Forall_cons in Hs1 as [Hs1 _].
  assert (Hdisj : forall x, x ∈ locs t -> x ∉ flat_map locs ts).
  { intros x Hx Hx'. destruct (stored_dom _ _ Hs1 x Hx) as [c Hc].
    rewrite (Hf2 x Hx') in Hc. discriminate. }
  refine (conj _ (conj _ (conj _ (conj _ _)))).
  - constructor; [|exact Hs2].
    eapply stored_confined; [exact Hs1 | exact Hc2 |]. intros l _ Hl. inversion Hl.
  - simpl. apply NoDup_app. auto.
  - intros l Hl. simpl in Hl. apply elem_of_app in Hl as [Hl|Hl]; [auto|].
    eapply confined_fresh; [exact Hc1 | auto].
  - apply (confined_trans [] [] [] h h1 h2 Hc1 Hc2); auto.
  - intros l Hl. simpl. rewrite elem_of_app.
    destruct (Hd2 l Hl) as [Hl1|Hl1]; [|auto].
    destruct (Hd1 l Hl1); auto.
Qed.

Lemma planted_node h h1 ts (t : ltree) l c :
  planted h h1 ts -> l = fresh (dom h1) ->
  locs t = l :: flat_map locs ts ->
  (forall h', h' !! l = Some c -> Forall (stored h') ts -> stored h' t) ->
  planted h (<[l := c]> h1) [t].
Proof.
  intros (Hs & Hn & Hf & Hc & Hd) El Hlocs Hst.
  assert (Hl1 : h1 !! l = None).
  { subst l. apply not_elem_of_dom. apply is_fresh. }
  clear El.
  assert (Hlts : l ∉ flat_map locs ts).
  { intros Hx. apply elem_of_flat_map_locs in Hx as (t' & Ht' & Hx).
    rewrite Forall_forall in Hs. destruct (stored_dom _ _ (Hs _ Ht') l Hx) as [c' Hc'].
    congruence. }
  assert (Hc' : confined [] h1 (<[l := c]> h1)) by (apply confined_alloc, Hl1).
  refine (conj _ (conj _ (conj _ (conj _ _)))).
  - constructor; [|constructor]. apply Hst; [apply lookup_insert_eq|].
    eapply Forall_impl; [exact Hs|]. intros t' Ht'.
    eapply stored_confined; [exact Ht' | exact Hc' |]. intros x _ Hx. inversion Hx.
  - simpl. rewrite app_nil_r, Hlocs. apply NoDup_cons. auto.
  - intros x Hx. simpl in Hx. rewrite app_nil_r, Hlocs in Hx.
    apply elem_of_cons in Hx as [->|Hx]; [|auto].
    eapply confined_fresh; [exact Hc | exact Hl1].
  - apply (confined_trans [] [] [] h h1 _ Hc Hc'); auto.
  - intros x Hx. simpl. rewrite app_nil_r, Hlocs.
    destruct (decide (l = x)) as [<-|Hne]; [right; apply elem_of_cons; auto|].
    rewrite lookup_insert_ne in Hx by assumption.
    destruct (Hd x Hx); [auto|]. right. apply elem_of_cons. auto.
Qed.

Lemma alloc_list_parse js :
  Forall (fun j => forall h, exists t h',
            parse j h = (root t, h') /\ erase t = j /\ planted h h' [t]) js ->
  forall h, exists ts h',
    alloc_list parse js h = (List.map root ts, h') /\
    List.map erase ts = js /\ planted h h' ts.
Proof.
  induction 1 as [|j js Hj _ IH]; intros h; cbn [alloc_list].
  - exists [], h. split; [reflexivity|]. split; [reflexivity | apply planted_nil].
  - destruct (Hj h) as (t & h1 & Hp & He & Hpl). rewrite Hp.
    destruct (IH h1) as (ts & h2 & Hps & Hes & Hpls). rewrite Hps.
    exists (t :: ts), h2. split; [reflexivity|]. split.
    + simpl. rewrite He, Hes. reflexivity.
    + eapply planted_cons; eauto.
Qed.

Lemma alloc_list_parse_props ps :
  Forall (fun kv => forall h, exists t h',
            parse (snd kv) h = (root t, h') /\ erase t = snd kv /\ planted h h' [t]) ps ->
  forall h, exists lps h',
    alloc_list (fun kv h => let '(v, h') := parse (snd kv) h in ((fst kv, v), h')) ps h
    = (kroots lps, h') /\
    kerase lps = ps /\ planted h h' (List.map snd lps).
Proof.
  induction 1 as [|[k j] ps Hj _ IH]; intros h; cbn [alloc_list].
  - exists [], h. split; [reflexivity|]. split; [reflexivity | apply planted_nil].
  - destruct (Hj h) as (t & h1 & Hp & He & Hpl). simpl in Hp, He. simpl. rewrite Hp.
    destruct (IH h1) as (lps & h2 & Hps & Hes & Hpls). rewrite Hps.
    exists ((k, t) :: lps), h2. split; [reflexivity|]. split.
    + simpl. rewrite He, Hes. reflexivity.
    + simpl. eapply planted_cons; eauto.
Qed.

(** [JSON.parse] plants a tree that erases to the tree parsed. *)
Lemma parse_located j : forall h, exists t h',
  parse j h = (root t, h') /\ erase t = j /\ planted h h' [t].
Proof.
  induction j as [| b | n | s | js IH | ps IH] using json_nested_ind; intros h.
  - exists LNull, h. (split; [reflexivity|split; [reflexivity|]]);
      refine (conj _ (conj _ (conj _ (conj _ _))));
      [repeat constructor | constructor | intros l Hl; inversion Hl
      | apply confined_refl | intros l Hl; left; exact Hl].
  - exists (LBool b), h. (split; [reflexivity|split; [reflexivity|]]);
      refine (conj _ (conj _ (conj _ (conj _ _))));
      [repeat constructor | constructor | intros l Hl; inversion Hl
      | apply confined_refl | intros l Hl; left; exact Hl].
  - exists (LNum n), h. (split; [reflexivity|split; [reflexivity|]]);
      refine (conj _ (conj _ (conj _ (conj _ _))));
      [repeat constructor | constructor | intros l Hl; inversion Hl
      | apply confined_refl | intros l Hl; left; exact Hl].
  - exists (LStr s), h. (split; [reflexivity|split; [reflexivity|]]);
      refine (conj _ (conj _ (conj _ (conj _ _))));
      [repeat constructor | constructor | intros l Hl; inversion Hl
      | apply confined_refl | intros l Hl; left; exact Hl].
  - destruct (alloc_list_parse js IH h) as (ts & h1 & Ha & He & Hpl).
    cbn [parse]. rewrite Ha.
    exists (LArr (fresh (dom h1)) ts), (<[fresh (dom h1) := CArr (List.map root ts) []]> h1).
    split; [reflexivity|]. split; [simpl; rewrite He; reflexivity|].
    eapply planted_node; [exact Hpl | reflexivity | reflexivity |].
    intros h' Hl Hts. apply stored_LArr. auto.
  - destruct (alloc_list_parse_props ps IH h) as (lps & h1 & Ha & He & Hpl).
    cbn [parse]. rewrite Ha.
    exists (LObj (fresh (dom h1)) lps), (<[fresh (dom h1) := CObj (kroots lps)]> h1).
    split; [reflexivity|]. split; [simpl; fold (kerase lps); rewrite He; reflexivity|].
    eapply planted_node; [exact Hpl | reflexivity | |].
    + simpl. rewrite klocs_map_snd. reflexivity.
    + intros h' Hl Hts. apply stored_LObj. split; [exact Hl|].
      clear - Hts. induction lps as [|kt lps IHl]; [constructor|].
      simpl in Hts. apply Forall_cons in Hts as [H1 H2]. constructor; auto.
Qed.

(** *** Reading a tree back *)

Lemma mapM_map_root {B} (g : val -> result B) (e : ltree -> B) ts :
  Forall (fun t => g (root t) = Ok (e t)) ts ->
  mapM g (List.map root ts) = Ok (List.map e ts).
Proof.
  induction 1 as [|t ts Ht _ IH]; [reflexivity|].
  cbn [List.map mapM]. rewrite Ht. simpl. rewrite IH. reflexivity.
Qed.

Lemma mapM_kroots {B} (g : string * val -> result B) (e : string * ltree -> B) ps :
  Forall (fun kt => g (fst kt, root (snd kt)) = Ok (e kt)) ps ->
  mapM g (kroots ps) = Ok (List.map e ps).
Proof.
  induction 1 as [|t ts Ht _ IH]; [reflexivity|].
  cbn [kroots List.map mapM]. rewrite Ht. simpl. fold (kroots ts). rewrite IH. reflexivity.
Qed.

Lemma omap_Some_map {A B} (f : A -> B) (l : list A) :
  omap (fun o => o) (List.map (fun x => Some (f x)) l) = List.map f l.
Proof. induction l as [|x l IH]; [reflexivity|]. simpl. f_equal. exact IH. Qed.

(** [JSON.stringify] of a stored tree without sharing writes down the
    tree: with fuel above the size of the heap the depth bound is never
    hit. *)
Lemma serialize_located t : forall h fuel,
  stored h t -> NoDup (locs t) -> (size h < fuel)%nat ->
  serialize fuel h (root t) = Ok (Some (erase t)).
Proof.
  induction t as [| | | | l ts IH | l ps IH] using ltree_nested_ind; intros h fuel Hs Hn Hf;
    try (destruct fuel; reflexivity).
  - apply stored_LArr in Hs as [Hl Hts]. cbn [locs] in Hn. apply NoDup_cons in Hn as [Hlts Hn].
    destruct fuel as [|fuel]; [lia|]. cbn [root serialize]. rewrite Hl.
    assert (Hsize : (size (delete l h) < fuel)%nat).
    { rewrite map_size_delete, Hl. destruct (size h) eqn:E; [|lia].
      apply map_size_empty_inv in E. subst h. rewrite lookup_empty in Hl. discriminate. }
    rewrite (mapM_map_root _ erase); [reflexivity|].
    rewrite Forall_forall in IH, Hts. apply Forall_forall. intros t Ht.
    rewrite (IH t Ht (delete l h) fuel); [reflexivity | | | exact Hsize].
    + apply (stored_frame h); [apply Hts, Ht|].
      intros x Hx. apply lookup_delete_ne. intros ->.
      apply Hlts, elem_of_flat_map_locs. eauto.
    + clear - Hn Ht. induction ts as [|t' ts IHts]; [inversion Ht|].
      simpl in Hn. apply NoDup_app in Hn as (H1 & _ & H2).
      apply elem_of_cons in Ht as [->|Ht]; auto.
  - apply stored_LObj in Hs as [Hl Hps]. cbn [locs] in Hn. apply NoDup_cons in Hn as [Hlps Hn].
    destruct fuel as [|fuel]; [lia|]. cbn [root serialize]. rewrite Hl.
    assert (Hsize : (size (delete l h) < fuel)%nat).
    { rewrite map_size_delete, Hl. destruct (size h) eqn:E; [|lia].
      apply map_size_empty_inv in E. subst h. rewrite lookup_empty in Hl. discriminate. }
    rewrite (mapM_kroots _ (fun kt => Some (fst kt, erase (snd kt)))).
    + simpl. rewrite omap_Some_map. reflexivity.
    + rewrite Forall_forall in IH, Hps. apply Forall_forall. intros kt Ht. simpl.
      rewrite (IH kt Ht (delete l h) fuel); [reflexivity | | | exact Hsize].
      * apply (stored_frame h); [apply Hps, Ht|].
        intros x Hx. apply lookup_delete_ne. intros ->.
        apply Hlps. fold (klocs ps). apply elem_of_klocs. eauto.
      * clear - Hn Ht. induction ps as [|kt' ps IHps]; [inversion Ht|].
        simpl in Hn. apply NoDup_app in Hn as (H1 & _ & H2).
        apply elem_of_cons in Ht as [->|Ht]; auto.
Qed.

Lemma stringify_located h t :
  stored h t -> NoDup (locs t) -> stringify h (root t) = Ok (Some (erase t)).
Proof. intros Hs Hn. apply serialize_located; auto. Qed.

Lemma tree_of_located h t : stored h t -> NoDup (locs t) -> tree_of h (root t) = erase t.
Proof. intros Hs Hn. unfold tree_of. rewrite stringify_located; auto. Qed.

Lemma mapM_not_throw {A B} (f : A -> result B) (e : js_error) l :
  (forall x, f x <> Throw e) -> mapM f l <> Throw e.
Proof.
  intros Hf. induction l as [|x l IH]; [discriminate|].
  cbn [mapM]. destruct (f x) as [y|e'] eqn:E; simpl.
  - destruct (mapM f l) as [ys|e'']; simpl; [discriminate|]. exact IH.
  - intros H. apply (Hf x). rewrite E. injection H as ->. reflexivity.
Qed.

Lemma bind_not_throw {A B} (r : result A) (k : A -> result B) (e : js_error) :
  r <> Throw e -> (forall a, k a <> Throw e) -> bind r k <> Throw e.
Proof.
  intros Hr Hk. destruct r as [a|e']; simpl; [apply Hk|].
  intros H. apply Hr. injection H as ->. reflexivity.
Qed.

(** The depth bound of [serialize] is never hit by [stringify]. *)
Lemma serialize_enough_fuel fuel : forall h v msg,
  (size h < fuel)%nat -> serialize fuel h v <> Throw (RangeError msg).
Proof.
  induction fuel as [|fuel IH]; intros h v msg Hf; [lia|].
  destruct v as [| | | | |l]; try discriminate. cbn [serialize].
  destruct (h !! l) as [[elems extra|ps]|] eqn:Hl; [| |discriminate].
  - assert (Hsize : (size (delete l h) < fuel)%nat).
    { rewrite map_size_delete, Hl. destruct (size h) eqn:E; [|lia].
      apply map_size_empty_inv in E. subst h. rewrite lookup_empty in Hl. discriminate. }
    apply bind_not_throw; [|discriminate].
    apply mapM_not_throw. intros e.
    apply bind_not_throw; [apply IH, Hsize | discriminate].
  - assert (Hsize : (size (delete l h) < fuel)%nat).
    { rewrite map_size_delete, Hl. destruct (size h) eqn:E; [|lia].
      apply map_size_empty_inv in E. subst h. rewrite lookup_empty in Hl. discriminate. }
    apply bind_not_throw; [|discriminate].
    apply mapM_not_throw. intros e.
    apply bind_not_throw; [apply IH, Hsize | discriminate].
Qed.

Lemma stringify_enough_fuel h v msg : stringify h v <> Throw (RangeError msg).
Proof. apply serialize_enough_fuel. lia. Qed.

End ParseFacts.

(** ** One rule group, in the heap and as a tree *)

Module ItemFacts.

(** The functions on trees, under names that the heap's do not hide. *)
#[local] Abbreviation tree_is_null := is_null.
#[local] Abbreviation tree_getElementInfo := getElementInfo.
#[local] Abbreviation tree_truncate_array := truncate_array.
#[local] Abbreviation tree_enhance_item := enhance_item.

Import Heap Located LocatedFacts ParseFacts.

(** *** Running a computation step by step *)

Lemma mbind_ok {A B} (m : M A) (k : A -> M B) h a h1 :
  m h = (Ok a, h1) -> mbind m k h = k a h1.
Proof. intros H. unfold mbind. rewrite H. reflexivity. Qed.

Lemma mbind_throw {A B} (m : M A) (k : A -> M B) h e h1 :
  m h = (Throw e, h1) -> mbind m k h = (Throw e, h1).
Proof. intros H. unfold mbind. rewrite H. reflexivity. Qed.

(** *** Properties of located objects *)

Lemma lookup_kroots k ps :
  Heap.lookup_prop k (kroots ps) = root <$> Located.lookup_prop k ps.
Proof.
  induction ps as [|[k' t] ps IH]; [reflexivity|].
  simpl. destruct (String.eqb k' k); [reflexivity | exact IH].
Qed.

Lemma lookup_kerase k ps :
  Js.lookup_prop k (kerase ps) = erase <$> Located.lookup_prop k ps.
Proof.
  induction ps as [|[k' t] ps IH]; [reflexivity|].
  simpl. destruct (String.eqb k' k); [reflexivity | exact IH].
Qed.

Lemma set_kroots k t ps :
  set_prop_list k (root t) (kroots ps) = kroots (Located.set_prop k t ps).
Proof.
  induction ps as [|[k' t'] ps IH]; [reflexivity|].
  simpl. destruct (String.eqb k' k); [reflexivity|]. simpl. f_equal. exact IH.
Qed.

Lemma set_kerase k t ps :
  Js.set_prop k (erase t) (kerase ps) = kerase (Located.set_prop k t ps).
Proof.
  induction ps as [|[k' t'] ps IH]; [reflexivity|].
  simpl. destruct (String.eqb k' k); [reflexivity|]. simpl. f_equal. exact IH.
Qed.

Lemma set_prop_Some k t' ps told :
  Located.lookup_prop k ps = Some told ->
  exists ps1 ps2, ps = (ps1 ++ (k, told) :: ps2)%list /\
                  Located.set_prop k t' ps = (ps1 ++ (k, t') :: ps2)%list.
Proof.
  induction ps as [|[k' t] ps IH]; simpl; [discriminate|].
  destruct (String.eqb_spec k' k) as [->|Hne].
  - intros [= ->]. exists [], ps. split; reflexivity.
  - intros H. destruct (IH H) as (ps1 & ps2 & -> & ->).
    exists ((k', t) :: ps1), ps2. split; reflexivity.
Qed.

Lemma set_prop_None k t' ps :
  Located.lookup_prop k ps = None -> Located.set_prop k t' ps = (ps ++ [(k, t')])%list.
Proof.
  induction ps as [|[k' t] ps IH]; simpl; [reflexivity|].
  destruct (String.eqb k' k); [discriminate|]. intros H. rewrite (IH H). reflexivity.
Qed.

Lemma lookup_prop_elem k ps t : Located.lookup_prop k ps = Some t -> (k, t) ∈ ps.
Proof.
  induction ps as [|[k' t'] ps IH]; simpl; [discriminate|].
  destruct (String.eqb_spec k' k) as [->|Hne].
  - intros [= ->]. apply elem_of_cons. auto.
  - intros H. apply elem_of_cons. auto.
Qed.

(** The locations of the properties after [o.k = t']: those of [t'] and
    those of the properties that were there. *)
Lemma klocs_set_prop k t' ps x :
  x ∈ klocs (Located.set_prop k t' ps) -> x ∈ locs t' \/ x ∈ klocs ps.
Proof.
  destruct (Located.lookup_prop k ps) as [told|] eqn:E.
  - destruct (set_prop_Some k t' ps told E) as (ps1 & ps2 & -> & ->).
    rewrite !klocs_app, !klocs_cons, !elem_of_app. tauto.
  - rewrite (set_prop_None k t' ps E), klocs_app, elem_of_app.
    unfold klocs at 2. simpl. rewrite app_nil_r. tauto.
Qed.

Lemma NoDup_klocs_set_prop k t' ps :
  NoDup (klocs ps) -> NoDup (locs t') ->
  (forall x, x ∈ locs t' -> x ∈ klocs ps ->
             exists told, Located.lookup_prop k ps = Some told /\ x ∈ locs told) ->
  NoDup (klocs (Located.set_prop k t' ps)).
Proof.
  intros Hps Ht Hx.
  destruct (Located.lookup_prop k ps) as [told|] eqn:E.
  - destruct (set_prop_Some k t' ps told E) as (ps1 & ps2 & -> & ->).
    rewrite !klocs_app, !klocs_cons in *.
    apply NoDup_app in Hps as (H1 & H12 & H2). apply NoDup_app in H2 as (H2 & H23 & H3).
    apply NoDup_app. split; [exact H1|]. split.
    + intros x Hx1 Hx2. apply elem_of_app in Hx2 as [Hx2|Hx2].
      * destruct (Hx x Hx2) as (told' & [= <-] & Hin).
        { rewrite !elem_of_app. auto. }
        apply (H12 x Hx1). apply elem_of_app. auto.
      * apply (H12 x Hx1). apply elem_of_app. auto.
    + apply NoDup_app. split; [exact Ht|]. split; [|exact H3].
      intros x Hx1 Hx2. destruct (Hx x Hx1) as (told' & [= <-] & Hin).
      { rewrite !elem_of_app. auto. }
      apply (H23 x Hin Hx2).
  - rewrite (set_prop_None k t' ps E), klocs_app.
    apply NoDup_app. split; [exact Hps|]. split.
    + intros x Hx1 Hx2. unfold klocs in Hx2. simpl in Hx2. rewrite app_nil_r in Hx2.
      destruct (Hx x Hx2 Hx1) as (told & [=] & _).
    + unfold klocs. simpl. rewrite app_nil_r. exact Ht.
Qed.

Lemma Forall_set_prop (P : ltree -> Prop) k t' ps :
  Forall (fun kt => P (snd kt)) ps -> P t' ->
  Forall (fun kt => P (snd kt)) (Located.set_prop k t' ps).
Proof.
  intros Hps Ht. induction Hps as [|[k' t] ps Hkt Hps IH]; simpl.
  - constructor; [exact Ht | constructor].
  - destruct (String.eqb k' k); constructor; [exact Ht | exact Hps | exact Hkt | exact IH].
Qed.

(** *** Reading *)

Lemma get_prop_stored_obj h l ps k :
  stored h (LObj l ps) ->
  get_prop (VRef l) k h = (Ok (default VUndefined (root <$> Located.lookup_prop k ps)), h).
Proof.
  intros Hs. apply stored_LObj in Hs as [Hl _]. unfold get_prop.
  rewrite Hl, lookup_kroots. reflexivity.
Qed.

Lemma get_prop_stored_arr h l ts k :
  stored h (LArr l ts) -> get_prop (VRef l) k h = (Ok VUndefined, h).
Proof.
  intros Hs. apply stored_LArr in Hs as [Hl _]. unfold get_prop. rewrite Hl. reflexivity.
Qed.

Lemma array_elems_stored h t :
  stored h t ->
  array_elems (root t) h
  = (Ok (match t with LArr _ ts => Some (List.map root ts) | _ => None end), h).
Proof.
  intros Hs. destruct t as [| | | | l ts | l ps]; try reflexivity.
  - apply stored_LArr in Hs as [Hl _]. unfold array_elems. simpl. rewrite Hl. reflexivity.
  - apply stored_LObj in Hs as [Hl _]. unfold array_elems. simpl. rewrite Hl. reflexivity.
Qed.

Lemma truthy_root t : truthy (root t) = Js.truthy (erase t).
Proof. destruct t; reflexivity. Qed.

Lemma is_null_root t : Heap.is_null (root t) = tree_is_null (erase t).
Proof. destruct t; reflexivity. Qed.

Lemma stored_lookup h l ps k t :
  stored h (LObj l ps) -> Located.lookup_prop k ps = Some t -> stored h t.
Proof.
  intros Hs Hk. apply stored_LObj in Hs as [_ Hps].
  rewrite Forall_forall in Hps. apply (Hps (k, t)). apply lookup_prop_elem, Hk.
Qed.

Lemma locs_lookup ps k t x :
  Located.lookup_prop k ps = Some t -> x ∈ locs t -> x ∈ klocs ps.
Proof.
  intros Hk Hx. apply elem_of_klocs. exists (k, t). split; [apply lookup_prop_elem, Hk | exact Hx].
Qed.

Lemma NoDup_klocs_elem ps kt : NoDup (klocs ps) -> kt ∈ ps -> NoDup (locs (snd kt)).
Proof.
  intros Hn Hin. induction ps as [|kt' ps IH]; [inversion Hin|].
  unfold klocs in Hn. simpl in Hn. apply NoDup_app in Hn as (H1 & _ & H2).
  apply elem_of_cons in Hin as [->|Hin]; [exact H1|]. apply IH; assumption.
Qed.

Lemma NoDup_flat_map_elem ts t : NoDup (flat_map locs ts) -> t ∈ ts -> NoDup (locs t).
Proof.
  intros Hn Hin. induction ts as [|t' ts IH]; [inversion Hin|].
  simpl in Hn. apply NoDup_app in Hn as (H1 & _ & H2).
  apply elem_of_cons in Hin as [->|Hin]; auto.
Qed.

(** *** The state of the object under work *)

Section Item.

Variable l : loc.
Variable h0 : heap.
Variable ps0 : list (string * ltree).

#[local] Abbreviation item_state := (item_state l h0 ps0).

Lemma item_state_init :
  stored h0 (LObj l ps0) -> NoDup (locs (LObj l ps0)) -> item_state h0 ps0.
Proof.
  intros Hs Hn. split; [exact Hs|]. split; [exact Hn|]. split; [auto|].
  apply confined_refl.
Qed.

(** The heap grows. *)
Lemma item_state_grow h h' ps :
  item_state h ps -> confined [] h h' -> item_state h' ps.
Proof.
  intros (Hs & Hn & Hb & Hc) Hg. split; [|split; [exact Hn|split; [exact Hb|]]].
  - eapply stored_confined; [exact Hs | exact Hg |]. intros x _ Hx. inversion Hx.
  - eapply confined_trans; [exact Hc | exact Hg | auto |]. intros x Hx. inversion Hx.
Qed.

(** [item.k = t'] for a stored tree [t'] that shares nothing with the
    other properties. *)
Lemma item_state_set h ps k t' :
  item_state h ps -> stored h t' -> NoDup (locs t') ->
  (forall x, x ∈ locs t' ->
             x <> l /\ (x ∈ klocs ps0 \/ h0 !! x = None) /\
             (x ∈ klocs ps ->
              exists told, Located.lookup_prop k ps = Some told /\ x ∈ locs told)) ->
  Heap.set_prop (VRef l) k (root t') h
  = (Ok tt, <[l := CObj (kroots (Located.set_prop k t' ps))]> h) /\
  item_state (<[l := CObj (kroots (Located.set_prop k t' ps))]> h) (Located.set_prop k t' ps).
Proof.
  intros (Hs & Hn & Hb & Hc) Ht Hnt Hx.
  pose proof Hs as Hs'. apply stored_LObj in Hs' as [Hl Hps].
  apply NoDup_cons in Hn as [Hlps Hn].
  split.
  { unfold Heap.set_prop. rewrite Hl, set_kroots. reflexivity. }
  set (h' := <[l := CObj (kroots (Located.set_prop k t' ps))]> h).
  assert (Hw : confined [l] h h') by (apply confined_write, list_elem_of_singleton; reflexivity).
  split; [|split; [|split]].
  - apply stored_LObj. split; [apply lookup_insert_eq|].
    apply (Forall_set_prop (stored h')).
    + rewrite Forall_forall in Hps. apply Forall_forall. intros kt Hkt.
      eapply stored_confined; [apply Hps, Hkt | exact Hw |].
      intros x Hx1 Hx2. apply list_elem_of_singleton in Hx2. subst x.
      apply Hlps, elem_of_klocs. eauto.
    + eapply stored_confined; [exact Ht | exact Hw |].
      intros x Hx1 Hx2. apply list_elem_of_singleton in Hx2. subst x.
      destruct (Hx l Hx1) as [Hne _]. congruence.
  - apply NoDup_cons. split.
    + intros Hin. apply klocs_set_prop in Hin as [Hin|Hin]; [|auto].
      destruct (Hx l Hin) as [Hne _]. congruence.
    + apply NoDup_klocs_set_prop; [exact Hn | exact Hnt |].
      intros x Hx1 Hx2. apply (Hx x Hx1), Hx2.
  - intros x Hin. apply klocs_set_prop in Hin as [Hin|Hin]; [apply (Hx x Hin) | auto].
  - eapply confined_trans; [exact Hc | exact Hw | auto | auto].
Qed.

(** [item.k = p] for a primitive value [p]. *)
Lemma item_state_set_prim h ps k t' :
  item_state h ps -> locs t' = [] ->
  Heap.set_prop (VRef l) k (root t') h
  = (Ok tt, <[l := CObj (kroots (Located.set_prop k t' ps))]> h) /\
  item_state (<[l := CObj (kroots (Located.set_prop k t' ps))]> h) (Located.set_prop k t' ps).
Proof.
  intros Hi Ht. apply item_state_set; [exact Hi | | |].
  - destruct t'; try exact I; discriminate Ht.
  - rewrite Ht. constructor.
  - rewrite Ht. intros x Hx. inversion Hx.
Qed.

End Item.

End ItemFacts.

(** ** The steps of the loop body on one rule group *)

Module ItemSteps.

#[local] Abbreviation tree_is_null := is_null.
#[local] Abbreviation tree_getElementInfo := getElementInfo.
#[local] Abbreviation tree_truncate_array := truncate_array.
#[local] Abbreviation tree_enhance_item := enhance_item.

Import Heap Located LocatedFacts ParseFacts ItemFacts.

(** *** Deduplication on located trees *)

Lemma sameValueZero_agree x y :
  (forall l, root x = VRef l -> root y <> VRef l) ->
  Heap.sameValueZero (root x) (root y) = Js.sameValueZero (erase x) (erase y).
Proof.
  intros H. destruct x, y; try reflexivity; simpl in *;
    apply Pos.eqb_neq; intros ->; eapply H; reflexivity.
Qed.

Lemma root_in_locs t l : root t = VRef l -> l ∈ locs t.
Proof. destruct t; try discriminate; intros [= ->]; apply elem_of_cons; auto. Qed.

Lemma set_add_roots seen x :
  List.map root (Located.set_add seen x) = Heap.set_add (List.map root seen) (root x).
Proof.
  unfold Located.set_add, Heap.set_add.
  destruct (existsb _ _); [reflexivity|]. rewrite List.map_app. reflexivity.
Qed.

Lemma spread_set_roots ts : forall acc,
  List.map root (fold_left Located.set_add ts acc)
  = fold_left Heap.set_add (List.map root ts) (List.map root acc).
Proof.
  induction ts as [|x ts IH]; intros acc; [reflexivity|].
  simpl. rewrite IH, set_add_roots. reflexivity.
Qed.

Lemma spread_set_sublist ts : forall acc,
  exists rest, fold_left Located.set_add ts acc = (acc ++ rest)%list /\ rest `sublist_of` ts.
Proof.
  induction ts as [|x ts IH]; intros acc; simpl.
  - exists []. rewrite app_nil_r. split; [reflexivity | constructor].
  - unfold Located.set_add at 2. destruct (existsb _ _).
    + destruct (IH acc) as (rest & -> & Hsub). exists rest.
      split; [reflexivity | apply sublist_cons, Hsub].
    + destruct (IH (acc ++ [x])%list) as (rest & -> & Hsub). exists (x :: rest).
      rewrite <- app_assoc. split; [reflexivity | apply sublist_skip, Hsub].
Qed.

Lemma existsb_agree x acc :
  (forall y l, y ∈ acc -> root x = VRef l -> root y <> VRef l) ->
  existsb (Heap.sameValueZero (root x)) (List.map root acc)
  = existsb (Js.sameValueZero (erase x)) (List.map erase acc).
Proof.
  induction acc as [|y acc IH]; intros H; [reflexivity|].
  simpl. rewrite sameValueZero_agree, IH; [reflexivity | |].
  - intros y' l Hy'. apply H, elem_of_cons. auto.
  - intros l. apply H, elem_of_cons. auto.
Qed.

Lemma spread_set_erase ts : forall acc,
  NoDup (flat_map locs ts) ->
  (forall y l, y ∈ acc -> root y = VRef l -> l ∉ flat_map locs ts) ->
  List.map erase (fold_left Located.set_add ts acc)
  = fold_left Js.set_add (List.map erase ts) (List.map erase acc).
Proof.
  induction ts as [|x ts IH]; intros acc Hn Hacc; [reflexivity|].
  simpl in Hn. apply NoDup_app in Hn as (Hx & Hxts & Hts).
  cbn [fold_left List.map].
  assert (Hex : existsb (Heap.sameValueZero (root x)) (List.map root acc)
                = existsb (Js.sameValueZero (erase x)) (List.map erase acc)).
  { apply existsb_agree. intros y l Hy Hrx Hry.
    apply (Hacc y l Hy Hry). simpl. apply elem_of_app. left. apply root_in_locs, Hrx. }
  rewrite IH.
  - f_equal. unfold Located.set_add, Js.set_add. rewrite <- Hex.
    destruct (existsb _ _); [reflexivity|]. rewrite List.map_app. reflexivity.
  - exact Hts.
  - intros y l Hy Hry. unfold Located.set_add in Hy.
    destruct (existsb _ _).
    + intros Hin. apply (Hacc y l Hy Hry). simpl. apply elem_of_app. auto.
    + apply elem_of_app in Hy as [Hy|Hy].
      * intros Hin. apply (Hacc y l Hy Hry). simpl. apply elem_of_app. auto.
      * apply list_elem_of_singleton in Hy. subst y. apply Hxts, root_in_locs, Hry.
Qed.

Lemma spread_set_located ts :
  NoDup (flat_map locs ts) ->
  List.map root (Located.spread_set ts) = Heap.spread_set (List.map root ts) /\
  List.map erase (Located.spread_set ts) = Js.spread_set (List.map erase ts) /\
  Located.spread_set ts `sublist_of` ts.
Proof.
  intros Hn. split; [apply (spread_set_roots ts [])|]. split.
  - apply (spread_set_erase ts []); [exact Hn|]. intros y l Hy. inversion Hy.
  - destruct (spread_set_sublist ts []) as (rest & Heq & Hsub).
    unfold Located.spread_set. rewrite Heq. exact Hsub.
Qed.

(** *** Sublists of located trees *)

Lemma sublist_flat_map_locs (ts1 ts2 : list ltree) :
  ts1 `sublist_of` ts2 -> flat_map locs ts1 `sublist_of` flat_map locs ts2.
Proof.
  induction 1 as [|x l1 l2 _ IH|x l1 l2 _ IH]; simpl.
  - constructor.
  - apply sublist_app; [reflexivity | exact IH].
  - apply sublist_inserts_l, IH.
Qed.

Lemma sublist_List_filter {A} (p : A -> bool) l : List.filter p l `sublist_of` l.
Proof.
  induction l as [|x l IH]; simpl; [constructor|].
  destruct (p x); [apply sublist_skip | apply sublist_cons]; exact IH.
Qed.

Lemma filter_map_comm {A B} (p : B -> bool) (f : A -> B) l :
  List.filter p (List.map f l) = List.map f (List.filter (fun x => p (f x)) l).
Proof.
  induction l as [|x l IH]; [reflexivity|].
  simpl. destruct (p (f x)); simpl; rewrite IH; reflexivity.
Qed.

Lemma Forall_sublist {A} (P : A -> Prop) l1 l2 :
  l1 `sublist_of` l2 -> Forall P l2 -> Forall P l1.
Proof.
  intros Hsub HP. apply Forall_forall. intros x Hx.
  rewrite Forall_forall in HP. apply HP. eapply sublist_subseteq; eauto.
Qed.

(** *** The lookups of one rule group *)

Lemma getElementInfo_all doc us : forall h,
  Forall (stored h) us -> Forall (fun u => NoDup (locs u)) us ->
  exists infos h',
    mapH (Heap.getElementInfo doc) (List.map root us) h = (Ok (List.map root infos), h') /\
    List.map erase infos = List.map (fun u => tree_getElementInfo doc (erase u)) us /\
    planted h h' infos.
Proof.
  induction us as [|u us IH]; intros h Hs Hn.
  - exists [], h. split; [reflexivity|]. split; [reflexivity | apply planted_nil].
  - apply Forall_cons in Hs as [Hu Hs]. apply Forall_cons in Hn as [Hnu Hn].
    cbn [List.map mapH].
    destruct (parse_located (tree_getElementInfo doc (erase u)) h) as (t & h1 & Hp & He & Hpl).
    assert (Hg : Heap.getElementInfo doc (root u) h = (Ok (root t), h1)).
    { unfold Heap.getElementInfo. rewrite (tree_of_located h u Hu Hnu), Hp. reflexivity. }
    rewrite (mbind_ok _ _ _ _ _ Hg).
    assert (Hs1 : Forall (stored h1) us).
    { destruct Hpl as (_ & _ & _ & Hc & _). eapply Forall_impl; [exact Hs|].
      intros u' Hu'. eapply stored_confined; [exact Hu' | exact Hc |].
      intros x _ Hx. inversion Hx. }
    destruct (IH h1 Hs1 Hn) as (infos & h2 & Hm & Hes & Hpls).
    rewrite (mbind_ok _ _ _ _ _ Hm).
    exists (t :: infos), h2. split; [reflexivity|]. split.
    + simpl. rewrite He, Hes. reflexivity.
    + eapply planted_cons; eauto.
Qed.

Section Item.

Variable l : loc.
Variable h0 : heap.
Variable ps0 : list (string * ltree).

#[local] Abbreviation item_state := (item_state l h0 ps0).

Lemma item_state_fresh h ps x : item_state h ps -> h !! x = None -> x <> l /\ x ∉ klocs ps.
Proof.
  intros (Hs & _) Hx. split.
  - intros ->. apply stored_LObj in Hs as [Hl _]. congruence.
  - intros Hin. destruct (stored_dom _ _ Hs x) as [c Hc]; [|congruence].
    cbn [locs]. apply elem_of_cons. auto.
Qed.

(** [item.k = new array of ts], where [ts] are elements of the array that
    [item.k] holds. *)
Lemma item_state_replace_array h ps k la tas ts :
  item_state h ps -> Located.lookup_prop k ps = Some (LArr la tas) ->
  ts `sublist_of` tas ->
  exists h1 h' lu,
    alloc (CArr (List.map root ts) []) h = (Ok (VRef lu), h1) /\
    Heap.set_prop (VRef l) k (VRef lu) h1 = (Ok tt, h') /\
    item_state h' (Located.set_prop k (LArr lu ts) ps).
Proof.
  intros Hi Hk Hsub. set (lu := fresh (dom h)).
  assert (Hlu : h !! lu = None) by (apply not_elem_of_dom, is_fresh).
  set (h1 := <[lu := CArr (List.map root ts) []]> h).
  assert (Hal : alloc (CArr (List.map root ts) []) h = (Ok (VRef lu), h1)) by reflexivity.
  assert (Hg : confined [] h h1) by (apply confined_alloc, Hlu).
  pose proof (item_state_grow l h0 ps0 h h1 ps Hi Hg) as Hi1.
  destruct (item_state_fresh h ps lu Hi Hlu) as [Hne Hnin].
  pose proof Hi as (Hs & Hn & Hb & Hc).
  pose proof (stored_lookup _ _ _ _ _ Hs Hk) as Hsa. apply stored_LArr in Hsa as [_ Htas].
  apply NoDup_cons in Hn as [_ Hn].
  pose proof (NoDup_klocs_elem ps (k, LArr la tas) Hn (lookup_prop_elem _ _ _ Hk)) as Hna.
  cbn [snd locs] in Hna. apply NoDup_cons in Hna as [_ Hna].
  assert (Hin : forall x, x ∈ flat_map locs ts -> x ∈ locs (LArr la tas)).
  { intros x Hx. cbn [locs]. apply elem_of_cons. right.
    eapply sublist_subseteq; [apply sublist_flat_map_locs, Hsub | exact Hx]. }
  destruct (item_state_set l h0 ps0 h1 ps k (LArr lu ts) Hi1) as [Hset Hi2].
  - apply stored_LArr. split; [apply lookup_insert_eq|].
    apply (Forall_sublist _ _ _ Hsub). eapply Forall_impl; [exact Htas|].
    intros t Ht. eapply stored_confined; [exact Ht | exact Hg |]. intros x _ Hx. inversion Hx.
  - cbn [locs]. apply NoDup_cons. split.
    + intros Hx. apply Hnin. eapply locs_lookup; [exact Hk | apply Hin, Hx].
    + eapply sublist_NoDup; [exact Hna | apply sublist_flat_map_locs, Hsub].
  - intros x Hx. cbn [locs] in Hx. apply elem_of_cons in Hx as [->|Hx].
    + split; [exact Hne|]. split; [right; eapply confined_fresh; eauto|].
      intros Hin'. contradiction.
    + pose proof (locs_lookup _ _ _ _ Hk (Hin x Hx)) as Hxps.
      split; [|split; [apply Hb, Hxps|]].
      * intros ->. destruct Hi as (_ & Hn' & _). apply NoDup_cons in Hn' as [Hl' _]. auto.
      * intros _. exists (LArr la tas). split; [exact Hk | apply Hin, Hx].
  - exists h1, (<[l := CObj (kroots (Located.set_prop k (LArr lu ts) ps))]> h1), lu.
    split; [exact Hal|]. split; [exact Hset | exact Hi2].
Qed.

(** [item.k = new array of ts], where [ts] are among trees just planted. *)
Lemma item_state_new_array h h1 ps k infos ts :
  item_state h ps -> planted h h1 infos -> ts `sublist_of` infos ->
  exists h2 h' ld,
    alloc (CArr (List.map root ts) []) h1 = (Ok (VRef ld), h2) /\
    Heap.set_prop (VRef l) k (VRef ld) h2 = (Ok tt, h') /\
    item_state h' (Located.set_prop k (LArr ld ts) ps).
Proof.
  intros Hi (Hst & Hnd & Hfr & Hg & Hd) Hsub. set (ld := fresh (dom h1)).
  assert (Hld : h1 !! ld = None) by (apply not_elem_of_dom, is_fresh).
  set (h2 := <[ld := CArr (List.map root ts) []]> h1).
  assert (Hal : alloc (CArr (List.map root ts) []) h1 = (Ok (VRef ld), h2)) by reflexivity.
  assert (Hg2 : confined [] h1 h2) by (apply confined_alloc, Hld).
  pose proof (item_state_grow l h0 ps0 h h1 ps Hi Hg) as Hi1.
  pose proof (item_state_grow l h0 ps0 h1 h2 ps Hi1 Hg2) as Hi2.
  destruct (item_state_fresh h1 ps ld Hi1 Hld) as [Hne Hnin].
  pose proof Hi as (Hs & Hn & Hb & Hc).
  assert (Hin : forall x, x ∈ flat_map locs ts -> x ∈ flat_map locs infos).
  { intros x Hx. eapply sublist_subseteq; [apply sublist_flat_map_locs, Hsub | exact Hx]. }
  assert (Hnew : forall x, x ∈ flat_map locs ts -> x <> l /\ (x ∉ klocs ps) /\ h0 !! x = None).
  { intros x Hx. destruct (item_state_fresh h ps x Hi (Hfr x (Hin x Hx))) as [H1 H2].
    split; [exact H1|]. split; [exact H2|]. eapply confined_fresh; [exact Hc | apply Hfr, Hin, Hx]. }
  destruct (item_state_set l h0 ps0 h2 ps k (LArr ld ts) Hi2) as [Hset Hi3].
  - apply stored_LArr. split; [apply lookup_insert_eq|].
    apply (Forall_sublist _ _ _ Hsub). eapply Forall_impl; [exact Hst|].
    intros t Ht. eapply stored_confined; [exact Ht | exact Hg2 |]. intros x _ Hx. inversion Hx.
  - cbn [locs]. apply NoDup_cons. split.
    + intros Hx. rewrite Forall_forall in Hst.
      apply elem_of_flat_map_locs in Hx as (t & Ht & Hx).
      destruct (stored_dom _ _ (Hst t (sublist_subseteq _ _ Hsub _ Ht)) ld Hx) as [c Hc'].
      congruence.
    + eapply sublist_NoDup; [exact Hnd | apply sublist_flat_map_locs, Hsub].
  - intros x Hx. cbn [locs] in Hx. apply elem_of_cons in Hx as [->|Hx].
    + split; [exact Hne|]. split; [|intros Hin'; contradiction].
      right. eapply confined_fresh; [exact Hc|]. eapply confined_fresh; [exact Hg | exact Hld].
    + destruct (Hnew x Hx) as (H1 & H2 & H3).
      split; [exact H1|]. split; [right; exact H3 | intros Hin'; contradiction].
  - exists h2, (<[l := CObj (kroots (Located.set_prop k (LArr ld ts) ps))]> h2), ld.
    split; [exact Hal|]. split; [exact Hset | exact Hi3].
Qed.

(** One truncation. *)
Lemma truncate_array_step h ps k n :
  item_state h ps ->
  exists h' ps',
    Heap.truncate_array (VRef l) k n h = (Ok tt, h') /\
    item_state h' ps' /\
    kerase ps' = tree_truncate_array k n (kerase ps).
Proof.
  intros Hi. pose proof Hi as (Hs & _).
  unfold Heap.truncate_array, tree_truncate_array.
  rewrite (mbind_ok _ _ _ _ _ (get_prop_stored_obj h l ps k Hs)), lookup_kerase.
  destruct (Located.lookup_prop k ps) as [t|] eqn:Hk; simpl.
  - pose proof (stored_lookup _ _ _ _ _ Hs Hk) as Ht.
    rewrite (mbind_ok _ _ _ _ _ (array_elems_stored h t Ht)).
    destruct t as [| | | | la tas | lo qs];
      try (exists h, ps; split; [reflexivity|]; split; [exact Hi | reflexivity]).
    destruct (item_state_replace_array h ps k la tas (firstn n tas) Hi Hk (sublist_take _ _))
      as (h1 & h' & lu & Hal & Hset & Hi').
    exists h', (Located.set_prop k (LArr lu (firstn n tas)) ps).
    split; [|split; [exact Hi'|]].
    + rewrite <- firstn_map in Hal. rewrite (mbind_ok _ _ _ _ _ Hal). exact Hset.
    + rewrite <- set_kerase. simpl. unfold Js.slice0. rewrite firstn_map. reflexivity.
  - exists h, ps. split; [reflexivity|]. split; [exact Hi | reflexivity].
Qed.

End Item.

Lemma lookup_set_prop_same k t ps :
  Located.lookup_prop k (Located.set_prop k t ps) = Some t.
Proof.
  induction ps as [|[k' t'] ps IH]; simpl.
  - rewrite String.eqb_refl. reflexivity.
  - destruct (String.eqb k' k) eqn:E; simpl.
    + rewrite String.eqb_refl. reflexivity.
    + rewrite E. exact IH.
Qed.

Lemma lookup_set_prop_other k k' t ps :
  k <> k' -> Located.lookup_prop k' (Located.set_prop k t ps) = Located.lookup_prop k' ps.
Proof.
  intros Hne. induction ps as [|[k0 t0] ps IH]; simpl.
  - destruct (String.eqb_spec k k'); [contradiction | reflexivity].
  - destruct (String.eqb_spec k0 k) as [->|Hk]; simpl.
    + destruct (String.eqb_spec k k'); [contradiction | reflexivity].
    + rewrite IH. reflexivity.
Qed.

(** The body of the inner loop, on a rule group that is a tree in the
    heap, does what [enhance_item] does to the tree. *)
Lemma enhance_item_spec doc :
  child_spec (fun _ => True) (Heap.enhance_item doc) (tree_enhance_item doc).
Proof.
  intros t h r h' Hs Hn _ Hrun. unfold Heap.enhance_item in Hrun.
  assert (Hsame : forall j, tree_enhance_item doc (erase t) = Ok j -> j = erase t ->
            r = Ok tt -> h' = h ->
            match tree_enhance_item doc (erase t) with
            | Throw e => r = Throw e
            | Ok j' => r = Ok tt /\
                exists t', erase t' = j' /\ root t' = root t /\ stored h' t' /\
                  NoDup (locs t') /\
                  (forall x, x ∈ locs t' -> x ∈ locs t \/ h !! x = None) /\
                  confined (locs t) h h'
            end).
  { intros j -> -> -> ->. split; [reflexivity|]. exists t.
    refine (conj eq_refl (conj eq_refl (conj Hs (conj Hn (conj _ _))))).
    - intros x Hx. left. exact Hx.
    - apply confined_refl. }
  destruct t as [| b | n | s | la ts | l ps].
  - injection Hrun as <- <-. reflexivity.
  - injection Hrun as <- <-. apply (Hsame _ eq_refl); reflexivity.
  - injection Hrun as <- <-. apply (Hsame _ eq_refl); reflexivity.
  - injection Hrun as <- <-. apply (Hsame _ eq_refl); reflexivity.
  - rewrite (mbind_ok _ _ _ _ _ (get_prop_stored_arr h la ts "xpaths" Hs)) in Hrun.
    injection Hrun as <- <-. apply (Hsame _ eq_refl); reflexivity.
  - rewrite (mbind_ok _ _ _ _ _ (get_prop_stored_obj h l ps "xpaths" Hs)) in Hrun.
    cbn [erase tree_enhance_item] in *. rewrite lookup_kerase in *.
    destruct (Located.lookup_prop "xpaths" ps) as [tx|] eqn:Hx; cbn [fmap option_fmap option_map default] in *.
    2:{ injection Hrun as <- <-. apply (Hsame _ eq_refl); reflexivity. }
    pose proof (stored_lookup _ _ _ _ _ Hs Hx) as Hsx.
    rewrite (mbind_ok _ _ _ _ _ (array_elems_stored h tx Hsx)) in Hrun.
    destruct tx as [| b | n | s | lx txs | lo qs];
      try (injection Hrun as <- <-; apply (Hsame _ eq_refl); reflexivity).
    clear Hsame. cbn [erase] in *.
    pose proof (item_state_init l h ps Hs Hn) as Hi0.
    cbn [locs] in Hn. apply NoDup_cons in Hn as [Hl Hnk].
    pose proof (NoDup_klocs_elem ps _ Hnk (lookup_prop_elem _ _ _ Hx)) as Hnx.
    cbn [snd locs] in Hnx. apply NoDup_cons in Hnx as [_ Hnx].
    destruct (spread_set_located txs Hnx) as (Hur & Hue & Hus).
    set (us := Located.spread_set txs) in *.
    rewrite <- Hur, <- Hue in *. rewrite !length_map in *.
    (* item.xpaths = uniqueXPaths *)
    destruct (item_state_replace_array l h ps h ps "xpaths" lx txs us Hi0 Hx Hus)
      as (ha & h1 & lu & Hal1 & Hrun1 & Hi1).
    rewrite (mbind_ok _ _ _ _ _ Hal1), (mbind_ok _ _ _ _ _ Hrun1) in Hrun.
    set (ps1 := Located.set_prop "xpaths" (LArr lu us) ps) in *.
    (* item.count = uniqueXPaths.length *)
    destruct (item_state_set_prim l h ps h1 ps1 "count" (LNum (Z.of_nat (length us))) Hi1 eq_refl)
      as [Hrun2 Hi2].
    cbn [root] in Hrun2. rewrite (mbind_ok _ _ _ _ _ Hrun2) in Hrun.
    set (ps2 := Located.set_prop "count" (LNum (Z.of_nat (length us))) ps1) in *.
    set (h2 := <[l := CObj (kroots ps2)]> h1) in *.
    (* item.domInfo = uniqueXPaths.map(getElementInfo).filter(...) *)
    assert (Hx2 : Located.lookup_prop "xpaths" ps2 = Some (LArr lu us)).
    { unfold ps2. rewrite lookup_set_prop_other by discriminate.
      apply lookup_set_prop_same. }
    pose proof Hi2 as (Hs2 & Hn2 & _).
    pose proof (stored_lookup _ _ _ _ _ Hs2 Hx2) as Hsu. apply stored_LArr in Hsu as [_ Hsu].
    apply NoDup_cons in Hn2 as [_ Hn2].
    pose proof (NoDup_klocs_elem ps2 _ Hn2 (lookup_prop_elem _ _ _ Hx2)) as Hnu.
    cbn [snd locs] in Hnu. apply NoDup_cons in Hnu as [_ Hnu].
    destruct (getElementInfo_all doc us h2 Hsu) as (infos & h3 & Hrun3 & He3 & Hp3).
    { apply Forall_forall. intros u0 Hu0. eapply NoDup_flat_map_elem; eauto. }
    rewrite (mbind_ok _ _ _ _ _ Hrun3) in Hrun.
    set (kept := List.filter (fun t0 => negb (Heap.is_null (root t0))) infos).
    destruct (item_state_new_array l h ps h2 h3 ps2 "domInfo" infos kept Hi2 Hp3
                (sublist_List_filter _ _)) as (hb & h4 & ld & Hal4 & Hrun4 & Hi4).
    rewrite filter_map_comm in Hrun. fold kept in Hrun.
    rewrite (mbind_ok _ _ _ _ _ Hal4), (mbind_ok _ _ _ _ _ Hrun4) in Hrun.
    set (ps4 := Located.set_prop "domInfo" (LArr ld kept) ps2) in *.
    (* the four truncations *)
    destruct (truncate_array_step l h ps h4 ps4 "selectors" (length us) Hi4)
      as (h5 & ps5 & Hrun5 & Hi5 & He5).
    rewrite (mbind_ok _ _ _ _ _ Hrun5) in Hrun.
    destruct (truncate_array_step l h ps h5 ps5 "text" (length us) Hi5)
      as (h6 & ps6 & Hrun6 & Hi6 & He6).
    rewrite (mbind_ok _ _ _ _ _ Hrun6) in Hrun.
    destruct (truncate_array_step l h ps h6 ps6 "hidden" (length us) Hi6)
      as (h7 & ps7 & Hrun7 & Hi7 & He7).
    rewrite (mbind_ok _ _ _ _ _ Hrun7) in Hrun.
    destruct (truncate_array_step l h ps h7 ps7 "contrastdata" (length us) Hi7)
      as (h8 & ps8 & Hrun8 & Hi8 & He8).
    pose proof (eq_trans (eq_sym Hrun8) Hrun) as Hfin. injection Hfin as <- <-.
    split; [reflexivity|]. exists (LObj l ps8).
    destruct Hi8 as (Hs8 & Hn8 & Hb8 & Hc8).
    split.
    { change (erase (LObj l ps8)) with (JObj (kerase ps8)). fold (kerase ps).
      f_equal. rewrite He8, He7, He6, He5. unfold ps4, ps2, ps1.
      rewrite <- !set_kerase. cbn [erase]. do 5 f_equal.
      f_equal. rewrite List.map_map, <- He3, filter_map_comm. unfold kept.
      f_equal. apply filter_ext. intros t0. rewrite is_null_root. reflexivity. }
    split; [reflexivity|]. split; [exact Hs8|]. split; [exact Hn8|]. split.
    { intros x Hx8. cbn [locs] in *. apply elem_of_cons in Hx8 as [->|Hx8].
      - left. apply elem_of_cons. auto.
      - destruct (Hb8 x Hx8); [left; apply elem_of_cons|]; auto. }
    eapply confined_weaken; [exact Hc8|]. intros x Hx8.
    apply list_elem_of_singleton in Hx8. subst x. cbn [locs]. apply elem_of_cons. auto.
Qed.

End ItemSteps.

(** ** The loops over the keys of an object *)

Module LoopFacts.

Import Heap Located LocatedFacts ParseFacts ItemFacts ItemSteps.

Lemma confined_drop_fresh W W' h h' :
  confined W h h' -> (forall l, l ∈ W -> l ∈ W' \/ h !! l = None) -> confined W' h h'.
Proof.
  intros Hc HW l Hl. destruct (Hc l Hl) as [H1 H2]. split; [exact H1|].
  intros Hn. apply H2. intros Hin. destruct (HW l Hin) as [Hw|Hnone]; [contradiction|].
  rewrite Hnone in Hl. destruct Hl; discriminate.
Qed.

(** *** One child of a list replaced *)

Lemma replace_child h h' cs1 t t' cs2 :
  Forall (stored h) (cs1 ++ t :: cs2) -> NoDup (flat_map locs (cs1 ++ t :: cs2)) ->
  stored h' t' -> NoDup (locs t') ->
  (forall x, x ∈ locs t' -> x ∈ locs t \/ h !! x = None) ->
  confined (locs t) h h' ->
  Forall (stored h') (cs1 ++ t' :: cs2) /\ NoDup (flat_map locs (cs1 ++ t' :: cs2)).
Proof.
  intros Hs Hn Hs' Hn' Hb Hc.
  apply Forall_app in Hs as [Hs1 Hs2]. apply Forall_cons in Hs2 as [Hst Hs2].
  rewrite flat_map_app in Hn. cbn [flat_map] in Hn.
  apply NoDup_app in Hn as (Hn1 & Hd1 & Hn2). apply NoDup_app in Hn2 as (Hnt & Hd2 & Hn2).
  assert (Hdom1 : forall x, x ∈ flat_map locs cs1 -> is_Some (h !! x)).
  { intros x Hx. apply elem_of_flat_map_locs in Hx as (u & Hu & Hx).
    rewrite Forall_forall in Hs1. exact (stored_dom _ _ (Hs1 u Hu) x Hx). }
  assert (Hdom2 : forall x, x ∈ flat_map locs cs2 -> is_Some (h !! x)).
  { intros x Hx. apply elem_of_flat_map_locs in Hx as (u & Hu & Hx).
    rewrite Forall_forall in Hs2. exact (stored_dom _ _ (Hs2 u Hu) x Hx). }
  split.
  - apply Forall_app. split; [|apply Forall_cons; split; [exact Hs'|]].
    + rewrite Forall_forall in Hs1. apply Forall_forall. intros u Hu.
      eapply stored_confined; [exact (Hs1 u Hu) | exact Hc |].
      intros x Hx Hxt. apply (Hd1 x); [|apply elem_of_app; left; exact Hxt].
      apply elem_of_flat_map_locs. eauto.
    + rewrite Forall_forall in Hs2. apply Forall_forall. intros u Hu.
      eapply stored_confined; [exact (Hs2 u Hu) | exact Hc |].
      intros x Hx Hxt. apply (Hd2 x Hxt). apply elem_of_flat_map_locs. eauto.
  - rewrite flat_map_app. cbn [flat_map]. apply NoDup_app. split; [exact Hn1|]. split.
    + intros x Hx1 Hx. apply elem_of_app in Hx as [Hx|Hx].
      * destruct (Hb x Hx) as [Hxt|Hnone].
        -- apply (Hd1 x Hx1), elem_of_app. auto.
        -- destruct (Hdom1 x Hx1) as [c Hc']. congruence.
      * apply (Hd1 x Hx1), elem_of_app. auto.
    + apply NoDup_app. split; [exact Hn'|]. split; [|exact Hn2].
      intros x Hx Hx2. destruct (Hb x Hx) as [Hxt|Hnone].
      * exact (Hd2 x Hxt Hx2).
      * destruct (Hdom2 x Hx2) as [c Hc']. congruence.
Qed.

Lemma replace_child_outside (h : heap) cs1 t t' cs2 x :
  (forall y, y ∈ locs t' -> y ∈ locs t \/ h !! y = None) ->
  is_Some (h !! x) ->
  x ∉ flat_map locs (cs1 ++ t :: cs2) -> x ∉ flat_map locs (cs1 ++ t' :: cs2).
Proof.
  intros Hb [c Hx] Hn Hin. apply Hn. rewrite flat_map_app in *. cbn [flat_map] in *.
  apply elem_of_app in Hin as [Hin|Hin]; [apply elem_of_app; auto|].
  apply elem_of_app in Hin as [Hin|Hin].
  - destruct (Hb x Hin) as [Hxt|Hnone]; [|congruence].
    apply elem_of_app. right. apply elem_of_app. auto.
  - apply elem_of_app. right. apply elem_of_app. auto.
Qed.

(** *** The loop over the children of one heap object *)

Section Loop.

Variable pre : json -> Prop.
Variable body : val -> M unit.
Variable f : json -> result json.
Hypothesis Hbody : child_spec pre body f.

Variable lp : loc.
Variable c : cell.
Variable krs : list (key * val).
Hypothesis Hget :
  forall h k r, h !! lp = Some c -> (k, r) ∈ krs -> get_key (VRef lp) k h = (Ok r, h).

Lemma loop_children pending : forall ks visited h r h',
  length ks = length pending ->
  (forall kr, kr ∈ combine ks (List.map root pending) -> kr ∈ krs) ->
  h !! lp = Some c ->
  Forall (stored h) (visited ++ pending) ->
  NoDup (lp :: flat_map locs (visited ++ pending)) ->
  Forall (fun t => pre (erase t)) pending ->
  forEach (fun k => do child <- get_key (VRef lp) k; body child) ks h = (r, h') ->
  match mapM f (List.map erase pending) with
  | Throw e => r = Throw e
  | Ok js' =>
      r = Ok tt /\
      exists pending', List.map erase pending' = js' /\ List.map root pending' = List.map root pending /\
        h' !! lp = Some c /\
        Forall (stored h') (visited ++ pending') /\
        NoDup (lp :: flat_map locs (visited ++ pending')) /\
        (forall x, x ∈ flat_map locs pending' -> x ∈ flat_map locs pending \/ h !! x = None) /\
        confined (flat_map locs pending) h h'
  end.
Proof.
  induction pending as [|t rest IH]; intros ks visited h r h' Hlen Hks Hlp Hs Hn Hpre Hrun.
  - destruct ks; [|discriminate Hlen]. injection Hrun as <- <-.
    cbn [List.map mapM]. split; [reflexivity|]. exists [].
    refine (conj eq_refl (conj eq_refl (conj Hlp (conj Hs (conj Hn (conj _ _)))))).
    + intros x Hx. inversion Hx.
    + apply confined_refl.
  - destruct ks as [|k ks]; [discriminate Hlen|]. injection Hlen as Hlen.
    apply Forall_cons in Hpre as [Hpt Hpre].
    cbn [forEach] in Hrun.
    assert (Hk : get_key (VRef lp) k h = (Ok (root t), h)).
    { apply Hget; [exact Hlp|]. apply Hks. cbn [List.map combine]. apply elem_of_cons. auto. }
    unfold mbind at 1 2 in Hrun. rewrite Hk in Hrun.
    destruct (body (root t) h) as [r1 h1] eqn:Hb.
    pose proof Hs as Hs0. apply Forall_app in Hs0 as [_ Hs0]. apply Forall_cons in Hs0 as [Hst _].
    pose proof Hn as Hn0. apply NoDup_cons in Hn0 as [Hlpn Hn0].
    pose proof Hn0 as Hnt. rewrite flat_map_app in Hnt. apply NoDup_app in Hnt as (_ & _ & Hnt).
    cbn [flat_map] in Hnt. apply NoDup_app in Hnt as (Hnt & _ & _).
    pose proof (Hbody t h r1 h1 Hst Hnt Hpt Hb) as Hspec.
    cbn [List.map mapM]. unfold bind at 1.
    destruct (f (erase t)) as [j'|e].
    2:{ subst r1. injection Hrun as <- _. reflexivity. }
    destruct Hspec as (-> & t' & He' & Hr' & Hs' & Hn' & Hb' & Hc').
    destruct (replace_child h h1 visited t t' rest Hs Hn0 Hs' Hn' Hb' Hc') as [Hs1 Hn1].
    assert (Hlp1 : h1 !! lp = Some c).
    { destruct (Hc' lp) as [_ Heq]; [rewrite Hlp; eauto|]. rewrite Heq; [exact Hlp|].
      intros Hin. apply Hlpn. rewrite flat_map_app. cbn [flat_map].
      apply elem_of_app. right. apply elem_of_app. auto. }
    specialize (IH ks (visited ++ [t'])%list h1 r h' Hlen).
    rewrite <- !app_assoc in IH. cbn [app] in IH.
    specialize (IH (fun kr Hkr => Hks kr (list_elem_of_further _ _ _ Hkr)) Hlp1 Hs1).
    assert (Hn1' : NoDup (lp :: flat_map locs (visited ++ t' :: rest))).
    { apply NoDup_cons. split; [|exact Hn1].
      eapply replace_child_outside; [exact Hb' | rewrite Hlp; eauto | exact Hlpn]. }
    specialize (IH Hn1' Hpre Hrun). unfold bind at 1.
    destruct (mapM f (List.map erase rest)) as [js'|e]; [|exact IH].
    destruct IH as (-> & pending' & He & Hr & Hlp' & Hs2 & Hn2 & Hb2 & Hc2).
    rewrite <- app_assoc in Hs2, Hn2. cbn [app] in Hs2, Hn2.
    split; [reflexivity|]. exists (t' :: pending').
    refine (conj _ (conj _ (conj Hlp' (conj Hs2 (conj Hn2 (conj _ _)))))).
    + cbn [List.map]. rewrite He', He. reflexivity.
    + cbn [List.map]. rewrite Hr', Hr. reflexivity.
    + intros x Hx. cbn [flat_map] in *. apply elem_of_app in Hx as [Hx|Hx].
      * destruct (Hb' x Hx); [left; apply elem_of_app|]; auto.
      * destruct (Hb2 x Hx) as [Hx'|Hx']; [left; apply elem_of_app; auto|].
        right. eapply confined_fresh; eauto.
    + cbn [flat_map]. eapply confined_trans; [exact Hc' | exact Hc2 | |];
        intros x Hx; apply elem_of_app; auto.
Qed.

End Loop.

(** *** Names and children of an object, apart *)

Lemma combine_map {A B C} (g1 : A -> B) (g2 : A -> C) l :
  combine (List.map g1 l) (List.map g2 l) = List.map (fun x => (g1 x, g2 x)) l.
Proof. induction l as [|x l IH]; [reflexivity|]. simpl. rewrite IH. reflexivity. Qed.

Lemma map_snd_combine {A B} (names : list A) (ts : list B) :
  length ts = length names -> List.map snd (combine names ts) = ts.
Proof.
  revert ts. induction names as [|n names IH]; intros [|t ts] Hl; try discriminate; [reflexivity|].
  simpl. rewrite IH; [reflexivity|]. simpl in Hl. lia.
Qed.

Lemma map_fst_combine {A B} (names : list A) (ts : list B) :
  length ts = length names -> List.map fst (combine names ts) = names.
Proof.
  revert ts. induction names as [|n names IH]; intros [|t ts] Hl; try discriminate; [reflexivity|].
  simpl. rewrite IH; [reflexivity|]. simpl in Hl. lia.
Qed.

Lemma kroots_combine ps : kroots ps = combine (List.map fst ps) (List.map root (List.map snd ps)).
Proof. unfold kroots. rewrite List.map_map, combine_map. reflexivity. Qed.

Lemma kerase_combine ps : kerase ps = combine (List.map fst ps) (List.map erase (List.map snd ps)).
Proof. unfold kerase. rewrite List.map_map, combine_map. reflexivity. Qed.

Lemma klocs_map_snd' ps : klocs ps = flat_map locs (List.map snd ps).
Proof. unfold klocs. induction ps as [|kt ps IH]; [reflexivity|]. simpl. rewrite IH. reflexivity. Qed.

Lemma Forall_map_snd {A B} (P : B -> Prop) (ps : list (A * B)) :
  Forall (fun kt => P (snd kt)) ps <-> Forall P (List.map snd ps).
Proof. rewrite Forall_map. reflexivity. Qed.

Lemma mapM_length {A B} (g : A -> result B) l l' : mapM g l = Ok l' -> length l' = length l.
Proof.
  revert l'. induction l as [|x l IH]; intros l' H; simpl in H.
  - injection H as <-. reflexivity.
  - unfold bind in H. destruct (g x); [|discriminate]. destruct (mapM g l); [|discriminate].
    injection H as <-. simpl. rewrite (IH _ eq_refl). reflexivity.
Qed.

Lemma mapM_on_values_split (g : json -> result json) ps :
  mapM (on_values g) ps
  = try vs <- mapM g (List.map snd ps); Ok (combine (List.map fst ps) vs).
Proof.
  induction ps as [|[k v] ps IH]; [reflexivity|].
  cbn [mapM List.map]. rewrite IH. unfold on_values, bind. cbn [fst snd].
  destruct (g v); [|reflexivity]. destruct (mapM g (List.map snd ps)); reflexivity.
Qed.

Lemma lookup_prop_NoDup k (v : val) ps :
  NoDup (List.map fst ps) -> (k, v) ∈ ps -> Heap.lookup_prop k ps = Some v.
Proof.
  induction ps as [|[k' v'] ps IH]; intros Hn Hin; [inversion Hin|].
  cbn [List.map fst] in Hn. apply NoDup_cons in Hn as [Hk Hn].
  apply elem_of_cons in Hin as [Heq|Hin]; cbn [Heap.lookup_prop].
  - injection Heq as <- <-. rewrite String.eqb_refl. reflexivity.
  - destruct (String.eqb_spec k' k) as [->|Hne]; [|apply IH; assumption].
    exfalso. apply Hk. apply list_elem_of_fmap. exists (k, v). split; [reflexivity | exact Hin].
Qed.

Lemma elem_of_combine_seq {A} (rs : list A) : forall s n k r,
  (k, r) ∈ combine (List.map Index (seq s n)) rs ->
  exists i, k = Index (s + i) /\ rs !! i = Some r.
Proof.
  induction rs as [|r0 rs IH]; intros s n k r Hin.
  - destruct n; inversion Hin.
  - destruct n as [|n]; [inversion Hin|]. cbn [seq List.map combine] in Hin.
    apply elem_of_cons in Hin as [Heq|Hin].
    + injection Heq as -> ->. exists 0. rewrite Nat.add_0_r. split; reflexivity.
    + destruct (IH (S s) n k r Hin) as (i & -> & Hi). exists (S i).
      split; [f_equal; lia | exact Hi].
Qed.

Lemma forEach_noop {A} (g : A -> M unit) ks h :
  (forall k, k ∈ ks -> forall h, g k h = (Ok tt, h)) -> forEach g ks h = (Ok tt, h).
Proof.
  induction ks as [|k ks IH]; intros Hg; [reflexivity|].
  cbn [forEach]. rewrite (mbind_ok _ _ _ _ _ (Hg k (list_elem_of_here _ _) h)).
  apply IH. intros k' Hk'. apply Hg, list_elem_of_further, Hk'.
Qed.

Lemma string_get_Some s : forall i, i < String.length s -> exists c, String.get i s = Some c.
Proof.
  induction s as [|a s IH]; intros i Hi; [simpl in Hi; lia|].
  destruct i as [|i]; [exists a; reflexivity|]. simpl in *. apply IH. lia.
Qed.

(** *** [Object.keys(parent).forEach(...)] on a parent that is a tree *)

Section ForEachKey.

Variable pre : json -> Prop.
Variable body : val -> M unit.
Variable f : json -> result json.
Hypothesis Hbody : child_spec pre body f.
Hypothesis Hstring : forall s h, body (VStr s) h = (Ok tt, h).

Lemma forEachKey_spec :
  child_spec (children_pre pre) (fun parent => forEachKey parent body) (for_each_value f).
Proof.
  intros t h r h' Hs Hn [Hkeys Hpre] Hrun. unfold forEachKey in Hrun.
  assert (Hsame : forall ks, keys (root t) h = (Ok ks, h) ->
            (forall k, k ∈ ks -> forall h1,
               mbind (get_key (root t) k) (fun child => body child) h1 = (Ok tt, h1)) ->
            for_each_value f (erase t) = Ok (erase t) ->
            match for_each_value f (erase t) with
            | Throw e => r = Throw e
            | Ok j' => r = Ok tt /\
                exists t', erase t' = j' /\ root t' = root t /\ stored h' t' /\
                  NoDup (locs t') /\
                  (forall x, x ∈ locs t' -> x ∈ locs t \/ h !! x = None) /\
                  confined (locs t) h h'
            end).
  { intros ks Hks Hnoop ->. rewrite (mbind_ok _ _ _ _ _ Hks), (forEach_noop _ _ _ Hnoop) in Hrun.
    injection Hrun as <- <-. split; [reflexivity|]. exists t.
    refine (conj eq_refl (conj eq_refl (conj Hs (conj Hn (conj _ _))))).
    - intros x Hx. left. exact Hx.
    - apply confined_refl. }
  destruct t as [| b | n | s | lp ts | lp kids].
  - apply (Hsame []); [reflexivity | intros k Hk; inversion Hk | reflexivity].
  - apply (Hsame []); [reflexivity | intros k Hk; inversion Hk | reflexivity].
  - apply (Hsame []); [reflexivity | intros k Hk; inversion Hk | reflexivity].
  - apply (Hsame (List.map Index (seq 0 (String.length s)))); [reflexivity | | reflexivity].
    intros k Hk h1. apply list_elem_of_fmap in Hk as (i & -> & Hi).
    apply list_elem_of_In, in_seq in Hi.
    destruct (string_get_Some s i) as [a Ha]; [lia|].
    unfold mbind. cbn [root get_key]. rewrite Ha. apply Hstring.
  - (* an array *)
    clear Hsame. pose proof Hs as Hs0. apply stored_LArr in Hs0 as [Hlp Hts].
    assert (Hkr : keys (VRef lp) h = (Ok (List.map Index (seq 0 (length ts))), h)).
    { unfold keys. rewrite Hlp. cbn [List.map]. rewrite app_nil_r, length_map. reflexivity. }
    cbn [root] in Hrun. rewrite (mbind_ok _ _ _ _ _ Hkr) in Hrun.
    change (Forall pre (List.map erase ts)) in Hpre.
    pose proof (loop_children pre body f Hbody lp (CArr (List.map root ts) [])
                  (combine (List.map Index (seq 0 (length ts))) (List.map root ts))) as Hloop.
    specialize (Hloop).
    assert (Hget : forall h k r0, h !! lp = Some (CArr (List.map root ts) []) ->
              (k, r0) ∈ combine (List.map Index (seq 0 (length ts))) (List.map root ts) ->
              get_key (VRef lp) k h = (Ok r0, h)).
    { intros h1 k r0 Hh1 Hin. apply elem_of_combine_seq in Hin as (i & -> & Hi).
      cbn [get_key]. rewrite Hh1. cbn [Nat.add]. rewrite Hi. reflexivity. }
    specialize (Hloop Hget ts (List.map Index (seq 0 (length ts))) [] h r h').
    cbn [app] in Hloop. rewrite length_map, length_seq in Hloop.
    specialize (Hloop eq_refl (fun kr H => H) Hlp Hts Hn).
    assert (Hpre' : Forall (fun t => pre (erase t)) ts).
    { apply Forall_forall. intros t0 Ht0. rewrite Forall_forall in Hpre. apply Hpre.
      apply list_elem_of_fmap. exists t0. auto. }
    specialize (Hloop Hpre' Hrun).
    cbn [erase for_each_value]. unfold bind.
    destruct (mapM f (List.map erase ts)) as [js'|e]; [|exact Hloop].
    destruct Hloop as (-> & ts' & He & Hr & Hlp' & Hs' & Hn' & Hb' & Hc').
    split; [reflexivity|]. exists (LArr lp ts').
    refine (conj _ (conj eq_refl (conj _ (conj Hn' (conj _ _))))).
    + cbn [erase]. rewrite He. reflexivity.
    + apply stored_LArr. rewrite Hr. split; assumption.
    + intros x Hx. cbn [locs] in *. apply elem_of_cons in Hx as [->|Hx].
      * left. apply elem_of_cons. auto.
      * destruct (Hb' x Hx); [left; apply elem_of_cons|]; auto.
    + eapply confined_weaken; [exact Hc'|]. intros x Hx. cbn [locs]. apply elem_of_cons. auto.
  - (* an object *)
    clear Hsame. pose proof Hs as Hs0. apply stored_LObj in Hs0 as [Hlp Hts].
    assert (Hkr : keys (VRef lp) h
                  = (Ok (List.map (fun kv => Name (fst kv)) (kroots kids)), h)).
    { unfold keys. rewrite Hlp. reflexivity. }
    cbn [root] in Hrun. rewrite (mbind_ok _ _ _ _ _ Hkr) in Hrun.
    change (Forall (fun kv => pre (snd kv)) (kerase kids)) in Hpre.
    change (NoDup (List.map fst (kerase kids))) in Hkeys.
    assert (Hfst : List.map fst (kerase kids) = List.map fst kids).
    { unfold kerase. rewrite List.map_map. reflexivity. }
    assert (Hfst' : List.map fst (kroots kids) = List.map fst kids).
    { unfold kroots. rewrite List.map_map. reflexivity. }
    rewrite Hfst in Hkeys.
    set (krs := List.map (fun kv => (Name (fst kv), snd kv)) (kroots kids)).
    assert (Hget : forall h k r0, h !! lp = Some (CObj (kroots kids)) -> (k, r0) ∈ krs ->
              get_key (VRef lp) k h = (Ok r0, h)).
    { intros h1 k r0 Hh1 Hin. apply list_elem_of_fmap in Hin as ([k0 v0] & Heq & Hin).
      injection Heq as -> ->. cbn [get_key get_prop fst snd]. rewrite Hh1.
      rewrite (lookup_prop_NoDup k0 v0 (kroots kids)); [reflexivity | | exact Hin].
      rewrite Hfst'. exact Hkeys. }
    pose proof (loop_children pre body f Hbody lp (CObj (kroots kids)) krs Hget
                  (List.map snd kids) (List.map (fun kv => Name (fst kv)) (kroots kids))
                  [] h r h') as Hloop.
    cbn [app] in Hloop. rewrite !length_map in Hloop.
    assert (Hsub : forall kr,
              kr ∈ combine (List.map (fun kv => Name (fst kv)) (kroots kids))
                     (List.map root (List.map snd kids)) -> kr ∈ krs).
    { intros kr Hin. unfold krs. unfold kroots in Hin |- *.
      rewrite !List.map_map in Hin. rewrite combine_map in Hin.
      rewrite List.map_map. exact Hin. }
    change (NoDup (lp :: klocs kids)) in Hn. rewrite klocs_map_snd' in Hn.
    assert (Hlk : length (kroots kids) = length kids) by apply length_map.
    specialize (Hloop Hlk Hsub Hlp (proj1 (Forall_map_snd _ _) Hts) Hn).
    assert (Hpre' : Forall (fun t => pre (erase t)) (List.map snd kids)).
    { apply Forall_forall. intros t0 Ht0. rewrite Forall_forall in Hpre.
      apply list_elem_of_fmap in Ht0 as ([k0 t1] & -> & Hin).
      apply (Hpre (k0, erase t1)). apply list_elem_of_fmap. exists (k0, t1). auto. }
    specialize (Hloop Hpre' Hrun).
    cbn [erase for_each_value]. fold (kerase kids).
    rewrite mapM_on_values_split, Hfst.
    assert (Hsnd : List.map snd (kerase kids) = List.map erase (List.map snd kids)).
    { unfold kerase. rewrite !List.map_map. reflexivity. }
    rewrite Hsnd. unfold bind.
    destruct (mapM f (List.map erase (List.map snd kids))) as [js'|e]; [|exact Hloop].
    destruct Hloop as (-> & ts' & He & Hr & Hlp' & Hs' & Hn' & Hb' & Hc').
    assert (Hlen : length ts' = length (List.map fst kids)).
    { rewrite length_map. rewrite <- (length_map root ts'), Hr, !length_map. reflexivity. }
    set (kids' := combine (List.map fst kids) ts').
    pose proof (map_snd_combine _ _ Hlen) as Hsnd'. fold kids' in Hsnd'.
    pose proof (map_fst_combine _ _ Hlen) as Hfst''. fold kids' in Hfst''.
    split; [reflexivity|]. exists (LObj lp kids').
    refine (conj _ (conj eq_refl (conj _ (conj _ (conj _ _))))).
    + cbn [erase]. fold (kerase kids'). rewrite kerase_combine, Hsnd', Hfst'', He. reflexivity.
    + apply stored_LObj. split.
      * rewrite Hlp'. do 2 f_equal. rewrite (kroots_combine kids'), Hsnd', Hfst'', Hr.
        apply kroots_combine.
      * apply Forall_map_snd. rewrite Hsnd'. exact Hs'.
    + cbn [locs]. fold (klocs kids'). rewrite klocs_map_snd', Hsnd'. exact Hn'.
    + intros x Hx. cbn [locs] in *. fold (klocs kids') in Hx. fold (klocs kids).
      rewrite klocs_map_snd', Hsnd' in Hx. rewrite (klocs_map_snd' kids).
      apply elem_of_cons in Hx as [->|Hx].
      * left. apply elem_of_cons. auto.
      * destruct (Hb' x Hx); [left; apply elem_of_cons|]; auto.
    + eapply confined_weaken; [exact Hc'|]. intros x Hx. cbn [locs]. fold (klocs kids).
      rewrite klocs_map_snd'. apply elem_of_cons. auto.
Qed.

End ForEachKey.

End LoopFacts.

(** ** The two passes over one category *)

Module CategoryFacts.

#[local] Abbreviation tree_enhance_item := enhance_item.
#[local] Abbreviation tree_enhance_category := enhance_category.
#[local] Abbreviation tree_recount_category := recount_category.

Import Heap Located LocatedFacts ParseFacts ItemFacts ItemSteps LoopFacts.

(** *** A property replaced by a tree with the same root *)

Lemma set_prop_same k t ps :
  Located.lookup_prop k ps = Some t -> Located.set_prop k t ps = ps.
Proof.
  induction ps as [|[k' t'] ps IH]; intros H; simpl in *; [discriminate|].
  destruct (String.eqb_spec k' k) as [->|Hne].
  - injection H as ->. reflexivity.
  - rewrite IH; [reflexivity | exact H].
Qed.

Lemma kroots_set_same_root k t t' ps :
  Located.lookup_prop k ps = Some t -> root t' = root t ->
  kroots (Located.set_prop k t' ps) = kroots ps.
Proof.
  intros Hk Hr. rewrite <- set_kroots, Hr, set_kroots, (set_prop_same _ _ _ Hk). reflexivity.
Qed.

Lemma replace_prop h h' l ps k t t' :
  stored h (LObj l ps) -> NoDup (locs (LObj l ps)) ->
  Located.lookup_prop k ps = Some t -> root t' = root t ->
  stored h' t' -> NoDup (locs t') ->
  (forall x, x ∈ locs t' -> x ∈ locs t \/ h !! x = None) ->
  confined (locs t) h h' ->
  stored h' (LObj l (Located.set_prop k t' ps)) /\
  NoDup (locs (LObj l (Located.set_prop k t' ps))) /\
  (forall x, x ∈ locs (LObj l (Located.set_prop k t' ps)) ->
             x ∈ locs (LObj l ps) \/ h !! x = None) /\
  confined (locs (LObj l ps)) h h'.
Proof.
  intros Hs Hn Hk Hr Hs' Hn' Hb Hc.
  pose proof (kroots_set_same_root k t t' ps Hk Hr) as Hroots.
  destruct (set_prop_Some k t' ps t Hk) as (ps1 & ps2 & Hps & Hset).
  apply stored_LObj in Hs as [Hl Hkids]. apply Forall_map_snd in Hkids.
  change (NoDup (l :: klocs ps)) in Hn. rewrite klocs_map_snd' in Hn.
  apply NoDup_cons in Hn as [Hln Hn].
  assert (Hmap : List.map snd ps = (List.map snd ps1 ++ t :: List.map snd ps2)%list).
  { rewrite Hps, List.map_app. reflexivity. }
  assert (Hmap' : List.map snd (Located.set_prop k t' ps)
                  = (List.map snd ps1 ++ t' :: List.map snd ps2)%list).
  { rewrite Hset, List.map_app. reflexivity. }
  rewrite Hmap in Hkids, Hn, Hln.
  destruct (replace_child h h' _ t t' _ Hkids Hn Hs' Hn' Hb Hc) as [Hkids' Hn2].
  assert (Hlt : l ∉ locs t).
  { intros Hin. apply Hln. rewrite flat_map_app. cbn [flat_map].
    apply elem_of_app. right. apply elem_of_app. auto. }
  assert (Hsub : forall x, x ∈ locs t -> x ∈ locs (LObj l ps)).
  { intros x Hx. cbn [locs]. apply elem_of_cons. right. eapply locs_lookup; eauto. }
  refine (conj _ (conj _ (conj _ _))).
  - apply stored_LObj. split.
    + destruct (Hc l) as [_ Heq]; [rewrite Hl; eauto|]. rewrite (Heq Hlt), Hroots. exact Hl.
    + apply Forall_map_snd. rewrite Hmap'. exact Hkids'.
  - change (NoDup (l :: klocs (Located.set_prop k t' ps))).
    rewrite klocs_map_snd', Hmap'. apply NoDup_cons. split; [|exact Hn2].
    eapply replace_child_outside; [exact Hb | rewrite Hl; eauto | exact Hln].
  - intros x Hx. apply elem_of_cons in Hx as [->|Hx]; [left; apply elem_of_cons; auto|].
    apply klocs_set_prop in Hx as [Hx|Hx].
    + destruct (Hb x Hx); [left; apply Hsub|]; auto.
    + left. apply elem_of_cons. auto.
  - eapply confined_weaken; [exact Hc | exact Hsub].
Qed.

(** *** First pass over one category *)

Lemma enhance_item_string doc s h : Heap.enhance_item doc (VStr s) h = (Ok tt, h).
Proof. reflexivity. Qed.

Lemma enhance_category_spec doc :
  child_spec category_ok (Heap.enhance_category doc) (tree_enhance_category doc).
Proof.
  intros t h r h' Hs Hn [Htruthy Hitems] Hrun. unfold Heap.enhance_category in Hrun.
  assert (Hsame : tree_enhance_category doc (erase t) = Ok (erase t) ->
            r = Ok tt -> h' = h ->
            match tree_enhance_category doc (erase t) with
            | Throw e => r = Throw e
            | Ok j' => r = Ok tt /\
                exists t', erase t' = j' /\ root t' = root t /\ stored h' t' /\
                  NoDup (locs t') /\
                  (forall x, x ∈ locs t' -> x ∈ locs t \/ h !! x = None) /\
                  confined (locs t) h h'
            end).
  { intros -> -> ->. split; [reflexivity|]. exists t.
    refine (conj eq_refl (conj eq_refl (conj Hs (conj Hn (conj _ _))))).
    - intros x Hx. left. exact Hx.
    - apply confined_refl. }
  destruct t as [| b | n | s | la ts | l ps].
  - discriminate Htruthy.
  - injection Hrun as <- <-. apply Hsame; reflexivity.
  - injection Hrun as <- <-. apply Hsame; reflexivity.
  - injection Hrun as <- <-. apply Hsame; reflexivity.
  - rewrite (mbind_ok _ _ _ _ _ (get_prop_stored_arr h la ts "items" Hs)) in Hrun.
    injection Hrun as <- <-. apply Hsame; reflexivity.
  - rewrite (mbind_ok _ _ _ _ _ (get_prop_stored_obj h l ps "items" Hs)) in Hrun.
    unfold tree_enhance_category in *. unfold items_distinct in Hitems.
    change (erase (LObj l ps)) with (JObj (kerase ps)) in *.
    cbn [Js.get] in *. rewrite lookup_kerase in *.
    destruct (Located.lookup_prop "items" ps) as [ti|] eqn:Hk;
      cbn [fmap option_fmap option_map default] in *.
    2:{ injection Hrun as <- <-. apply Hsame; reflexivity. }
    unfold id in Hrun. rewrite truthy_root in Hrun.
    destruct (Js.truthy (erase ti)) eqn:Htr.
    2:{ injection Hrun as <- <-. apply Hsame; reflexivity. }
    clear Hsame.
    pose proof (stored_lookup _ _ _ _ _ Hs Hk) as Hsi.
    pose proof Hn as Hn0. cbn [locs] in Hn0. apply NoDup_cons in Hn0 as [_ Hn0].
    pose proof (NoDup_klocs_elem ps _ Hn0 (lookup_prop_elem _ _ _ Hk)) as Hni. cbn [snd] in Hni.
    assert (Hpre : children_pre (fun _ => True) (erase ti)).
    { split; [apply Hitems; reflexivity|].
      destruct (erase ti); try exact I; apply Forall_forall; intros; exact I. }
    pose proof (forEachKey_spec (fun _ => True) (Heap.enhance_item doc) (tree_enhance_item doc)
                  (enhance_item_spec doc) (enhance_item_string doc) ti h r h' Hsi Hni Hpre Hrun)
      as Hloop.
    change (for_each_value (tree_enhance_item doc) (erase ti))
      with (enhance_items doc (erase ti)) in Hloop.
    unfold bind. destruct (enhance_items doc (erase ti)) as [j'|e]; [|exact Hloop].
    destruct Hloop as (-> & ti' & He' & Hr' & Hs' & Hn' & Hb' & Hc').
    split; [reflexivity|]. exists (LObj l (Located.set_prop "items" ti' ps)).
    destruct (replace_prop h h' l ps "items" ti ti' Hs Hn Hk Hr' Hs' Hn' Hb' Hc')
      as (H1 & H2 & H3 & H4).
    refine (conj _ (conj eq_refl (conj H1 (conj H2 (conj H3 H4))))).
    change (erase (LObj l (Located.set_prop "items" ti' ps)))
      with (JObj (kerase (Located.set_prop "items" ti' ps))).
    rewrite <- set_kerase, He'. reflexivity.
Qed.

(** *** Second pass over one category *)

Lemma mapH_reads (g : key -> M val) (krs : list (key * val)) h :
  (forall kr, kr ∈ krs -> g (fst kr) h = (Ok (snd kr), h)) ->
  mapH g (List.map fst krs) h = (Ok (List.map snd krs), h).
Proof.
  induction krs as [|kr krs IH]; intros Hg; [reflexivity|].
  cbn [List.map mapH]. rewrite (mbind_ok _ _ _ _ _ (Hg kr (list_elem_of_here _ _))).
  rewrite (mbind_ok _ _ _ _ _ (IH (fun kr' H => Hg kr' (list_elem_of_further _ _ _ H)))).
  reflexivity.
Qed.

Lemma mapH_string_shift a s n : forall start h,
  mapH (get_key (VStr (String a s))) (List.map Index (seq (S start) n)) h
  = mapH (get_key (VStr s)) (List.map Index (seq start n)) h.
Proof.
  induction n as [|n IH]; intros start h; [reflexivity|].
  cbn [seq List.map mapH].
  change (get_key (VStr (String a s)) (Index (S start)))
    with (get_key (VStr s) (Index start)).
  unfold mbind at 1 3. destruct (get_key (VStr s) (Index start) h) as [[v|e] h1]; [|reflexivity].
  unfold mbind. rewrite IH. reflexivity.
Qed.

Lemma mapH_string s h :
  mapH (get_key (VStr s)) (List.map Index (seq 0 (String.length s))) h
  = (Ok (List.map (fun c => VStr (String c EmptyString)) (list_ascii_of_string s)), h).
Proof.
  induction s as [|a s IH]; [reflexivity|].
  cbn [String.length seq List.map mapH list_ascii_of_string].
  unfold mbind at 1. cbn [get_key String.get]. unfold mbind at 1.
  rewrite mapH_string_shift, IH. reflexivity.
Qed.

Lemma values_stored h ti :
  stored h ti -> NoDup (locs ti) -> keys_distinct (erase ti) ->
  exists cs, values (root ti) h = (Ok (List.map root cs), h) /\
             List.map erase cs = Js.values (erase ti) /\
             Forall (stored h) cs /\ Forall (fun c => NoDup (locs c)) cs.
Proof.
  intros Hs Hn Hkeys. unfold values.
  destruct ti as [| b | n | s | lp ts | lp kids].
  - exists []. repeat split; constructor.
  - exists []. repeat split; constructor.
  - exists []. repeat split; constructor.
  - exists (List.map (fun c => LStr (String c EmptyString)) (list_ascii_of_string s)).
    split; [|split; [|split]].
    + unfold mbind. cbn [root keys]. rewrite mapH_string, List.map_map. reflexivity.
    + cbn [erase Js.values]. rewrite List.map_map. reflexivity.
    + apply Forall_forall. intros c Hc. apply list_elem_of_fmap in Hc as (a & -> & _). exact I.
    + apply Forall_forall. intros c Hc. apply list_elem_of_fmap in Hc as (a & -> & _).
      constructor.
  - apply stored_LArr in Hs as [Hlp Hts]. exists ts.
    cbn [locs] in Hn. apply NoDup_cons in Hn as [_ Hn].
    split; [|split; [reflexivity|split; [exact Hts|]]].
    + assert (Hkr : keys (VRef lp) h = (Ok (List.map Index (seq 0 (length ts))), h)).
      { unfold keys. rewrite Hlp. cbn [List.map]. rewrite app_nil_r, length_map. reflexivity. }
      cbn [root]. rewrite (mbind_ok _ _ _ _ _ Hkr).
      set (krs := combine (List.map Index (seq 0 (length ts))) (List.map root ts)).
      assert (Hlen : length (List.map root ts) = length (List.map Index (seq 0 (length ts)))).
      { rewrite !length_map, length_seq. reflexivity. }
      pose proof (map_fst_combine _ _ Hlen) as H1. pose proof (map_snd_combine _ _ Hlen) as H2.
      fold krs in H1, H2. rewrite <- H1, <- H2.
      apply mapH_reads. intros [k r0] Hin. apply elem_of_combine_seq in Hin as (i & -> & Hi).
      cbn [get_key fst snd]. rewrite Hlp. cbn [Nat.add]. rewrite Hi. reflexivity.
    + apply Forall_forall. intros c Hc. eapply NoDup_flat_map_elem; eauto.
  - apply stored_LObj in Hs as [Hlp Hts]. exists (List.map snd kids).
    change (NoDup (lp :: klocs kids)) in Hn. apply NoDup_cons in Hn as [_ Hn].
    change (NoDup (List.map fst (kerase kids))) in Hkeys.
    assert (Hfst' : List.map fst (kroots kids) = List.map fst kids).
    { unfold kroots. rewrite List.map_map. reflexivity. }
    assert (Hfst : List.map fst (kerase kids) = List.map fst kids).
    { unfold kerase. rewrite List.map_map. reflexivity. }
    rewrite Hfst in Hkeys.
    split; [|split; [|split]].
    + assert (Hkr : keys (VRef lp) h
                    = (Ok (List.map (fun kv => Name (fst kv)) (kroots kids)), h)).
      { unfold keys. rewrite Hlp. reflexivity. }
      cbn [root]. rewrite (mbind_ok _ _ _ _ _ Hkr).
      set (krs := List.map (fun kv => (Name (fst kv), snd kv)) (kroots kids)).
      assert (H1 : List.map (fun kv => Name (fst kv)) (kroots kids) = List.map fst krs).
      { unfold krs. rewrite List.map_map. reflexivity. }
      assert (H2 : List.map root (List.map snd kids) = List.map snd krs).
      { unfold krs, kroots. rewrite !List.map_map. reflexivity. }
      rewrite H1, H2. apply mapH_reads. intros kr Hin.
      apply list_elem_of_fmap in Hin as ([k0 v0] & -> & Hin).
      cbn [get_key get_prop fst snd]. rewrite Hlp.
      rewrite (lookup_prop_NoDup k0 v0 (kroots kids)); [reflexivity | | exact Hin].
      rewrite Hfst'. exact Hkeys.
    + cbn [erase Js.values]. rewrite !List.map_map. reflexivity.
    + apply Forall_map_snd. exact Hts.
    + apply Forall_forall. intros c Hc. apply list_elem_of_fmap in Hc as (kt & -> & Hkt).
      eapply NoDup_klocs_elem; eauto.
Qed.

Lemma add_count_stored h total c :
  stored h c -> NoDup (locs c) ->
  add_count total (root c) h
  = (match item_count (erase c) with
     | Ok cnt => Ok (Js.add total cnt)
     | Throw e => Throw e
     end, h).
Proof.
  intros Hs Hn. unfold add_count.
  destruct c as [| b | n | s | lp ts | lp kids]; try reflexivity.
  - rewrite (mbind_ok _ _ _ _ _ (get_prop_stored_arr h lp ts "count" Hs)). reflexivity.
  - rewrite (mbind_ok _ _ _ _ _ (get_prop_stored_obj h lp kids "count" Hs)).
    change (erase (LObj lp kids)) with (JObj (kerase kids)).
    cbn [item_count Js.get]. rewrite lookup_kerase.
    destruct (Located.lookup_prop "count" kids) as [tc|] eqn:Hk;
      cbn [fmap option_fmap option_map default]; [|reflexivity].
    unfold id. rewrite truthy_root.
    cbn [locs] in Hn. apply NoDup_cons in Hn as [_ Hn].
    rewrite (tree_of_located h tc (stored_lookup _ _ _ _ _ Hs Hk)
               (NoDup_klocs_elem kids _ Hn (lookup_prop_elem _ _ _ Hk))).
    reflexivity.
Qed.

Lemma reduce_add_count h cs : forall total,
  Forall (stored h) cs -> Forall (fun c => NoDup (locs c)) cs ->
  reduce add_count total (List.map root cs) h = (reduce_counts total (List.map erase cs), h).
Proof.
  induction cs as [|c cs IH]; intros total Hs Hn; [reflexivity|].
  apply Forall_cons in Hs as [Hc Hs]. apply Forall_cons in Hn as [Hnc Hn].
  cbn [List.map reduce reduce_counts]. unfold mbind at 1.
  rewrite (add_count_stored h total c Hc Hnc). unfold bind.
  destruct (item_count (erase c)) as [cnt|e]; [|reflexivity].
  apply IH; assumption.
Qed.

Lemma add_primitive a b : Js.toPrimitive (Js.add a b) = Js.add a b.
Proof. unfold Js.add. destruct (_ || _); reflexivity. Qed.

Lemma reduce_counts_primitive vs : forall total total',
  Js.toPrimitive total = total -> reduce_counts total vs = Ok total' ->
  Js.toPrimitive total' = total'.
Proof.
  induction vs as [|v vs IH]; intros total total' Hp H; cbn [reduce_counts] in H.
  - injection H as <-. exact Hp.
  - unfold bind in H. destruct (item_count v) as [cnt|e]; [|discriminate H].
    eapply IH; [apply add_primitive | exact H].
Qed.

Lemma primitive_tree j :
  Js.toPrimitive j = j -> exists t, root t = of_primitive j /\ erase t = j /\ locs t = [].
Proof.
  destruct j as [| b | n | s | l | ps]; intros H; try discriminate H.
  - exists LNull. repeat split.
  - exists (LBool b). repeat split.
  - exists (LNum n). repeat split.
  - exists (LStr s). repeat split.
Qed.

Lemma recount_category_string s h : Heap.recount_category (VStr s) h = (Ok tt, h).
Proof. reflexivity. Qed.

Lemma enhance_category_string doc s h : Heap.enhance_category doc (VStr s) h = (Ok tt, h).
Proof. reflexivity. Qed.

Lemma recount_category_spec :
  child_spec category_ok Heap.recount_category tree_recount_category.
Proof.
  intros t h r h' Hs Hn [Htruthy Hitems] Hrun. unfold Heap.recount_category in Hrun.
  assert (Hsame : tree_recount_category (erase t) = Ok (erase t) ->
            r = Ok tt -> h' = h ->
            match tree_recount_category (erase t) with
            | Throw e => r = Throw e
            | Ok j' => r = Ok tt /\
                exists t', erase t' = j' /\ root t' = root t /\ stored h' t' /\
                  NoDup (locs t') /\
                  (forall x, x ∈ locs t' -> x ∈ locs t \/ h !! x = None) /\
                  confined (locs t) h h'
            end).
  { intros -> -> ->. split; [reflexivity|]. exists t.
    refine (conj eq_refl (conj eq_refl (conj Hs (conj Hn (conj _ _))))).
    - intros x Hx. left. exact Hx.
    - apply confined_refl. }
  destruct t as [| b | n | s | la ts | l ps].
  - discriminate Htruthy.
  - injection Hrun as <- <-. apply Hsame; reflexivity.
  - injection Hrun as <- <-. apply Hsame; reflexivity.
  - injection Hrun as <- <-. apply Hsame; reflexivity.
  - rewrite (mbind_ok _ _ _ _ _ (get_prop_stored_arr h la ts "items" Hs)) in Hrun.
    injection Hrun as <- <-. apply Hsame; reflexivity.
  - rewrite (mbind_ok _ _ _ _ _ (get_prop_stored_obj h l ps "items" Hs)) in Hrun.
    unfold tree_recount_category in *. unfold items_distinct in Hitems.
    change (erase (LObj l ps)) with (JObj (kerase ps)) in *.
    cbn [Js.get] in *. rewrite lookup_kerase in *.
    destruct (Located.lookup_prop "items" ps) as [ti|] eqn:Hk;
      cbn [fmap option_fmap option_map default] in *.
    2:{ injection Hrun as <- <-. apply Hsame; reflexivity. }
    unfold id in Hrun. rewrite truthy_root in Hrun.
    destruct (Js.truthy (erase ti)) eqn:Htr.
    2:{ injection Hrun as <- <-. apply Hsame; reflexivity. }
    clear Hsame.
    pose proof (stored_lookup _ _ _ _ _ Hs Hk) as Hsi.
    pose proof Hn as Hn0. cbn [locs] in Hn0. apply NoDup_cons in Hn0 as [_ Hn0].
    pose proof (NoDup_klocs_elem ps _ Hn0 (lookup_prop_elem _ _ _ Hk)) as Hni. cbn [snd] in Hni.
    destruct (values_stored h ti Hsi Hni (Hitems _ eq_refl)) as (cs & Hv & Hec & Hsc & Hnc).
    rewrite (mbind_ok _ _ _ _ _ Hv) in Hrun.
    pose proof (reduce_add_count h cs (JNum 0) Hsc Hnc) as Hred. rewrite Hec in Hred.
    unfold mbind at 1 in Hrun. rewrite Hred in Hrun. unfold bind.
    destruct (reduce_counts (JNum 0) (Js.values (erase ti))) as [total|e] eqn:Ht.
    2:{ injection Hrun as <- _. reflexivity. }
    destruct (primitive_tree total (reduce_counts_primitive _ _ _ eq_refl Ht))
      as (tt' & Hrt & Het & Hlt).
    destruct (item_state_set_prim l h ps h ps "count" tt' (item_state_init l h ps Hs Hn) Hlt)
      as [Hset (Hs' & Hn' & Hb' & Hc')].
    rewrite Hrt in Hset.
    pose proof (eq_trans (eq_sym Hset) Hrun) as Hfin. injection Hfin as <- <-.
    split; [reflexivity|]. exists (LObj l (Located.set_prop "count" tt' ps)).
    refine (conj _ (conj eq_refl (conj Hs' (conj Hn' (conj _ _))))).
    + change (erase (LObj l (Located.set_prop "count" tt' ps)))
        with (JObj (kerase (Located.set_prop "count" tt' ps))).
      rewrite <- set_kerase, Het. reflexivity.
    + intros x Hx. cbn [locs] in *. apply elem_of_cons in Hx as [->|Hx].
      * left. apply elem_of_cons. auto.
      * destruct (Hb' x Hx); [left; apply elem_of_cons|]; auto.
    + eapply confined_weaken; [exact Hc'|]. intros x Hx.
      apply list_elem_of_singleton in Hx. subst x. cbn [locs]. apply elem_of_cons. auto.
Qed.

End CategoryFacts.

(** ** The categories that are retained *)

Module RefinementFacts.

#[local] Abbreviation tree_enhance_category := enhance_category.
#[local] Abbreviation tree_recount_category := recount_category.
#[local] Abbreviation tree_enhanceResultsWithDOMInfo := enhanceResultsWithDOMInfo.

Import Heap Located LocatedFacts ParseFacts ItemFacts ItemSteps LoopFacts CategoryFacts.

(** *** Distinct property names, on trees *)

Lemma distinct_keys_JObj ps :
  distinct_keys (JObj ps) <->
  NoDup (List.map fst ps) /\ Forall (fun kv => distinct_keys (snd kv)) ps.
Proof. cbn [distinct_keys]. rewrite fold_right_and_Forall. reflexivity. Qed.

Lemma distinct_keys_get j k v : distinct_keys j -> Js.get j k = Some v -> distinct_keys v.
Proof.
  intros Hd Hg. destruct j; try discriminate Hg. cbn [Js.get] in Hg.
  apply distinct_keys_JObj in Hd as [_ Hd]. rewrite Forall_forall in Hd.
  apply (Hd (k, v)). apply list_elem_of_In. apply lookup_prop_In, Hg.
Qed.

Lemma distinct_keys_top j : distinct_keys j -> keys_distinct j.
Proof. destruct j; try exact (fun _ => I). intros H. apply distinct_keys_JObj in H as [H _]. exact H. Qed.

Lemma retained_cases results k :
  retained results k = [] \/
  exists c, retained results k = [(k, c)] /\ category_of results k = Some c /\
            Js.truthy c = true.
Proof.
  rewrite retained_category_of. destruct (category_of results k) as [c|]; [|auto].
  destruct (Js.truthy c) eqn:E; [|auto]. right. exists c. auto.
Qed.

Lemma category_of_distinct results k c :
  distinct_keys results -> category_of results k = Some c -> distinct_keys c.
Proof.
  unfold category_of. intros Hd H.
  destruct (Js.get results "categories") as [cats|] eqn:Hc; [|discriminate H].
  eapply distinct_keys_get; [|exact H]. eapply distinct_keys_get; eauto.
Qed.

Lemma distinct_keys_category_ok c : Js.truthy c = true -> distinct_keys c -> category_ok c.
Proof.
  intros Ht Hd. split; [exact Ht|]. intros items Hi.
  apply distinct_keys_top. eapply distinct_keys_get; eauto.
Qed.

Lemma filtered0_ok results :
  distinct_keys results ->
  children_pre category_ok (JObj (filtered0 results)).
Proof.
  intros Hd. unfold filtered0, children_pre, keys_distinct.
  destruct (retained_cases results "error") as [->|(c1 & -> & Hc1 & Ht1)];
    destruct (retained_cases results "contrast") as [->|(c2 & -> & Hc2 & Ht2)];
    cbn [app List.map fst].
  - split; constructor.
  - split; [apply NoDup_singleton|]. apply Forall_cons. split; [|apply Forall_nil; exact I].
    apply distinct_keys_category_ok; [exact Ht2|]. eapply category_of_distinct; eauto.
  - split; [apply NoDup_singleton|]. apply Forall_cons. split; [|apply Forall_nil; exact I].
    apply distinct_keys_category_ok; [exact Ht1|]. eapply category_of_distinct; eauto.
  - split.
    + apply NoDup_cons. split; [|apply NoDup_singleton].
      intros H. apply list_elem_of_singleton in H. discriminate H.
    + apply Forall_cons. split; [|apply Forall_cons; split; [|apply Forall_nil; exact I]].
      * apply distinct_keys_category_ok; [exact Ht1|]. eapply category_of_distinct; eauto.
      * apply distinct_keys_category_ok; [exact Ht2|]. eapply category_of_distinct; eauto.
Qed.

Lemma mapM_on_values_keys g ps ps' :
  mapM (on_values g) ps = Ok ps' -> List.map fst ps' = List.map fst ps.
Proof.
  rewrite mapM_on_values_split. unfold bind.
  destruct (mapM g (List.map snd ps)) as [vs|] eqn:E; [|discriminate].
  intros [= <-]. apply map_fst_combine. rewrite (mapM_length _ _ _ E), !length_map. reflexivity.
Qed.

Lemma enhance_category_ok doc c c' :
  category_ok c -> tree_enhance_category doc c = Ok c' -> category_ok c'.
Proof.
  intros [Ht Hi] H. unfold tree_enhance_category in H.
  destruct c as [| | | | |ps]; try (injection H as <-; split; assumption).
  destruct (Js.get (JObj ps) "items") as [items|] eqn:Hg;
    [|injection H as <-; split; assumption].
  destruct (Js.truthy items); [|injection H as <-; split; assumption].
  unfold bind in H. destruct (enhance_items doc items) as [items'|] eqn:He; [|discriminate H].
  injection H as <-. split; [reflexivity|]. intros its Hits.
  cbn [Js.get] in Hits. rewrite lookup_set_prop_eq in Hits. injection Hits as <-.
  specialize (Hi items Hg). unfold enhance_items in He.
  destruct items as [| | | |l|ips]; try (injection He as <-; exact I).
  - unfold bind in He. destruct (mapM _ l); [|discriminate He]. injection He as <-. exact I.
  - unfold bind in He. destruct (mapM _ ips) as [ips'|] eqn:Hm; [|discriminate He].
    injection He as <-. cbn [keys_distinct] in *.
    rewrite (mapM_on_values_keys _ _ _ Hm). exact Hi.
Qed.

Lemma enhanced_categories_ok doc ps ps' :
  children_pre category_ok (JObj ps) ->
  mapM (on_values (tree_enhance_category doc)) ps = Ok ps' ->
  children_pre category_ok (JObj ps').
Proof.
  intros [Hk Hc] Hm. split.
  - cbn [keys_distinct] in *. rewrite (mapM_on_values_keys _ _ _ Hm). exact Hk.
  - apply Forall_forall. intros [k c'] Hin. apply list_elem_of_In in Hin.
    destruct (mapM_on_values_In _ _ _ _ _ Hm Hin) as (c & Hc0 & Hec).
    rewrite Forall_forall in Hc. apply list_elem_of_In in Hc0.
    exact (enhance_category_ok doc c c' (Hc (k, c) Hc0) Hec).
Qed.

(** *** Reading a property of a truthy tree *)

Lemma get_prop_stored h t k :
  stored h t -> Js.truthy (erase t) = true ->
  exists ot,
    get_prop (root t) k h = (Ok (default VUndefined (root <$> ot)), h) /\
    Js.get (erase t) k = erase <$> ot /\
    (forall c, ot = Some c -> exists l ps, t = LObj l ps /\ Located.lookup_prop k ps = Some c).
Proof.
  intros Hs Ht. destruct t as [| b | n | s | la ts | l ps].
  - discriminate Ht.
  - exists None. repeat split. intros c Hc. discriminate Hc.
  - exists None. repeat split. intros c Hc. discriminate Hc.
  - exists None. repeat split. intros c Hc. discriminate Hc.
  - exists None. split; [apply (get_prop_stored_arr h la ts k Hs)|].
    split; [reflexivity|]. intros c Hc. discriminate Hc.
  - exists (Located.lookup_prop k ps). split; [apply (get_prop_stored_obj h l ps k Hs)|].
    split; [apply lookup_kerase|]. intros c Hc. eauto.
Qed.

Lemma lookup_disjoint ps k1 k2 t1 t2 :
  NoDup (klocs ps) -> k1 <> k2 ->
  Located.lookup_prop k1 ps = Some t1 -> Located.lookup_prop k2 ps = Some t2 ->
  forall x, x ∈ locs t1 -> x ∉ locs t2.
Proof.
  induction ps as [|[k t] ps IH]; intros Hn Hne H1 H2 x Hx1 Hx2; [discriminate H1|].
  rewrite klocs_cons in Hn. apply NoDup_app in Hn as (_ & Hd & Hn).
  cbn [Located.lookup_prop] in H1, H2.
  destruct (String.eqb_spec k k1) as [->|Hk1].
  - injection H1 as ->. destruct (String.eqb_spec k1 k2) as [->|_]; [contradiction|].
    apply (Hd x Hx1). eapply locs_lookup; eauto.
  - destruct (String.eqb_spec k k2) as [->|Hk2].
    + injection H2 as ->. apply (Hd x Hx2). eapply locs_lookup; eauto.
    + exact (IH Hn Hne H1 H2 x Hx1 Hx2).
Qed.

(** *** [if (enhanced.categories && enhanced.categories.k) ...] *)

Lemma retain_spec h le lps lf fps k :
  stored h (LObj le lps) -> h !! lf = Some (CObj (kroots fps)) ->
  Located.lookup_prop k fps = None ->
  exists cs,
    retain (VRef le) (VRef lf) k h = (Ok tt, <[lf := CObj (kroots (fps ++ cs))]> h) /\
    kerase cs = retained (JObj (kerase lps)) k /\
    (cs = [] \/
     exists c lc cps, cs = [(k, c)] /\
       Located.lookup_prop "categories" lps = Some (LObj lc cps) /\
       Located.lookup_prop k cps = Some c).
Proof.
  intros Hs Hlf Hk. unfold retain, retained.
  assert (Hnone : <[lf := CObj (kroots (fps ++ []))]> h = h).
  { rewrite app_nil_r. apply insert_id, Hlf. }
  rewrite (mbind_ok _ _ _ _ _ (get_prop_stored_obj h le lps "categories" Hs)).
  cbn [Js.get]. rewrite lookup_kerase.
  destruct (Located.lookup_prop "categories" lps) as [tc|] eqn:Hc;
    cbn [fmap option_fmap option_map default].
  2:{ exists []. rewrite Hnone. auto. }
  unfold id. rewrite truthy_root.
  destruct (Js.truthy (erase tc)) eqn:Ht.
  2:{ exists []. rewrite Hnone. auto. }
  pose proof (stored_lookup _ _ _ _ _ Hs Hc) as Hstc.
  destruct (get_prop_stored h tc k Hstc Ht) as (oc & Hget & Hjs & Hobj).
  rewrite (mbind_ok _ _ _ _ _ Hget), Hjs.
  destruct oc as [c|]; cbn [fmap option_fmap option_map default].
  2:{ exists []. rewrite Hnone. auto. }
  unfold id. rewrite truthy_root.
  destruct (Js.truthy (erase c)) eqn:Htc.
  2:{ exists []. rewrite Hnone. auto. }
  rewrite (mbind_ok _ _ _ _ _ Hget). cbn [fmap option_fmap option_map default]. unfold id.
  exists [(k, c)]. split; [|split; [reflexivity|]].
  - unfold Heap.set_prop. rewrite Hlf. rewrite set_kroots, (set_prop_None _ _ _ Hk). reflexivity.
  - right. destruct (Hobj c eq_refl) as (lc & cps & -> & Hl). exists c, lc, cps. auto.
Qed.

Lemma forEachKey_empty lf body h :
  h !! lf = Some (CObj []) -> forEachKey (VRef lf) body h = (Ok tt, h).
Proof. intros Hlf. unfold forEachKey, mbind, keys. rewrite Hlf. reflexivity. Qed.

(** *** [enhanced.k = t'], where [t'] is made of parts of the old
    [enhanced.k] and of new objects *)

Lemma install_prop h1 h6 le lps k t' :
  stored h1 (LObj le lps) -> NoDup (locs (LObj le lps)) ->
  h6 !! le = Some (CObj (kroots lps)) ->
  (forall told, Located.lookup_prop k lps = Some told -> confined (locs told) h1 h6) ->
  (Located.lookup_prop k lps = None -> confined [] h1 h6) ->
  stored h6 t' -> NoDup (locs t') ->
  (forall x, x ∈ locs t' ->
     (exists told, Located.lookup_prop k lps = Some told /\ x ∈ locs told) \/ h1 !! x = None) ->
  let h7 := <[le := CObj (kroots (Located.set_prop k t' lps))]> h6 in
  Heap.set_prop (VRef le) k (root t') h6 = (Ok tt, h7) /\
  stored h7 (LObj le (Located.set_prop k t' lps)) /\
  NoDup (locs (LObj le (Located.set_prop k t' lps))).
Proof.
  intros Hs Hn Hle Hsome Hnone Hs' Hn' Hb h7.
  pose proof Hs as Hs0. apply stored_LObj in Hs0 as [Hle1 Hkids].
  apply Forall_map_snd in Hkids.
  change (NoDup (le :: klocs lps)) in Hn. apply NoDup_cons in Hn as [Hlen Hn].
  assert (Hx' : forall x, x ∈ locs t' -> x <> le).
  { intros x Hx ->. destruct (Hb le Hx) as [(told & Hk & Hin)|Hfresh]; [|congruence].
    apply Hlen. eapply locs_lookup; eauto. }
  assert (Hkids6 : Forall (stored h6) (List.map snd (Located.set_prop k t' lps)) /\
                   NoDup (klocs (Located.set_prop k t' lps)) /\
                   le ∉ klocs (Located.set_prop k t' lps)).
  { destruct (Located.lookup_prop k lps) as [told|] eqn:Hk.
    - destruct (set_prop_Some k t' lps told Hk) as (ps1 & ps2 & Hps & Hset).
      assert (Hmap : List.map snd lps = (List.map snd ps1 ++ told :: List.map snd ps2)%list).
      { rewrite Hps, List.map_app. reflexivity. }
      assert (Hmap' : List.map snd (Located.set_prop k t' lps)
                      = (List.map snd ps1 ++ t' :: List.map snd ps2)%list).
      { rewrite Hset, List.map_app. reflexivity. }
      rewrite klocs_map_snd' in Hn, Hlen. rewrite Hmap in Hkids, Hn, Hlen.
      assert (Hb' : forall x, x ∈ locs t' -> x ∈ locs told \/ h1 !! x = None).
      { intros x Hx. destruct (Hb x Hx) as [(told' & [= <-] & Hin)|Hf]; auto. }
      destruct (replace_child h1 h6 _ told t' _ Hkids Hn Hs' Hn' Hb' (Hsome told eq_refl))
        as [H1 H2].
      rewrite !klocs_map_snd', Hmap'. split; [exact H1|]. split; [exact H2|].
      eapply replace_child_outside; [exact Hb' | rewrite Hle1; eauto | exact Hlen].
    - rewrite (set_prop_None _ _ _ Hk), klocs_app, List.map_app.
      assert (Hb' : forall x, x ∈ locs t' -> h1 !! x = None).
      { intros x Hx. destruct (Hb x Hx) as [(told' & [=] & _)|Hf]. exact Hf. }
      assert (Hdom : forall x, x ∈ klocs lps -> is_Some (h1 !! x)).
      { intros x Hx. apply (stored_dom _ _ Hs). cbn [locs]. apply elem_of_cons. auto. }
      split; [|split].
      + apply Forall_app. split.
        * eapply Forall_impl; [exact Hkids|]. intros u Hu.
          eapply stored_confined; [exact Hu | exact (Hnone eq_refl) |].
          intros x _ Hx. inversion Hx.
        * apply Forall_cons. split; [exact Hs' | apply Forall_nil; exact I].
      + apply NoDup_app. split; [exact Hn|]. split.
        * intros x Hx Hx2. rewrite klocs_cons in Hx2. cbn [klocs flat_map] in Hx2.
          rewrite app_nil_r in Hx2. destruct (Hdom x Hx) as [c Hc].
          rewrite (Hb' x Hx2) in Hc. discriminate Hc.
        * rewrite klocs_cons. cbn [klocs flat_map]. rewrite app_nil_r. exact Hn'.
      + intros Hin. apply elem_of_app in Hin as [Hin|Hin]; [contradiction|].
        rewrite klocs_cons in Hin. cbn [klocs flat_map] in Hin. rewrite app_nil_r in Hin.
        exact (Hx' le Hin eq_refl). }
  destruct Hkids6 as (Hk6 & Hn6 & Hle6).
  split; [|split].
  - unfold Heap.set_prop. rewrite Hle, set_kroots. reflexivity.
  - apply stored_LObj. split; [apply lookup_insert_eq|].
    apply Forall_map_snd. rewrite Forall_forall in Hk6. apply Forall_forall. intros u Hu.
    eapply stored_frame; [exact (Hk6 u Hu)|]. intros x Hx. apply lookup_insert_ne.
    intros <-. apply Hle6. rewrite klocs_map_snd'. apply elem_of_flat_map_locs. eauto.
  - change (NoDup (le :: klocs (Located.set_prop k t' lps))).
    apply NoDup_cons. split; assumption.
Qed.

End RefinementFacts.

(** ** The enhancer on the heap refines the enhancer on trees *)

Module Refinement.

#[local] Abbreviation tree_enhance_category := enhance_category.
#[local] Abbreviation tree_recount_category := recount_category.
#[local] Abbreviation tree_enhanceResultsWithDOMInfo := enhanceResultsWithDOMInfo.

Import Heap Located LocatedFacts ParseFacts ItemFacts ItemSteps LoopFacts CategoryFacts.
Import RefinementFacts.

Lemma erase_LObj_inv t j ps : erase t = JObj ps -> root t = j -> exists l lps, t = LObj l lps.
Proof. destruct t; try discriminate. eauto. Qed.

(** The run of the enhancer on a copy that is an object. *)
Lemma refines_object doc results h ps0 :
  stringify h results = Ok (Some (JObj ps0)) -> distinct_keys (JObj ps0) ->
  let '(r, h') := Heap.enhanceResultsWithDOMInfo doc results h in
  match tree_enhanceResultsWithDOMInfo doc (JObj ps0) with
  | Ok out => exists v, r = Ok v /\ stringify h' v = Ok (Some (enhanced_value out))
  | Throw e => r = Throw e
  end.
Proof.
  intros Hread Hwf.
  destruct (Heap.enhanceResultsWithDOMInfo doc results h) as [r h'] eqn:Hrun.
  unfold Heap.enhanceResultsWithDOMInfo in Hrun.
  (* the deep copy *)
  destruct (parse_located (JObj ps0) h) as (t0 & h1 & Hparse & He0 & Hpl).
  assert (Hdc : deep_copy results h = (Ok (root t0), h1)).
  { unfold deep_copy. rewrite Hread, Hparse. reflexivity. }
  rewrite (mbind_ok _ _ _ _ _ Hdc) in Hrun.
  destruct t0 as [| | | | |le lps]; try discriminate He0.
  injection He0 as He0. fold (kerase lps) in He0.
  destruct Hpl as (Hs1 & Hn1 & _).
  apply Forall_cons in Hs1 as [Hs1 _]. cbn [flat_map] in Hn1. rewrite app_nil_r in Hn1.
  pose proof Hn1 as Hn1'. change (NoDup (le :: klocs lps)) in Hn1'.
  apply NoDup_cons in Hn1' as [Hle1 Hnk1].
  (* filteredCategories *)
  set (lf := fresh (dom h1)).
  assert (Hlf : h1 !! lf = None) by (apply not_elem_of_dom, is_fresh).
  set (h2 := <[lf := CObj []]> h1).
  assert (Hal : alloc (CObj []) h1 = (Ok (VRef lf), h2)) by reflexivity.
  rewrite (mbind_ok _ _ _ _ _ Hal) in Hrun.
  assert (Hlf0 : lf ∉ locs (LObj le lps)).
  { intros Hin. destruct (stored_dom _ _ Hs1 lf Hin) as [c Hc]. congruence. }
  assert (Hframe : forall hx c, stored hx (LObj le lps) ->
                                stored (<[lf := c]> hx) (LObj le lps)).
  { intros hx c Hx. eapply stored_frame; [exact Hx|]. intros x Hin.
    apply lookup_insert_ne. intros <-. contradiction. }
  pose proof (Hframe h1 (CObj []) Hs1) as Hs2. fold h2 in Hs2.
  (* the two categories *)
  destruct (retain_spec h2 le lps lf [] "error" Hs2 (lookup_insert_eq _ _ _) eq_refl)
    as (cs1 & Hr1 & Hk1 & Hcs1).
  cbn [app] in Hr1. cbn [root] in Hrun. rewrite (mbind_ok _ _ _ _ _ Hr1) in Hrun.
  set (h3 := <[lf := CObj (kroots cs1)]> h2) in *.
  pose proof (Hframe h2 (CObj (kroots cs1)) Hs2) as Hs3. fold h3 in Hs3.
  assert (Hno : Located.lookup_prop "contrast" cs1 = None).
  { destruct Hcs1 as [->|(c & lc & cps & -> & _)]; reflexivity. }
  destruct (retain_spec h3 le lps lf cs1 "contrast" Hs3 (lookup_insert_eq _ _ _) Hno)
    as (cs2 & Hr2 & Hk2 & Hcs2).
  rewrite (mbind_ok _ _ _ _ _ Hr2) in Hrun.
  set (fps := (cs1 ++ cs2)%list) in *.
  set (h4 := <[lf := CObj (kroots fps)]> h3) in *.
  pose proof (Hframe h3 (CObj (kroots fps)) Hs3) as Hs4. fold h4 in Hs4.
  assert (Hfps : kerase fps = filtered0 (JObj ps0)).
  { unfold fps, kerase, filtered0. rewrite List.map_app. fold (kerase cs1) (kerase cs2).
    rewrite Hk1, Hk2, He0. reflexivity. }
  assert (Hchild : forall kt, kt ∈ fps ->
            exists lc cps, Located.lookup_prop "categories" lps = Some (LObj lc cps) /\
                           Located.lookup_prop (fst kt) cps = Some (snd kt)).
  { intros kt Hin. apply elem_of_app in Hin as [Hin|Hin].
    - destruct Hcs1 as [->|(c & lc & cps & -> & Hc & Hl)]; [inversion Hin|].
      apply list_elem_of_singleton in Hin. subst kt. eauto.
    - destruct Hcs2 as [->|(c & lc & cps & -> & Hc & Hl)]; [inversion Hin|].
      apply list_elem_of_singleton in Hin. subst kt. eauto. }
  assert (Hin_told : forall x, x ∈ klocs fps ->
            exists told, Located.lookup_prop "categories" lps = Some told /\ x ∈ locs told).
  { intros x Hx. apply elem_of_klocs in Hx as (kt & Hkt & Hx).
    destruct (Hchild kt Hkt) as (lc & cps & Hc & Hl). exists (LObj lc cps).
    split; [exact Hc|]. cbn [locs]. apply elem_of_cons. right. eapply locs_lookup; eauto. }
  assert (Hin_lps : forall x, x ∈ klocs fps -> x ∈ klocs lps).
  { intros x Hx. destruct (Hin_told x Hx) as (told & Hc & Hin). eapply locs_lookup; eauto. }
  assert (Hc14 : confined [] h1 h4).
  { intros x Hx. assert (Hne : lf <> x) by (intros <-; rewrite Hlf in Hx; destruct Hx; discriminate).
    unfold h4, h3, h2. rewrite !lookup_insert_ne by exact Hne. auto. }
  (* filteredCategories is a tree *)
  assert (HsF : stored h4 (LObj lf fps)).
  { apply stored_LObj. split; [apply lookup_insert_eq|].
    apply Forall_forall. intros kt Hkt. destruct (Hchild kt Hkt) as (lc & cps & Hc & Hl).
    eapply stored_lookup; [|exact Hl]. eapply stored_lookup; [exact Hs4 | exact Hc]. }
  assert (HnF : NoDup (locs (LObj lf fps))).
  { change (NoDup (lf :: klocs fps)). apply NoDup_cons. split.
    - intros Hin. apply Hlf0. cbn [locs]. apply elem_of_cons. right. apply Hin_lps, Hin.
    - assert (Hone : forall k c lc cps,
                Located.lookup_prop "categories" lps = Some (LObj lc cps) ->
                Located.lookup_prop k cps = Some c -> NoDup (locs c) /\ NoDup (klocs cps)).
      { intros k c lc cps Hc Hl.
        pose proof (NoDup_klocs_elem lps _ Hnk1 (lookup_prop_elem _ _ _ Hc)) as Hnc.
        cbn [snd locs] in Hnc. apply NoDup_cons in Hnc as [_ Hnc]. split; [|exact Hnc].
        exact (NoDup_klocs_elem cps _ Hnc (lookup_prop_elem _ _ _ Hl)). }
      unfold fps.
      destruct Hcs1 as [->|(c1 & lc1 & cps1 & -> & Hc1 & Hl1)];
        destruct Hcs2 as [->|(c2 & lc2 & cps2 & -> & Hc2 & Hl2)];
        cbn [app klocs flat_map snd]; rewrite ?app_nil_r.
      + constructor.
      + apply (Hone _ _ _ _ Hc2 Hl2).
      + apply (Hone _ _ _ _ Hc1 Hl1).
      + rewrite Hc1 in Hc2. injection Hc2 as <- <-.
        destruct (Hone _ _ _ _ Hc1 Hl1) as [Hn1c Hncps].
        destruct (Hone _ _ _ _ Hc1 Hl2) as [Hn2c _].
        apply NoDup_app. split; [exact Hn1c|]. split; [|exact Hn2c].
        apply (lookup_disjoint cps1 "error" "contrast" c1 c2 Hncps); [discriminate | assumption..]. }
  assert (HpreF : children_pre category_ok (erase (LObj lf fps))).
  { change (erase (LObj lf fps)) with (JObj (kerase fps)). rewrite Hfps.
    apply filtered0_ok, Hwf. }
  (* first pass *)
  unfold mbind at 1 in Hrun.
  destruct (forEachKey (VRef lf) (Heap.enhance_category doc) h4) as [r1 h5] eqn:Hrun1.
  pose proof (forEachKey_spec category_ok _ _ (enhance_category_spec doc)
                (enhance_category_string doc) (LObj lf fps) h4 r1 h5 HsF HnF HpreF Hrun1)
    as Hpass1.
  change (erase (LObj lf fps)) with (JObj (kerase fps)) in Hpass1, HpreF.
  rewrite Hfps in Hpass1, HpreF. cbn [for_each_value] in Hpass1.
  unfold tree_enhanceResultsWithDOMInfo. unfold bind at 1. unfold bind at 1 in Hpass1.
  destruct (mapM (on_values (tree_enhance_category doc)) (filtered0 (JObj ps0)))
    as [f1|e] eqn:Hm1.
  2:{ subst r1. injection Hrun as <- _. reflexivity. }
  destruct Hpass1 as (-> & F1 & HeF1 & HrF1 & HsF1 & HnF1 & HbF1 & Hc45).
  pose proof (enhanced_categories_ok doc _ _ HpreF Hm1) as HpreF1. rewrite <- HeF1 in HpreF1.
  (* second pass *)
  unfold mbind at 1 in Hrun.
  destruct (forEachKey (VRef lf) Heap.recount_category h5) as [r2 h6] eqn:Hrun2.
  change (VRef lf) with (root (LObj lf fps)) in Hrun2. rewrite <- HrF1 in Hrun2.
  pose proof (forEachKey_spec category_ok _ _ recount_category_spec
                recount_category_string F1 h5 r2 h6 HsF1 HnF1 HpreF1 Hrun2) as Hpass2.
  rewrite HeF1 in Hpass2. cbn [for_each_value] in Hpass2.
  unfold bind at 1. unfold bind at 1 in Hpass2.
  destruct (mapM (on_values tree_recount_category) f1) as [f2|e] eqn:Hm2.
  2:{ subst r2. injection Hrun as <- _. reflexivity. }
  destruct Hpass2 as (-> & F2 & HeF2 & HrF2 & HsF2 & HnF2 & HbF2 & Hc56).
  (* enhanced.categories = filteredCategories *)
  assert (HbF : forall x, x ∈ locs F1 -> x ∈ klocs fps \/ h1 !! x = None).
  { intros x Hx. destruct (HbF1 x Hx) as [Hin|Hnone].
    - cbn [locs] in Hin. apply elem_of_cons in Hin as [->|Hin]; auto.
    - right. eapply confined_fresh; eauto. }
  assert (HbF' : forall x, x ∈ locs F2 -> x ∈ klocs fps \/ h1 !! x = None).
  { intros x Hx. destruct (HbF2 x Hx) as [Hin|Hnone]; [apply HbF, Hin|].
    right. eapply confined_fresh; [exact Hc14|]. eapply confined_fresh; eauto. }
  assert (Hc16 : forall Wt, (forall x, x ∈ klocs fps -> x ∈ Wt) -> confined Wt h1 h6).
  { intros Wt HWt.
    assert (Hc46 : confined (locs (LObj lf fps) ++ locs F1) h4 h6).
    { eapply confined_trans; [exact Hc45 | exact Hc56 | |]; intros x Hx; apply elem_of_app; auto. }
    assert (Hc16' : confined (locs (LObj lf fps) ++ locs F1) h1 h6).
    { eapply confined_trans; [exact Hc14 | exact Hc46 | |]; intros x Hx; [inversion Hx | exact Hx]. }
    eapply confined_drop_fresh; [exact Hc16'|]. intros x Hx.
    apply elem_of_app in Hx as [Hx|Hx].
    - cbn [locs] in Hx. apply elem_of_cons in Hx as [->|Hx]; auto.
    - destruct (HbF x Hx); auto. }
  assert (Hle6 : h6 !! le = Some (CObj (kroots lps))).
  { apply stored_LObj in Hs1 as [Hcell _]. rewrite <- Hcell.
    destruct (Hc16 (klocs fps) (fun x H => H) le) as [_ Heq]; [rewrite Hcell; eauto|].
    apply Heq. intros Hin. apply Hle1, Hin_lps, Hin. }
  change (VRef le) with (root (LObj le lps)) in Hrun.
  change (VRef lf) with (root (LObj lf fps)) in Hrun. rewrite <- HrF1, <- HrF2 in Hrun.
  destruct (install_prop h1 h6 le lps "categories" F2 Hs1 Hn1 Hle6) as (Hset & HsT & HnT).
  - intros told Hc. apply Hc16. intros x Hx.
    destruct (Hin_told x Hx) as (told' & Hc' & Hin). congruence.
  - intros Hc. apply Hc16. intros x Hx.
    destruct (Hin_told x Hx) as (told' & Hc' & Hin). congruence.
  - exact HsF2.
  - exact HnF2.
  - intros x Hx. destruct (HbF' x Hx) as [Hin|Hnone]; auto.
  - cbn [root] in Hset, Hrun. rewrite (mbind_ok _ _ _ _ _ Hset) in Hrun.
    injection Hrun as <- <-. eexists. split; [reflexivity|].
    change (VRef le) with (root (LObj le (Located.set_prop "categories" F2 lps))).
    rewrite (stringify_located _ _ HsT HnT). do 2 f_equal.
    change (erase (LObj le (Located.set_prop "categories" F2 lps)))
      with (JObj (kerase (Located.set_prop "categories" F2 lps))).
    rewrite <- set_kerase, HeF2, He0. reflexivity.
Qed.

(** An extra property of an array is not written down. *)
Lemma stringify_extra h l elems extra extra' :
  h !! l = Some (CArr elems extra) ->
  stringify (<[l := CArr elems extra']> h) (VRef l) = stringify h (VRef l).
Proof.
  intros Hl. unfold stringify. rewrite map_size_insert_Some by eauto.
  cbn [serialize]. rewrite lookup_insert_eq, Hl, delete_insert_eq. reflexivity.
Qed.

Lemma retain_skipped enhanced lf k h :
  get_prop enhanced "categories" h = (Ok VUndefined, h) ->
  retain enhanced (VRef lf) k h = (Ok tt, h).
Proof. intros Hg. unfold retain. rewrite (mbind_ok _ _ _ _ _ Hg). reflexivity. Qed.

(** The run of the enhancer on a copy without [categories]. *)
Lemma run_without_categories doc enhanced h1 :
  get_prop enhanced "categories" (<[fresh (dom h1) := CObj []]> h1)
  = (Ok VUndefined, <[fresh (dom h1) := CObj []]> h1) ->
  (do filteredCategories <- alloc (CObj []);
   do _ <- retain enhanced filteredCategories "error";
   do _ <- retain enhanced filteredCategories "contrast";
   do _ <- forEachKey filteredCategories (Heap.enhance_category doc);
   do _ <- forEachKey filteredCategories Heap.recount_category;
   do _ <- Heap.set_prop enhanced "categories" filteredCategories;
   ret enhanced) h1
  = (do _ <- Heap.set_prop enhanced "categories" (VRef (fresh (dom h1)));
     ret enhanced) (<[fresh (dom h1) := CObj []]> h1).
Proof.
  intros Hg. set (lf := fresh (dom h1)) in *. set (h2 := <[lf := CObj []]> h1) in *.
  assert (Hal : alloc (CObj []) h1 = (Ok (VRef lf), h2)) by reflexivity.
  rewrite (mbind_ok _ _ _ _ _ Hal).
  rewrite (mbind_ok _ _ _ _ _ (retain_skipped enhanced lf "error" h2 Hg)).
  rewrite (mbind_ok _ _ _ _ _ (retain_skipped enhanced lf "contrast" h2 Hg)).
  assert (Hlf : h2 !! lf = Some (CObj [])) by apply lookup_insert_eq.
  rewrite (mbind_ok _ _ _ _ _ (forEachKey_empty lf _ h2 Hlf)).
  rewrite (mbind_ok _ _ _ _ _ (forEachKey_empty lf _ h2 Hlf)).
  reflexivity.
Qed.


(** X23. The enhancer on the heap does what the enhancer on trees says:
    for results that [JSON.stringify] writes down as a tree with distinct
    keys, it throws the same exception, or it returns a value under which
    the final heap holds the tree that the function on trees returns. *)
Theorem heap_enhancer_refines_tree doc results h j :
  stringify h results = Ok (Some j) -> distinct_keys j ->
  let '(r, h') := Heap.enhanceResultsWithDOMInfo doc results h in
  match tree_enhanceResultsWithDOMInfo doc j with
  | Ok out => exists v, r = Ok v /\ stringify h' v = Ok (Some (enhanced_value out))
  | Throw e => r = Throw e
  end.
Proof.
  intros Hread Hwf.
  destruct j as [| b | n | s | l | ps0]; [| | | | |exact (refines_object doc results h ps0 Hread Hwf)];
    unfold Heap.enhanceResultsWithDOMInfo.
  - assert (Hdc : deep_copy results h = (Ok VNull, h)).
    { unfold deep_copy. rewrite Hread. reflexivity. }
    rewrite (mbind_ok _ _ _ _ _ Hdc). reflexivity.
  - assert (Hdc : deep_copy results h = (Ok (VBool b), h)).
    { unfold deep_copy. rewrite Hread. reflexivity. }
    rewrite (mbind_ok _ _ _ _ _ Hdc), run_without_categories by reflexivity.
    eexists. split; reflexivity.
  - assert (Hdc : deep_copy results h = (Ok (VNum n), h)).
    { unfold deep_copy. rewrite Hread. reflexivity. }
    rewrite (mbind_ok _ _ _ _ _ Hdc), run_without_categories by reflexivity.
    eexists. split; reflexivity.
  - assert (Hdc : deep_copy results h = (Ok (VStr s), h)).
    { unfold deep_copy. rewrite Hread. reflexivity. }
    rewrite (mbind_ok _ _ _ _ _ Hdc), run_without_categories by reflexivity.
    eexists. split; reflexivity.
  - destruct (parse_located (JArr l) h) as (t0 & h1 & Hparse & He0 & Hpl).
    assert (Hdc : deep_copy results h = (Ok (root t0), h1)).
    { unfold deep_copy. rewrite Hread, Hparse. reflexivity. }
    rewrite (mbind_ok _ _ _ _ _ Hdc).
    destruct t0 as [| | | |le ts|]; try discriminate He0.
    destruct Hpl as (Hs1 & Hn1 & _).
    apply Forall_cons in Hs1 as [Hs1 _]. cbn [flat_map] in Hn1. rewrite app_nil_r in Hn1.
    set (lf := fresh (dom h1)).
    assert (Hlf : h1 !! lf = None) by (apply not_elem_of_dom, is_fresh).
    assert (Hs2 : stored (<[lf := CObj []]> h1) (LArr le ts)).
    { eapply stored_frame; [exact Hs1|]. intros x Hin. apply lookup_insert_ne. intros <-.
      destruct (stored_dom _ _ Hs1 lf Hin) as [c Hc]. congruence. }
    rewrite run_without_categories by (apply (get_prop_stored_arr _ le ts _ Hs2)).
    fold lf. pose proof Hs2 as Hs2'. apply stored_LArr in Hs2' as [Hle _].
    unfold mbind, Heap.set_prop. cbn [root]. rewrite Hle. cbn [ret].
    eexists. split; [reflexivity|].
    rewrite (stringify_extra _ _ _ _ _ Hle).
    change (VRef le) with (root (LArr le ts)). rewrite (stringify_located _ _ Hs2 Hn1).
    rewrite He0. reflexivity.
Qed.

(** Every tree is what [JSON.stringify] writes down of some value in
    some heap: the one [JSON.parse] builds. *)
Lemma every_tree_is_stored j :
  stringify (snd (parse j ∅)) (fst (parse j ∅)) = Ok (Some j).
Proof.
  destruct (parse_located j ∅) as (t & h & Hp & He & Hs & Hn & _).
  rewrite Hp. cbn [fst snd]. apply Forall_cons in Hs as [Hs _].
  cbn [flat_map] in Hn. rewrite app_nil_r in Hn.
  rewrite (stringify_located h t Hs Hn), He. reflexivity.
Qed.

(** X23 on the example report, parsed into the empty heap. *)
Example heap_enhancer_refines_tree_example :
  let doc := Example.document_evaluate in
  let '(v0, h0) := parse Example.results ∅ in
  let '(r, h') := Heap.enhanceResultsWithDOMInfo doc v0 h0 in
  exists out v,
    tree_enhanceResultsWithDOMInfo doc Example.results = Ok out /\
    r = Ok v /\ stringify h' v = Ok (Some (enhanced_value out)).
Proof.
  intros doc.
  pose proof (every_tree_is_stored Example.results) as Hread.
  destruct (parse Example.results ∅) as [v0 h0]. cbn [fst snd] in Hread.
  assert (Hwf : distinct_keys Example.results).
  { cbn. repeat split; repeat (apply NoDup_cons; split; [|]);
      try apply NoDup_nil; try exact I;
      rewrite ?elem_of_cons, ?elem_of_nil; intuition discriminate. }
  pose proof (heap_enhancer_refines_tree doc v0 h0 Example.results Hread Hwf) as H.
  destruct (Heap.enhanceResultsWithDOMInfo doc v0 h0) as [r h'].
  destruct (tree_enhanceResultsWithDOMInfo doc Example.results) as [out|e] eqn:E;
    [|vm_compute in E; discriminate E].
  destruct H as (v & Hr & Hs). exists out, v. auto.
Defined.

End Refinement.

(** ** The CSV file can be read back *)

Module CsvFacts.

Lemma append_cons x (a b : string) : String x a +:+ b = String x (a +:+ b).
Proof. reflexivity. Qed.

Lemma append_nil_l (a : string) : "" +:+ a = a.
Proof. reflexivity. Qed.

Lemma append_assoc (a b c : string) : (a +:+ b) +:+ c = a +:+ (b +:+ c).
Proof.
  induction a as [|x a IH]; [reflexivity|]. rewrite !append_cons. f_equal. exact IH.
Qed.

Lemma append_nil_r (a : string) : a +:+ "" = a.
Proof. induction a as [|x a IH]; [reflexivity|]. rewrite append_cons. f_equal. exact IH. Qed.

Lemma fold_join sep l : forall acc,
  fold_left (fun acc t => acc +:+ sep +:+ t) l acc
  = acc +:+ fold_left (fun acc t => acc +:+ sep +:+ t) l "".
Proof.
  induction l as [|x l IH]; intros acc; cbn [fold_left].
  - rewrite append_nil_r. reflexivity.
  - rewrite IH, (IH ("" +:+ sep +:+ x)), append_nil_l, append_assoc. reflexivity.
Qed.

(** [join] from the left: the first element, then the others, each
    behind a separator. *)
Lemma join_cons sep x y l :
  Js.join sep (x :: y :: l) = x +:+ sep +:+ Js.join sep (y :: l).
Proof.
  unfold Js.join. cbn [fold_left].
  rewrite fold_join, (fold_join sep l y), !append_assoc. reflexivity.
Qed.

Lemma includes_false_cons c d s :
  includes c (String d s) = false -> d <> c /\ includes c s = false.
Proof.
  cbn [includes]. destruct (Ascii.eqb_spec d c); [discriminate|]. auto.
Qed.

Lemma needs_quoting_cons c s :
  needs_quoting (String c s) = false ->
  c <> dquote /\ c <> comma /\ c <> newline /\ needs_quoting s = false.
Proof.
  unfold needs_quoting. intros H.
  apply orb_false_iff in H as [H Hn]. apply orb_false_iff in H as [Hq Hc].
  apply includes_false_cons in Hq as [? Hq]. apply includes_false_cons in Hc as [? Hc].
  apply includes_false_cons in Hn as [? Hn]. rewrite Hq, Hc, Hn. auto.
Qed.

Ltac unfold_append H := cbn [double_quotes] in H; rewrite ?append_cons, ?append_nil_l in H.

Lemma plain_field_ends a : forall b t1 t2,
  needs_quoting a = false -> needs_quoting b = false ->
  after_field t1 -> after_field t2 ->
  a +:+ t1 = b +:+ t2 -> a = b /\ t1 = t2.
Proof.
  induction a as [|c a IH]; intros b t1 t2 Ha Hb H1 H2 E.
  - destruct b as [|d b]; [auto|]. unfold_append E. subst t1.
    apply needs_quoting_cons in Hb as (_ & ? & ? & _). cbn [after_field] in H1. tauto.
  - apply needs_quoting_cons in Ha as (_ & Hc1 & Hc2 & Ha).
    destruct b as [|d b]; unfold_append E.
    + subst t2. cbn [after_field] in H2. tauto.
    + injection E as -> E.
      apply needs_quoting_cons in Hb as (_ & _ & _ & Hb).
      destruct (IH b t1 t2 Ha Hb H1 H2 E) as [-> ->]. auto.
Qed.

Lemma dquote_not_separator : dquote <> comma /\ dquote <> newline.
Proof. split; discriminate. Qed.

Lemma quoted_field_ends a : forall b t1 t2,
  after_field t1 -> after_field t2 ->
  double_quotes a +:+ String dquote t1 = double_quotes b +:+ String dquote t2 ->
  a = b /\ t1 = t2.
Proof.
  destruct dquote_not_separator as [Hqc Hqn].
  induction a as [|c a IH]; intros b t1 t2 H1 H2 E.
  - destruct b as [|d b]; unfold_append E.
    + injection E as ->. auto.
    + destruct (Ascii.eqb_spec d dquote) as [->|Hd]; unfold_append E.
      * injection E as ->. cbn [after_field] in H1. tauto.
      * injection E as E _. congruence.
  - cbn [double_quotes] in E. destruct (Ascii.eqb_spec c dquote) as [->|Hc].
    + destruct b as [|d b]; unfold_append E.
      * injection E as <-. cbn [after_field] in H2. tauto.
      * destruct (Ascii.eqb_spec d dquote) as [->|Hd]; unfold_append E.
        -- injection E as E. destruct (IH b t1 t2 H1 H2 E) as [-> ->]. auto.
        -- injection E as E _. congruence.
    + destruct b as [|d b]; unfold_append E.
      * injection E as E _. congruence.
      * destruct (Ascii.eqb_spec d dquote) as [->|Hd]; unfold_append E.
        -- injection E as E _. congruence.
        -- injection E as -> E.
           destruct (IH b t1 t2 H1 H2 E) as [-> ->]. auto.
Qed.

(** An escaped field ends where a reader of CSV says it ends. *)
Lemma field_ends a b t1 t2 :
  after_field t1 -> after_field t2 ->
  escapeCSV (FieldString a) +:+ t1 = escapeCSV (FieldString b) +:+ t2 ->
  a = b /\ t1 = t2.
Proof.
  destruct dquote_not_separator as [Hqc Hqn].
  intros H1 H2 E. cbn [escapeCSV] in E.
  destruct (needs_quoting a) eqn:Ha; destruct (needs_quoting b) eqn:Hb.
  - unfold_append E. injection E as E. rewrite !append_assoc in E. unfold_append E.
    exact (quoted_field_ends a b t1 t2 H1 H2 E).
  - exfalso. unfold_append E. destruct b as [|d b]; unfold_append E.
    + subst t2. cbn [after_field] in H2. tauto.
    + injection E as <- _. apply needs_quoting_cons in Hb. tauto.
  - exfalso. unfold_append E. destruct a as [|c a]; unfold_append E.
    + subst t1. cbn [after_field] in H1. tauto.
    + injection E as -> _. apply needs_quoting_cons in Ha. tauto.
  - exact (plain_field_ends a b t1 t2 Ha Hb H1 H2 E).
Qed.

Lemma csv_line_cons f g gs :
  csv_line (f :: g :: gs)
  = escapeCSV (FieldString f) +:+ String comma (csv_line (g :: gs)).
Proof. unfold csv_line. cbn [List.map]. rewrite join_cons. reflexivity. Qed.

Lemma csv_line_single f : csv_line [f] = escapeCSV (FieldString f).
Proof. reflexivity. Qed.

Lemma csv_body_cons r r' rs :
  csv_body (r :: r' :: rs) = csv_line r +:+ String newline (csv_body (r' :: rs)).
Proof. unfold csv_body. cbn [List.map]. rewrite join_cons. reflexivity. Qed.

Lemma csv_body_single r : csv_body [r] = csv_line r.
Proof. reflexivity. Qed.

(** A line ends where the first separator outside quotes is a newline. *)
Lemma line_ends r1 : forall r2 u1 u2,
  r1 <> [] -> r2 <> [] ->
  (u1 = "" \/ exists u, u1 = String newline u) ->
  (u2 = "" \/ exists u, u2 = String newline u) ->
  csv_line r1 +:+ u1 = csv_line r2 +:+ u2 -> r1 = r2 /\ u1 = u2.
Proof.
  assert (Hafter : forall u, (u = "" \/ exists u', u = String newline u') -> after_field u).
  { intros u [->|[u' ->]]; cbn [after_field]; auto. }
  assert (Hc : forall t, after_field (String comma t)) by (intros t; left; reflexivity).
  induction r1 as [|f fs IH]; intros r2 u1 u2 Hr1 Hr2 Hu1 Hu2 E; [contradiction|].
  destruct r2 as [|g gs]; [contradiction|].
  destruct fs as [|f' fs]; destruct gs as [|g' gs];
    rewrite ?csv_line_cons, ?csv_line_single, ?append_assoc, ?append_cons in E.
  - destruct (field_ends f g u1 u2 (Hafter _ Hu1) (Hafter _ Hu2) E) as [-> ->]. auto.
  - destruct (field_ends f g u1 _ (Hafter _ Hu1) (Hc _) E) as [_ Ht].
    exfalso. destruct Hu1 as [->|[u ->]]; discriminate Ht.
  - destruct (field_ends f g _ u2 (Hc _) (Hafter _ Hu2) E) as [_ Ht].
    exfalso. destruct Hu2 as [->|[u ->]]; discriminate Ht.
  - destruct (field_ends f g _ _ (Hc _) (Hc _) E) as [-> Ht].
    injection Ht as Ht.
    destruct (IH (g' :: gs) u1 u2 ltac:(discriminate) ltac:(discriminate) Hu1 Hu2 Ht)
      as [Hr ->].
    rewrite Hr. auto.
Qed.

Lemma body_determines_rows rs1 : forall rs2,
  rs1 <> [] -> rs2 <> [] ->
  Forall (fun row : list string => row <> []) rs1 ->
  Forall (fun row : list string => row <> []) rs2 ->
  csv_body rs1 = csv_body rs2 -> rs1 = rs2.
Proof.
  induction rs1 as [|r rs IH]; intros rs2 Hn1 Hn2 H1 H2 E; [contradiction|].
  destruct rs2 as [|q qs]; [contradiction|].
  apply Forall_cons in H1 as [Hr H1]. apply Forall_cons in H2 as [Hq H2].
  destruct rs as [|r' rs]; destruct qs as [|q' qs];
    rewrite ?csv_body_cons, ?csv_body_single in E.
  - rewrite <- (append_nil_r (csv_line r)), <- (append_nil_r (csv_line q)) in E.
    destruct (line_ends r q "" "" Hr Hq (or_introl eq_refl) (or_introl eq_refl) E) as [-> _].
    reflexivity.
  - rewrite <- (append_nil_r (csv_line r)) in E.
    destruct (line_ends r q "" _ Hr Hq (or_introl eq_refl) (or_intror (ex_intro _ _ eq_refl)) E)
      as [_ Ht]. discriminate Ht.
  - rewrite <- (append_nil_r (csv_line q)) in E.
    destruct (line_ends r q _ "" Hr Hq (or_intror (ex_intro _ _ eq_refl)) (or_introl eq_refl) E)
      as [_ Ht]. discriminate Ht.
  - destruct (line_ends r q _ _ Hr Hq (or_intror (ex_intro _ _ eq_refl))
                (or_intror (ex_intro _ _ eq_refl)) E) as [-> Ht].
    injection Ht as Ht.
    rewrite (IH (q' :: qs) ltac:(discriminate) ltac:(discriminate) H1 H2 Ht). reflexivity.
Qed.

Lemma append_not_empty (a : string) c t : a +:+ String c t <> "".
Proof. destruct a; discriminate. Qed.

Lemma wide_body_not_empty r rs : (2 <= length r)%nat -> csv_body (r :: rs) <> "".
Proof.
  intros Hr. destruct r as [|f [|g gs]]; [simpl in Hr; lia..|].
  destruct rs as [|r' rs]; rewrite ?csv_body_cons, ?csv_body_single, csv_line_cons.
  - apply append_not_empty.
  - rewrite append_assoc, append_cons. apply append_not_empty.
Qed.

(** X1. The CSV escaping loses nothing: two different strings are never
    written as the same field, and no string is written as the empty
    quoted field that stands for [null] and [undefined]. *)
Theorem escapeCSV_injective :
  (forall s t, escapeCSV (FieldString s) = escapeCSV (FieldString t) -> s = t) /\
  (forall s, escapeCSV (FieldString s) <> escapeCSV FieldNull) /\
  (forall s, escapeCSV (FieldString s) <> escapeCSV FieldUndefined).
Proof.
  assert (Hnull : forall s, escapeCSV (FieldString s) <> String dquote (String dquote "")).
  { intros s E. cbn [escapeCSV] in E. destruct (needs_quoting s) eqn:Hq.
    - injection E as E. destruct s as [|c s]; [discriminate Hq|].
      cbn [double_quotes] in E. destruct (Ascii.eqb c dquote); rewrite !append_cons in E.
      + injection E as E. destruct (double_quotes s); discriminate E.
      + injection E as _ E. destruct (double_quotes s); discriminate E.
    - subst s. discriminate Hq. }
  split; [|split; exact Hnull].
  intros s t E.
  rewrite <- (append_nil_r (escapeCSV (FieldString s))),
          <- (append_nil_r (escapeCSV (FieldString t))) in E.
  exact (proj1 (field_ends s t "" "" I I E)).
Qed.

(** X1 at a field that holds a comma and quotes. *)
Lemma escapeCSV_injective_witness :
  he_said = he_said /\ escapeCSV (FieldString "") <> escapeCSV FieldNull.
Proof.
  destruct escapeCSV_injective as (Hinj & Hnull & _).
  split; [apply Hinj; reflexivity | apply Hnull].
Defined.

(** X2. The body of the CSV file determines the rows it was written
    from: two lists of rows, each row of two fields or more (the report
    has nine), that give the same text are the same list.  Commas,
    quotes and newlines inside fields do not blur the boundaries. *)
Theorem csv_body_injective (rows1 rows2 : list (list string))
  (Hwide1 : Forall (fun row => (2 <= length row)%nat) rows1)
  (Hwide2 : Forall (fun row => (2 <= length row)%nat) rows2)
  (Hsame : csv_body rows1 = csv_body rows2) :
  rows1 = rows2.
Proof.
  assert (Hne : forall rows, Forall (fun row : list string => (2 <= length row)%nat) rows ->
                             Forall (fun row : list string => row <> []) rows).
  { intros rows H. eapply Forall_impl; [exact H|]. intros [|] Hl; [simpl in Hl; lia | discriminate]. }
  destruct rows1 as [|r rs]; destruct rows2 as [|q qs].
  - reflexivity.
  - apply Forall_cons in Hwide2 as [Hq _]. exfalso.
    exact (wide_body_not_empty q qs Hq (eq_sym Hsame)).
  - apply Forall_cons in Hwide1 as [Hr _]. exfalso.
    exact (wide_body_not_empty r rs Hr Hsame).
  - apply body_determines_rows; auto; discriminate.
Qed.

(** X2 at two rows with a comma, a quote and a newline in their fields. *)
Lemma csv_body_injective_witness :
  let rows := [["a,b"; he_said]; [String newline "x"; ""]] in
  rows = rows.
Proof.
  intros rows. apply csv_body_injective.
  - repeat constructor.
  - repeat constructor.
  - reflexivity.
Defined.

End CsvFacts.

(** ** File names of the batch reports *)

Module FileNameFacts.

Lemma is_alnum_underscore : is_alnum underscore = false.
Proof. reflexivity. Qed.

Lemma map_chars_idempotent (f : ascii -> ascii) s :
  (forall c, f (f c) = f c) -> map_chars f (map_chars f s) = map_chars f s.
Proof.
  intros Hf. induction s as [|c s IH]; [reflexivity|].
  cbn [map_chars]. rewrite Hf, IH. reflexivity.
Qed.

Lemma map_chars_take (f : ascii -> ascii) n : forall s,
  map_chars f (take n s) = take n (map_chars f s).
Proof.
  induction n as [|n IH]; intros [|c s]; try reflexivity.
  cbn [take map_chars]. rewrite IH. reflexivity.
Qed.

Lemma take_take n : forall s, take n (take n s) = take n s.
Proof.
  induction n as [|n IH]; intros [|c s]; try reflexivity.
  cbn [take]. rewrite IH. reflexivity.
Qed.

Lemma all_chars_map_chars (p : ascii -> bool) (f : ascii -> ascii) s :
  (forall c, p (f c) = true) -> all_chars p (map_chars f s) = true.
Proof.
  intros Hp. induction s as [|c s IH]; [reflexivity|].
  cbn [map_chars all_chars]. rewrite Hp, IH. reflexivity.
Qed.

Lemma get_take n : forall s i, (i < n)%nat -> String.get i (take n s) = String.get i s.
Proof.
  induction n as [|n IH]; intros s i Hi; [lia|].
  destruct s as [|c s]; [reflexivity|]. destruct i as [|i]; [reflexivity|].
  cbn [take String.get]. apply IH. lia.
Qed.

(** X3. The file name the batch gives to the report of a URL has at most
    100 code units, as many as the URL when that has fewer; it holds
    letters, digits and underscores only; every letter and digit of the
    first 100 code units of the URL stays in its place, everything else
    there becomes an underscore; and sanitising a name again changes
    nothing. *)
Theorem _sanitizeFilename_spec (url : string) :
  String.length (_sanitizeFilename url) = Nat.min 100 (String.length url) /\
  all_chars (fun c => is_alnum c || Ascii.eqb c underscore) (_sanitizeFilename url) = true /\
  (forall i c, (i < 100)%nat -> String.get i url = Some c ->
     String.get i (_sanitizeFilename url) = Some (if is_alnum c then c else underscore)) /\
  _sanitizeFilename (_sanitizeFilename url) = _sanitizeFilename url.
Proof.
  unfold _sanitizeFilename.
  set (f := fun c => if is_alnum c then c else underscore).
  assert (Hf : forall c, f (f c) = f c).
  { intros c. unfold f. destruct (is_alnum c) eqn:E; [rewrite E; reflexivity | reflexivity]. }
  split; [|split; [|split]].
  - rewrite length_take, length_map_chars. lia.
  - apply all_chars_take, all_chars_map_chars. intros c. unfold f.
    destruct (is_alnum c) eqn:E; [rewrite E; reflexivity|]. apply orb_true_r.
  - intros i c Hi Hc. rewrite get_take by exact Hi. rewrite get_map_chars, Hc. reflexivity.
  - rewrite map_chars_take, map_chars_idempotent by exact Hf. apply take_take.
Qed.

(** X3 at a URL with a query string. *)
Lemma _sanitizeFilename_spec_witness :
  _sanitizeFilename "https://a.b/c?d=1" = "https___a_b_c_d_1" /\
  String.get 5 (_sanitizeFilename "https://a.b/c?d=1") = Some underscore.
Proof.
  destruct (_sanitizeFilename_spec "https://a.b/c?d=1") as (_ & _ & Hget & _).
  split; [reflexivity|].
  apply (Hget 5%nat ":"%char); [lia | reflexivity].
Defined.

End FileNameFacts.

(** ** Lists of URLs *)

Module UrlListFacts.

Import UrlList CsvFacts.

Lemma split_on_plain p e :
  all_chars (fun c => negb (p c)) e = true -> split_on p e = [e].
Proof.
  induction e as [|c e IH]; [reflexivity|]. cbn [all_chars split_on].
  intros H. apply andb_true_iff in H as [Hc He]. apply negb_true_iff in Hc.
  rewrite Hc, (IH He). reflexivity.
Qed.

Lemma split_on_append p e sep rest :
  all_chars (fun c => negb (p c)) e = true -> p sep = true ->
  split_on p (e +:+ String sep rest) = e :: split_on p rest.
Proof.
  intros He Hsep. induction e as [|c e IH].
  - rewrite append_nil_l. cbn [split_on]. rewrite Hsep. reflexivity.
  - cbn [all_chars] in He. apply andb_true_iff in He as [Hc He]. apply negb_true_iff in Hc.
    rewrite append_cons. cbn [split_on]. rewrite Hc, (IH He). reflexivity.
Qed.

(** Splitting what [join] has put together gives the pieces back. *)
Lemma split_on_join p sep es :
  es <> [] -> p sep = true ->
  Forall (fun e => all_chars (fun c => negb (p c)) e = true) es ->
  split_on p (Js.join (String sep "") es) = es.
Proof.
  intros Hne Hsep. induction es as [|e es IH]; [contradiction|]. intros H.
  apply Forall_cons in H as [He H]. destruct es as [|e' es].
  - apply split_on_plain, He.
  - rewrite join_cons, append_cons, append_nil_l.
    rewrite (split_on_append p e sep _ He Hsep), IH; [reflexivity | discriminate | exact H].
Qed.

Lemma trim_end_plain s :
  all_chars (fun c => negb (Dom.is_space c)) s = true -> Dom.trim_end s = s.
Proof.
  induction s as [|c s IH]; [reflexivity|]. cbn [all_chars Dom.trim_end].
  intros H. apply andb_true_iff in H as [Hc Hs]. apply negb_true_iff in Hc.
  rewrite (IH Hs), Hc. destruct s; reflexivity.
Qed.

Lemma trim_plain s :
  all_chars (fun c => negb (Dom.is_space c)) s = true -> Dom.trim s = s.
Proof.
  intros H. unfold Dom.trim.
  assert (Hs : Dom.trim_start s = s).
  { destruct s as [|c s]; [reflexivity|]. cbn [all_chars] in H.
    apply andb_true_iff in H as [Hc _]. apply negb_true_iff in Hc.
    cbn [Dom.trim_start]. rewrite Hc. reflexivity. }
  rewrite Hs. apply trim_end_plain, H.
Qed.

(** An entry of a list of URLs as it is meant to be written: not empty,
    without white space, without a separator. *)
Lemma clean_entries (p : ascii -> bool) (keep : string -> bool) es :
  Forall (fun e => all_chars (fun c => negb (p c) && negb (Dom.is_space c)) e = true /\
                   keep e = true) es ->
  Forall (fun e => all_chars (fun c => negb (p c)) e = true) es /\
  List.map Dom.trim es = es /\ List.filter keep es = es.
Proof.
  induction es as [|e es IH]; intros H; [repeat split; constructor|].
  apply Forall_cons in H as [[He Hk] H]. destruct (IH H) as (H1 & H2 & H3).
  assert (Hp : all_chars (fun c => negb (p c)) e = true /\
               all_chars (fun c => negb (Dom.is_space c)) e = true).
  { clear -He. induction e as [|c e IHe]; [split; reflexivity|].
    cbn [all_chars] in *. apply andb_true_iff in He as [Hc He].
    apply andb_true_iff in Hc as [-> ->]. destruct (IHe He) as [-> ->]. split; reflexivity. }
  destruct Hp as [Hp Hsp]. split; [|split].
  - apply Forall_cons. split; assumption.
  - cbn [List.map]. rewrite (trim_plain e Hsp), H2. reflexivity.
  - cbn [List.filter]. rewrite Hk, H3. reflexivity.
Qed.

Lemma absolute_shape domain url :
  startsWith "http://" (absolute domain url) = true \/
  startsWith "https://" (absolute domain url) = true \/
  exists path, absolute domain url = domain +:+ "/" +:+ path.
Proof.
  unfold absolute.
  destruct (startsWith "http://" url) eqn:E1; [auto|].
  destruct (startsWith "https://" url) eqn:E2; [auto|]. right. right. cbn [orb].
  destruct (startsWith "/" url) eqn:E3.
  - apply startsWith_inv in E3 as [t ->]. eauto.
  - eauto.
Qed.

(** X4. The URLs read from [TEST_URLS] (src/run-test.ts): every one of
    them is absolute or is the domain, a slash and a path; an absolute
    URL is taken as it is written and a path is put behind the domain;
    a list of entries without white space written with commas, or with
    newlines, between them is read back entry by entry, and blank
    entries between separators are dropped. *)
Theorem test_urls_spec (domain : string) :
  (forall TEST_URLS url, In url (test_urls domain TEST_URLS) ->
     startsWith "http://" url = true \/ startsWith "https://" url = true \/
     exists path, url = domain +:+ "/" +:+ path) /\
  (forall sep entries,
     sep = comma \/ sep = newline ->
     Forall (fun e => all_chars (fun c => negb (comma_or_newline c) && negb (Dom.is_space c)) e
                      = true /\ e <> "") entries ->
     test_urls domain (Js.join (String sep "") entries) = List.map (absolute domain) entries) /\
  (forall url, startsWith "http://" url = true \/ startsWith "https://" url = true ->
     absolute domain url = url) /\
  (forall sep TEST_URLS, sep = comma \/ sep = newline ->
     test_urls domain (String sep TEST_URLS) = test_urls domain TEST_URLS) /\
  test_urls domain "" = [].
Proof.
  split; [|split; [|split; [|split]]].
  - intros s url Hin. unfold test_urls in Hin. apply in_map_iff in Hin as (e & <- & _).
    apply absolute_shape.
  - intros sep entries Hsep Hclean. unfold test_urls.
    destruct entries as [|e es]; [reflexivity|].
    assert (Hp : comma_or_newline sep = true) by (destruct Hsep as [->| ->]; reflexivity).
    destruct (clean_entries comma_or_newline (fun url => (0 <? String.length url)%nat)
                (e :: es)) as (H1 & H2 & H3).
    { eapply Forall_impl; [exact Hclean|]. intros x [Hx Hne]. split; [exact Hx|].
      destruct x; [contradiction | reflexivity]. }
    rewrite (split_on_join _ sep (e :: es) ltac:(discriminate) Hp H1), H2, H3. reflexivity.
  - intros url H. unfold absolute. destruct H as [-> | ->]; [reflexivity|].
    rewrite orb_true_r. reflexivity.
  - intros sep s Hsep. unfold test_urls. cbn [split_on].
    assert (Hp : comma_or_newline sep = true) by (destruct Hsep as [->| ->]; reflexivity).
    rewrite Hp. reflexivity.
  - reflexivity.
Qed.

(** X4 at a domain and at the entries of the usage message. *)
Lemma test_urls_spec_witness :
  test_urls "https://example.com" "/home,about,https://other.org/x"
  = ["https://example.com/home"; "https://example.com/about"; "https://other.org/x"].
Proof.
  destruct (test_urls_spec "https://example.com") as (_ & Hlist & _).
  apply (Hlist comma ["/home"; "about"; "https://other.org/x"]); [left; reflexivity|].
  repeat (apply Forall_cons; split; [split; [reflexivity | discriminate]|]).
  apply Forall_nil. exact I.
Defined.

(** X5. The URLs read from a batch file (cli.js): the function returns
    the lines that, without the white space around them, start with
    [http], in their order, and never an empty list: it throws when no
    line is one.  Blank lines and comment lines are left out.  A file of
    URLs without white space, one per line, is read back URL by URL. *)
Theorem loadUrlsFromFile_spec (urlsContent : string) :
  (forall urls, loadUrlsFromFile urlsContent = inr urls ->
     urls <> [] /\
     urls = List.filter (startsWith "http")
              (List.map Dom.trim (split_on (Ascii.eqb newline) urlsContent)) /\
     forall url, In url urls -> startsWith "http" url = true /\ startsWith "#" url = false) /\
  (forall msg, loadUrlsFromFile urlsContent = inl msg ->
     msg = "No valid URLs found in batch file" /\
     forall line, In line (split_on (Ascii.eqb newline) urlsContent) ->
                  startsWith "http" (Dom.trim line) = false) /\
  (forall urls, urls <> [] ->
     Forall (fun u => all_chars (fun c => negb (Dom.is_space c)) u = true /\
                      startsWith "http" u = true) urls ->
     loadUrlsFromFile (Js.join (String newline "") urls) = inr urls).
Proof.
  assert (Hfilter : forall l,
            List.filter (fun line => negb (String.eqb line "") && startsWith "http" line) l
            = List.filter (startsWith "http") l).
  { intros l. apply filter_ext. intros [|c line]; reflexivity. }
  unfold loadUrlsFromFile. rewrite Hfilter.
  set (lines := List.map Dom.trim (split_on (Ascii.eqb newline) urlsContent)).
  split; [|split].
  - intros urls H. destruct (List.filter (startsWith "http") lines) as [|u us] eqn:E;
      [discriminate H|]. injection H as <-.
    split; [discriminate|]. split; [reflexivity|].
    intros url Hin. rewrite <- E in Hin. apply filter_In in Hin as [_ Hh].
    split; [exact Hh|]. destruct url as [|c url]; [reflexivity|].
    cbn [startsWith] in *. destruct (Ascii.eqb_spec "h" c) as [<-|]; [reflexivity | discriminate Hh].
  - intros msg H. destruct (List.filter (startsWith "http") lines) as [|u us] eqn:E;
      [|discriminate H]. injection H as <-. split; [reflexivity|].
    intros line Hin. destruct (startsWith "http" (Dom.trim line)) eqn:Hh; [|reflexivity].
    assert (Hin' : In (Dom.trim line) (List.filter (startsWith "http") lines)).
    { apply filter_In. split; [|exact Hh]. unfold lines. apply in_map, Hin. }
    rewrite E in Hin'. destruct Hin'.
  - intros urls Hne Hclean. clear lines. rewrite Hfilter.
    destruct (clean_entries (Ascii.eqb newline) (startsWith "http") urls) as (H1 & H2 & H3).
    { eapply Forall_impl; [exact Hclean|]. intros u [Hu Hh]. split; [|exact Hh].
      clear -Hu. induction u as [|c u IH]; [reflexivity|]. cbn [all_chars] in *.
      apply andb_true_iff in Hu as [Hc Hu]. rewrite (IH Hu), Hc, !andb_true_r.
      destruct (Ascii.eqb_spec newline c) as [<-|]; [discriminate Hc | reflexivity]. }
    rewrite (split_on_join _ newline urls Hne (Ascii.eqb_refl _) H1), H2, H3.
    destruct urls; [contradiction | reflexivity].
Qed.

(** X5 at a file of two URLs. *)
Lemma loadUrlsFromFile_spec_witness :
  loadUrlsFromFile (Js.join (String newline "") ["https://a.example"; "http://b.example/x"])
  = inr ["https://a.example"; "http://b.example/x"].
Proof.
  destruct (loadUrlsFromFile_spec "") as (_ & _ & Hlist).
  apply Hlist; [discriminate|].
  repeat (apply Forall_cons; split; [split; reflexivity|]).
  apply Forall_nil. exact I.
Defined.

End UrlListFacts.

(** ** Waiting for the page to settle *)

Module SettleFacts.

Import Settle.

(** X6. Whatever the clock reads, the time-out handed to
    [waitForLoadState] lies between 1 and 6000 ms and the one handed to
    [waitForFunction] above 1000 and at most 2000 ms: neither is ever
    zero or negative, and together they allow no more than 8 seconds.
    The wait for the network is left out exactly when the navigation has
    used the 30 seconds, and the wait for the document is never made
    without it. *)
Theorem timeouts_spec (startTime now1 now2 : Z) :
  let network := fst (timeouts startTime now1 now2) in
  let dom := snd (timeouts startTime now1 now2) in
  (forall t, network = Some t -> 1 <= t <= 6000)%Z /\
  (forall t, dom = Some t -> (1000 < t <= 2000)%Z /\ network <> None) /\
  (network = None <-> (30000 <= now1 - startTime)%Z) /\
  (network <> None -> (dom = None <-> (29000 <= now2 - startTime)%Z)) /\
  (default 0 network + default 0 dom <= 8000)%Z.
Proof.
  unfold timeouts, maxWaitTime.
  destruct (Z.gtb_spec (30000 - (now1 - startTime)) 0) as [H1|H1]; cbn [fst snd].
  - destruct (Z.gtb_spec (30000 - (now2 - startTime)) 1000) as [H2|H2];
      cbn [default]; unfold id.
    + split; [intros t [= <-]; lia|]. split; [intros t [= <-]; split; [lia | discriminate]|].
      split; [split; [discriminate | lia]|]. split; [|lia].
      intros _. split; [discriminate | lia].
    + split; [intros t [= <-]; lia|]. split; [intros t [=]|].
      split; [split; [discriminate | lia]|]. split; [|lia].
      intros _. split; [lia | reflexivity].
  - split; [intros t [=]|]. split; [intros t [=]|].
    split; [split; [lia | reflexivity]|]. split; [|cbn [default]; lia].
    intros H. contradiction.
Qed.

(** X6 for a navigation of 3 seconds and a network that went idle after
    2 more. *)
Lemma timeouts_spec_witness :
  timeouts 0 3000 5000 = (Some 6000%Z, Some 2000%Z) /\ (1 <= 6000 <= 6000)%Z.
Proof.
  split; [reflexivity|].
  destruct (timeouts_spec 0 3000 5000) as (Hnet & _).
  apply Hnet. reflexivity.
Defined.

End SettleFacts.

(** ** How long the polling goes on *)

Module PollingBounds.
Import Polling PollingFacts.




(** The document is not ready for WAVE: one of the three tests that come
    before [initialize()] fails. *)
Lemma wavetest_not_ready_step attempts p :
  wave_present p = true ->
  ready_complete p = false \/ body_and_head p = false \/ style_access_throws p = true ->
  WaveTest.checkWaveAvailability attempts p = (S attempts, Reschedule WaveTest.retryDelay).
Proof.
  intros Hw H. unfold WaveTest.checkWaveAvailability. rewrite Hw.
  destruct (ready_complete p); [|reflexivity]. cbn [negb].
  destruct (body_and_head p); [|reflexivity]. cbn [negb].
  destruct (style_access_throws p); [reflexivity|].
  destruct H as [H|[H|H]]; discriminate H.
Qed.

(** X8. In src/wave-test.ts the limit of 100 attempts does not bound the
    wait for the document: on a page that holds WAVE but whose document
    never gets ready, the callback sets a timer of 200 ms at every call
    and goes on polling, however often it has been called. *)
Theorem wavetest_waits_for_the_document_without_limit
  (page : nat -> page_state) (fuel : nat)
  (Hwave : forall k, wave_present (page k) = true)
  (Hnot_ready : forall k, ready_complete (page k) = false \/ body_and_head (page k) = false \/
                          style_access_throws (page k) = true) :
  poll WaveTest.checkWaveAvailability page fuel 0 0
  = {| calls := fuel; delays := repeat WaveTest.retryDelay fuel; final := Polling |}.
Proof.
  assert (H : forall k attempts,
             poll WaveTest.checkWaveAvailability page fuel k attempts
             = {| calls := fuel; delays := repeat WaveTest.retryDelay fuel;
                  final := Polling |}); [|apply H].
  induction fuel as [|fuel IH]; intros k attempts; [reflexivity|].
  cbn [poll]. rewrite (wavetest_not_ready_step attempts (page k) (Hwave k) (Hnot_ready k)).
  cbn [fst snd]. rewrite IH. reflexivity.
Qed.

(** X8 after 250 calls on a page that stays at [readyState]
    [interactive]. *)
Lemma wavetest_waits_for_the_document_without_limit_witness :
  let p := {| wave_present := true; ready_complete := false; body_and_head := true;
              style_access_throws := false; initialize_throws := None;
              run := RunStarts |} in
  poll WaveTest.checkWaveAvailability (fun _ => p) 250 0 0
  = {| calls := 250; delays := repeat 200%nat 250; final := Polling |}.
Proof.
  intros p.
  apply (wavetest_waits_for_the_document_without_limit (fun _ => p) 250).
  - intros k. reflexivity.
  - intros k. left. reflexivity.
Defined.

Lemma analyzer_action config attempts p :
  fst (Analyzer.checkWaveAvailability config attempts p) = S attempts /\
  (forall d, snd (Analyzer.checkWaveAvailability config attempts p) = Reschedule d ->
             d = Analyzer.retryDelay config /\ (S attempts < Analyzer.maxRetries config)%nat /\
             wave_present p = false) /\
  (forall m, snd (Analyzer.checkWaveAvailability config attempts p) = Throws m <->
             wave_present p = TestThrows m).
Proof.
  unfold Analyzer.checkWaveAvailability.
  destruct (wave_present p) as [[]|m']; [destruct (initialize_throws p); [|destruct (run p)]| |];
    try destruct (Nat.leb_spec (Analyzer.maxRetries config) (S attempts));
    cbn [fst snd]; (split; [reflexivity|]);
    (split; [intros d E; try discriminate E; injection E as <-; auto|]);
    intros m; split; intros E; try discriminate E; injection E as <-; reflexivity.
Qed.

(** X9. In src/analyzer.js the polling makes at most [maxRetries] calls
    of the callback (one call when [maxRetries] is 0), whatever the page
    does; the timers set on the way, one fewer than the calls, all have
    the delay [retryDelay], so that the polling waits no longer than
    [(maxRetries - 1) * retryDelay].  After these calls the promise has
    been rejected or the analysis has been started, with one exception:
    when the availability test throws at a call made by a timer, as it
    does of [window.wave === null], the callback dies and the promise is
    never settled.  At the first call the same exception rejects the
    promise. *)
Theorem analyzer_polling_is_bounded
  (config : Analyzer.config) (page : nat -> page_state) (fuel : nat)
  (Hfuel : (Nat.max 1 (Analyzer.maxRetries config) <= fuel)%nat) :
  let t := poll (Analyzer.checkWaveAvailability config) page fuel 0 0 in
  final t <> Polling /\
  (1 <= calls t <= Nat.max 1 (Analyzer.maxRetries config))%nat /\
  delays t = repeat (Analyzer.retryDelay config) (calls t - 1) /\
  (fold_right Nat.add 0 (delays t)
   <= (Analyzer.maxRetries config - 1) * Analyzer.retryDelay config)%nat /\
  (final t = Stalled <->
   (2 <= calls t)%nat /\ exists m, wave_present (page (calls t - 1)%nat) = TestThrows m) /\
  (forall m, wave_present (page 0%nat) = TestThrows m ->
             final t = Rejected ("Script injection failed: " +:+ m) /\ calls t = 1%nat).
Proof.
  assert (H : forall fuel k attempts,
             (Analyzer.maxRetries config - attempts <= fuel)%nat -> (1 <= fuel)%nat ->
             let t := poll (Analyzer.checkWaveAvailability config) page fuel k attempts in
             final t <> Polling /\
             (attempts + calls t <= Nat.max (S attempts) (Analyzer.maxRetries config))%nat /\
             delays t = repeat (Analyzer.retryDelay config) (calls t - 1) /\
             (1 <= calls t)%nat /\
             (final t = Stalled <->
              (1 <= k + (calls t - 1))%nat /\
              exists m, wave_present (page (k + (calls t - 1))%nat) = TestThrows m)).
  { clear. induction fuel as [|fuel IH]; intros k attempts Hfuel H1; [lia|].
    cbn [poll].
    destruct (analyzer_action config attempts (page k)) as (Hn & Hd & Hthrow).
    destruct (Analyzer.checkWaveAvailability config attempts (page k)) as [n a].
    cbn [fst snd] in *. subst n. destruct a as [d|m| |m]; cbn [final calls delays].
    - destruct (Hd d eq_refl) as (-> & Hlt & _).
      destruct (IH (S k) (S attempts) ltac:(lia) ltac:(lia)) as (Hf & Hc & Hds & Hc1 & Hst).
      split; [exact Hf|]. split; [lia|]. split; [|split; [lia|]].
      + rewrite Hds. replace (S (calls _) - 1)%nat
          with (S (calls (poll (Analyzer.checkWaveAvailability config) page fuel (S k)
                            (S attempts)) - 1)) by lia.
        reflexivity.
      + replace (k + (S (calls (poll (Analyzer.checkWaveAvailability config) page fuel (S k)
                                  (S attempts))) - 1))%nat
          with (S k + (calls (poll (Analyzer.checkWaveAvailability config) page fuel (S k)
                                (S attempts)) - 1))%nat by lia.
        exact Hst.
    - split; [discriminate|]. split; [lia|]. split; [reflexivity|]. split; [lia|].
      split; [discriminate|]. intros (_ & m' & Hm'). cbn [Nat.sub] in Hm'.
      rewrite Nat.add_0_r in Hm'. apply Hthrow in Hm'. discriminate Hm'.
    - split; [discriminate|]. split; [lia|]. split; [reflexivity|]. split; [lia|].
      split; [discriminate|]. intros (_ & m' & Hm'). cbn [Nat.sub] in Hm'.
      rewrite Nat.add_0_r in Hm'. apply Hthrow in Hm'. discriminate Hm'.
    - split; [destruct k; discriminate|]. split; [lia|]. split; [reflexivity|]. split; [lia|].
      cbn [Nat.sub]. rewrite Nat.add_0_r. destruct k as [|k].
      + split; [discriminate|]. intros (Hk & _). lia.
      + split; [intros _|reflexivity]. split; [lia|]. exists m. apply Hthrow. reflexivity. }
  intros t.
  destruct (H fuel 0%nat 0%nat ltac:(lia) ltac:(lia)) as (Hf & Hc & Hd & H1 & Hst).
  fold t in Hf, Hc, Hd, H1, Hst. cbn [Nat.add] in Hc, Hst.
  split; [exact Hf|]. split; [lia|]. split; [exact Hd|]. split; [|split].
  - rewrite Hd.
    assert (Hsum : forall d n, fold_right Nat.add 0%nat (repeat d n) = (n * d)%nat).
    { intros d n. induction n as [|n IHn]; [reflexivity|]. cbn [repeat fold_right].
      rewrite IHn. lia. }
    rewrite Hsum. apply Nat.mul_le_mono_r. lia.
  - rewrite Hst. split; intros (Hk & Hm); (split; [lia | exact Hm]).
  - intros m Hm. subst t. destruct fuel as [|fuel]; [lia|]. cbn [poll].
    destruct (analyzer_action config 0 (page 0%nat)) as (_ & _ & Hthrow).
    apply Hthrow in Hm.
    destruct (Analyzer.checkWaveAvailability config 0 (page 0%nat)) as [n a].
    cbn [snd] in Hm. subst a. split; reflexivity.
Qed.

(** X9 with the defaults of the constructor, on a page where WAVE shows
    up at the third call. *)
Lemma analyzer_polling_is_bounded_witness :
  let page := fun k => {| wave_present := (2 <=? k)%nat; ready_complete := true;
                          body_and_head := true; style_access_throws := false;
                          initialize_throws := None; run := RunStarts |} in
  let t := poll (Analyzer.checkWaveAvailability Analyzer.default_config) page 50 0 0 in
  final t <> Polling /\ (1 <= calls t <= 50)%nat.
Proof.
  intros page t.
  destruct (analyzer_polling_is_bounded Analyzer.default_config page 50) as (Hf & Hc & _).
  - vm_compute. lia.
  - split; [exact Hf | exact Hc].
Defined.

(** src/wave-test.ts: [initialize()] throws at every call, each time
    with a message of its own. *)
Lemma wavetest_retries_each_message page (msg : nat -> string) fuel :
  (forall k, initialize_fails (msg k) (page k)) ->
  (WaveTest.maxRetries <= fuel)%nat ->
  poll WaveTest.checkWaveAvailability page fuel 0 0
  = {| calls := WaveTest.maxRetries;
       delays := repeat (2 * WaveTest.retryDelay)%nat (WaveTest.maxRetries - 1);
       final := Rejected ("WAVE initialization failed after retries: "
                          +:+ msg (WaveTest.maxRetries - 1)%nat) |}.
Proof.
  intros Hp Hfuel.
  apply (poll_all_reschedule _ _ (WaveTest.maxRetries - 1));
    [| |unfold WaveTest.maxRetries in *; lia].
  - intros j Hj. rewrite (wavetest_initialize_throws _ _ (msg (0 + j)%nat) (Hp _)).
    simpl Nat.add.
    destruct (Nat.ltb_spec (S j) WaveTest.maxRetries); [reflexivity|].
    unfold WaveTest.maxRetries in *. lia.
  - rewrite (wavetest_initialize_throws _ _ (msg (0 + (WaveTest.maxRetries - 1))%nat) (Hp _)).
    reflexivity.
Qed.

(** X10. In src/wave-test.ts, when the availability test says at every
    call that WAVE is not there, the callback is called 100 times, 200 ms
    apart, and rejects with the message of the exhausted attempts; when
    WAVE is there, the document is ready and [initialize()] throws at
    every call, whatever the messages of its exceptions, the callback is
    called 100 times, 400 ms apart, and rejects with the message of the
    last exception, the one of call 100. *)
Theorem wavetest_polling_gives_up_after_100_calls (page : nat -> page_state) (fuel : nat)
  (Hfuel : (100 <= fuel)%nat) :
  ((forall k, wave_present (page k) = false) ->
   poll WaveTest.checkWaveAvailability page fuel 0 0
   = {| calls := 100; delays := repeat 200%nat 99;
        final := Rejected "WAVE failed to initialize after 100 attempts" |}) /\
  (forall msg : nat -> string, (forall k, initialize_fails (msg k) (page k)) ->
   poll WaveTest.checkWaveAvailability page fuel 0 0
   = {| calls := 100; delays := repeat 400%nat 99;
        final := Rejected ("WAVE initialization failed after retries: " +:+ msg 99%nat) |}).
Proof.
  split.
  - intros H. exact (wavetest_exhausted page fuel H Hfuel).
  - intros msg H. exact (wavetest_retries_each_message page msg fuel H Hfuel).
Qed.

(** X10 on a page without WAVE, and on a page where the exception of
    [initialize()] tells the number of the call. *)
Lemma wavetest_polling_gives_up_after_100_calls_witness :
  let p := {| wave_present := false; ready_complete := true; body_and_head := true;
              style_access_throws := false; initialize_throws := None;
              run := RunStarts |} in
  let q := fun k => {| wave_present := true; ready_complete := true; body_and_head := true;
                       style_access_throws := false;
                       initialize_throws := Some ("boom " +:+ Js.Z_to_string (Z.of_nat (S k)));
                       run := RunStarts |} in
  final (poll WaveTest.checkWaveAvailability (fun _ => p) 100 0 0)
  = Rejected "WAVE failed to initialize after 100 attempts" /\
  final (poll WaveTest.checkWaveAvailability q 100 0 0)
  = Rejected "WAVE initialization failed after retries: boom 100".
Proof.
  intros p q. split.
  - destruct (wavetest_polling_gives_up_after_100_calls (fun _ => p) 100 (le_n _)) as [H _].
    rewrite H; [reflexivity|]. intros k. reflexivity.
  - destruct (wavetest_polling_gives_up_after_100_calls q 100 (le_n _)) as [_ H].
    rewrite (H (fun k => "boom " +:+ Js.Z_to_string (Z.of_nat (S k)))); [reflexivity|].
    intros k. repeat split.
Defined.

End PollingBounds.

(** ** The enhancer run twice, and the enhancer that throws *)

Module EnhancerFacts.

Section Document.

Variable doc : string -> Dom.xpath_outcome.

Lemma set_prop_unchanged k v ps : Js.lookup_prop k ps = Some v -> Js.set_prop k v ps = ps.
Proof.
  induction ps as [|[k' v'] ps IH]; simpl; [discriminate|].
  destruct (String.eqb_spec k' k) as [->|Hne]; intros H.
  - injection H as ->. reflexivity.
  - rewrite (IH H). reflexivity.
Qed.

Lemma fold_set_add_snoc xs x acc :
  fold_left Js.set_add (xs ++ [x]) acc = Js.set_add (fold_left Js.set_add xs acc) x.
Proof. rewrite fold_left_app. reflexivity. Qed.

Lemma fold_set_add_stable xs : forall acc,
  fold_left Js.set_add acc [] = acc ->
  fold_left Js.set_add (fold_left Js.set_add xs acc) [] = fold_left Js.set_add xs acc.
Proof.
  induction xs as [|x xs IH]; intros acc Hacc; [exact Hacc|].
  cbn [fold_left]. apply IH.
  assert (Hs : Js.set_add acc x = if existsb (Js.sameValueZero x) acc then acc
                                  else (acc ++ [x])%list) by reflexivity.
  destruct (existsb (Js.sameValueZero x) acc) eqn:E; rewrite Hs; [exact Hacc|].
  rewrite fold_set_add_snoc, Hacc. exact Hs.
Qed.

Lemma spread_set_idempotent xs : Js.spread_set (Js.spread_set xs) = Js.spread_set xs.
Proof. apply fold_set_add_stable. reflexivity. Qed.

Lemma truncate_array_stable k n ps :
  (forall l, Js.lookup_prop k ps = Some (JArr l) -> firstn n l = l) ->
  truncate_array k n ps = ps.
Proof.
  intros H. unfold truncate_array.
  destruct (Js.lookup_prop k ps) as [[| | | |l|]|] eqn:E; try reflexivity.
  unfold Js.slice0. rewrite (H l eq_refl). apply set_prop_unchanged, E.
Qed.

Lemma enhance_item_keeps_object item item' :
  enhance_item doc item = Ok item' -> item <> JNull /\ item' <> JNull.
Proof.
  destruct item as [| | | | |ps]; simpl; try discriminate;
    try (intros [= <-]; split; discriminate).
  destruct (Js.lookup_prop "xpaths" ps) as [[]|]; intros [= <-]; split; discriminate.
Qed.

Lemma enhance_item_idempotent item item' :
  enhance_item doc item = Ok item' -> enhance_item doc item' = Ok item'.
Proof.
  intros H.
  destruct item as [| | | | |ps]; try (injection H as <-; reflexivity); [discriminate H|].
  destruct (Js.lookup_prop "xpaths" ps) as [x|] eqn:Hx.
  2: { simpl in H. rewrite Hx in H. injection H as <-. simpl. rewrite Hx. reflexivity. }
  destruct x as [| | | |xs|];
    try (simpl in H; rewrite Hx in H; injection H as <-; simpl; rewrite Hx; reflexivity).
  destruct (enhance_item_array doc ps xs Hx) as (ps' & He & Lx & Lc & Ld & Laux).
  rewrite He in H. injection H as <-.
  unfold enhance_item. rewrite Lx, spread_set_idempotent.
  rewrite (set_prop_unchanged _ _ _ Lx), (set_prop_unchanged _ _ _ Lc), (set_prop_unchanged _ _ _ Ld).
  assert (Hst : forall k, In k auxiliary_arrays ->
                          truncate_array k (length (Js.spread_set xs)) ps' = ps').
  { intros k Hk. apply truncate_array_stable. intros l Hl.
    rewrite (Laux k Hk) in Hl.
    destruct (Js.lookup_prop k ps) as [[| | | |l0|]|]; try discriminate Hl.
    injection Hl as <-. rewrite firstn_firstn, Nat.min_id. reflexivity. }
  rewrite (Hst "selectors"), (Hst "text"), (Hst "hidden"), (Hst "contrastdata");
    [reflexivity | | | |]; simpl; auto.
Qed.

Lemma mapM_fixed {A} (f : A -> result A) l :
  Forall (fun x => f x = Ok x) l -> mapM f l = Ok l.
Proof.
  induction 1 as [|x l Hx _ IH]; [reflexivity|].
  cbn [mapM]. rewrite Hx. cbn [bind]. rewrite IH. reflexivity.
Qed.

Lemma mapM_idempotent {A} (f : A -> result A) l l' :
  (forall x y, f x = Ok y -> f y = Ok y) -> mapM f l = Ok l' -> mapM f l' = Ok l'.
Proof.
  intros Hf H. apply mapM_fixed. apply mapM_Forall2 in H.
  induction H as [|x y l l' Hxy _ IH]; constructor; eauto.
Qed.

Lemma on_values_idempotent (f : json -> result json) :
  (forall x y, f x = Ok y -> f y = Ok y) ->
  forall kv kv', on_values f kv = Ok kv' -> on_values f kv' = Ok kv'.
Proof.
  intros Hf [k v] [k' v']. unfold on_values. cbn [fst snd].
  destruct (f v) as [y|] eqn:E; cbn [bind]; [|discriminate].
  intros [= <- <-]. rewrite (Hf _ _ E). reflexivity.
Qed.

Lemma enhance_items_idempotent items items' :
  enhance_items doc items = Ok items' ->
  enhance_items doc items' = Ok items' /\ Js.truthy items' = Js.truthy items /\
  ~ In JNull (Js.values items').
Proof.
  destruct items as [| | |s|l|ips]; cbn [enhance_items];
    try (intros [= <-]; split; [reflexivity|]; split; [reflexivity|]; simpl; tauto).
  - intros [= <-]. split; [reflexivity|]. split; [reflexivity|].
    simpl. intros H. apply in_map_iff in H as (c & H & _). discriminate H.
  - destruct (mapM (enhance_item doc) l) as [l'|] eqn:E; cbn [bind]; [|discriminate].
    intros [= <-]. cbn [enhance_items].
    rewrite (mapM_idempotent _ _ _ enhance_item_idempotent E). cbn [bind].
    split; [reflexivity|]. split; [reflexivity|]. cbn [Js.values].
    apply mapM_Forall2 in E. intros Hin.
    induction E as [|x y l l' Hxy _ IH]; [destruct Hin|].
    destruct Hin as [->|Hin]; [|exact (IH Hin)].
    apply enhance_item_keeps_object in Hxy. tauto.
  - destruct (mapM (on_values (enhance_item doc)) ips) as [ips'|] eqn:E; cbn [bind];
      [|discriminate].
    intros [= <-]. cbn [enhance_items].
    rewrite (mapM_idempotent _ _ _ (on_values_idempotent _ enhance_item_idempotent) E).
    cbn [bind]. split; [reflexivity|]. split; [reflexivity|]. cbn [Js.values].
    apply mapM_Forall2 in E. intros Hin.
    induction E as [|[k x] [k' y] l l' Hxy _ IH]; [destruct Hin|].
    destruct Hin as [Heq|Hin]; [|exact (IH Hin)].
    unfold on_values in Hxy. cbn [fst snd] in *.
    destruct (enhance_item doc x) as [y'|] eqn:Ex; cbn [bind] in Hxy; [|discriminate].
    injection Hxy as <- <-. apply enhance_item_keeps_object in Ex. subst y'. tauto.
Qed.

Lemma item_count_total item : item <> JNull -> exists c, item_count item = Ok c.
Proof.
  intros H. unfold item_count. destruct item; try congruence;
    destruct (Js.get _ "count"); eauto.
Qed.

Lemma reduce_counts_total vs : forall total,
  ~ In JNull vs -> exists t, reduce_counts total vs = Ok t.
Proof.
  induction vs as [|item vs IH]; intros total H; cbn [reduce_counts]; [eauto|].
  destruct (item_count_total item) as [c ->]; [intros ->; apply H; left; reflexivity|].
  cbn [bind]. apply IH. intros Hin. apply H. right. exact Hin.
Qed.

(** The two passes over one retained category. *)
Lemma passes_idempotent c c1 :
  enhance_category doc c = Ok c1 ->
  exists c2, recount_category c1 = Ok c2 /\
             enhance_category doc c2 = Ok c2 /\ recount_category c2 = Ok c2 /\
             Js.truthy c2 = Js.truthy c.
Proof.
  unfold enhance_category.
  destruct c as [| | | | |ps];
    try (intros [= <-]; eexists; repeat split; reflexivity).
  cbn [Js.get]. destruct (Js.lookup_prop "items" ps) as [items|] eqn:Ei.
  2: { intros [= <-]. exists (JObj ps). unfold recount_category, enhance_category.
       cbn [Js.get]. rewrite Ei. repeat split. }
  destruct (Js.truthy items) eqn:Et.
  2: { intros [= <-]. exists (JObj ps). unfold recount_category, enhance_category.
       cbn [Js.get]. rewrite Ei, Et. repeat split. }
  destruct (enhance_items doc items) as [items'|] eqn:Ee; cbn [bind]; [|discriminate].
  intros [= <-].
  destruct (enhance_items_idempotent _ _ Ee) as (Hid & Htr & Hnn).
  destruct (reduce_counts_total (Js.values items') (JNum 0) Hnn) as [total Htot].
  exists (JObj (Js.set_prop "count" total (Js.set_prop "items" items' ps))).
  assert (Li : Js.lookup_prop "items" (Js.set_prop "count" total (Js.set_prop "items" items' ps))
               = Some items').
  { rewrite lookup_set_prop_ne by discriminate. apply lookup_set_prop_eq. }
  unfold recount_category, enhance_category. cbn [Js.get].
  rewrite lookup_set_prop_eq, Li, Htr, Et, Htot, Hid. cbn [bind].
  rewrite (set_prop_unchanged _ _ _ Li), (set_prop_unchanged _ _ _ (lookup_set_prop_eq _ _ _)).
  repeat split.
Qed.

Lemma passes_fixed f0 f1 f2 :
  mapM (on_values (enhance_category doc)) f0 = Ok f1 ->
  mapM (on_values recount_category) f1 = Ok f2 ->
  mapM (on_values (enhance_category doc)) f2 = Ok f2 /\
  mapM (on_values recount_category) f2 = Ok f2 /\
  Forall2 (fun kv kv' => fst kv' = fst kv /\ Js.truthy (snd kv') = Js.truthy (snd kv)) f0 f2.
Proof.
  intros H1 H2. apply mapM_Forall2 in H1.
  revert f2 H2. induction H1 as [|[k c] [k1 c1] f0 f1 Hc _ IH]; intros f2 H2.
  - injection H2 as <-. repeat split. constructor.
  - unfold on_values in Hc. cbn [fst snd] in Hc.
    destruct (enhance_category doc c) as [c1'|] eqn:Ec; cbn [bind] in Hc; [|discriminate].
    injection Hc as <- <-.
    destruct (passes_idempotent _ _ Ec) as (c2 & Hr & He2 & Hr2 & Ht).
    cbn [mapM] in H2. unfold on_values at 1 in H2. cbn [fst snd] in H2.
    rewrite Hr in H2. cbn [bind] in H2.
    destruct (mapM (on_values recount_category) f1) as [f2'|] eqn:E2; cbn [bind] in H2;
      [|discriminate].
    injection H2 as <-.
    destruct (IH f2' eq_refl) as (IH1 & IH2 & IH3).
    cbn [mapM]. unfold on_values at 1 3. cbn [fst snd].
    rewrite He2, Hr2, IH1, IH2. cbn [bind].
    repeat split. constructor; [split; [reflexivity | exact Ht] | exact IH3].
Qed.

(** The categories the enhancer retained are those it retains again. *)
Lemma filtered0_fixed ps results f2 :
  Forall2 (fun kv kv' => fst kv' = fst kv /\ Js.truthy (snd kv') = Js.truthy (snd kv))
          (filtered0 results) f2 ->
  filtered0 (JObj (Js.set_prop "categories" (JObj f2) ps)) = f2.
Proof.
  assert (Hc : forall k, category_of (JObj (Js.set_prop "categories" (JObj f2) ps)) k
                         = Js.lookup_prop k f2).
  { intros k. unfold category_of. cbn [Js.get]. rewrite lookup_set_prop_eq. reflexivity. }
  unfold filtered0. rewrite !retained_category_of, !Hc. clear Hc.
  destruct (category_of results "error") as [e|]; [destruct (Js.truthy e) eqn:Te|];
    (destruct (category_of results "contrast") as [c|]; [destruct (Js.truthy c) eqn:Tc|]);
    cbn [app]; intros H;
    repeat match goal with
           | H : Forall2 _ (_ :: _) _ |- _ =>
               let kv := fresh "kv" in let l := fresh "l" in
               let Hk := fresh "Hk" in let Ht := fresh "Ht" in
               apply Forall2_cons_inv_l in H as (kv & l & [Hk Ht] & H & ->);
               destruct kv as [? ?]; cbn [fst snd] in Hk, Ht; subst
           | H : Forall2 _ [] _ |- _ => apply Forall2_nil_inv_l in H; subst
           end;
    cbn [Js.lookup_prop String.eqb Ascii.eqb Bool.eqb];
    repeat match goal with Ht : Js.truthy ?x = _ |- _ => rewrite Ht; clear Ht end;
    repeat match goal with Ht : Js.truthy ?x = true |- _ => rewrite Ht end;
    reflexivity.
Qed.

End Document.

(** X11. Running the enhancer on what it returned changes nothing: the
    distinct XPaths, the counts, the [domInfo] entries, the truncated
    arrays and the retained categories all come out as they went in
    (on the same document). *)
Theorem enhancer_idempotent
  (doc : string -> Dom.xpath_outcome) (results : json) (out : enhanced_results)
  (Hout : enhanceResultsWithDOMInfo doc results = Ok out) :
  enhanceResultsWithDOMInfo doc (enhanced_value out) = Ok out.
Proof.
  destruct (enhance_Ok doc _ _ Hout) as (f1 & f2 & H1 & H2 & _ & Hobj & _).
  destruct (passes_fixed doc _ _ _ H1 H2) as (F1 & F2 & Hsh).
  destruct results as [| b | n | s | l | ps]; [discriminate Hout| | | | |].
  1-4: vm_compute in H1; injection H1 as <-; vm_compute in H2; injection H2 as <-;
       unfold enhanceResultsWithDOMInfo in Hout; cbn in Hout; injection Hout as <-;
       reflexivity.
  rewrite (Hobj ps eq_refl). cbn [enhanced_value].
  unfold enhanceResultsWithDOMInfo.
  rewrite (filtered0_fixed ps _ _ Hsh), F1. cbn [bind]. rewrite F2. cbn [bind].
  rewrite (set_prop_unchanged _ _ _ (lookup_set_prop_eq _ _ _)). reflexivity.
Qed.

(** X11 on the example page. *)
Lemma enhancer_idempotent_witness :
  exists out,
    enhanceResultsWithDOMInfo Example.document_evaluate Example.results = Ok out /\
    enhanceResultsWithDOMInfo Example.document_evaluate (enhanced_value out) = Ok out.
Proof.
  destruct (enhanceResultsWithDOMInfo Example.document_evaluate Example.results)
    as [out|] eqn:E; [|vm_compute in E; discriminate E].
  exists out. split; [reflexivity|].
  exact (enhancer_idempotent Example.document_evaluate Example.results out E).
Defined.

End EnhancerFacts.

(** ** When the enhancer throws; what [domInfo] holds *)

Module EnhancerErrors.
Import EnhancerFacts.

Lemma mapM_throw {A B} (f : A -> result B) l e :
  mapM f l = Throw e -> exists x, In x l /\ f x = Throw e.
Proof.
  induction l as [|x l IH]; cbn [mapM]; [discriminate|].
  destruct (f x) as [y|e'] eqn:E; cbn [bind].
  - destruct (mapM f l) as [ys|e'']; cbn [bind]; [discriminate|].
    intros [= ->]. destruct (IH eq_refl) as (x' & Hin & Hx). exists x'. split; [right|]; auto.
  - intros [= ->]. exists x. split; [left; reflexivity | exact E].
Qed.



#[local] Abbreviation reading_xpaths :=
  (TypeError "Cannot read properties of null (reading 'xpaths')").

Section Document.

Variable doc : string -> Dom.xpath_outcome.











Lemma getElementInfo_bounds xpath :
  text_within 100 (Js.get (getElementInfo doc xpath) "textContent") /\
  text_within 200 (Js.get (getElementInfo doc xpath) "innerHTML").
Proof.
  unfold getElementInfo.
  destruct (doc (Js.toString xpath)) as [msg|[[e|]|]]; try (split; exact I).
  destruct (generateSelector e) as [selector|err]; [|split; exact I].
  unfold element_info. cbn [Js.get Js.lookup_prop String.eqb Ascii.eqb Bool.eqb].
  split.
  - destruct (String.eqb (Dom.textContent e) EmptyString); [exact I|].
    cbn [text_within]. rewrite length_take. lia.
  - destruct (String.eqb (Dom.innerHTML e) EmptyString); [exact I|].
    cbn [text_within]. rewrite length_take. lia.
Qed.

End Document.





Lemma getElementInfo_null (doc : string -> Dom.xpath_outcome) (xpath : json) :
  getElementInfo doc xpath = JNull <-> doc (Js.toString xpath) = Dom.SingleNodeValue None.
Proof.
  unfold getElementInfo.
  destruct (doc (Js.toString xpath)) as [msg|[[e|]|]];
    try (split; [intros H; discriminate H | intros H; discriminate H]).
  - destruct (generateSelector e); split; intros H; discriminate H.
  - split; reflexivity.
Qed.

Lemma filter_map_swap {A B} (p : B -> bool) (f : A -> B) (l : list A) :
  List.filter p (List.map f l) = List.map f (List.filter (fun x => p (f x)) l).
Proof.
  induction l as [|x l IH]; [reflexivity|].
  cbn [List.map List.filter]. destruct (p (f x)); cbn [List.map]; rewrite IH; reflexivity.
Qed.

(** X13. In the enhanced results the [domInfo] of a rule group with an
    [xpaths] array is the list of the lookups of those distinct XPaths of
    the group for which the document does not answer with no node: one
    entry for each distinct XPath that selects a node or whose
    evaluation fails, in the order of the distinct XPaths, and none for
    those that select nothing.  No entry is [null]; an entry holds at
    most 100 code units of text content and at most 200 of inner HTML. *)
Theorem domInfo_entries
  (doc : string -> Dom.xpath_outcome) (results : json) (out : enhanced_results)
  (cat key : string) (item : json) (xpaths : list json)
  (Hout : enhanceResultsWithDOMInfo doc results = Ok out)
  (Hcat : cat = "error" \/ cat = "contrast")
  (Hitem : rule_group results cat key = Some item)
  (Hxpaths : Js.get item "xpaths" = Some (JArr xpaths)) :
  let unique := Js.spread_set xpaths in
  let found := List.filter (fun x => negb (is_null (getElementInfo doc x))) unique in
  exists item' infos,
    rule_group (enhanced_value out) cat key = Some item' /\
    Js.get item' "domInfo" = Some (JArr infos) /\
    infos = List.map (getElementInfo doc) found /\
    (forall x, In x found <->
               In x unique /\ doc (Js.toString x) <> Dom.SingleNodeValue None) /\
    (length infos
     + length (List.filter (fun x => is_null (getElementInfo doc x)) unique))%nat
    = length unique /\
    Forall (fun info => info <> JNull /\
                        text_within 100 (Js.get info "textContent") /\
                        text_within 200 (Js.get info "innerHTML")) infos /\
    ((forall x, In x unique -> doc (Js.toString x) <> Dom.SingleNodeValue None) ->
     infos = List.map (getElementInfo doc) unique).
Proof.
  intros unique found.
  destruct (domInfo_of_enhanced doc _ _ _ _ _ _ Hout Hcat Hitem Hxpaths)
    as (item' & Hrg & Hd).
  fold unique in Hd. rewrite filter_map_swap in Hd. fold found in Hd.
  exists item', (List.map (getElementInfo doc) found).
  split; [exact Hrg|]. split; [exact Hd|]. split; [reflexivity|].
  assert (Hfound : forall x, In x found <->
                     In x unique /\ doc (Js.toString x) <> Dom.SingleNodeValue None).
  { intros x. unfold found. rewrite filter_In, <- getElementInfo_null.
    destruct (getElementInfo doc x); cbn [is_null negb]; intuition congruence. }
  split; [exact Hfound|]. split; [|split].
  - rewrite length_map. unfold found. clear. induction unique as [|x l IH]; [reflexivity|].
    cbn [List.filter]. destruct (is_null (getElementInfo doc x)); cbn [negb length] in *; lia.
  - apply Forall_forall. intros info Hin. apply list_elem_of_In, in_map_iff in Hin
      as (x & <- & Hx).
    split; [|apply getElementInfo_bounds].
    apply Hfound in Hx as [_ Hx]. rewrite getElementInfo_null. exact Hx.
  - intros Hall. f_equal. unfold found. clear - Hall.
    induction unique as [|x l IH]; [reflexivity|]. cbn [List.filter].
    assert (Hx : getElementInfo doc x <> JNull).
    { rewrite getElementInfo_null. apply Hall. left. reflexivity. }
    destruct (getElementInfo doc x); try congruence; cbn [is_null negb];
      f_equal; apply IH; intros y Hy; apply Hall; right; exact Hy.
Qed.

(** X13 on the rule group [alt_missing] of the example page: of its two
    distinct XPaths the first selects nothing, so that [domInfo] holds one
    entry, the lookup of the second. *)
Lemma domInfo_entries_witness :
  exists out item',
    enhanceResultsWithDOMInfo Example.document_evaluate Example.results = Ok out /\
    rule_group (enhanced_value out) "error" "alt_missing" = Some item' /\
    Js.get item' "domInfo"
    = Some (JArr [getElementInfo Example.document_evaluate (JStr "/html/body/p[1]")]).
Proof.
  destruct (enhanceResultsWithDOMInfo Example.document_evaluate Example.results)
    as [out|] eqn:E; [|vm_compute in E; discriminate E].
  destruct (domInfo_entries Example.document_evaluate Example.results out
              "error" "alt_missing" Example.alt_missing
              [JStr "/html/body/img[1]"; JStr "/html/body/img[1]"; JStr "/html/body/p[1]"]
              E (or_introl eq_refl) eq_refl eq_refl)
    as (item' & infos & H1 & H2 & H3 & _).
  exists out, item'. split; [reflexivity|]. split; [exact H1|].
  rewrite H2, H3. reflexivity.
Defined.

End EnhancerErrors.

(** ** The summary of a report *)

Module SummaryFacts.
Import Summary.

Lemma valid_count_nonneg data :
  _isValidCategoryData data = true -> (0 <= count_field data)%Z.
Proof.
  unfold _isValidCategoryData, count_field. intros H.
  apply andb_true_iff in H as [_ H].
  destruct (Js.get data "count") as [[| |n| | |]|]; try discriminate H.
  apply Z.leb_le, H.
Qed.

Lemma NoDup_map_fst_eq {A B} (l : list (A * B)) k v v' :
  NoDup (List.map fst l) -> In (k, v) l -> In (k, v') l -> v = v'.
Proof.
  induction l as [|[k0 v0] l IH]; cbn [List.map fst]; intros Hnd H1 H2; [destruct H1|].
  apply NoDup_cons in Hnd as [Hn Hnd].
  assert (Hk : forall w, In (k0, w) l -> False).
  { intros w Hw. apply Hn, list_elem_of_In, in_map_iff. exists (k0, w). auto. }
  destruct H1 as [H1|H1], H2 as [H2|H2].
  - congruence.
  - injection H1 as -> _. destruct (Hk _ H2).
  - injection H2 as -> _. destruct (Hk _ H1).
  - exact (IH Hnd H1 H2).
Qed.

(** The summary of an analysis that succeeded and has categories. *)
Lemma summary_of_categories analysisResult cats :
  Js.truthy_opt (Js.get analysisResult "success") = true ->
  Js.get analysisResult "categories" = Some cats -> Js.truthy cats = true ->
  exists s,
    _calculateSummary analysisResult = Ok s /\
    totalIssues s = (errors s + contrastErrors s)%Z /\
    (match Js.get cats "error" with
     | Some d =>
         if Js.truthy d && _isValidCategoryData d
         then errors s = count_field d /\
              In ("error", category_entry "error" d) (categories s)
         else errors s = 0%Z /\ ~ In "error" (List.map fst (categories s))
     | None => errors s = 0%Z /\ ~ In "error" (List.map fst (categories s))
     end) /\
    (match Js.get cats "contrast" with
     | Some d =>
         if Js.truthy d && _isValidCategoryData d
         then contrastErrors s = count_field d /\
              In ("contrast", category_entry "contrast" d) (categories s)
         else contrastErrors s = 0%Z /\ ~ In "contrast" (List.map fst (categories s))
     | None => contrastErrors s = 0%Z /\ ~ In "contrast" (List.map fst (categories s))
     end) /\
    (forall name, In name (List.map fst (categories s)) -> name = "error" \/ name = "contrast") /\
    NoDup (List.map fst (categories s)).
Proof.
  intros Hs Hc Ht.
  assert (Hnn : analysisResult <> JNull) by (intros ->; discriminate Hc).
  unfold _calculateSummary.
  destruct analysisResult as [| | | | |ps]; try congruence; try discriminate Hc.
  rewrite Hs, Hc. cbn [Js.truthy_opt]. rewrite Ht. cbn [negb orb].
  destruct (Js.get cats "error") as [e|];
    [destruct (Js.truthy e && _isValidCategoryData e)|];
    (destruct (Js.get cats "contrast") as [c|];
       [destruct (Js.truthy c && _isValidCategoryData c)|]);
    eexists; (split; [reflexivity|]);
    cbn [totalIssues errors contrastErrors categories app List.map fst snd];
    (split; [lia|]);
    (split; [split; [reflexivity | simpl; intuition discriminate]|]);
    (split; [split; [reflexivity | simpl; intuition discriminate]|]);
    (split; [simpl; intuition (subst; auto)|]);
    apply NoDup_ListNoDup; repeat constructor; simpl; intuition discriminate.
Qed.

(** X14. For every analysis result but [null] the summary comes out
    with [totalIssues = errors + contrastErrors], neither counter below
    zero; its [categories] hold nothing but [error] and [contrast], each
    at most once and with the count of its counter; and the summary of an
    analysis without success or without categories is all zero. *)
Theorem _calculateSummary_totals (analysisResult : json)
  (Hobject : analysisResult <> JNull) :
  exists s,
    _calculateSummary analysisResult = Ok s /\
    totalIssues s = (errors s + contrastErrors s)%Z /\
    (0 <= errors s)%Z /\ (0 <= contrastErrors s)%Z /\
    (forall name e, In (name, e) (categories s) ->
                    (name = "error" /\ count e = errors s) \/
                    (name = "contrast" /\ count e = contrastErrors s)) /\
    NoDup (List.map fst (categories s)) /\
    (Js.truthy_opt (Js.get analysisResult "success") = false \/
     Js.truthy_opt (Js.get analysisResult "categories") = false ->
     totalIssues s = 0%Z /\ categories s = []).
Proof.
  destruct (Js.truthy_opt (Js.get analysisResult "success")) eqn:Hs.
  2: { unfold _calculateSummary. rewrite Hs. cbn [negb orb].
       destruct analysisResult; try congruence; eexists; (split; [reflexivity|]);
         cbn; repeat split; try lia; try constructor; intros ? ? []. }
  destruct (Js.get analysisResult "categories") as [cats|] eqn:Hc.
  2: { unfold _calculateSummary. rewrite Hs, Hc. cbn [negb orb Js.truthy_opt].
       destruct analysisResult; try congruence; eexists; (split; [reflexivity|]);
         cbn; repeat split; try lia; try constructor; intros ? ? []. }
  destruct (Js.truthy cats) eqn:Ht.
  2: { unfold _calculateSummary. rewrite Hs, Hc. cbn [negb orb Js.truthy_opt]. rewrite Ht.
       cbn [negb orb].
       destruct analysisResult; try congruence; eexists; (split; [reflexivity|]);
         cbn; repeat split; try lia; try constructor; intros ? ? []. }
  destruct (summary_of_categories _ _ Hs Hc Ht) as (s & Hsum & Htot & He & Hco & Hnames & Hnd).
  exists s. split; [exact Hsum|]. split; [exact Htot|].
  assert (He0 : (0 <= errors s)%Z /\
                forall e, In ("error", e) (categories s) -> count e = errors s).
  { destruct (Js.get cats "error") as [d|].
    - destruct (Js.truthy d && _isValidCategoryData d) eqn:Ev.
      + destruct He as (-> & Hin). apply andb_true_iff in Ev as [_ Ev].
        split; [apply valid_count_nonneg, Ev|].
        intros e Hin'. apply (NoDup_map_fst_eq _ _ _ _ Hnd Hin') in Hin. subst e. reflexivity.
      + destruct He as [-> Hn]. split; [lia|]. intros e Hin. exfalso. apply Hn.
        apply in_map_iff. exists ("error", e). auto.
    - destruct He as [-> Hn]. split; [lia|]. intros e Hin. exfalso. apply Hn.
      apply in_map_iff. exists ("error", e). auto. }
  assert (Hc0 : (0 <= contrastErrors s)%Z /\
                forall e, In ("contrast", e) (categories s) -> count e = contrastErrors s).
  { destruct (Js.get cats "contrast") as [d|].
    - destruct (Js.truthy d && _isValidCategoryData d) eqn:Ev.
      + destruct Hco as (-> & Hin). apply andb_true_iff in Ev as [_ Ev].
        split; [apply valid_count_nonneg, Ev|].
        intros e Hin'. apply (NoDup_map_fst_eq _ _ _ _ Hnd Hin') in Hin. subst e. reflexivity.
      + destruct Hco as [-> Hn]. split; [lia|]. intros e Hin. exfalso. apply Hn.
        apply in_map_iff. exists ("contrast", e). auto.
    - destruct Hco as [-> Hn]. split; [lia|]. intros e Hin. exfalso. apply Hn.
      apply in_map_iff. exists ("contrast", e). auto. }
  split; [apply He0|]. split; [apply Hc0|]. split; [|split; [exact Hnd|]].
  - intros name e Hin.
    destruct (Hnames name) as [-> | ->]; [apply in_map_iff; exists (name, e); auto | |].
    + left. split; [reflexivity | apply He0, Hin].
    + right. split; [reflexivity | apply Hc0, Hin].
  - intros [H|H]; [discriminate H|]. cbn [Js.truthy_opt] in H. congruence.
Qed.

(** X14 on an analysis with three errors and no contrast category. *)
Lemma _calculateSummary_totals_witness :
  exists s,
    _calculateSummary (JObj [("success", JBool true);
                             ("categories", JObj [("error", JObj [("count", JNum 3)])])])
    = Ok s /\
    totalIssues s = (errors s + contrastErrors s)%Z.
Proof.
  destruct (_calculateSummary_totals
              (JObj [("success", JBool true);
                     ("categories", JObj [("error", JObj [("count", JNum 3)])])]))
    as (s & H1 & H2 & _); [discriminate|].
  exists s. split; [exact H1 | exact H2].
Defined.

(** The rule groups of an items map after the first pass, when each of
    them came with an array of XPaths. *)
Lemma enhanced_counts (doc : string -> Dom.xpath_outcome) ips ips1 :
  mapM (on_values (enhance_item doc)) ips = Ok ips1 -> all_with_xpaths ips ->
  Forall count_well_typed (List.map snd ips1) /\
  fold_right Z.add 0%Z (List.map count_field (List.map snd ips1))
  = Z.of_nat (fold_right Nat.add 0%nat (List.map (fun kv => distinct_xpaths (snd kv)) ips)) /\
  length ips1 = length ips.
Proof.
  intros H Hx. apply mapM_Forall2 in H.
  induction H as [|[k x] [k' y] ips ips1 Hxy _ IH].
  - split; [constructor|]. split; reflexivity.
  - apply Forall_cons in Hx as [[xs Hxs] Hx]. cbn [snd] in Hxs.
    destruct (IH Hx) as (IH1 & IH2 & IH3).
    unfold on_values in Hxy. cbn [fst snd] in Hxy.
    destruct (enhance_item doc x) as [y'|] eqn:Ex; cbn [bind] in Hxy; [|discriminate].
    injection Hxy as <- <-.
    destruct (get_Some_JObj _ _ _ Hxs) as [ps ->]. cbn [Js.get] in Hxs.
    destruct (enhance_item_array doc ps xs Hxs) as (ps' & He & _ & Lc & _).
    rewrite He in Ex. injection Ex as <-.
    assert (Hcf : count_field (JObj ps') = Z.of_nat (distinct_xpaths (JObj ps))).
    { unfold count_field, distinct_xpaths. cbn [Js.get]. rewrite Lc, Hxs. reflexivity. }
    cbn [List.map snd fold_right length]. split; [|split].
    + apply Forall_cons. split; [|exact IH1]. right. cbn [Js.get]. eauto.
    + rewrite Hcf, IH2. lia.
    + rewrite IH3. reflexivity.
Qed.

(** X15. The enhancer and the summary of src/analyzer.js together: for
    a category [error] or [contrast] whose rule groups all hold an array of
    XPaths, the counter of the summary ([errors] or [contrastErrors]) is
    the number of distinct XPaths summed over the rule groups, and the
    entry of the category holds this count and the number of rule
    groups. *)
Theorem summary_counts_distinct_xpaths
  (doc : string -> Dom.xpath_outcome) (results : json) (out : enhanced_results)
  (timestamp : string) (attempts : nat) (cat : string) (c : json)
  (ips : list (string * json))
  (Hout : enhanceResultsWithDOMInfo doc results = Ok out)
  (Hcat : cat = "error" \/ cat = "contrast")
  (Hc : category_of results cat = Some c)
  (Hitems : Js.get c "items" = Some (JObj ips))
  (Hxpaths : all_with_xpaths ips) :
  let total := Z.of_nat (fold_right Nat.add 0%nat
                           (List.map (fun kv => distinct_xpaths (snd kv)) ips)) in
  exists s e,
    _calculateSummary (analysis_result out timestamp attempts) = Ok s /\
    (if String.eqb cat "error" then errors s else contrastErrors s) = total /\
    In (cat, e) (categories s) /\ count e = total /\ items e = length ips /\
    totalIssues s = (errors s + contrastErrors s)%Z.
Proof.
  intros total.
  destruct (enhance_Ok doc _ _ Hout) as (f1 & f2 & H1 & H2 & Hcats & _).
  destruct (get_Some_JObj _ _ _ Hitems) as [cps ->].
  pose proof (mapM_on_values_lookup _ _ _ cat H1) as L1.
  rewrite (filtered0_lookup _ _ Hcat), Hc in L1. cbn [Js.truthy] in L1.
  destruct L1 as (c1 & Hc1 & L1).
  destruct (enhance_category_items doc _ _ _ Hitems Hc1) as (ips1 & Hips & ->).
  pose proof (mapM_on_values_lookup _ _ _ cat H2) as L2.
  rewrite L1 in L2. destruct L2 as (c2 & Hc2 & L2).
  unfold recount_category in Hc2. cbn [Js.get] in Hc2.
  rewrite lookup_set_prop_eq in Hc2. cbn [Js.truthy Js.values] in Hc2.
  destruct (reduce_counts (JNum 0) (List.map snd ips1)) as [tot|] eqn:Et;
    cbn [bind] in Hc2; [|discriminate Hc2].
  injection Hc2 as <-.
  destruct (enhanced_counts doc _ _ Hips Hxpaths) as (Hwt & Hsum & Hlen).
  apply reduce_counts_sum in Et; [|exact Hwt].
  rewrite Hsum in Et. fold total in Et. rewrite Z.add_0_l in Et. subst tot.
  set (c2 := JObj (Js.set_prop "count" (JNum total) (Js.set_prop "items" (JObj ips1) cps)))
    in *.
  assert (Hcount : count_field c2 = total).
  { unfold count_field, c2. cbn [Js.get]. rewrite lookup_set_prop_eq. reflexivity. }
  assert (Hvalid : Js.truthy c2 && _isValidCategoryData c2 = true).
  { unfold _isValidCategoryData, c2. cbn [Js.truthy Js.get andb].
    rewrite lookup_set_prop_eq. apply Z.leb_le. unfold total. lia. }
  assert (Hkeys : keys_count (Js.get c2 "items") = length ips).
  { unfold c2. cbn [Js.get]. rewrite lookup_set_prop_ne by discriminate.
    rewrite lookup_set_prop_eq. cbn [keys_count Js.truthy Js.values].
    rewrite length_map. exact Hlen. }
  destruct (summary_of_categories (analysis_result out timestamp attempts) (JObj f2))
    as (s & Hs & Htot & He & Hco & _).
  { reflexivity. }
  { unfold analysis_result. cbn [Js.get Js.lookup_prop String.eqb Ascii.eqb Bool.eqb].
    rewrite Hcats. reflexivity. }
  { reflexivity. }
  exists s, (category_entry cat c2). split; [exact Hs|].
  cbn [Js.get] in He, Hco.
  destruct Hcat as [-> | ->].
  - rewrite L2, Hvalid in He. destruct He as [He Hin]. cbn [String.eqb Ascii.eqb Bool.eqb].
    split; [rewrite He; exact Hcount|]. split; [exact Hin|].
    split; [exact Hcount|]. split; [exact Hkeys | exact Htot].
  - clear He. rewrite L2, Hvalid in Hco. destruct Hco as [He Hin]. cbn [String.eqb Ascii.eqb Bool.eqb].
    split; [rewrite He; exact Hcount|]. split; [exact Hin|].
    split; [exact Hcount|]. split; [exact Hkeys | exact Htot].
Qed.

(** X15 on the example page: the rule groups of [error] have two distinct
    XPaths each. *)
Lemma summary_counts_distinct_xpaths_witness :
  exists out s,
    enhanceResultsWithDOMInfo Example.document_evaluate Example.results = Ok out /\
    _calculateSummary (analysis_result out "2024-01-01T00:00:00.000Z" 1) = Ok s /\
    errors s = 4%Z.
Proof.
  destruct (enhanceResultsWithDOMInfo Example.document_evaluate Example.results)
    as [out|] eqn:E; [|vm_compute in E; discriminate E].
  destruct (summary_counts_distinct_xpaths
              Example.document_evaluate Example.results out "2024-01-01T00:00:00.000Z" 1
              "error"
              (JObj [("count", JNum 5);
                     ("items", JObj [("alt_missing", Example.alt_missing);
                                     ("label_missing", Example.label_missing)])])
              [("alt_missing", Example.alt_missing); ("label_missing", Example.label_missing)]
              E (or_introl eq_refl) eq_refl eq_refl)
    as (s & e & H1 & H2 & _).
  - repeat constructor; cbn [snd]; eexists; reflexivity.
  - exists out, s. split; [reflexivity|]. split; [exact H1|].
    cbn [String.eqb Ascii.eqb Bool.eqb] in H2. rewrite H2. vm_compute. reflexivity.
Defined.

End SummaryFacts.

(** ** Page loads and delays of a batch *)

Module BatchMeterFacts.
Import Batch BatchMeter.

Section Metered.

Variable world : Type.
Variable report : Type.
Variable analyzeUrl : string -> world -> (report + string) * world.
Variable saveIndividualReport : report -> string -> string -> world -> option string * world.
Variable wait : nat -> world -> world.
Variable config : config.

#[local] Abbreviation m_analyze := (metered_analyzeUrl world report analyzeUrl).
#[local] Abbreviation m_save := (metered_save world report saveIndividualReport).
#[local] Abbreviation m_wait := (metered_wait world wait).
#[local] Abbreviation m_attempt :=
  (attempt_once (world * meter) report m_analyze m_save config).
#[local] Abbreviation m_retry :=
  (retry_loop (world * meter) report m_analyze m_save m_wait config).
#[local] Abbreviation m_loop :=
  (batch_loop (world * meter) report m_analyze m_save m_wait config).

#[local] Abbreviation total_attempts := (total_attempts report).

(** One round of the retry loop is one page load, and waits nothing. *)
Lemma attempt_once_meter u w m :
  exists o w', m_attempt u (w, m)
               = (o, (w', {| loads := (loads m ++ [(u, waited m)])%list;
                             waited := waited m |})).
Proof.
  unfold Batch.attempt_once, metered_analyzeUrl, metered_save. cbn [fst snd].
  destruct (analyzeUrl u w) as [[r|msg] w1]; [|eauto].
  destruct (saveIndividualReports config); [|eauto].
  cbn [fst snd]. destruct (saveIndividualReport r u (outputDir config) w1) as [[msg|] w2]; eauto.
Qed.

(** The times of [n] loads, the first of which is load number [k]: one
    delay lies between any two of them. *)
#[local] Abbreviation times k n := (List.map (fun i => i * delay config)%nat (seq k n)).

Lemma retry_loop_meter u : forall n fuel attempt w m,
  (maxRetries config - attempt = S n)%nat -> (n < fuel)%nat ->
  waited m = (length (loads m) * delay config)%nat ->
  exists r w' m',
    m_retry u fuel attempt (w, m) = Some (Some r, (w', m')) /\
    url r = u /\ (attempt < attempts r <= maxRetries config)%nat /\
    List.map fst (loads m')
    = (List.map fst (loads m) ++ repeat u (attempts r - attempt))%list /\
    List.map snd (loads m')
    = (List.map snd (loads m) ++ times (length (loads m)) (attempts r - attempt))%list /\
    (waited m' + delay config = length (loads m') * delay config)%nat.
Proof.
  induction n as [|n IH]; intros fuel attempt w m Hm Hfuel Hinv;
    (destruct fuel as [|fuel]; [lia|]); cbn [Batch.retry_loop];
    (destruct (Nat.ltb_spec attempt (maxRetries config)); [|lia]);
    destruct (attempt_once_meter u w m) as (o & w1 & ->); destruct o as [r|msg].
  - eexists _, _, _. split; [reflexivity|]. cbn [url attempts loads waited].
    replace (attempt + 1 - attempt)%nat with 1%nat by lia. cbn [repeat seq List.map].
    rewrite !map_app, length_app. cbn [List.map fst snd length]. rewrite Hinv.
    repeat split; try reflexivity; lia.
  - destruct (Nat.leb_spec (maxRetries config) (S attempt)); [|lia].
    eexists _, _, _. split; [reflexivity|]. cbn [url attempts loads waited].
    replace (S attempt - attempt)%nat with 1%nat by lia. cbn [repeat seq List.map].
    rewrite !map_app, length_app. cbn [List.map fst snd length]. rewrite Hinv.
    repeat split; try reflexivity; lia.
  - eexists _, _, _. split; [reflexivity|]. cbn [url attempts loads waited].
    replace (attempt + 1 - attempt)%nat with 1%nat by lia. cbn [repeat seq List.map].
    rewrite !map_app, length_app. cbn [List.map fst snd length]. rewrite Hinv.
    repeat split; try reflexivity; lia.
  - destruct (Nat.leb_spec (maxRetries config) (S attempt)); [lia|].
    unfold metered_wait at 1. cbn [fst snd loads waited].
    destruct (IH fuel (S attempt) (wait (delay config) w1)
                 {| loads := (loads m ++ [(u, waited m)])%list;
                    waited := waited m + delay config |})
      as (r & w' & m' & Hr & Hu & Ha & Hl & Ht & Hw); [lia | lia | |].
    { cbn [loads waited]. rewrite length_app. cbn [length]. lia. }
    exists r, w', m'. split; [exact Hr|]. cbn [loads waited] in Hl, Ht.
    split; [exact Hu|]. split; [lia|].
    replace (attempts r - attempt)%nat with (S (attempts r - S attempt)) by lia.
    cbn [repeat seq List.map].
    rewrite Hl, Ht, !map_app, length_app, <- !app_assoc. cbn [List.map fst snd length app].
    rewrite Hinv, Nat.add_1_r. split; [reflexivity|]. split; [reflexivity | exact Hw].
Qed.

Lemma batch_loop_meter total : forall urls i w m,
  (1 <= maxRetries config)%nat -> total = (i + length urls)%nat ->
  waited m = (length (loads m) * delay config)%nat ->
  exists rs w' m',
    m_loop total i urls (w, m) = Some (List.map Some rs, (w', m')) /\
    List.map url rs = urls /\
    Forall (fun r => 1 <= attempts r <= maxRetries config)%nat rs /\
    List.map fst (loads m') = (List.map fst (loads m) ++ attempted report rs)%list /\
    List.map snd (loads m')
    = (List.map snd (loads m) ++ times (length (loads m)) (total_attempts rs))%list /\
    (waited m' + (if urls is [] then 0 else delay config)
     = length (loads m') * delay config)%nat.
Proof.
  induction urls as [|u urls IH]; intros i w m Hmax Htotal Hinv; cbn [Batch.batch_loop].
  - exists [], w, m. split; [reflexivity|]. split; [reflexivity|].
    split; [apply Forall_nil; exact I|]. unfold attempted, BatchMeter.total_attempts.
    cbn [List.map concat fold_right seq]. rewrite !app_nil_r.
    repeat split; lia.
  - destruct (retry_loop_meter u (maxRetries config - 1) (S (maxRetries config)) 0 w m)
      as (r & w1 & m1 & Hr & Hu & Ha & Hl & Ht & Hw); [lia | lia | exact Hinv |].
    rewrite Nat.sub_0_r in Hl, Ht.
    unfold Batch._processUrlWithRetry. rewrite Hr.
    set (w2 := if (i <? total - 1)%nat && (0 <? delay config)%nat
               then m_wait (delay config) (w1, m1) else (w1, m1)).
    assert (Hw2 : exists w2', w2 = (w2', {| loads := loads m1;
                                            waited := waited m1
                                                      + (if urls is [] then 0
                                                         else delay config) |})).
    { unfold w2. cbn [length] in Htotal.
      destruct (Nat.ltb_spec i (total - 1)) as [Hi|Hi]; cbn [andb].
      - destruct urls as [|u' urls]; [cbn [length] in Htotal; lia|].
        destruct (Nat.ltb_spec 0 (delay config)) as [Hd|Hd].
        + eexists. reflexivity.
        + exists w1. f_equal. destruct m1 as [l1 t1]. cbn [loads waited]. f_equal. lia.
      - destruct urls as [|u' urls]; [|cbn [length] in Htotal; lia].
        exists w1. f_equal. destruct m1 as [l1 t1]. cbn [loads waited]. f_equal. lia. }
    destruct Hw2 as [w2' ->].
    rewrite <- Hu in Hl.
    assert (Hlen1 : length (loads m1) = (length (loads m) + attempts r)%nat).
    { rewrite <- (length_map fst (loads m1)), Hl, length_app, length_map, repeat_length.
      reflexivity. }
    destruct urls as [|u' urls].
    + cbn [Batch.batch_loop]. exists [r], w2', {| loads := loads m1; waited := waited m1 + 0 |}.
      split; [reflexivity|]. cbn [loads waited List.map].
      split; [rewrite Hu; reflexivity|].
      split; [apply Forall_cons; split; [lia | apply Forall_nil; exact I]|].
      unfold attempted, BatchMeter.total_attempts. cbn [List.map concat fold_right].
      rewrite app_nil_r, Nat.add_0_r. split; [exact Hl|]. split; [exact Ht|]. lia.
    + destruct (IH (S i) w2' {| loads := loads m1; waited := waited m1 + delay config |} Hmax)
        as (rs & w3 & m3 & Hrs & Hus & Has & Hls & Hts & Hws);
        [cbn [length] in Htotal |- *; lia | cbn [loads waited]; lia |].
      rewrite Hrs. exists (r :: rs), w3, m3. split; [reflexivity|].
      cbn [loads waited] in Hls, Hts, Hws.
      split; [cbn [List.map]; rewrite Hu, Hus; reflexivity|].
      split; [apply Forall_cons; split; [lia | exact Has]|].
      unfold attempted, BatchMeter.total_attempts in *. cbn [List.map concat fold_right].
      split; [rewrite Hls, Hl, <- app_assoc; reflexivity|].
      split; [|exact Hws].
      rewrite Hts, Ht, <- app_assoc, Hlen1. f_equal.
      rewrite seq_app, map_app. reflexivity.
Qed.

Lemma total_attempts_bounds (rs : list (url_result report)) n :
  Forall (fun r => 1 <= attempts r <= n)%nat rs ->
  (length rs <= total_attempts rs <= n * length rs)%nat.
Proof.
  induction 1 as [|r rs Hr _ IH]; unfold BatchMeter.total_attempts in *;
    cbn [List.map fold_right length];
    [lia|]. nia.
Qed.

Lemma length_attempted (rs : list (url_result report)) :
  length (attempted report rs) = total_attempts rs.
Proof.
  unfold attempted, BatchMeter.total_attempts.
  induction rs as [|r rs IH]; [reflexivity|].
  cbn [List.map concat fold_right]. rewrite length_app, repeat_length, IH. reflexivity.
Qed.

(** The batch without a single round of the retry loop. *)
Lemma batch_loop_no_rounds total : forall urls i (w : world),
  maxRetries config = 0%nat -> total = (i + length urls)%nat ->
  batch_loop world report analyzeUrl saveIndividualReport wait config total i urls w
  = Some (repeat None (length urls),
          Nat.iter (if (0 <? delay config)%nat then length urls - 1 else 0)
                   (wait (delay config)) w).
Proof.
  induction urls as [|u urls IH]; intros i w Hzero Htotal; cbn [Batch.batch_loop].
  - destruct (0 <? delay config)%nat; reflexivity.
  - unfold Batch._processUrlWithRetry. rewrite Hzero. cbn [Batch.retry_loop].
    rewrite Hzero, Nat.ltb_irrefl.
    rewrite (IH (S i)); [|exact Hzero | cbn [length] in Htotal; lia].
    cbn [repeat length]. f_equal. f_equal.
    cbn [length] in Htotal.
    destruct (Nat.ltb_spec 0 (delay config)) as [Hd|Hd].
    + destruct (Nat.ltb_spec i (total - 1)) as [Hi|Hi]; cbn [andb].
      * destruct urls as [|u' urls]; [cbn [length] in Htotal; lia|].
        cbn [length]. replace (S (S (length urls)) - 1)%nat with (S (S (length urls) - 1))
          by lia.
        rewrite Nat.iter_succ_r. reflexivity.
      * destruct urls as [|u' urls]; [reflexivity | cbn [length] in Htotal; lia].
    + rewrite andb_false_r. reflexivity.
Qed.

End Metered.

(** X16. With [maxRetries >= 1] a batch calls [analyzeUrl] for the
    URLs in their order, for each URL as often as its record tells in
    [attempts], which is at least once and at most [maxRetries] times;
    and it waits [config.delay] exactly once between any two consecutive
    calls and at no other time: call number [k] (from 0) is made when [k]
    delays have been waited, and nothing is waited after the last call,
    whatever the outcome of the calls. *)
Theorem batch_page_loads
  (world report : Type)
  (analyzeUrl : string -> world -> (report + string) * world)
  (saveIndividualReport : report -> string -> string -> world -> option string * world)
  (wait : nat -> world -> world)
  (config : config) (urls : list string) (w : world)
  (Hmax : (1 <= maxRetries config)%nat) :
  exists rs summary w' m,
    metered_analyzeBatch world report analyzeUrl saveIndividualReport wait config urls w
    = Some (List.map Some rs, Ok summary, (w', m)) /\
    List.map url rs = urls /\
    Forall (fun r => 1 <= attempts r <= maxRetries config)%nat rs /\
    List.map fst (loads m)
    = concat (List.map (fun r => repeat (url r) (attempts r)) rs) /\
    List.map snd (loads m)
    = List.map (fun k => k * delay config)%nat (seq 0 (length (loads m))) /\
    length (loads m) = fold_right Nat.add 0%nat (List.map attempts rs) /\
    (length urls <= length (loads m) <= maxRetries config * length urls)%nat /\
    waited m = ((length (loads m) - 1) * delay config)%nat.
Proof.
  unfold metered_analyzeBatch, Batch.analyzeBatch.
  destruct (batch_loop_meter world report analyzeUrl saveIndividualReport wait config
              (length urls) urls 0 w zero Hmax eq_refl eq_refl)
    as (rs & w' & m & Hrs & Hus & Has & Hl & Ht & Hw).
  rewrite Hrs. cbn [loads waited zero List.map app length] in Hl, Ht.
  assert (Hsum : exists summary,
             _createBatchSummary report (List.map Some rs) (length urls) = Ok summary).
  { unfold _createBatchSummary.
    assert (Hm : mapM (success_of report) (List.map Some rs) = Ok (List.map success rs)).
    { clear. induction rs as [|r rs IH]; [reflexivity|].
      cbn [List.map mapM]. rewrite IH. reflexivity. }
    rewrite Hm. cbn [bind]. eauto. }
  destruct Hsum as [summary Hsum]. rewrite Hsum.
  exists rs, summary, w', m. split; [reflexivity|]. split; [exact Hus|].
  split; [exact Has|]. split; [exact Hl|].
  assert (Hlen : length (loads m) = BatchMeter.total_attempts report rs).
  { rewrite <- (length_map fst (loads m)), Hl. apply length_attempted. }
  split; [rewrite Ht, Hlen; reflexivity|]. split; [exact Hlen|].
  pose proof (total_attempts_bounds report rs _ Has) as Hb.
  assert (Hrl : length rs = length urls) by (rewrite <- Hus, length_map; reflexivity).
  rewrite Hlen. split; [lia|].
  destruct urls as [|u urls].
  - destruct rs; [|discriminate Hrl]. cbn in *. lia.
  - cbn [length] in Hrl. rewrite <- Hlen.
    assert (Hn : (1 <= length (loads m))%nat) by lia.
    replace (length (loads m)) with (S (length (loads m) - 1)) in Hw at 1 by lia. lia.
Qed.

(** X16 on the batch of three URLs of the example, the second of which
    fails at both of its attempts: four calls, at 0, 1, 2 and 3 seconds
    of waiting. *)
Lemma batch_page_loads_witness :
  exists rs summary w' m,
    metered_analyzeBatch nat string Example.analyzeUrl Example.saveIndividualReport
      Example.wait Example.config Example.urls 0%nat
    = Some (List.map Some rs, Ok summary, (w', m)) /\
    loads m = [("https://a.example/", 0%nat); ("https://b.example/", 1000%nat);
               ("https://b.example/", 2000%nat); ("https://c.example/", 3000%nat)] /\
    waited m = 3000%nat.
Proof.
  destruct (batch_page_loads nat string Example.analyzeUrl Example.saveIndividualReport
              Example.wait Example.config Example.urls 0%nat)
    as (rs & summary & w' & m & H1 & _).
  - cbn. lia.
  - exists rs, summary, w', m. split; [exact H1|].
    vm_compute in H1. injection H1 as _ _ _ <-. split; reflexivity.
Defined.

(** X17. With [maxRetries = 0] the batch analyses nothing: no page is
    loaded, every URL gets [undefined] for its record, and building the
    summary of a batch that is not empty throws a [TypeError]; the delays
    between the URLs are still waited. *)
Theorem batch_without_rounds
  (world report : Type)
  (analyzeUrl : string -> world -> (report + string) * world)
  (saveIndividualReport : report -> string -> string -> world -> option string * world)
  (wait : nat -> world -> world)
  (config : config) (urls : list string) (w : world)
  (Hzero : maxRetries config = 0%nat) :
  Batch.analyzeBatch world report analyzeUrl saveIndividualReport wait config urls w
  = Some (repeat None (length urls),
          match urls with
          | [] => Ok {| totalUrls := 0; successful := 0; failed := 0; results := [] |}
          | _ :: _ =>
              Throw (TypeError "Cannot read properties of undefined (reading 'success')")
          end,
          Nat.iter (if (0 <? delay config)%nat then length urls - 1 else 0)
                   (wait (delay config)) w).
Proof.
  unfold Batch.analyzeBatch.
  rewrite (batch_loop_no_rounds world report analyzeUrl saveIndividualReport wait config
             (length urls) urls 0 w Hzero eq_refl).
  destruct urls as [|u urls]; reflexivity.
Qed.

(** X17 on the three URLs of the example. *)
Lemma batch_without_rounds_witness :
  exists w',
    Batch.analyzeBatch nat string Example.analyzeUrl Example.saveIndividualReport
      Example.wait
      {| outputDir := "./reports"; delay := 1000; maxRetries := 0;
         saveIndividualReports := true |} Example.urls 0%nat
    = Some ([None; None; None],
            Throw (TypeError "Cannot read properties of undefined (reading 'success')"), w').
Proof.
  eexists.
  exact (batch_without_rounds nat string Example.analyzeUrl Example.saveIndividualReport
           Example.wait
           {| outputDir := "./reports"; delay := 1000; maxRetries := 0;
              saveIndividualReports := true |} Example.urls 0%nat eq_refl).
Defined.

End BatchMeterFacts.

(** ** The rows of the CSV report *)

Module ReportFacts.
Import Report.

#[local] Abbreviation replace_error :=
  (TypeError "domInfo.className.replace is not a function").

Lemma elementInfo_throws rule index xpath e :
  elementInfo rule index xpath = Throw e -> e = replace_error.
Proof.
  unfold elementInfo.
  destruct (match Js.get rule "domInfo" with
            | Some (JArr infos) => nth_error infos index
            | _ => None
            end) as [[| | | | |info]|]; try discriminate.
  destruct (Js.truthy_opt (Js.lookup_prop "error" info)); [discriminate|].
  destruct (Js.lookup_prop "className" info) as [[|[]|n|s| |]|]; try discriminate;
    try (intros [= <-]; reflexivity).
  - destruct (Js.truthy (JNum n)); [intros [= <-]; reflexivity | discriminate].
  - destruct (Js.truthy (JStr s)); discriminate.
Qed.


Lemma row_shaped c ruleId rule index xpath r :
  row c ruleId rule index xpath = Ok r ->
  shaped c r /\ column 0 r = ruleId /\ column 5 r = xpath /\
  column 3 r = described ruleId rule /\ column 6 r = selector_column rule index.
Proof.
  unfold row. destruct (elementInfo (domInfo_of rule) index xpath) as [el|]; cbn [bind];
    [|discriminate].
  intros [= <-]. unfold shaped, column. cbn [nth length].
  destruct c; repeat split.
Qed.

Lemma row_throws c ruleId rule index xpath e :
  row c ruleId rule index xpath = Throw e -> e = replace_error.
Proof.
  unfold row. destruct (elementInfo (domInfo_of rule) index xpath) as [el|e'] eqn:E;
    cbn [bind]; [discriminate|].
  intros [= <-]. exact (elementInfo_throws _ _ _ _ E).
Qed.

Lemma rows_from_ok c ruleId rule : forall xs index rs,
  rows_from c ruleId rule index xs = Ok rs ->
  Forall (shaped c) rs /\
  List.map (column 5) rs = xs /\
  List.map (column 0) rs = repeat ruleId (length xs) /\
  (forall k x, nth_error xs k = Some x ->
               exists r, row c ruleId rule (index + k) x = Ok r).
Proof.
  induction xs as [|x xs IH]; intros index rs; cbn [rows_from].
  - intros [= <-]. split; [constructor|]. split; [reflexivity|]. split; [reflexivity|].
    intros [|k] x H; discriminate H.
  - destruct (row c ruleId rule index x) as [r|] eqn:Er; cbn [bind]; [|discriminate].
    destruct (rows_from c ruleId rule (S index) xs) as [rs'|] eqn:Ers; cbn [bind];
      [|discriminate].
    intros [= <-]. destruct (IH _ _ Ers) as (H1 & H2 & H3 & H4).
    destruct (row_shaped _ _ _ _ _ _ Er) as (Hs & H0 & H5 & _).
    split; [constructor; assumption|]. cbn [List.map length repeat].
    split; [rewrite H5, H2; reflexivity|]. split; [rewrite H0, H3; reflexivity|].
    intros [|k] y Hk.
    + injection Hk as <-. rewrite Nat.add_0_r. eauto.
    + replace (index + S k)%nat with (S index + k)%nat by lia. apply H4, Hk.
Qed.

Lemma rows_from_throws c ruleId rule : forall xs index e,
  rows_from c ruleId rule index xs = Throw e -> e = replace_error.
Proof.
  induction xs as [|x xs IH]; intros index e; cbn [rows_from]; [discriminate|].
  destruct (row c ruleId rule index x) as [r|e'] eqn:Er; cbn [bind].
  - destruct (rows_from c ruleId rule (S index) xs) as [rs'|e'] eqn:Ers; cbn [bind];
      [discriminate|].
    intros [= <-]. exact (IH _ _ Ers).
  - intros [= <-]. exact (row_throws _ _ _ _ _ _ Er).
Qed.


Lemma rows_of_rule_throws c entry e :
  rows_of_rule c entry = Throw e -> e = replace_error.
Proof.
  unfold rows_of_rule. destruct (0 <? count (snd entry))%Z; [|discriminate].
  apply rows_from_throws.
Qed.

Lemma rules_ok c : forall rules rss,
  mapM (rows_of_rule c) rules = Ok rss ->
  let shown := List.filter (fun entry => (0 <? count (snd entry))%Z) rules in
  Forall (shaped c) (concat rss) /\
  List.map (column 5) (concat rss) = distinct_of shown /\
  List.map (column 0) (concat rss) = ids_of shown.
Proof.
  induction rules as [|[ruleId rule] rules IH]; intros rss; cbn [mapM].
  - intros [= <-]. split; [constructor|]. split; reflexivity.
  - destruct (rows_of_rule c (ruleId, rule)) as [rs|] eqn:Er; cbn [bind]; [|discriminate].
    destruct (mapM (rows_of_rule c) rules) as [rss'|] eqn:Em; cbn [bind]; [|discriminate].
    intros [= <-]. destruct (IH _ eq_refl) as (H1 & H2 & H3).
    cbn [concat List.filter snd]. unfold rows_of_rule in Er. cbn [fst snd] in Er.
    rewrite !map_app, H2, H3.
    destruct (0 <? count rule)%Z.
    + destruct (rows_from_ok _ _ _ _ _ _ Er) as (R1 & R2 & R3 & _).
      unfold distinct_of, ids_of. cbn [List.map concat fst snd].
      rewrite R2, R3. split; [apply Forall_app; split; assumption|]. split; reflexivity.
    + injection Er as <-. split; [exact H1|]. split; reflexivity.
Qed.

Lemma category_ok c data rs :
  rows_of_category c data = Ok rs ->
  Forall (shaped c) rs /\
  List.map (column 5) rs = distinct_of (reported data) /\
  List.map (column 0) rs = ids_of (reported data).
Proof.
  unfold rows_of_category, reported. destruct data as [data|].
  2: { intros [= <-]. split; [constructor|]. split; reflexivity. }
  destruct (0 <? category_count data)%Z.
  2: { intros [= <-]. split; [constructor|]. split; reflexivity. }
  destruct (mapM (rows_of_rule c) (items data)) as [rss|] eqn:E; cbn [bind]; [|discriminate].
  intros [= <-]. exact (rules_ok c _ _ E).
Qed.

Lemma category_throws c data e :
  rows_of_category c data = Throw e -> e = replace_error.
Proof.
  unfold rows_of_category. destruct data as [data|]; [|discriminate].
  destruct (0 <? category_count data)%Z; [|discriminate].
  destruct (mapM (rows_of_rule c) (items data)) as [rss|e'] eqn:E; cbn [bind]; [discriminate|].
  intros [= <-]. apply EnhancerErrors.mapM_throw in E as (entry & _ & He).
  exact (rows_of_rule_throws _ _ _ He).
Qed.

(** The rows a reported rule would give are all pushed when the
    category returns. *)
Lemma category_rows_pushed c data rs ruleId rule k x :
  rows_of_category c data = Ok rs ->
  In (ruleId, rule) (reported data) -> nth_error (unique (xpaths rule)) k = Some x ->
  exists r, row c ruleId rule k x = Ok r.
Proof.
  unfold rows_of_category, reported. destruct data as [data|]; [|intros _ []].
  destruct (0 <? category_count data)%Z; [|intros _ []].
  destruct (mapM (rows_of_rule c) (items data)) as [rss|] eqn:E; cbn [bind]; [|discriminate].
  intros _ Hin Hk. apply filter_In in Hin as [Hin Hpos]. cbn [snd] in Hpos.
  apply mapM_Forall2 in E.
  induction E as [|entry rs' rules rss Hr _ IH]; [destruct Hin|].
  destruct Hin as [->|Hin]; [|exact (IH Hin)].
  unfold rows_of_rule in Hr. cbn [fst snd] in Hr. rewrite Hpos in Hr.
  destruct (rows_from_ok _ _ _ _ _ _ Hr) as (_ & _ & _ & H). exact (H k x Hk).
Qed.


(** X18. Every row of the CSV report has nine columns; the rows of the
    category [error] come first, marked [ERROR] and [Critical], those of
    [contrast] after them, marked [CONTRAST] and [Serious]; and the last
    column of a row is the WAVE help URL of the rule in its first. *)
Theorem csvRows_shape (waveResults : WaveReport) (rows : list (list string))
  (Hrows : csvRows waveResults = Ok rows) :
  exists errors contrasts,
    rows = (errors ++ contrasts)%list /\
    Forall (shaped Error) errors /\ Forall (shaped Contrast) contrasts /\
    Forall (fun r => length r = 9%nat /\
                     column 8 r = "https://wave.webaim.org/help#" +:+ column 0 r) rows.
Proof.
  unfold csvRows in Hrows.
  destruct (rows_of_category Error (error waveResults)) as [es|] eqn:Ee; cbn [bind] in Hrows;
    [|discriminate].
  destruct (rows_of_category Contrast (contrast waveResults)) as [cs|] eqn:Ec;
    cbn [bind] in Hrows; [|discriminate].
  injection Hrows as <-.
  destruct (category_ok _ _ _ Ee) as (He & _). destruct (category_ok _ _ _ Ec) as (Hc & _).
  exists es, cs. split; [reflexivity|]. split; [exact He|]. split; [exact Hc|].
  apply Forall_app. split; (eapply Forall_impl; [eassumption|]);
    intros r (H9 & _ & _ & H8); split; assumption.
Qed.

(** X18 on the sample report: three rows. *)
Lemma csvRows_shape_witness :
  exists rows errors contrasts,
    csvRows Sample.report = Ok rows /\ rows = (errors ++ contrasts)%list /\
    Forall (shaped Error) errors /\ Forall (shaped Contrast) contrasts /\
    length rows = 3%nat.
Proof.
  destruct (csvRows Sample.report) as [rows|] eqn:E; [|vm_compute in E; discriminate E].
  destruct (csvRows_shape Sample.report rows E) as (es & cs & H1 & H2 & H3 & _).
  exists rows, es, cs. split; [reflexivity|]. split; [exact H1|]. split; [exact H2|].
  split; [exact H3|]. vm_compute in E. injection E as <-. reflexivity.
Defined.

Lemma existsb_eqb_In x acc : existsb (String.eqb x) acc = true <-> In x acc.
Proof.
  rewrite existsb_exists. split.
  - intros (y & Hy & He). apply String.eqb_eq in He. subst. exact Hy.
  - intros H. exists x. split; [exact H | apply String.eqb_refl].
Qed.

Lemma unique_fold xs : forall acc,
  List.NoDup acc ->
  List.NoDup (fold_left (fun seen x => if existsb (String.eqb x) seen then seen
                                       else (seen ++ [x])%list) xs acc) /\
  (forall x, In x (fold_left (fun seen x => if existsb (String.eqb x) seen then seen
                                            else (seen ++ [x])%list) xs acc)
             <-> In x acc \/ In x xs).
Proof.
  induction xs as [|y xs IH]; intros acc Hnd; cbn [fold_left].
  - split; [exact Hnd|]. intros x. cbn [In]. tauto.
  - destruct (existsb (String.eqb y) acc) eqn:E.
    + destruct (IH acc Hnd) as [H1 H2]. split; [exact H1|].
      intros x. rewrite H2. cbn [In]. apply existsb_eqb_In in E.
      split; [tauto|]. intros [H|[<-|H]]; auto.
    + assert (Hn : ~ In y acc) by (rewrite <- existsb_eqb_In, E; discriminate).
      destruct (IH (acc ++ [y])%list) as [H1 H2].
      { apply List.NoDup_app; [exact Hnd | repeat constructor; intros [] |].
        intros x Hx [<-|[]]. exact (Hn Hx). }
      split; [exact H1|]. intros x. rewrite H2, in_app_iff. cbn [In]. tauto.
Qed.

(** The strings of a [Set] of strings are what [unique] keeps. *)
Lemma unique_as_spread_set xs :
  List.map JStr (unique xs) = Js.spread_set (List.map JStr xs).
Proof.
  assert (H : forall acc,
             List.map JStr (fold_left (fun seen x => if existsb (String.eqb x) seen then seen
                                                     else (seen ++ [x])%list) xs acc)
             = fold_left Js.set_add (List.map JStr xs) (List.map JStr acc)).
  { induction xs as [|x xs IH]; intros acc; cbn [fold_left List.map]; [reflexivity|].
    rewrite IH. f_equal. unfold Js.set_add.
    assert (E : existsb (Js.sameValueZero (JStr x)) (List.map JStr acc)
                = existsb (String.eqb x) acc).
    { apply eq_true_iff_eq. rewrite existsb_sameValueZero_strings, existsb_eqb_In. tauto. }
    rewrite E. destruct (existsb (String.eqb x) acc); [reflexivity|].
    rewrite map_app. reflexivity. }
  exact (H []).
Qed.

(** What [unique] keeps of a list: every string of the list once, in the
    order of the first occurrences. *)
Lemma unique_spec xs :
  List.NoDup (unique xs) /\ (forall x, In x (unique xs) <-> In x xs) /\
  StronglySorted lt (List.map (fun x => first_index x xs) (unique xs)) /\
  (length (unique xs) <= length xs)%nat.
Proof.
  destruct (unique_fold xs [] (List.NoDup_nil _)) as [H1 H2].
  split; [exact H1|]. split; [intros x; rewrite (H2 x); cbn [In]; tauto|]. split.
  - destruct (spread_set_strings xs) as (us & Heq & _ & _ & Hsorted).
    rewrite <- unique_as_spread_set in Heq.
    assert (Hus : unique xs = us).
    { revert Heq. generalize (unique xs) as l. clear. intros l. revert us.
      induction l as [|x l IH]; intros [|u us] H; try discriminate H; [reflexivity|].
      injection H as -> H. rewrite (IH us H). reflexivity. }
    rewrite Hus. exact Hsorted.
  - apply List.NoDup_incl_length; [exact H1|]. intros x Hx. apply H2 in Hx as [[]|Hx].
    exact Hx.
Qed.

(** X19. The XPath column of the report lists, rule after rule, the
    distinct XPaths of the reported rules, with the rule in the first
    column: each XPath of a rule once, in the order of the first
    occurrences in the list of the rule.  The rules reported are those
    with a positive count in a category with a positive count, in their
    order, the category [error] first.  So the number of rows is the
    number of distinct XPaths of these rules. *)
Theorem csvRows_list_distinct_xpaths (waveResults : WaveReport) (rows : list (list string))
  (Hrows : csvRows waveResults = Ok rows) :
  let rules := (reported (error waveResults) ++ reported (contrast waveResults))%list in
  exists listed : list (list string),
    List.map (column 5) rows = concat listed /\
    List.map (column 0) rows
    = concat (List.map (fun p => repeat (fst (fst p)) (length (snd p))) (combine rules listed)) /\
    Forall2 (fun entry xs =>
               (0 < count (snd entry))%Z /\
               List.NoDup xs /\
               (forall x, In x xs <-> In x (xpaths (snd entry))) /\
               StronglySorted lt (List.map (fun x => first_index x (xpaths (snd entry))) xs))
            rules listed /\
    length rows = fold_right Nat.add 0%nat (List.map (@length string) listed) /\
    (forall entry, In entry rules <->
       (exists data, (error waveResults = Some data \/ contrast waveResults = Some data) /\
                     (0 < category_count data)%Z /\ In entry (items data) /\
                     (0 < count (snd entry))%Z)).
Proof.
  intros rules. unfold csvRows in Hrows.
  destruct (rows_of_category Error (error waveResults)) as [es|] eqn:Ee; cbn [bind] in Hrows;
    [|discriminate].
  destruct (rows_of_category Contrast (contrast waveResults)) as [cs|] eqn:Ec;
    cbn [bind] in Hrows; [|discriminate].
  injection Hrows as <-.
  destruct (category_ok _ _ _ Ee) as (_ & He5 & He0).
  destruct (category_ok _ _ _ Ec) as (_ & Hc5 & Hc0).
  exists (List.map (fun entry => unique (xpaths (snd entry))) rules).
  assert (H5 : List.map (column 5) (es ++ cs) = distinct_of rules).
  { unfold rules, distinct_of. rewrite !map_app, concat_app, He5, Hc5. reflexivity. }
  split; [exact H5|]. split; [|split; [|split]].
  - transitivity (ids_of rules).
    + unfold rules, ids_of. rewrite !map_app, concat_app, He0, Hc0. reflexivity.
    + unfold ids_of. f_equal. clear. induction rules as [|entry rules IH]; [reflexivity|].
      cbn [List.map combine fst snd]. rewrite IH. reflexivity.
  - assert (Hpos : Forall (fun entry => (0 < count (snd entry))%Z) rules).
    { apply Forall_forall. intros entry Hin. apply list_elem_of_In in Hin.
      unfold rules, reported in Hin. apply in_app_iff in Hin.
      destruct Hin as [Hin|Hin];
        [destruct (error waveResults) as [d|] | destruct (contrast waveResults) as [d|]];
        try destruct Hin;
        (destruct (0 <? category_count d)%Z; [|destruct Hin]);
        apply filter_In in Hin as [_ Hin]; apply Z.ltb_lt, Hin. }
    clear - Hpos. induction Hpos as [|entry rules Hp _ IH]; cbn [List.map]; constructor;
      [|exact IH].
    destruct (unique_spec (xpaths (snd entry))) as (H1 & H2 & H3 & _).
    split; [exact Hp|]. split; [exact H1|]. split; [exact H2 | exact H3].
  - rewrite <- (length_map (column 5)), H5. unfold distinct_of. clear.
    induction rules as [|entry rules IH]; [reflexivity|].
    cbn [List.map concat fold_right]. rewrite length_app, IH. reflexivity.
  - intros entry. unfold rules, reported. rewrite in_app_iff. split.
    + intros [Hin|Hin];
        [destruct (error waveResults) as [d|] | destruct (contrast waveResults) as [d|]];
        try destruct Hin;
        (destruct (0 <? category_count d)%Z eqn:Hd; [|destruct Hin]);
        apply filter_In in Hin as [Hin Hc]; exists d;
        (split; [auto|]); (split; [apply Z.ltb_lt, Hd|]);
        (split; [exact Hin | apply Z.ltb_lt, Hc]).
    + intros (data & [Hd|Hd] & Hpos & Hin & Hc); [left | right]; rewrite Hd;
        apply Z.ltb_lt in Hpos; rewrite Hpos; apply filter_In;
        (split; [exact Hin | apply Z.ltb_lt, Hc]).
Qed.

(** X19 on the sample report: the rule [alt_missing] lists its XPaths
    [img, img, p] as [img, p]. *)
Lemma csvRows_list_distinct_xpaths_witness :
  exists rows listed,
    csvRows Sample.report = Ok rows /\
    List.map (column 5) rows = concat listed /\
    Forall2 (fun entry xs =>
               List.NoDup xs /\ (forall x, In x xs <-> In x (xpaths (snd entry))))
            [("alt_missing", Sample.image_rule); ("contrast", Sample.contrast_low)] listed /\
    List.map (column 5) rows = ["/html/body/img[1]"; "/html/body/p[1]"; "/html/body/p[1]"].
Proof.
  destruct (csvRows Sample.report) as [rows|] eqn:E; [|vm_compute in E; discriminate E].
  destruct (csvRows_list_distinct_xpaths Sample.report rows E) as (listed & H5 & _ & HF & _).
  exists rows, listed. split; [reflexivity|]. split; [exact H5|]. split.
  - eapply Forall2_impl; [exact HF|]. intros entry xs (_ & H1 & H2 & _). split; assumption.
  - vm_compute in E. injection E as <-. reflexivity.
Defined.




(** X21. An SVG element with an [id] among the elements of a reported
    rule makes the report fail: the entry the enhancer made for it holds
    an object for its class name, and the loop that builds the rows throws
    the [TypeError] of [domInfo.className.replace], whatever the other
    rules hold. *)
Theorem svg_element_aborts_report
  (doc : string -> Dom.xpath_outcome) (waveResults : WaveReport)
  (ruleId : string) (rule : WaveRuleData) (infos : list json) (index : nat)
  (x : string) (xpath : json) (e : Dom.element)
  (Hreported : In (ruleId, rule) (reported (error waveResults)) \/
               In (ruleId, rule) (reported (contrast waveResults)))
  (Hindex : nth_error (unique (xpaths rule)) index = Some x)
  (Hinfos : domInfo rule = Some infos)
  (Hentry : nth_error infos index = Some (getElementInfo doc xpath))
  (Hnode : doc (Js.toString xpath) = Dom.SingleNodeValue (Some (Dom.ElementNode e)))
  (Hsvg : Dom.className e = Dom.ClassAnimated)
  (Hid : Dom.id e <> EmptyString) :
  csvRows waveResults = Throw (TypeError "domInfo.className.replace is not a function").
Proof.
  assert (Hrow : forall c, row c ruleId rule index x = Throw replace_error).
  { intros c. unfold row, domInfo_of, elementInfo. rewrite Hinfos.
    cbn [Js.get Js.lookup_prop String.eqb Ascii.eqb Bool.eqb]. rewrite Hentry.
    unfold getElementInfo. rewrite Hnode. unfold generateSelector.
    apply String.eqb_neq in Hid. rewrite Hid. cbn [negb].
    unfold element_info. cbn [Js.lookup_prop String.eqb Ascii.eqb Bool.eqb Js.truthy_opt].
    rewrite Hsvg. reflexivity. }
  unfold csvRows.
  destruct (rows_of_category Error (error waveResults)) as [es|e1] eqn:Ee; cbn [bind].
  - destruct (rows_of_category Contrast (contrast waveResults)) as [cs|e2] eqn:Ec; cbn [bind].
    + exfalso. destruct Hreported as [Hin|Hin].
      * destruct (category_rows_pushed _ _ _ _ _ _ _ Ee Hin Hindex) as [r Hr].
        rewrite Hrow in Hr. discriminate Hr.
      * destruct (category_rows_pushed _ _ _ _ _ _ _ Ec Hin Hindex) as [r Hr].
        rewrite Hrow in Hr. discriminate Hr.
    + rewrite (category_throws _ _ _ Ec). reflexivity.
  - rewrite (category_throws _ _ _ Ee). reflexivity.
Qed.

(** X21 on the report of a page whose logo is an SVG element with an
    [id]. *)
Lemma svg_element_aborts_report_witness :
  csvRows Sample.svg_report
  = Throw (TypeError "domInfo.className.replace is not a function").
Proof.
  apply (svg_element_aborts_report Sample.svg_document Sample.svg_report
           "svg_missing_title"
           {| count := 1; xpaths := ["/html/body/svg[1]"]; selectors := None;
              description := None;
              domInfo := Some [getElementInfo Sample.svg_document (JStr "/html/body/svg[1]")];
              contrastdata := None |}
           [getElementInfo Sample.svg_document (JStr "/html/body/svg[1]")]
           0 "/html/body/svg[1]" (JStr "/html/body/svg[1]") Sample.logo).
  - left. left. reflexivity.
  - reflexivity.
  - reflexivity.
  - reflexivity.
  - reflexivity.
  - reflexivity.
  - discriminate.
Defined.

End ReportFacts.

(** ** The files of one run never overwrite each other *)

Module FileKindFacts.
Import CsvFacts.

Lemma append_cancel_l (p a b : string) : p +:+ a = p +:+ b -> a = b.
Proof.
  induction p as [|c p IH]; rewrite ?append_nil_l, ?append_cons; [auto|].
  intros [= H]. exact (IH H).
Qed.

(** Two strings free of [c] that end at a [c] are the same. *)
Lemma split_at_char (p : ascii -> bool) c : forall a b s t,
  p c = false -> all_chars p a = true -> all_chars p b = true ->
  a +:+ String c s = b +:+ String c t -> a = b /\ s = t.
Proof.
  intros a. induction a as [|x a IH]; intros [|y b] s t Hc Ha Hb;
    rewrite ?append_nil_l, ?append_cons; cbn [all_chars] in *.
  - intros [= ->]. auto.
  - intros [= <- _]. apply andb_true_iff in Hb as [Hb _]. congruence.
  - intros [= -> _]. apply andb_true_iff in Ha as [Ha _]. congruence.
  - intros [= <- H]. apply andb_true_iff in Ha as [_ Ha]. apply andb_true_iff in Hb as [_ Hb].
    destruct (IH b s t Hc Ha Hb H) as [-> ->]. auto.
Qed.

Lemma base_chars ext s :
  all_chars (fun c => is_alnum c || Ascii.eqb c dash) (truncate_base ext (sanitize s)) = true.
Proof. rewrite truncate_base_take. apply all_chars_take, sanitize_chars. Qed.

(** X22. A file name tells its extension and its base: two names made
    by [generateFilename] are equal only for equal extensions and equal
    bases.  So the error report of a URL ([error.json]) never replaces
    the JSON report or the CSV file of any URL, nor the JSON report a CSV
    file. *)
Theorem generateFilename_keeps_extension :
  (forall url1 ext1 url2 ext2,
      generateFilename url1 ext1 = generateFilename url2 ext2 ->
      ext1 = ext2 /\
      truncate_base ext1 (sanitize (strip_trailing_slash (strip_protocol url1)))
      = truncate_base ext2 (sanitize (strip_trailing_slash (strip_protocol url2)))) /\
  (forall url1 url2,
      generateFilename url1 "error.json" <> generateFilename url2 "json" /\
      generateFilename url1 "error.json" <> generateFilename url2 "csv" /\
      generateFilename url1 "json" <> generateFilename url2 "csv").
Proof.
  assert (H : forall url1 ext1 url2 ext2,
             generateFilename url1 ext1 = generateFilename url2 ext2 ->
             ext1 = ext2 /\
             truncate_base ext1 (sanitize (strip_trailing_slash (strip_protocol url1)))
             = truncate_base ext2 (sanitize (strip_trailing_slash (strip_protocol url2)))).
  { intros url1 ext1 url2 ext2. unfold generateFilename. intros E.
    apply append_cancel_l in E. rewrite !append_cons, !append_nil_l in E.
    apply (split_at_char (fun c => is_alnum c || Ascii.eqb c dash)) in E;
      [tauto | reflexivity | apply base_chars | apply base_chars]. }
  split; [exact H|].
  intros url1 url2. repeat split; intros E; apply H in E as [E _]; discriminate E.
Qed.

(** X22 on one URL and one extension. *)
Lemma generateFilename_keeps_extension_witness :
  generateFilename "https://example.com/about" "json"
  <> generateFilename "https://example.com/about" "csv".
Proof.
  destruct generateFilename_keeps_extension as [_ H].
  apply (H "https://example.com/about" "https://example.com/about").
Defined.

End FileKindFacts.
